(** * S2MATCH: a shallow embedding of [smatch/s2match.py]

    The development follows the Python module function by function.
    Conventions of the embedding:

    - Python numbers (ints and floats) that take part in scores are
      rationals [Q]; arithmetic is exact, so every equation on scores is
      stated with [==].  The floats of the code round at every
      operation: a match number that the search accumulates gain by
      gain leaves the sum of the same weights computed in another order
      by some units in the last place.  Statements that compare such
      numbers, or bound them by a value they can reach, are given to
      within [tolerance]; orders and ranges that rounding keeps are
      given as they are.
    - A Python [dict] is an association list in insertion order
      ([dict K V]); [dset] overwrites in place or appends, as Python does.
    - A Python [set] of node indices is a duplicate-free list in insertion
      order.
    - Exceptions are explicit: fallible functions return [result].
    - The module-level memo [match_triple_dict] is threaded as state.
    - [random.randint] reads from an oracle, a list of naturals.
    - Node names are [prefix ++ index]; a triple carries the index that
      [int(name[len(prefix):])] computes.
    - [verbose] is [False] throughout (the default); logging is dropped. *)

From Stdlib Require Import ZArith QArith Qminmax Qabs List String Ascii Bool Lia Lqa.
From Stdlib Require Import Permutation Sorted.
Import ListNotations.

Open Scope string_scope.
Open Scope Z_scope.
Open Scope Q_scope.

(* ------------------------------------------------------------------ *)
(** ** Exceptions *)

Inductive exn : Type :=
| AssertionError
| IndexError
| KeyError
| TypeError
| OutOfFuel. (* a [while True] loop outlived the fuel of the model *)

Inductive result (A : Type) : Type :=
| Ok (a : A)
| Raise (e : exn).

Arguments Ok {A} a.
Arguments Raise {A} e.

Definition bind {A B} (m : result A) (k : A -> result B) : result B :=
  match m with
  | Ok a => k a
  | Raise e => Raise e
  end.

Notation "'do' x <- m ; k" := (bind m (fun x => k))
  (at level 10, x pattern, m at level 100, k at level 200).

Fixpoint foldM {S A} (f : S -> A -> result S) (l : list A) (s : S) : result S :=
  match l with
  | [] => Ok s
  | a :: l' => do s' <- f s a; foldM f l' s'
  end.

(* ------------------------------------------------------------------ *)
(** ** Keys with decidable equality *)

Class EqKey (K : Type) : Type := keqb : K -> K -> bool.

#[export] Instance EqKey_Z : EqKey Z := Z.eqb.

#[export] Instance EqKey_string : EqKey string := String.eqb.

#[export] Instance EqKey_pair {A B} `{EqKey A} `{EqKey B} : EqKey (A * B) :=
  fun p q => keqb (fst p) (fst q) && keqb (snd p) (snd q).

Fixpoint list_eqb {A} `{EqKey A} (l1 l2 : list A) : bool :=
  match l1, l2 with
  | [], [] => true
  | a :: l1', b :: l2' => keqb a b && list_eqb l1' l2'
  | _, _ => false
  end.

#[export] Instance EqKey_list {A} `{EqKey A} : EqKey (list A) := list_eqb.

(* ------------------------------------------------------------------ *)
(** ** Python dictionaries *)

Definition dict (K V : Type) : Type := list (K * V).

Section Dict.
Context {K V : Type} `{EqKey K}.

Fixpoint dget (d : dict K V) (k : K) : option V :=
  match d with
  | [] => None
  | (k', v) :: d' => if keqb k k' then Some v else dget d' k
  end.

(** [k in d] *)
Definition dmem (d : dict K V) (k : K) : bool :=
  match dget d k with Some _ => true | None => false end.

(** [d[k] = v] *)
Fixpoint dset (d : dict K V) (k : K) (v : V) : dict K V :=
  match d with
  | [] => [(k, v)]
  | (k', v') :: d' => if keqb k k' then (k', v) :: d' else (k', v') :: dset d' k v
  end.

Definition dkeys (d : dict K V) : list K := map fst d.
End Dict.

(* ------------------------------------------------------------------ *)
(** ** Python sets of node indices and list indexing *)

Abbreviation pyset := (list Z) (only parsing).

Definition set_mem (x : Z) (s : pyset) : bool := existsb (Z.eqb x) s.

Definition set_add (s : pyset) (x : Z) : pyset :=
  if set_mem x s then s else (s ++ [x])%list.

Definition set_remove (s : pyset) (x : Z) : pyset :=
  filter (fun y => negb (Z.eqb x y)) s.

(** Python's index normalisation: a negative index counts from the end. *)
Definition norm_index {A} (l : list A) (k : Z) : Z :=
  if (k <? 0)%Z then (k + Z.of_nat (List.length l))%Z else k.

(** [l[k]] *)
Definition index {A} (l : list A) (k : Z) : result A :=
  let k' := norm_index l k in
  if (k' <? 0)%Z then Raise IndexError
  else match nth_error l (Z.to_nat k') with
       | Some a => Ok a
       | None => Raise IndexError
       end.

Fixpoint replace_nth {A} (l : list A) (n : nat) (a : A) : list A :=
  match l, n with
  | [], _ => []
  | _ :: l', O => a :: l'
  | x :: l', S n' => x :: replace_nth l' n' a
  end.

(** [l[k] = a] *)
Definition assign {A} (l : list A) (k : Z) (a : A) : result (list A) :=
  let k' := norm_index l k in
  if (k' <? 0)%Z then Raise IndexError
  else if (Z.to_nat k' <? List.length l)%nat then Ok (replace_nth l (Z.to_nat k') a)
  else Raise IndexError.

(** [enumerate(l)] *)
Fixpoint enumerate_from {A} (i : Z) (l : list A) : list (Z * A) :=
  match l with
  | [] => []
  | a :: l' => (i, a) :: enumerate_from (i + 1)%Z l'
  end.

Definition enumerate {A} (l : list A) : list (Z * A) := enumerate_from 0%Z l.

(** [l.pop(n)]: the list without its [n]-th element. *)
Fixpoint pop {A} (n : nat) (l : list A) : list A :=
  match l, n with
  | [], _ => []
  | _ :: l', O => l'
  | x :: l', S n' => x :: pop n' l'
  end.

(** [random.randint(0, n - 1)] for [n > 0], read from the oracle. *)
Definition randint (n : nat) (rnd : list nat) : nat * list nat :=
  (Nat.modulo (hd 0%nat rnd) n, tl rnd).

(* ------------------------------------------------------------------ *)
(** ** Strings *)

Definition lower_ascii (c : ascii) : ascii :=
  let n := nat_of_ascii c in
  if ((65 <=? n) && (n <=? 90))%nat then ascii_of_nat (n + 32) else c.

(** [s.lower()] on ASCII text. *)
Fixpoint lower (s : string) : string :=
  match s with
  | EmptyString => EmptyString
  | String c s' => String (lower_ascii c) (lower s')
  end.

(** [c in s] for a one-character needle. *)
Fixpoint contains (c : ascii) (s : string) : bool :=
  match s with
  | EmptyString => false
  | String c' s' => Ascii.eqb c c' || contains c s'
  end.

(** [s.split(sep)] for a one-character separator. *)
Fixpoint split_on (sep : ascii) (s : string) : list string :=
  match s with
  | EmptyString => [EmptyString]
  | String c s' =>
      if Ascii.eqb c sep then EmptyString :: split_on sep s'
      else match split_on sep s' with
           | [] => [String c EmptyString]
           | w :: ws => String c w :: ws
           end
  end.

(** [sep.join(ws)] *)
Fixpoint join (sep : string) (ws : list string) : string :=
  match ws with
  | [] => EmptyString
  | [w] => w
  | w :: ws' => w ++ sep ++ join sep ws'
  end.

Infix "=s" := String.eqb (at level 70, no associativity).

(** Truth value of a Python [str]-or-[None]. *)
Definition truthy (o : option string) : bool :=
  match o with
  | Some EmptyString => false
  | Some _ => true
  | None => false
  end.

(* ------------------------------------------------------------------ *)
(** ** The regular expression of [maybe_sim]

    [re.match] anchors the pattern at the start of the string only. *)

Inductive regex : Type :=
| Void
| Eps
| Chr (p : ascii -> bool)
| Cat (r s : regex)
| Alt (r s : regex)
| Star (r : regex).

Fixpoint nullable (r : regex) : bool :=
  match r with
  | Void => false
  | Eps => true
  | Chr _ => false
  | Cat r s => nullable r && nullable s
  | Alt r s => nullable r || nullable s
  | Star _ => true
  end.

Fixpoint deriv (c : ascii) (r : regex) : regex :=
  match r with
  | Void => Void
  | Eps => Void
  | Chr p => if p c then Eps else Void
  | Cat r s => if nullable r then Alt (Cat (deriv c r) s) (deriv c s)
               else Cat (deriv c r) s
  | Alt r s => Alt (deriv c r) (deriv c s)
  | Star r => Cat (deriv c r) (Star r)
  end.

(** [re.match(r, s)] is truthy: some prefix of [s] is in the language. *)
Fixpoint re_match (r : regex) (s : string) : bool :=
  nullable r ||
  match s with
  | EmptyString => false
  | String c s' => re_match (deriv c r) s'
  end.

Definition is_digit (c : ascii) : bool :=
  let n := nat_of_ascii c in ((48 <=? n) && (n <=? 57))%nat.

(** [.] : any character but a newline. *)
Definition dot (c : ascii) : bool := negb (Ascii.eqb c "010"%char).

(** [".*[0-9]+"] *)
Definition sense_pattern : regex :=
  Cat (Star (Chr dot)) (Cat (Chr is_digit) (Star (Chr is_digit))).

(* ------------------------------------------------------------------ *)
(** ** Embedding vectors and the similarity functions *)

(** A numpy array of coordinates. *)
Definition vec : Type := list Q.

(** Element-wise sum of two arrays of one shape. *)
Fixpoint vadd (a b : vec) : vec :=
  match a, b with
  | x :: a', y :: b' => (x + y) :: vadd a' b'
  | _, _ => []
  end.

Definition simfun_t : Type := vec -> vec -> Q.

Section SimilarityFunctions.
(** [scipy.spatial.distance.cosine], [euclidean], [cityblock] and
    [math.e ** x] are library functions: they stay parameters. *)
Variables cosine euclidean cityblock : vec -> vec -> Q.
Variable exp : Q -> Q.

Definition cosine_sim (a b : vec) : Q :=
  let dist := cosine a b in
  let sim := 1 - Qmin 1 dist in
  sim.

Definition euclidean_sim (a b : vec) : Q :=
  let dist := euclidean a b in
  let sim := 1 / exp dist in
  sim.

Definition cityblock_sim (a b : vec) : Q :=
  let dist := cityblock a b in
  let sim := 1 / exp dist in
  sim.

(** A Python function that falls off its end returns [None]. *)
Definition get_sim_fun (s : string) : option simfun_t :=
  if s =s "cosine" then Some cosine_sim
  else if s =s "euclidean" then Some euclidean_sim
  else if s =s "cityblock" then Some cityblock_sim
  else None.
End SimilarityFunctions.

(** Calling [simfun(a, b)]; calling [None] raises [TypeError]. *)
Definition call_simfun (simfun : option simfun_t) (a b : vec) : result Q :=
  match simfun with
  | Some f => Ok (f a b)
  | None => Raise TypeError
  end.

Definition vecs_t : Type := dict string vec.

(** The in-vocabulary vectors of a list of words, in order. *)
Fixpoint part_vecs (ws : list string) (vecs : vecs_t) : list vec :=
  match ws with
  | [] => []
  | w :: ws' =>
      match dget vecs w with
      | Some v => v :: part_vecs ws' vecs
      | None => part_vecs ws' vecs
      end
  end.

Definition maybe_get_vec (word : string) (vecs : vecs_t) (mwp : string) : option vec :=
  match dget vecs word with
  | Some v => Some v
  | None =>
      if contains "-" word then
        if mwp =s "split" then
          let ws := split_on "-" word in
          match part_vecs ws vecs with
          | [] => None
          | v :: l => Some (fold_left vadd l v)
          end
        else None
      else None
  end.

(** The sense-stripping step of [maybe_sim]: [None] when the test fails. *)
Definition wo_sense (a : string) : option string :=
  if contains "-" a && re_match sense_pattern a
  then Some (join "-" (removelast (split_on "-" a)))
  else None.

Definition str_of (o : option string) : string :=
  match o with Some s => s | None => EmptyString end.

Definition Qgtb (x y : Q) : bool := negb (Qle_bool x y).

Definition maybe_sim (a b : string) (vecs : vecs_t) (cutoff diffsense : Q)
    (simfun : option simfun_t) (mwp : string) : result Q :=
  if a =s b then Ok 1
  else
    let a_wo_sense := wo_sense a in
    let b_wo_sense := wo_sense b in
    if truthy a_wo_sense && truthy b_wo_sense
       && (str_of a_wo_sense =s str_of b_wo_sense)
    then Ok (1 * diffsense)
    else if truthy a_wo_sense && (str_of a_wo_sense =s b)
    then Ok (1 * diffsense)
    else if truthy b_wo_sense && (str_of b_wo_sense =s a)
    then Ok (1 * diffsense)
    else
      let a_vec := if truthy a_wo_sense
                   then maybe_get_vec (str_of a_wo_sense) vecs "None"
                   else maybe_get_vec a vecs mwp in
      let b_vec := if truthy b_wo_sense
                   then maybe_get_vec (str_of b_wo_sense) vecs "None"
                   else maybe_get_vec b vecs mwp in
      match a_vec, b_vec with
      | Some a_vec, Some b_vec =>
          let a_vec :=
            if contains "-" a && truthy a_wo_sense then
              match maybe_get_vec (str_of a_wo_sense ++ "s") vecs "None" with
              | Some v => vadd a_vec v
              | None => a_vec
              end
            else a_vec in
          let b_vec :=
            if contains "-" b && truthy b_wo_sense then
              match maybe_get_vec (str_of b_wo_sense ++ "s") vecs "None" with
              | Some v => vadd b_vec v
              | None => b_vec
              end
            else b_vec in
          do sim <- call_simfun simfun a_vec b_vec;
          if Qeq_bool sim 0 then Ok 0
          else if Qgtb sim cutoff then
            if truthy a_wo_sense || truthy b_wo_sense
            then Ok (sim * diffsense)
            else Ok sim
          else Ok 0
      | _, _ => Ok 0
      end.

Definition sim_dict_t : Type := dict string Q.

(** The [mwp] argument is received and not passed on: the call to
    [maybe_sim] is written with the literal ["split"]. *)
Definition maybe_has_sim (a b : string) (sim_dict : sim_dict_t) (vecs : vecs_t)
    (cutoff diffsense : Q) (simfun : option simfun_t) (mwp : string)
    : result (Q * sim_dict_t) :=
  match dget sim_dict (a ++ "_" ++ b) with
  | Some s => Ok (s, sim_dict)
  | None =>
      match dget sim_dict (b ++ "_" ++ a) with
      | Some s => Ok (s, sim_dict)
      | None =>
          do s <- maybe_sim a b vecs cutoff diffsense simfun "split";
          let sim_dict := dset sim_dict (a ++ "_" ++ b) s in
          let sim_dict := dset sim_dict (b ++ "_" ++ a) s in
          Ok (s, sim_dict)
      end
  end.

(* ------------------------------------------------------------------ *)
(** ** Triples and the weight dictionary *)

(** An instance triple [("instance", node, concept)] or an attribute
    triple [(name, node, value)]. *)
Record triple : Type := Triple {
  t_rel : string;
  t_node : nat;
  t_value : string
}.

(** A relation triple [(name, node1, node2)]. *)
Record rtriple : Type := RTriple {
  r_rel : string;
  r_src : nat;
  r_dst : nat
}.

Abbreviation node_pair := (Z * Z)%type (only parsing).

(** Keys of an inner dictionary: [-1] or a node pair. *)
Inductive wkey : Type :=
| KSelf
| KPair (p : node_pair).

#[export] Instance EqKey_wkey : EqKey wkey :=
  fun a b =>
    match a, b with
    | KSelf, KSelf => true
    | KPair p, KPair q => keqb p q
    | _, _ => false
    end.

Definition inner_t : Type := dict wkey Q.
Definition weight_dict_t : Type := dict node_pair inner_t.

(** [candidate_mapping[i].add(j)] *)
Definition cand_add (C : list pyset) (i j : Z) : result (list pyset) :=
  do s <- index C i;
  assign C i (set_add s j).

(** [if p in W: W[p][-1] += x  else: W[p] = {}; W[p][-1] = x] *)
Definition add_self (W : weight_dict_t) (p : node_pair) (x : Q) : result weight_dict_t :=
  match dget W p with
  | Some inner =>
      match dget inner KSelf with
      | Some v => Ok (dset W p (dset inner KSelf (v + x)))
      | None => Raise KeyError
      end
  | None => Ok (dset W p (dset [] KSelf x))
  end.

(** One of the two symmetric updates of the relation phase. *)
Definition add_rel (W : weight_dict_t) (p1 p2 : node_pair) : weight_dict_t :=
  match dget W p1 with
  | Some inner =>
      match dget inner (KPair p2) with
      | Some v => dset W p1 (dset inner (KPair p2) (v + 1))
      | None => dset W p1 (dset inner (KPair p2) 1)
      end
  | None => dset W p1 (dset (dset [] KSelf 0) (KPair p2) 1)
  end.

Definition pool_state : Type := (list pyset * weight_dict_t * sim_dict_t)%type.

Section ComputePool.
Variable vectors : vecs_t.
Variables cutoff diffsense : Q.
Variable simfun : option simfun_t.
Variable mwp : string.
Variable weighting_scheme : string.

Definition instance_body (t1 : triple) (st : pool_state) (t2 : triple)
    : result pool_state :=
  let '(C, W, sim_dict) := st in
  if lower (t_rel t1) =s lower (t_rel t2) then
    let value_1 := lower (t_value t1) in
    let value_2 := lower (t_value t2) in
    do (similarity, sim_dict) <-
      maybe_has_sim value_1 value_2 sim_dict vectors cutoff diffsense simfun mwp;
    let similarity :=
      if weighting_scheme =s "concept" then similarity * 3
      else if weighting_scheme =s "structure" then similarity * (3333 # 10000)
      else similarity in
    let node1_index := Z.of_nat (t_node t1) in
    let node2_index := Z.of_nat (t_node t2) in
    do C <- cand_add C node1_index node2_index;
    do W <- add_self W (node1_index, node2_index) similarity;
    Ok (C, W, sim_dict)
  else Ok st.

Definition instance_loop (instance2 : list triple) (st : pool_state) (t1 : triple)
    : result pool_state :=
  let '(C, W, sim_dict) := st in
  foldM (instance_body t1) instance2 ((C ++ [[]])%list, W, sim_dict).

Definition attribute_body (a1 : triple) (st : pool_state) (a2 : triple)
    : result pool_state :=
  let '(C, W, sim_dict) := st in
  if (lower (t_rel a1) =s lower (t_rel a2))
     && (lower (t_value a1) =s lower (t_value a2)) then
    let node1_index := Z.of_nat (t_node a1) in
    let node2_index := Z.of_nat (t_node a2) in
    do C <- cand_add C node1_index node2_index;
    do W <- add_self W (node1_index, node2_index) 1;
    Ok (C, W, sim_dict)
  else if (lower (t_rel a1) =s lower (t_rel a2))
          && (lower (t_rel a2) =s "top") then
    let value_1 := lower (t_value a1) in
    let value_2 := lower (t_value a2) in
    do (similarity, sim_dict) <-
      maybe_has_sim value_1 value_2 sim_dict vectors cutoff diffsense simfun mwp;
    let node1_index := Z.of_nat (t_node a1) in
    let node2_index := Z.of_nat (t_node a2) in
    do C <- cand_add C node1_index node2_index;
    do W <- add_self W (node1_index, node2_index) similarity;
    Ok (C, W, sim_dict)
  else Ok st.

Definition attribute_loop (attribute2 : list triple) (st : pool_state) (a1 : triple)
    : result pool_state :=
  foldM (attribute_body a1) attribute2 st.

Definition relation_body (r1 : rtriple) (st : pool_state) (r2 : rtriple)
    : result pool_state :=
  let '(C, W, sim_dict) := st in
  if lower (r_rel r1) =s lower (r_rel r2) then
    let node1_index_amr1 := Z.of_nat (r_src r1) in
    let node1_index_amr2 := Z.of_nat (r_src r2) in
    let node2_index_amr1 := Z.of_nat (r_dst r1) in
    let node2_index_amr2 := Z.of_nat (r_dst r2) in
    do C <- cand_add C node1_index_amr1 node1_index_amr2;
    do C <- cand_add C node2_index_amr1 node2_index_amr2;
    let node_pair1 := (node1_index_amr1, node1_index_amr2) in
    let node_pair2 := (node2_index_amr1, node2_index_amr2) in
    if negb (keqb node_pair2 node_pair1) then
      let '(node_pair1, node_pair2) :=
        if (node1_index_amr1 >? node2_index_amr1)%Z
        then ((node2_index_amr1, node2_index_amr2),
              (node1_index_amr1, node1_index_amr2))
        else (node_pair1, node_pair2) in
      let W := add_rel W node_pair1 node_pair2 in
      let W := add_rel W node_pair2 node_pair1 in
      Ok (C, W, sim_dict)
    else
      do W <- add_self W node_pair1 1;
      Ok (C, W, sim_dict)
  else Ok st.

Definition relation_loop (relation2 : list rtriple) (st : pool_state) (r1 : rtriple)
    : result pool_state :=
  foldM (relation_body r1) relation2 st.

Definition weighting_ok : bool :=
  (weighting_scheme =s "concept") || (weighting_scheme =s "structure")
  || (weighting_scheme =s "standard").

Definition compute_pool (instance1 attribute1 : list triple) (relation1 : list rtriple)
    (instance2 attribute2 : list triple) (relation2 : list rtriple)
    : result (list pyset * weight_dict_t) :=
  if negb weighting_ok then Raise AssertionError
  else
    do st <- foldM (instance_loop instance2) instance1 ([], [], []);
    do st <- foldM (attribute_loop attribute2) attribute1 st;
    do st <- foldM (relation_loop relation2) relation1 st;
    let '(candidate_mapping, weight_dict, _) := st in
    Ok (candidate_mapping, weight_dict).
End ComputePool.

(* ------------------------------------------------------------------ *)
(** ** Initial mappings *)

(** [matched_dict]: the nodes of AMR 2 already used, each mapped to [1]. *)
Definition matched_t : Type := dict Z Z.

(** The inner [for node_index in candidates] loop of
    [smart_init_mapping]: the first unused candidate with the concept
    [value1], if the loop breaks on one. *)
Fixpoint first_concept_match (value1 : string) (instance2 : list triple)
    (matched_dict : matched_t) (candidates : list Z) : result (option Z) :=
  match candidates with
  | [] => Ok None
  | node_index :: rest =>
      do t2 <- index instance2 node_index;
      let value2 := t_value t2 in
      if (value1 =s value2) && negb (dmem matched_dict node_index)
      then Ok (Some node_index)
      else first_concept_match value1 instance2 matched_dict rest
  end.

(** The [while len(candidates) > 0] loop shared by both initialisers;
    every iteration either breaks or pops one candidate, so
    [fuel = len(candidates)] iterations are enough. *)
Fixpoint random_pick (fuel : nat) (candidates : list Z) (matched_dict : matched_t)
    (rnd : list nat) : option Z * list nat :=
  match fuel with
  | O => (None, rnd)
  | S fuel' =>
      match candidates with
      | [] => (None, rnd)
      | _ :: _ =>
          let '(rid, rnd) := randint (List.length candidates) rnd in
          let c := nth rid candidates (-1)%Z in
          if dmem matched_dict c
          then random_pick fuel' (pop rid candidates) matched_dict rnd
          else (Some c, rnd)
      end
  end.

Definition smart_state : Type := (list Z * matched_t * list Z)%type.

Definition smart_first_pass (instance1 instance2 : list triple)
    (st : smart_state) (ic : Z * pyset) : result smart_state :=
  let '(result, matched_dict, no_word_match) := st in
  let '(i, candidates) := ic in
  match candidates with
  | [] => Ok ((result ++ [(-1)%Z])%list, matched_dict, no_word_match)
  | _ :: _ =>
      do t1 <- index instance1 i;
      let value1 := t_value t1 in
      do found <- first_concept_match value1 instance2 matched_dict candidates;
      match found with
      | Some node_index =>
          Ok ((result ++ [node_index])%list, dset matched_dict node_index 1%Z,
              no_word_match)
      | None =>
          Ok ((result ++ [(-1)%Z])%list, matched_dict, (no_word_match ++ [i])%list)
      end
  end.

Definition smart_second_pass (candidate_mapping : list pyset)
    (st : list Z * matched_t * list nat) (i : Z)
    : result (list Z * matched_t * list nat) :=
  let '(result, matched_dict, rnd) := st in
  do candidates <- index candidate_mapping i;
  match random_pick (List.length candidates) candidates matched_dict rnd with
  | (Some c, rnd) =>
      do result <- assign result i c;
      Ok (result, dset matched_dict c 1%Z, rnd)
  | (None, rnd) => Ok (result, matched_dict, rnd)
  end.

Definition smart_init_mapping (candidate_mapping : list pyset)
    (instance1 instance2 : list triple) (rnd : list nat)
    : result (list Z * list nat) :=
  do st <- foldM (smart_first_pass instance1 instance2)
                 (enumerate candidate_mapping) ([], [], []);
  let '(result, matched_dict, no_word_match) := st in
  do st <- foldM (smart_second_pass candidate_mapping) no_word_match
                 (result, matched_dict, rnd);
  let '(result, _, rnd) := st in
  Ok (result, rnd).

Definition random_init_body (st : list Z * matched_t * list nat) (c : pyset)
    : list Z * matched_t * list nat :=
  let '(result, matched_dict, rnd) := st in
  let candidates := c in
  match candidates with
  | [] => ((result ++ [(-1)%Z])%list, matched_dict, rnd)
  | _ :: _ =>
      match random_pick (List.length candidates) candidates matched_dict rnd with
      | (Some x, rnd) => ((result ++ [x])%list, dset matched_dict x 1%Z, rnd)
      | (None, rnd) => ((result ++ [(-1)%Z])%list, matched_dict, rnd)
      end
  end.

Definition random_init_mapping (candidate_mapping : list pyset) (rnd : list nat)
    : list Z * list nat :=
  let '(result, _, rnd) := fold_left random_init_body candidate_mapping ([], [], rnd) in
  (result, rnd).

(* ------------------------------------------------------------------ *)
(** ** Match evaluator and neighbour gains *)

(** [match_triple_dict], keyed by [tuple(mapping)]. *)
Definition memo_t : Type := dict (list Z) Q.

(** Body of [for key in weight_dict[current_node_pair]] in
    [compute_match]; [w] is [weight_dict[current_node_pair][key]]. *)
Definition match_key (mapping : list Z) (i : Z) (match_num : Q) (kw : wkey * Q)
    : result Q :=
  let '(key, w) := kw in
  match key with
  | KSelf => Ok (match_num + w)
  | KPair (k0, k1) =>
      if (k0 <? i)%Z then Ok match_num
      else
        do m <- index mapping k0;
        if (m =? k1)%Z then Ok (match_num + w) else Ok match_num
  end.

Definition match_node (mapping : list Z) (weight_dict : weight_dict_t)
    (match_num : Q) (im : Z * Z) : result Q :=
  let '(i, m) := im in
  if (m =? -1)%Z then Ok match_num
  else
    let current_node_pair := (i, m) in
    match dget weight_dict current_node_pair with
    | None => Ok match_num
    | Some inner => foldM (match_key mapping i) inner match_num
    end.

Definition compute_match (mapping : list Z) (weight_dict : weight_dict_t)
    (match_triple_dict : memo_t) : result (Q * memo_t) :=
  match dget match_triple_dict mapping with
  | Some saved => Ok (saved, match_triple_dict)
  | None =>
      do match_num <- foldM (match_node mapping weight_dict) (enumerate mapping) 0;
      Ok (match_num, dset match_triple_dict mapping match_num)
  end.

(** Body of the four kinds of [for key in weight_dict[p]] loops of
    [move_gain] and [swap_gain]: [add] tells [gain += w] from
    [gain -= w]; [skip] is the index of the [elif key[0] == node_id1:
    continue] branch, present in two loops of [swap_gain]. *)
Definition gain_key (add : bool) (mapping : list Z) (skip : option Z)
    (gain : Q) (kw : wkey * Q) : result Q :=
  let '(key, w) := kw in
  let updated := if add then gain + w else gain - w in
  match key with
  | KSelf => Ok updated
  | KPair (k0, k1) =>
      if match skip with Some n => (k0 =? n)%Z | None => false end
      then Ok gain
      else
        do m <- index mapping k0;
        if (m =? k1)%Z then Ok updated else Ok gain
  end.

(** [if p in weight_dict: for key in weight_dict[p]: ...] *)
Definition gain_scan (add : bool) (mapping : list Z) (skip : option Z)
    (weight_dict : weight_dict_t) (p : node_pair) (gain : Q) : result Q :=
  match dget weight_dict p with
  | Some inner => foldM (gain_key add mapping skip) inner gain
  | None => Ok gain
  end.

Definition move_gain (mapping : list Z) (node_id old_id new_id : Z)
    (weight_dict : weight_dict_t) (match_num : Q) (match_triple_dict : memo_t)
    : result (Q * memo_t) :=
  let new_mapping := (node_id, new_id) in
  let old_mapping := (node_id, old_id) in
  do new_mapping_list <- assign mapping node_id new_id;
  match dget match_triple_dict new_mapping_list with
  | Some saved => Ok (saved - match_num, match_triple_dict)
  | None =>
      let gain := 0 in
      do gain <- gain_scan true new_mapping_list None weight_dict new_mapping gain;
      do gain <- gain_scan false mapping None weight_dict old_mapping gain;
      Ok (gain, dset match_triple_dict new_mapping_list (match_num + gain))
  end.

Definition swap_gain (mapping : list Z) (node_id1 mapping_id1 node_id2 mapping_id2 : Z)
    (weight_dict : weight_dict_t) (match_num : Q) (match_triple_dict : memo_t)
    : result (Q * memo_t) :=
  do new_mapping_list <- assign mapping node_id1 mapping_id2;
  do new_mapping_list <- assign new_mapping_list node_id2 mapping_id1;
  match dget match_triple_dict new_mapping_list with
  | Some saved => Ok (saved - match_num, match_triple_dict)
  | None =>
      let gain := 0 in
      let '(new_mapping1, new_mapping2, old_mapping1, old_mapping2) :=
        if (node_id1 >? node_id2)%Z
        then ((node_id2, mapping_id1), (node_id1, mapping_id2),
              (node_id2, mapping_id2), (node_id1, mapping_id1))
        else ((node_id1, mapping_id2), (node_id2, mapping_id1),
              (node_id1, mapping_id1), (node_id2, mapping_id2)) in
      do gain <- gain_scan true new_mapping_list None weight_dict new_mapping1 gain;
      do gain <- gain_scan true new_mapping_list (Some node_id1) weight_dict
                           new_mapping2 gain;
      do gain <- gain_scan false mapping None weight_dict old_mapping1 gain;
      do gain <- gain_scan false mapping (Some node_id1) weight_dict
                           old_mapping2 gain;
      Ok (gain, dset match_triple_dict new_mapping_list (match_num + gain))
  end.

(* ------------------------------------------------------------------ *)
(** ** Hill climbing *)

(** The local variables [largest_gain], [use_swap], [node1], [node2] of
    [get_best_gain]. *)
Record best_t : Type := Best {
  largest_gain : Q;
  use_swap : bool;
  node1 : option Z;
  node2 : option Z
}.

(** [range(a, a + n)] *)
Fixpoint zrange (a : Z) (n : nat) : list Z :=
  match n with
  | O => []
  | S n' => a :: zrange (a + 1)%Z n'
  end.

Section GetBestGain.
Variable mapping : list Z.
Variable candidate_mappings : list pyset.
Variable weight_dict : weight_dict_t.
Variable instance_len : nat.
Variable cur_match_num : Q.

Definition unmatched_nodes : pyset :=
  fold_left (fun unmatched nid =>
               if set_mem nid unmatched then set_remove unmatched nid
               else unmatched)
            mapping (zrange 0%Z instance_len).

Definition move_body (i nid : Z) (st : best_t * memo_t) (nm : Z)
    : result (best_t * memo_t) :=
  let '(b, memo) := st in
  do cands <- index candidate_mappings i;
  if set_mem nm cands then
    do (mv_gain, memo) <- move_gain mapping i nid nm weight_dict cur_match_num memo;
    if Qgtb mv_gain (largest_gain b)
    then Ok (Best mv_gain false (Some i) (Some nm), memo)
    else Ok (b, memo)
  else Ok (b, memo).

Definition move_loop (unmatched : pyset) (st : best_t * memo_t) (inid : Z * Z)
    : result (best_t * memo_t) :=
  let '(i, nid) := inid in
  foldM (move_body i nid) unmatched st.

Definition swap_body (i m : Z) (st : best_t * memo_t) (j : Z)
    : result (best_t * memo_t) :=
  let '(b, memo) := st in
  do m2 <- index mapping j;
  do (sw_gain, memo) <- swap_gain mapping i m j m2 weight_dict cur_match_num memo;
  if Qgtb sw_gain (largest_gain b)
  then Ok (Best sw_gain true (Some i) (Some j), memo)
  else Ok (b, memo).

Definition swap_loop (st : best_t * memo_t) (im : Z * Z)
    : result (best_t * memo_t) :=
  let '(i, m) := im in
  foldM (swap_body i m)
        (zrange (i + 1)%Z (List.length mapping - Z.to_nat (i + 1)))
        st.

Definition apply_best (b : best_t) : result (list Z) :=
  let cur_mapping := mapping in
  match node1 b, node2 b with
  | Some n1, Some n2 =>
      if use_swap b then
        do temp <- index cur_mapping n1;
        do other <- index cur_mapping n2;
        do cur_mapping <- assign cur_mapping n1 other;
        assign cur_mapping n2 temp
      else assign cur_mapping n1 n2
  | _, _ => Ok cur_mapping
  end.

Definition get_best_gain (memo : memo_t) : result (Q * list Z * memo_t) :=
  let unmatched := unmatched_nodes in
  do st <- foldM (move_loop unmatched) (enumerate mapping)
                 (Best 0 true None None, memo);
  do st <- foldM swap_loop (enumerate mapping) st;
  let '(b, memo) := st in
  do cur_mapping <- apply_best b;
  Ok (largest_gain b, cur_mapping, memo).
End GetBestGain.

(** The threshold [0.0000000001] of the hill-climbing loop. *)
Definition epsilon : Q := 1 # 10000000000.

Definition climb_state : Type := (list Z * Q * memo_t)%type.

(** One iteration of the [while True] loop of [get_best_match]:
    [inl] when it breaks, [inr] when it goes round again.  The sum
    [match_num + gain] is exact here and a rounded float sum in the
    code. *)
Definition climb_body (candidate_mappings : list pyset) (weight_dict : weight_dict_t)
    (instance_len : nat) (st : climb_state) : result (climb_state + climb_state) :=
  let '(cur_mapping, match_num, memo) := st in
  do (gain, new_mapping, memo) <-
    get_best_gain cur_mapping candidate_mappings weight_dict instance_len match_num memo;
  if Qle_bool gain epsilon then Ok (inl (cur_mapping, match_num, memo))
  else Ok (inr (new_mapping, match_num + gain, memo)).

Fixpoint hill_climb (fuel : nat) (candidate_mappings : list pyset)
    (weight_dict : weight_dict_t) (instance_len : nat) (st : climb_state)
    : result climb_state :=
  match fuel with
  | O => Raise OutOfFuel
  | S fuel' =>
      do next <- climb_body candidate_mappings weight_dict instance_len st;
      match next with
      | inl final => Ok final
      | inr st' => hill_climb fuel' candidate_mappings weight_dict instance_len st'
      end
  end.

(** The state carried across restarts: [best_mapping], [best_match_num],
    the memo and the oracle. *)
Definition search_state : Type := (list Z * Q * memo_t * list nat)%type.

Section GetBestMatch.
Variable fuel : nat.
Variable iteration_num : nat.
Variables instance1 attribute1 : list triple.
Variable relation1 : list rtriple.
Variables instance2 attribute2 : list triple.
Variable relation2 : list rtriple.
Variable vectors : vecs_t.
Variables cutoff diffsense : Q.
Variable simfun : option simfun_t.
Variable mwp : string.
Variable weighting_scheme : string.

Definition restart (candidate_mappings : list pyset) (weight_dict : weight_dict_t)
    (st : search_state) (i : nat) : result search_state :=
  let '(best_mapping, best_match_num, memo, rnd) := st in
  do (cur_mapping, rnd) <-
    (if (i =? 0)%nat
     then smart_init_mapping candidate_mappings instance1 instance2 rnd
     else Ok (random_init_mapping candidate_mappings rnd));
  do (match_num, memo) <- compute_match cur_mapping weight_dict memo;
  do final <- hill_climb fuel candidate_mappings weight_dict
                         (List.length instance2) (cur_mapping, match_num, memo);
  let '(cur_mapping, match_num, memo) := final in
  if Qgtb match_num best_match_num
  then Ok (cur_mapping, match_num, memo, rnd)
  else Ok (best_mapping, best_match_num, memo, rnd).

Definition get_best_match (memo : memo_t) (rnd : list nat)
    : result (list Z * Q * memo_t * list nat) :=
  if negb (weighting_ok weighting_scheme) then Raise AssertionError
  else
    do (candidate_mappings, weight_dict) <-
      compute_pool vectors cutoff diffsense simfun mwp weighting_scheme
                   instance1 attribute1 relation1 instance2 attribute2 relation2;
    let best_match_num := 0 in
    let best_mapping := repeat (-1)%Z (List.length instance1) in
    foldM (restart candidate_mappings weight_dict) (seq 0 iteration_num)
          (best_mapping, best_match_num, memo, rnd).
End GetBestMatch.

(* ------------------------------------------------------------------ *)
(** ** Scoring *)

Definition compute_f (match_num : Q) (test_num gold_num : Z) : Q * Q * Q :=
  if (test_num =? 0)%Z || (gold_num =? 0)%Z then (0, 0, 0)
  else
    let precision := (0 + match_num) / (inject_Z test_num + 0) in
    let recall := (0 + match_num) / (inject_Z gold_num + 0) in
    if negb (Qeq_bool (precision + recall) 0)
    then (precision, recall, 2 * precision * recall / (precision + recall))
    else (precision, recall, 0).

(** A graph as [get_triples] returns it. *)
Record graph : Type := Graph {
  instances : list triple;
  attributes : list triple;
  relations : list rtriple
}.

Definition triple_num (g : graph) : Z :=
  Z.of_nat (List.length (instances g) + List.length (attributes g)
            + List.length (relations g)).

(** The work of [main] on one pair of parsed and renamed graphs, with a
    freshly cleared memo: the best match number and the scores that
    [compute_f] derives from it. *)
Definition score_pair (fuel iteration_num : nat) (g1 g2 : graph) (vectors : vecs_t)
    (cutoff diffsense : Q) (simfun : option simfun_t) (mwp weighting_scheme : string)
    (rnd : list nat) : result (Q * (Q * Q * Q)) :=
  do (_, best_match_num_soft, _, _) <-
    get_best_match fuel iteration_num
      (instances g1) (attributes g1) (relations g1)
      (instances g2) (attributes g2) (relations g2)
      vectors cutoff diffsense simfun mwp weighting_scheme [] rnd;
  let test_triple_num := triple_num g1 in
  let gold_triple_num := triple_num g2 in
  Ok (best_match_num_soft,
      compute_f best_match_num_soft test_triple_num gold_triple_num).

(* ------------------------------------------------------------------ *)
(** ** Reading the AMR files

    The file object is the list of the lines it has not handed out
    yet. *)

(** [c.isspace()] on ASCII text. *)
Definition is_space (c : ascii) : bool :=
  let n := nat_of_ascii c in
  (((9 <=? n) && (n <=? 13)) || ((28 <=? n) && (n <=? 32)))%nat.

Fixpoint lstrip (s : string) : string :=
  match s with
  | EmptyString => EmptyString
  | String c s' => if is_space c then lstrip s' else s
  end.

Fixpoint rstrip (s : string) : string :=
  match s with
  | EmptyString => EmptyString
  | String c s' =>
      match rstrip s' with
      | EmptyString => if is_space c then EmptyString else String c EmptyString
      | t => String c t
      end
  end.

(** [s.strip()] *)
Definition strip (s : string) : string := rstrip (lstrip s).

(** [s.startswith(p)] *)
Fixpoint startswith (s p : string) {struct p} : bool :=
  match p, s with
  | EmptyString, _ => true
  | String c p', String d s' => Ascii.eqb c d && startswith s' p'
  | String _ _, EmptyString => false
  end.

(** The [for line in input_f] loop of [get_amr_line]: [cur_amr] at its
    end and the lines left in the file. *)
Fixpoint amr_lines (input_f : list string) (cur_amr : list string) (has_content : bool)
    : list string * list string :=
  match input_f with
  | [] => (cur_amr, [])
  | line :: input_f' =>
      let line := strip line in
      if line =s EmptyString then
        if negb has_content then amr_lines input_f' cur_amr has_content
        else (cur_amr, input_f')
      else if startswith (strip line) "#" then amr_lines input_f' cur_amr has_content
      else amr_lines input_f' (cur_amr ++ [strip line])%list true
  end.

Definition get_amr_line (input_f : list string) : string * list string :=
  let '(cur_amr, input_f) := amr_lines input_f [] false in
  (join EmptyString cur_amr, input_f).

(* ------------------------------------------------------------------ *)
(** ** Scoring a corpus

    The loop of [compute_s2match_from_two_lists] over the pairs of
    graphs, from the triples on: building the [amr.AMR] objects,
    [rename_node] and [get_triples] belong to the module [amr_py3], and
    a graph here is what [get_triples] hands over.  [iteration_num] is
    set to [5], the weighting scheme is the default of
    [get_best_match], and [match_triple_dict] is cleared after every
    pair. *)

Definition corpus_state : Type := (Q * Z * Z * list nat)%type.

Definition corpus_body (fuel : nat) (vectors : vecs_t) (cutoff diffsense : Q)
    (simfun : option simfun_t) (mwp : string) (st : corpus_state)
    (l1l2 : graph * graph) : result corpus_state :=
  let '(total_match_num_soft, total_test_num, total_gold_num, rnd) := st in
  let '(amr1, amr2) := l1l2 in
  let iteration_num := 5%nat in
  do (_, best_match_num_soft, _, rnd) <-
    get_best_match fuel iteration_num
      (instances amr1) (attributes amr1) (relations amr1)
      (instances amr2) (attributes amr2) (relations amr2)
      vectors cutoff diffsense simfun mwp "standard" [] rnd;
  let test_triple_num := triple_num amr1 in
  let gold_triple_num := triple_num amr2 in
  Ok (total_match_num_soft + best_match_num_soft,
      (total_test_num + test_triple_num)%Z,
      (total_gold_num + gold_triple_num)%Z, rnd).

Definition corpus_score (fuel : nat) (list1 list2 : list graph) (vectors : vecs_t)
    (simfun : option simfun_t) (cutoff diffsense : Q) (mwp : string) (rnd : list nat)
    : result (Q * Q * Q) :=
  do st <- foldM (corpus_body fuel vectors cutoff diffsense simfun mwp)
                 (combine list1 list2) (0, 0%Z, 0%Z, rnd);
  let '(total_match_num_soft, total_test_num, total_gold_num, _) := st in
  Ok (compute_f total_match_num_soft total_test_num total_gold_num).

(* ------------------------------------------------------------------ *)
(** ** Building a graph from a list of relations

    [parse_relations], the helper inside
    [compute_s2match_from_two_lists]: a relation is [(name, source,
    target)] and [v2c] maps variables to concepts; names, variables and
    concepts are strings, on which [str] is the identity.  The result
    is the four lists that the function hands to [amr.AMR]. *)

Definition rel3 : Type := (string * string * string)%type.

(** [x in l] for a list of strings. *)
Definition in_list (x : string) (l : list string) : bool := existsb (String.eqb x) l.

(** [v2c[x]] *)
Definition lookup (v2c : dict string string) (x : string) : result string :=
  match dget v2c x with
  | Some c => Ok c
  | None => Raise KeyError
  end.

(** Body of the first loop: the source, then the target, joins the
    variables when it is new and has a concept. *)
Definition parse_vars_body (v2c : dict string string)
    (st : list string * list string) (r : rel3)
    : result (list string * list string) :=
  let '(var_list, conc_list) := st in
  let '(r0, r1, r2) := r in
  do (var_list, conc_list) <-
    (if negb (in_list r1 var_list) && negb (r1 =s "TOP") && dmem v2c r1
     then do c <- lookup v2c r1;
          Ok ((var_list ++ [r1])%list, (conc_list ++ [c])%list)
     else Ok (var_list, conc_list));
  if negb (in_list r2 var_list) && dmem v2c r2
  then do c <- lookup v2c r2;
       Ok ((var_list ++ [r2])%list, (conc_list ++ [c])%list)
  else Ok (var_list, conc_list).

(** Body of the inner loop of the second phase, on [rel_dict[k]] and
    [att_dict[k]], the dictionaries appended for the variable [v]. *)
Definition parse_row_body (v2c : dict string string) (v : string)
    (st : dict string string * dict string string) (i : rel3)
    : result (dict string string * dict string string) :=
  let '(rel_d, att_d) := st in
  let '(i0, i1, i2) := i in
  if (i1 =s v) && dmem v2c i2
  then do c <- lookup v2c i2;
       Ok (dset rel_d i2 i0, dset att_d i0 c)
  else Ok (rel_d, att_d).

Definition parse_rows_body (v2c : dict string string) (rels : list rel3)
    (st : list (dict string string) * list (dict string string)) (v : string)
    : result (list (dict string string) * list (dict string string)) :=
  let '(rel_dict, att_dict) := st in
  do row <- foldM (parse_row_body v2c v) rels ([], []);
  Ok ((rel_dict ++ [fst row])%list, (att_dict ++ [snd row])%list).

Definition parse_relations (rels : list rel3) (v2c : dict string string)
    : result (list string * list string
              * list (dict string string) * list (dict string string)) :=
  do vc <- foldM (parse_vars_body v2c) rels ([], []);
  let '(var_list, conc_list) := vc in
  do rows <- foldM (parse_rows_body v2c rels) var_list ([], []);
  let '(rel_dict, att_dict) := rows in
  Ok (var_list, conc_list, rel_dict, att_dict).

(* ================================================================== *)
(** * Properties *)

(* ------------------------------------------------------------------ *)
(** ** Keys and dictionaries *)

Class EqKeyOk (K : Type) `{EqKey K} : Prop :=
  keqb_iff : forall a b : K, keqb a b = true <-> a = b.

Lemma keqb_spec {K} `{EqKeyOk K} (a b : K) : reflect (a = b) (keqb a b).
Proof. apply iff_reflect. symmetry. apply keqb_iff. Qed.

#[export] Instance EqKeyOk_Z : EqKeyOk Z := Z.eqb_eq.

#[export] Instance EqKeyOk_string : EqKeyOk string := String.eqb_eq.

#[export] Instance EqKeyOk_pair {A B} `{EqKeyOk A} `{EqKeyOk B} : EqKeyOk (A * B).
Proof.
  intros [a1 b1] [a2 b2]. unfold keqb at 1, EqKey_pair; simpl.
  rewrite andb_true_iff, !keqb_iff. split; [intros [-> ->]|intros [= -> ->]]; auto.
Qed.

#[export] Instance EqKeyOk_list {A} `{EqKeyOk A} : EqKeyOk (list A).
Proof.
  intros l1. unfold keqb, EqKey_list.
  induction l1 as [|a l1 IH]; intros [|b l2]; simpl; try (split; congruence).
  rewrite andb_true_iff, IH, keqb_iff.
  split; [intros [-> ->]|intros [= -> ->]]; auto.
Qed.

#[export] Instance EqKeyOk_wkey : EqKeyOk wkey.
Proof.
  intros [|p] [|q]; unfold keqb at 1, EqKey_wkey; try (split; congruence).
  rewrite keqb_iff. split; congruence.
Qed.

Lemma keqb_refl {K} `{EqKeyOk K} (k : K) : keqb k k = true.
Proof. destruct (keqb_spec k k); congruence. Qed.

Lemma keqb_neq {K} `{EqKeyOk K} (a b : K) : a <> b -> keqb a b = false.
Proof. intros. destruct (keqb_spec a b); congruence. Qed.

Lemma keqb_eq {K} `{EqKeyOk K} (a b : K) : keqb a b = true -> a = b.
Proof. intros. destruct (keqb_spec a b); congruence. Qed.

Section DictFacts.
Context {K V : Type} `{EqKeyOk K}.
Implicit Types (d : dict K V) (k : K) (v : V).

Lemma dget_dset_same d k v : dget (dset d k v) k = Some v.
Proof.
  induction d as [|[k' v'] d IH]; simpl.
  - now rewrite keqb_refl.
  - destruct (keqb k k') eqn:E; simpl; rewrite E; auto.
Qed.

Lemma dget_dset_other d k k' v : k' <> k -> dget (dset d k v) k' = dget d k'.
Proof.
  intros Hne. induction d as [|[k0 v0] d IH]; simpl.
  - now rewrite keqb_neq.
  - destruct (keqb k k0) eqn:E; simpl.
    + apply keqb_eq in E; subst k0. now rewrite !keqb_neq.
    + now rewrite IH.
Qed.

Lemma dget_dset d k k' v :
  dget (dset d k v) k' = if keqb k' k then Some v else dget d k'.
Proof.
  destruct (keqb_spec k' k) as [->|Hne].
  - apply dget_dset_same.
  - now apply dget_dset_other.
Qed.

Lemma dkeys_dset_in d k v k' :
  In k' (dkeys (dset d k v)) <-> k' = k \/ In k' (dkeys d).
Proof.
  unfold dkeys. induction d as [|[k0 v0] d IH]; simpl.
  - intuition.
  - destruct (keqb_spec k k0) as [->|Hne]; simpl.
    + intuition.
    + rewrite IH. intuition.
Qed.

Lemma dkeys_dset_NoDup d k v : NoDup (dkeys d) -> NoDup (dkeys (dset d k v)).
Proof.
  unfold dkeys. induction d as [|[k0 v0] d IH]; simpl; intros Hnd.
  - constructor; [intros []|constructor].
  - inversion Hnd as [|? ? Hni Hnd']; subst.
    destruct (keqb_spec k k0) as [->|Hne]; simpl.
    + now constructor.
    + constructor; [|now apply IH].
      intros Hin. apply (dkeys_dset_in d k v k0) in Hin. intuition.
Qed.

Lemma dget_In d k v : dget d k = Some v -> In (k, v) d.
Proof.
  induction d as [|[k0 v0] d IH]; simpl; [discriminate|].
  destruct (keqb_spec k k0) as [->|Hne].
  - intros [= ->]. now left.
  - intros. right. auto.
Qed.

Lemma dget_None_notin d k : dget d k = None <-> ~ In k (dkeys d).
Proof.
  unfold dkeys. induction d as [|[k0 v0] d IH]; simpl.
  - intuition.
  - destruct (keqb_spec k k0) as [->|Hne].
    + split; [discriminate|]. intros Hn. exfalso. apply Hn. now left.
    + rewrite IH. intuition.
Qed.

Lemma dget_Some_in d k v : dget d k = Some v -> In k (dkeys d).
Proof.
  intros Hg. apply dget_In in Hg. unfold dkeys.
  change k with (fst (k, v)). now apply in_map.
Qed.

Lemma In_dget d k v : NoDup (dkeys d) -> In (k, v) d -> dget d k = Some v.
Proof.
  unfold dkeys. induction d as [|[k0 v0] d IH]; simpl; intros Hnd Hin; [easy|].
  inversion Hnd as [|? ? Hni Hnd']; subst.
  destruct Hin as [[= -> ->]|Hin].
  - now rewrite keqb_refl.
  - destruct (keqb_spec k k0) as [->|Hne]; [|auto].
    exfalso. apply Hni. change k0 with (fst (k0, v)). now apply in_map.
Qed.
End DictFacts.

(* ------------------------------------------------------------------ *)
(** ** The error monad *)

Lemma bind_Ok {A B} (m : result A) (k : A -> result B) (b : B) :
  bind m k = Ok b -> exists a, m = Ok a /\ k a = Ok b.
Proof. destruct m; simpl; [eauto|discriminate]. Qed.

Lemma foldM_app {S A} (f : S -> A -> result S) (l1 l2 : list A) (s : S) :
  foldM f (l1 ++ l2)%list s = bind (foldM f l1 s) (foldM f l2).
Proof.
  revert s. induction l1 as [|a l1 IH]; intros s; simpl; [reflexivity|].
  destruct (f s a); simpl; auto.
Qed.

(** An invariant that every successful step keeps holds after the loop. *)
Lemma foldM_inv {S A} (P : S -> Prop) (f : S -> A -> result S) (l : list A) :
  (forall s a s', In a l -> P s -> f s a = Ok s' -> P s') ->
  forall s s', P s -> foldM f l s = Ok s' -> P s'.
Proof.
  induction l as [|a l IH]; simpl; intros Hstep s s' Hs Hf.
  - now injection Hf as <-.
  - apply bind_Ok in Hf as (s1 & Hf1 & Hf2).
    apply (IH (fun s a s' Hin => Hstep s a s' (or_intror Hin)) s1 s'); auto.
    eapply Hstep; eauto.
Qed.

(* ------------------------------------------------------------------ *)
(** ** Scoring façade *)

(** C10.  [compute_f] returns [(0, 0, 0)] when either triple count is
    zero; otherwise the precision is [match_num / test_num], the recall
    is [match_num / gold_num], and the F-score is [2pr / (p + r)] when
    [p + r] is not zero and [0] when it is. *)
Theorem compute_f_spec (match_num : Q) (test_num gold_num : Z) :
  ((test_num = 0 \/ gold_num = 0)%Z ->
     compute_f match_num test_num gold_num = (0, 0, 0)) /\
  (test_num <> 0%Z -> gold_num <> 0%Z ->
     exists p r f,
       compute_f match_num test_num gold_num = (p, r, f) /\
       p == match_num / inject_Z test_num /\
       r == match_num / inject_Z gold_num /\
       (~ p + r == 0 -> f == 2 * p * r / (p + r)) /\
       (p + r == 0 -> f == 0)).
Proof.
  unfold compute_f. split.
  - intros [-> | ->]; simpl; [reflexivity|].
    now rewrite orb_true_r.
  - intros Ht Hg.
    apply Z.eqb_neq in Ht, Hg. rewrite Ht, Hg. simpl.
    set (p := (0 + match_num) / (inject_Z test_num + 0)).
    set (r := (0 + match_num) / (inject_Z gold_num + 0)).
    assert (Hp : p == match_num / inject_Z test_num).
    { unfold p. now rewrite Qplus_0_l, Qplus_0_r. }
    assert (Hr : r == match_num / inject_Z gold_num).
    { unfold r. now rewrite Qplus_0_l, Qplus_0_r. }
    destruct (Qeq_bool (p + r) 0) eqn:E; simpl.
    + exists p, r, 0. apply Qeq_bool_iff in E.
      repeat split; auto; try reflexivity. intros Hn. now destruct Hn.
    + exists p, r, (2 * p * r / (p + r)).
      repeat split; auto; try reflexivity.
      intros Hz. apply Qeq_bool_neq in E. now destruct E.
Qed.

Lemma compute_f_spec_witness :
  exists p r f,
    compute_f 3 4 6 = (p, r, f) /\ p == 3 / inject_Z 4 /\ r == 3 / inject_Z 6 /\
    (~ p + r == 0 -> f == 2 * p * r / (p + r)) /\ (p + r == 0 -> f == 0).
Proof.
  apply (proj2 (compute_f_spec 3 4 6)); discriminate.
Defined.

(* ------------------------------------------------------------------ *)
(** ** Similarity kernel: which labels are treated as sensed *)

Lemma re_match_Void s : re_match Void s = false.
Proof. induction s; simpl; auto. Qed.

Lemma re_match_Alt r1 r2 s :
  re_match (Alt r1 r2) s = re_match r1 s || re_match r2 s.
Proof.
  revert r1 r2. induction s as [|c s IH]; intros r1 r2; simpl.
  - now rewrite !orb_false_r.
  - rewrite IH.
    destruct (nullable r1), (nullable r2); simpl; auto using orb_true_r.
Qed.

Lemma re_match_Cat_Void r s : re_match (Cat Void r) s = false.
Proof. induction s; simpl; auto. Qed.

Lemma re_match_Cat_Alt x y b s :
  re_match (Cat (Alt x y) b) s = re_match (Cat x b) s || re_match (Cat y b) s.
Proof.
  revert x y b. induction s as [|c s IH]; intros x y b; simpl.
  - rewrite !orb_false_r. destruct (nullable x), (nullable y), (nullable b); auto.
  - destruct (nullable x) eqn:Ex, (nullable y) eqn:Ey; simpl;
      rewrite ?re_match_Alt, IH;
      destruct (nullable b), (re_match (Cat (deriv c x) b) s),
        (re_match (Cat (deriv c y) b) s), (re_match (deriv c b) s); auto.
Qed.

Lemma re_match_Cat_Cat_Void a b s : re_match (Cat (Cat Void a) b) s = false.
Proof. induction s; simpl; auto. Qed.

Lemma re_match_Cat_Eps r s : re_match (Cat Eps r) s = re_match r s.
Proof.
  destruct s as [|c s]; simpl; auto.
  now rewrite re_match_Alt, re_match_Cat_Void.
Qed.

Lemma re_match_Cat_Cat_Eps a b s :
  re_match (Cat (Cat Eps a) b) s = re_match (Cat a b) s.
Proof.
  destruct s as [|c s]; simpl; auto.
  destruct (nullable a); simpl.
  - now rewrite !re_match_Alt, re_match_Cat_Alt, re_match_Cat_Cat_Void.
  - now rewrite re_match_Cat_Alt, re_match_Cat_Cat_Void.
Qed.

(** Some digit stands on the first line of [s]. *)
Fixpoint digit_on_first_line (s : string) : bool :=
  match s with
  | EmptyString => false
  | String c s' => is_digit c || (dot c && digit_on_first_line s')
  end.

Lemma re_match_digits_tail s :
  re_match (Cat (Chr is_digit) (Star (Chr is_digit))) s =
  match s with EmptyString => false | String c _ => is_digit c end.
Proof.
  destruct s as [|c s]; simpl; auto.
  destruct (is_digit c).
  - rewrite re_match_Cat_Eps. now destruct s.
  - apply re_match_Cat_Void.
Qed.

(** What [re.match(".*[0-9]+", s)] decides: the pattern is not anchored
    at the end of the string, so any digit before the first newline
    makes it succeed. *)
Lemma re_match_sense_pattern s :
  re_match sense_pattern s = digit_on_first_line s.
Proof.
  unfold sense_pattern. induction s as [|c s IH]; [reflexivity|].
  cbn [re_match nullable deriv digit_on_first_line andb orb].
  rewrite re_match_Alt.
  rewrite orb_comm. f_equal.
  - destruct (is_digit c).
    + rewrite re_match_Cat_Eps. now destruct s.
    + apply re_match_Cat_Void.
  - destruct (dot c); simpl.
    + now rewrite re_match_Cat_Cat_Eps.
    + apply re_match_Cat_Cat_Void.
Qed.

(** The test that guards sense stripping in [maybe_sim]. *)
Lemma wo_sense_fires_iff a :
  wo_sense a <> None <-> contains "-" a = true /\ digit_on_first_line a = true.
Proof.
  unfold wo_sense. rewrite re_match_sense_pattern.
  destruct (contains "-" a), (digit_on_first_line a); simpl;
    intuition congruence.
Qed.

(** C5 (the code departs from the claim).  A label with a digit before
    its last hyphen and no digit after it is stripped all the same, and
    the sense rule then fires on it: ["b2b-company"] against ["b2b"]
    scores [diffsense]. *)
Theorem maybe_sim_senses_inner_digit (vecs : vecs_t) (cutoff diffsense : Q)
    (simfun : option simfun_t) (mwp : string) :
  wo_sense "b2b-company" = Some "b2b" /\
  maybe_sim "b2b-company" "b2b" vecs cutoff diffsense simfun mwp
    = Ok (1 * diffsense).
Proof. split; reflexivity. Qed.

(* ------------------------------------------------------------------ *)
(** ** Similarity kernel: the multi-token strategy *)

Lemma maybe_has_sim_ignores_mwp a b sim_dict vecs cutoff diffsense simfun mwp :
  maybe_has_sim a b sim_dict vecs cutoff diffsense simfun mwp =
  maybe_has_sim a b sim_dict vecs cutoff diffsense simfun "split".
Proof. reflexivity. Qed.

Lemma compute_pool_ignores_mwp vecs cutoff diffsense simfun mwp weighting
    i1 a1 r1 i2 a2 r2 :
  compute_pool vecs cutoff diffsense simfun mwp weighting i1 a1 r1 i2 a2 r2 =
  compute_pool vecs cutoff diffsense simfun "split" weighting i1 a1 r1 i2 a2 r2.
Proof. reflexivity. Qed.

Definition ice_vecs : vecs_t :=
  [("ice", [1; 0]); ("cream", [0; 1]); ("dessert", [1; 1])].

(** C6 (the code departs from the claim).  With the strategy ["none"],
    [maybe_sim] itself finds no vector for the out-of-vocabulary label
    ["ice-cream"] and answers [0]; but pool construction goes through
    [maybe_has_sim], which splits the label and scores the sum of the
    part vectors. *)
Theorem maybe_has_sim_splits_under_none (f : simfun_t) (s cutoff diffsense : Q) :
  f (vadd [1; 0] [0; 1]) [1; 1] = s ->
  Qgtb s cutoff = true ->
  Qeq_bool s 0 = false ->
  maybe_sim "ice-cream" "dessert" ice_vecs cutoff diffsense (Some f) "none" = Ok 0 /\
  exists sim_dict,
    maybe_has_sim "ice-cream" "dessert" [] ice_vecs cutoff diffsense (Some f) "none"
      = Ok (s, sim_dict).
Proof.
  intros Hf Hgt Hnz. split; [reflexivity|].
  unfold maybe_has_sim. cbn [dget].
  change (maybe_sim "ice-cream" "dessert" ice_vecs cutoff diffsense (Some f) "split")
    with (do sim <- Ok (f (vadd [1; 0] [0; 1]) [1; 1]);
          if Qeq_bool sim 0 then Ok 0
          else if Qgtb sim cutoff then Ok sim else Ok 0).
  rewrite Hf. cbn [bind]. rewrite Hnz, Hgt. cbn [bind]. eauto.
Qed.

Lemma maybe_has_sim_splits_under_none_witness :
  maybe_sim "ice-cream" "dessert" ice_vecs (1 # 2) (1 # 2)
    (Some (fun _ _ => 1)) "none" = Ok 0 /\
  exists sim_dict,
    maybe_has_sim "ice-cream" "dessert" [] ice_vecs (1 # 2) (1 # 2)
      (Some (fun _ _ => 1)) "none" = Ok (1, sim_dict).
Proof.
  apply (maybe_has_sim_splits_under_none (fun _ _ => 1) 1 (1 # 2) (1 # 2));
    reflexivity.
Defined.

(* ------------------------------------------------------------------ *)
(** ** Pool builder: candidates of the instance phase *)

Lemma index_assign_same {A} (l l' : list A) (k : Z) (a : A) :
  assign l k a = Ok l' -> index l' k = Ok a.
Proof.
  unfold assign, index, norm_index.
  assert (Hlen : forall (l : list A) n x, List.length (replace_nth l n x) = List.length l).
  { induction l0 as [|y l0 IH]; intros [|n] x; simpl; auto. }
  assert (Hnth : forall (l : list A) n x, (n < List.length l)%nat ->
                   nth_error (replace_nth l n x) n = Some x).
  { induction l0 as [|y l0 IH]; intros [|n] x; simpl; intros Hn;
      try lia; auto. apply IH. lia. }
  destruct (k <? 0)%Z eqn:Ek.
  - destruct (k + Z.of_nat (List.length l) <? 0)%Z eqn:Ek'; [discriminate|].
    destruct (Nat.ltb_spec (Z.to_nat (k + Z.of_nat (List.length l))) (List.length l));
      [|discriminate].
    intros [= <-]. rewrite Hlen, Ek', Hnth; auto.
  - rewrite Ek.
    destruct (Nat.ltb_spec (Z.to_nat k) (List.length l)); [|discriminate].
    intros [= <-]. rewrite Hnth; auto.
Qed.

Lemma set_mem_add s x : set_mem x (set_add s x) = true.
Proof.
  unfold set_add. destruct (set_mem x s) eqn:E; auto.
  unfold set_mem. rewrite existsb_app. simpl.
  now rewrite Z.eqb_refl, orb_true_r.
Qed.

(** Whenever the two instance labels agree and the step succeeds, the
    node of AMR 2 is a candidate of the node of AMR 1 afterwards: no
    test on the similarity guards the insertion. *)
Lemma instance_body_always_adds vecs cutoff diffsense simfun mwp weighting
    (t1 t2 : triple) (C C' : list pyset) W W' sd sd' :
(lower (t_rel t1) =s lower (t_rel t2)) = true ->
  instance_body vecs cutoff diffsense simfun mwp weighting t1 (C, W, sd) t2
    = Ok (C', W', sd') ->
  exists s, index C' (Z.of_nat (t_node t1)) = Ok s /\
            set_mem (Z.of_nat (t_node t2)) s = true.
Proof.
  intros Hl. unfold instance_body. rewrite Hl.
  intros Hb.
  apply bind_Ok in Hb as ([sim sd1] & _ & Hb).
  apply bind_Ok in Hb as (C1 & HC & Hb).
  apply bind_Ok in Hb as (W1 & _ & Hb).
  injection Hb as <- <- <-.
  unfold cand_add in HC. apply bind_Ok in HC as (s & _ & HC).
  apply index_assign_same in HC. eauto using set_mem_add.
Qed.

(** C4 (the code departs from the claim).  Two nodes whose concepts
    have similarity [0] (no vector, no sense rule): the instance phase
    still makes node 0 of AMR 2 a candidate of node 0 of AMR 1 and
    stores the self score [0] for the pair. *)
Theorem compute_pool_adds_zero_similarity (cutoff diffsense : Q)
    (simfun : option simfun_t) (mwp : string) :
  maybe_sim "foo" "bar" [] cutoff diffsense simfun mwp = Ok 0 /\
  compute_pool [] cutoff diffsense simfun mwp "standard"
    [Triple "instance" 0 "foo"] [] [] [Triple "instance" 0 "bar"] [] []
  = Ok ([[0%Z]], [((0%Z, 0%Z), [(KSelf, 0)])]).
Proof. split; reflexivity. Qed.

(* ------------------------------------------------------------------ *)
(** ** Configuration errors *)

Definition foo_graph : graph :=
  Graph [Triple "instance" 0 "foo"] [Triple "TOP" 0 "foo"] [].

Definition bar_graph : graph :=
  Graph [Triple "instance" 0 "bar"] [Triple "TOP" 0 "bar"] [].

Definition foo_bar_vecs : vecs_t := [("foo", [1; 0]); ("bar", [0; 1])].

(** An unsupported weighting scheme is refused by the assertion that
    opens [get_best_match], whatever the graphs. *)
Lemma unknown_weighting_refused fuel iteration_num i1 a1 r1 i2 a2 r2 vecs
    cutoff diffsense simfun mwp weighting memo rnd :
  weighting_ok weighting = false ->
  get_best_match fuel iteration_num i1 a1 r1 i2 a2 r2 vecs cutoff diffsense
    simfun mwp weighting memo rnd = Raise AssertionError.
Proof. intros Hw. unfold get_best_match. now rewrite Hw. Qed.

(** C9 (the code departs from the claim).  For the unsupported name
    ["dot"], [get_sim_fun] returns [None] without raising.  With that
    missing function a pair is compared to the end and scored, both on
    an empty vocabulary and on identical graphs; [TypeError] only
    appears once two different in-vocabulary concepts meet. *)
Theorem unknown_similarity_runs (cosine euclidean cityblock : vec -> vec -> Q)
    (exp : Q -> Q) (rnd : list nat) :
  let simfun := get_sim_fun cosine euclidean cityblock exp "dot" in
  simfun = None /\
  score_pair 1 5 foo_graph bar_graph [] (1 # 2) (1 # 2) simfun "split" "standard" rnd
    = Ok (0, (0 / 2, 0 / 2, 0)) /\
  score_pair 1 5 foo_graph foo_graph foo_bar_vecs (1 # 2) (1 # 2) simfun
    "split" "standard" rnd = Ok (2, (2 / 2, 2 / 2, 2 * (2 / 2) * (2 / 2) / (2 / 2 + 2 / 2))) /\
  score_pair 1 5 foo_graph bar_graph foo_bar_vecs (1 # 2) (1 # 2) simfun
    "split" "standard" rnd = Raise TypeError.
Proof.
  cbv zeta. split; [reflexivity|].
  split; [|split].
  - destruct rnd; vm_compute; reflexivity.
  - destruct rnd; vm_compute; reflexivity.
  - reflexivity.
Qed.

(* ------------------------------------------------------------------ *)
(** ** Pool builder: shape of the weight dictionary *)

(** The relation entry [W[p][q]], when both keys are present. *)
Definition rel_entry (W : weight_dict_t) (p q : node_pair) : option Q :=
  match dget W p with
  | Some inner => dget inner (KPair q)
  | None => None
  end.

Definition in_range (n : nat) (p : node_pair) : Prop :=
  (0 <= fst p < Z.of_nat n)%Z /\ (0 <= snd p)%Z.

(** A well-formed inner dictionary of the pair [p]: distinct keys, the
    key [-1] is there, and every other key is a pair different from [p]
    whose first node is a node of AMR 1. *)
Record wf_inner (n : nat) (p : node_pair) (inner : inner_t) : Prop := {
  wi_nodup : NoDup (dkeys inner);
  wi_self : dget inner KSelf <> None;
  wi_keys : forall q, In (KPair q) (dkeys inner) -> q <> p /\ in_range n q
}.

Record wf_W (n : nat) (W : weight_dict_t) : Prop := {
  wf_inners : forall p inner, dget W p = Some inner -> in_range n p /\ wf_inner n p inner;
  wf_sym : forall p q, rel_entry W p q = rel_entry W q p
}.

Lemma in_range_mono n m p : (n <= m)%nat -> in_range n p -> in_range m p.
Proof. unfold in_range. lia. Qed.

Lemma wf_W_mono n m W : (n <= m)%nat -> wf_W n W -> wf_W m W.
Proof.
  intros Hnm [Hi Hs]. split; auto.
  intros p inner Hg. destruct (Hi p inner Hg) as [Hr [Hnd Hself Hk]].
  split; [eauto using in_range_mono|].
  split; auto. intros q Hq. destruct (Hk q Hq). eauto using in_range_mono.
Qed.

Lemma wf_W_nil n : wf_W n [].
Proof. split; [discriminate|reflexivity]. Qed.

Lemma add_self_inner W W' p x p' :
  add_self W p x = Ok W' ->
  dget W' p' =
    if keqb p' p then
      match dget W p with
      | Some inner =>
          match dget inner KSelf with
          | Some v => Some (dset inner KSelf (v + x))
          | None => None
          end
      | None => Some [(KSelf, x)]
      end
    else dget W p'.
Proof.
  unfold add_self. destruct (dget W p) as [inner|] eqn:Eg.
  - destruct (dget inner KSelf) as [v|]; [|discriminate].
    intros [= <-]. apply dget_dset.
  - intros [= <-]. apply dget_dset.
Qed.

Lemma add_self_rel_entry W W' p x a b :
  add_self W p x = Ok W' -> rel_entry W' a b = rel_entry W a b.
Proof.
  intros Ha. unfold rel_entry. rewrite (add_self_inner _ _ _ _ a Ha).
  destruct (keqb_spec a p) as [->|]; auto.
  unfold add_self in Ha.
  destruct (dget W p) as [inner|]; auto.
  destruct (dget inner KSelf) as [v|]; [|discriminate].
  now rewrite dget_dset_other.
Qed.

Lemma wf_inner_dset_self n p inner v :
  wf_inner n p inner -> wf_inner n p (dset inner KSelf v).
Proof.
  intros [Hnd Hs Hk]. split.
  - now apply dkeys_dset_NoDup.
  - now rewrite dget_dset_same.
  - intros q Hq. apply dkeys_dset_in in Hq as [Hq|Hq]; [discriminate|auto].
Qed.

Lemma wf_inner_fresh n p x : wf_inner n p [(KSelf, x)].
Proof.
  split; simpl.
  - constructor; [intros []|constructor].
  - discriminate.
  - intros q [Hq|[]]. discriminate.
Qed.

Lemma add_self_wf n W W' p x :
  in_range n p -> wf_W n W -> add_self W p x = Ok W' -> wf_W n W'.
Proof.
  intros Hr [Hi Hs] Ha. split.
  - intros p' inner'. rewrite (add_self_inner _ _ _ _ p' Ha).
    destruct (keqb_spec p' p) as [->|]; [|apply Hi].
    destruct (dget W p) as [inner|] eqn:Eg.
    + destruct (dget inner KSelf) as [v|]; [|discriminate].
      intros [= <-]. split; auto.
      apply wf_inner_dset_self. now apply (Hi p inner).
    + intros [= <-]. split; auto. apply wf_inner_fresh.
  - intros a b. now rewrite !(add_self_rel_entry _ _ _ _ _ _ Ha).
Qed.

(** No [KeyError]: on a well-formed dictionary [add_self] succeeds. *)
Lemma add_self_Ok n W p x : wf_W n W -> exists W', add_self W p x = Ok W'.
Proof.
  intros [Hi _]. unfold add_self.
  destruct (dget W p) as [inner|] eqn:Eg; [|eauto].
  destruct (Hi p inner Eg) as [_ [_ Hself _]].
  destruct (dget inner KSelf); [eauto|congruence].
Qed.

Definition rel_bump (o : option Q) : Q :=
  match o with Some v => v + 1 | None => 1 end.

Lemma add_rel_inner W p1 p2 p' :
  dget (add_rel W p1 p2) p' =
    if keqb p' p1 then
      Some (dset (match dget W p1 with
                  | Some inner => inner
                  | None => [(KSelf, 0)]
                  end)
                 (KPair p2) (rel_bump (rel_entry W p1 p2)))
    else dget W p'.
Proof.
  unfold add_rel, rel_entry, rel_bump.
  destruct (dget W p1) as [inner|] eqn:Eg.
  - destruct (dget inner (KPair p2)); apply dget_dset.
  - rewrite dget_dset. reflexivity.
Qed.

Lemma add_rel_rel_entry W p1 p2 a b :
  rel_entry (add_rel W p1 p2) a b =
    if keqb a p1 && keqb b p2 then Some (rel_bump (rel_entry W p1 p2))
    else rel_entry W a b.
Proof.
  unfold rel_entry at 1. rewrite add_rel_inner.
  destruct (keqb_spec a p1) as [->|]; simpl; auto.
  rewrite dget_dset. unfold keqb at 1, EqKey_wkey.
  destruct (keqb_spec b p2) as [->|]; auto.
  unfold rel_entry. destruct (dget W p1); auto.
Qed.

Lemma add_rel_wf_inners n W p1 p2 :
  in_range n p1 -> in_range n p2 -> p2 <> p1 ->
  (forall p inner, dget W p = Some inner -> in_range n p /\ wf_inner n p inner) ->
  forall p inner, dget (add_rel W p1 p2) p = Some inner ->
                  in_range n p /\ wf_inner n p inner.
Proof.
  intros Hr1 Hr2 Hne Hi p inner. rewrite add_rel_inner.
  destruct (keqb_spec p p1) as [->|]; [|apply Hi].
  intros [= <-]. split; auto.
  assert (Hw : wf_inner n p1 (match dget W p1 with
                              | Some inner => inner
                              | None => [(KSelf, 0)]
                              end)).
  { destruct (dget W p1) as [inner|] eqn:Eg.
    - now apply (Hi p1 inner).
    - apply wf_inner_fresh. }
  destruct Hw as [Hnd Hs Hk]. split.
  - now apply dkeys_dset_NoDup.
  - rewrite dget_dset_other; [auto|discriminate].
  - intros q Hq. apply dkeys_dset_in in Hq as [[= ->]|Hq]; auto.
Qed.

(** The two updates of the relation phase together keep the dictionary
    well formed and symmetric. *)
Lemma add_rel_both_wf n W p1 p2 :
  in_range n p1 -> in_range n p2 -> p2 <> p1 ->
  wf_W n W -> wf_W n (add_rel (add_rel W p1 p2) p2 p1).
Proof.
  intros Hr1 Hr2 Hne [Hi Hs]. split.
  - apply add_rel_wf_inners; auto.
    apply add_rel_wf_inners; auto.
  - intros a b. rewrite !add_rel_rel_entry.
    assert (H12 : keqb p1 p2 = false) by (apply keqb_neq; congruence).
    assert (H21 : keqb p2 p1 = false) by (apply keqb_neq; congruence).
    rewrite ?H12, ?H21. simpl. rewrite ?keqb_refl. simpl.
    destruct (keqb_spec a p1) as [Ea1|Ea1]; destruct (keqb_spec b p2) as [Eb2|Eb2];
      destruct (keqb_spec a p2) as [Ea2|Ea2]; destruct (keqb_spec b p1) as [Eb1|Eb1];
      subst; simpl; try congruence; auto; now rewrite Hs.
Qed.

(* ------------------------------------------------------------------ *)
(** ** Pool builder: the three phases, step by step *)

Lemma replace_nth_length {A} (l : list A) n x :
  List.length (replace_nth l n x) = List.length l.
Proof. revert n. induction l as [|y l IH]; intros [|n]; simpl; auto. Qed.

Lemma index_nat_Ok {A} (l : list A) (i : nat) (a : A) :
  index l (Z.of_nat i) = Ok a <-> nth_error l i = Some a.
Proof.
  unfold index, norm_index.
  destruct (Z.ltb_spec (Z.of_nat i) 0); [lia|].
  destruct (Z.ltb_spec (Z.of_nat i) 0); [lia|].
  rewrite Nat2Z.id. destruct (nth_error l i); split; congruence.
Qed.

Lemma assign_nat_Ok {A} (l l' : list A) (i : nat) (a : A) :
  assign l (Z.of_nat i) a = Ok l' <->
  (i < List.length l)%nat /\ l' = replace_nth l i a.
Proof.
  unfold assign, norm_index.
  destruct (Z.ltb_spec (Z.of_nat i) 0); [lia|].
  destruct (Z.ltb_spec (Z.of_nat i) 0); [lia|].
  rewrite Nat2Z.id. destruct (Nat.ltb_spec i (List.length l)).
  - split; [intros [= <-]; auto|intros [_ ->]; auto].
  - split; [discriminate|lia].
Qed.

Lemma cand_add_Ok (C C' : list pyset) (i : nat) (j : Z) :
  cand_add C (Z.of_nat i) j = Ok C' ->
  (i < List.length C)%nat /\ List.length C' = List.length C /\
  exists s, nth_error C i = Some s /\ C' = replace_nth C i (set_add s j).
Proof.
  unfold cand_add. intros Hc. apply bind_Ok in Hc as (s & Hi & Ha).
  apply index_nat_Ok in Hi. apply assign_nat_Ok in Ha as [Hlt ->].
  rewrite replace_nth_length. eauto.
Qed.

Section PoolSteps.
Variable vectors : vecs_t.
Variables cutoff diffsense : Q.
Variable simfun : option simfun_t.
Variable mwp : string.
Variable weighting_scheme : string.

(** The factor of the weighting scheme. *)
Definition weighted (similarity : Q) : Q :=
  if weighting_scheme =s "concept" then similarity * 3
  else if weighting_scheme =s "structure" then similarity * (3333 # 10000)
  else similarity.

Definition node_pair_of (n1 n2 : nat) : node_pair := (Z.of_nat n1, Z.of_nat n2).

Lemma instance_body_inv t1 t2 C W sd st' :
  instance_body vectors cutoff diffsense simfun mwp weighting_scheme t1 (C, W, sd) t2
    = Ok st' ->
  ((lower (t_rel t1) =s lower (t_rel t2)) = false /\ st' = (C, W, sd)) \/
  ((lower (t_rel t1) =s lower (t_rel t2)) = true /\
   exists similarity sd' C' W',
     maybe_has_sim (lower (t_value t1)) (lower (t_value t2)) sd vectors
                   cutoff diffsense simfun mwp = Ok (similarity, sd') /\
     cand_add C (Z.of_nat (t_node t1)) (Z.of_nat (t_node t2)) = Ok C' /\
     add_self W (node_pair_of (t_node t1) (t_node t2)) (weighted similarity) = Ok W' /\
     st' = (C', W', sd')).
Proof.
  unfold instance_body.
  destruct (lower (t_rel t1) =s lower (t_rel t2)).
  - intros Hb. right. split; auto.
    apply bind_Ok in Hb as ([similarity sd'] & Hs & Hb).
    apply bind_Ok in Hb as (C' & HC & Hb).
    apply bind_Ok in Hb as (W' & HW & Hb).
    injection Hb as <-. exists similarity, sd', C', W'. auto.
  - intros [= <-]. auto.
Qed.

Lemma attribute_body_inv a1 a2 C W sd st' :
  attribute_body vectors cutoff diffsense simfun mwp a1 (C, W, sd) a2 = Ok st' ->
  let same_rel := lower (t_rel a1) =s lower (t_rel a2) in
  let same_value := lower (t_value a1) =s lower (t_value a2) in
  let is_top := lower (t_rel a2) =s "top" in
  (same_rel && same_value = true /\
   exists C' W',
     cand_add C (Z.of_nat (t_node a1)) (Z.of_nat (t_node a2)) = Ok C' /\
     add_self W (node_pair_of (t_node a1) (t_node a2)) 1 = Ok W' /\
     st' = (C', W', sd)) \/
  (same_rel && same_value = false /\ same_rel && is_top = true /\
   exists similarity sd' C' W',
     maybe_has_sim (lower (t_value a1)) (lower (t_value a2)) sd vectors
                   cutoff diffsense simfun mwp = Ok (similarity, sd') /\
     cand_add C (Z.of_nat (t_node a1)) (Z.of_nat (t_node a2)) = Ok C' /\
     add_self W (node_pair_of (t_node a1) (t_node a2)) similarity = Ok W' /\
     st' = (C', W', sd')) \/
  (same_rel && same_value = false /\ same_rel && is_top = false /\ st' = (C, W, sd)).
Proof.
  unfold attribute_body. cbv zeta.
  destruct ((lower (t_rel a1) =s lower (t_rel a2))
            && (lower (t_value a1) =s lower (t_value a2))).
  - intros Hb. left. split; auto.
    apply bind_Ok in Hb as (C' & HC & Hb).
    apply bind_Ok in Hb as (W' & HW & Hb).
    injection Hb as <-. eauto.
  - destruct ((lower (t_rel a1) =s lower (t_rel a2)) && (lower (t_rel a2) =s "top")).
    + intros Hb. right. left. split; auto. split; auto.
      apply bind_Ok in Hb as ([similarity sd'] & Hs & Hb).
      apply bind_Ok in Hb as (C' & HC & Hb).
      apply bind_Ok in Hb as (W' & HW & Hb).
      injection Hb as <-. exists similarity, sd', C', W'. auto.
    + intros [= <-]. auto.
Qed.

(** The pair stored first by the relation phase: the one with the
    smaller node of AMR 1. *)
Definition rel_pair1 (r1 r2 : rtriple) : node_pair :=
  if (Z.of_nat (r_src r1) >? Z.of_nat (r_dst r1))%Z
  then node_pair_of (r_dst r1) (r_dst r2)
  else node_pair_of (r_src r1) (r_src r2).

Definition rel_pair2 (r1 r2 : rtriple) : node_pair :=
  if (Z.of_nat (r_src r1) >? Z.of_nat (r_dst r1))%Z
  then node_pair_of (r_src r1) (r_src r2)
  else node_pair_of (r_dst r1) (r_dst r2).

Lemma relation_body_inv r1 r2 C W sd st' :
  relation_body r1 (C, W, sd) r2 = Ok st' ->
  ((lower (r_rel r1) =s lower (r_rel r2)) = false /\ st' = (C, W, sd)) \/
  ((lower (r_rel r1) =s lower (r_rel r2)) = true /\
   exists C1 C',
     cand_add C (Z.of_nat (r_src r1)) (Z.of_nat (r_src r2)) = Ok C1 /\
     cand_add C1 (Z.of_nat (r_dst r1)) (Z.of_nat (r_dst r2)) = Ok C' /\
     ((node_pair_of (r_dst r1) (r_dst r2) <> node_pair_of (r_src r1) (r_src r2) /\
       st' = (C', add_rel (add_rel W (rel_pair1 r1 r2) (rel_pair2 r1 r2))
                          (rel_pair2 r1 r2) (rel_pair1 r1 r2), sd)) \/
      (node_pair_of (r_dst r1) (r_dst r2) = node_pair_of (r_src r1) (r_src r2) /\
       exists W', add_self W (node_pair_of (r_src r1) (r_src r2)) 1 = Ok W' /\
                  st' = (C', W', sd)))).
Proof.
  unfold relation_body.
  destruct (lower (r_rel r1) =s lower (r_rel r2)); [|intros [= <-]; auto].
  intros Hb. right. split; auto.
  apply bind_Ok in Hb as (C1 & HC1 & Hb).
  apply bind_Ok in Hb as (C' & HC' & Hb).
  exists C1, C'. split; auto. split; auto.
  fold (node_pair_of (r_src r1) (r_src r2)) in Hb.
  fold (node_pair_of (r_dst r1) (r_dst r2)) in Hb.
  match type of Hb with context [negb ?b] => destruct b eqn:E end;
    simpl in Hb.
  - right. apply keqb_eq in E. split; auto.
    apply bind_Ok in Hb as (W' & HW & Hb). injection Hb as <-. eauto.
  - left. split; [intros He; rewrite He, keqb_refl in E; discriminate|].
    unfold rel_pair1, rel_pair2.
    destruct (Z.of_nat (r_src r1) >? Z.of_nat (r_dst r1))%Z;
      injection Hb as <-; reflexivity.
Qed.
End PoolSteps.

(* ------------------------------------------------------------------ *)
(** ** Pool builder: the weight dictionary is well formed and symmetric *)

Section PoolWf.
Variable vectors : vecs_t.
Variables cutoff diffsense : Q.
Variable simfun : option simfun_t.
Variable mwp : string.
Variable weighting_scheme : string.

Definition pool_wf (st : pool_state) : Prop :=
  let '(C, W, _) := st in wf_W (List.length C) W.

Lemma in_range_node_pair_of n n1 n2 :
  (n1 < n)%nat -> in_range n (node_pair_of n1 n2).
Proof. unfold in_range, node_pair_of; simpl. lia. Qed.

Lemma instance_body_wf t1 st t2 st' :
  pool_wf st ->
  instance_body vectors cutoff diffsense simfun mwp weighting_scheme t1 st t2 = Ok st' ->
  pool_wf st'.
Proof.
  destruct st as [[C W] sd]. intros Hwf Hb.
  apply instance_body_inv in Hb
    as [[_ ->]|[_ (sim & sd' & C' & W' & _ & HC & HW & ->)]]; auto.
  apply cand_add_Ok in HC as (Hlt & Hlen & _). simpl in *. rewrite Hlen.
  eapply add_self_wf; eauto using in_range_node_pair_of.
Qed.

Lemma attribute_body_wf a1 st a2 st' :
  pool_wf st ->
  attribute_body vectors cutoff diffsense simfun mwp a1 st a2 = Ok st' ->
  pool_wf st'.
Proof.
  destruct st as [[C W] sd]. intros Hwf Hb.
  apply attribute_body_inv in Hb
    as [[_ (C' & W' & HC & HW & ->)]
       |[(_ & _ & sim & sd' & C' & W' & _ & HC & HW & ->)|(_ & _ & ->)]]; auto;
    apply cand_add_Ok in HC as (Hlt & Hlen & _); simpl in *; rewrite Hlen;
    eapply add_self_wf; eauto using in_range_node_pair_of.
Qed.

Lemma rel_pairs_distinct r1 r2 :
  node_pair_of (r_dst r1) (r_dst r2) <> node_pair_of (r_src r1) (r_src r2) ->
  rel_pair2 r1 r2 <> rel_pair1 r1 r2.
Proof.
  unfold rel_pair1, rel_pair2.
  destruct (Z.of_nat (r_src r1) >? Z.of_nat (r_dst r1))%Z; congruence.
Qed.

Lemma rel_pairs_in_range n r1 r2 :
  (r_src r1 < n)%nat -> (r_dst r1 < n)%nat ->
  in_range n (rel_pair1 r1 r2) /\ in_range n (rel_pair2 r1 r2).
Proof.
  unfold rel_pair1, rel_pair2.
  destruct (Z.of_nat (r_src r1) >? Z.of_nat (r_dst r1))%Z;
    split; now apply in_range_node_pair_of.
Qed.

Lemma relation_body_wf r1 st r2 st' :
  pool_wf st -> relation_body r1 st r2 = Ok st' -> pool_wf st'.
Proof.
  destruct st as [[C W] sd]. intros Hwf Hb.
  apply relation_body_inv in Hb
    as [[_ ->]|[_ (C1 & C' & HC1 & HC' & Hcase)]]; auto.
  apply cand_add_Ok in HC1 as (Hlt1 & Hlen1 & _).
  apply cand_add_Ok in HC' as (Hlt2 & Hlen2 & _).
  rewrite Hlen1 in *. simpl in Hwf.
  destruct Hcase as [[Hne ->]|[_ (W' & HW & ->)]]; simpl; rewrite Hlen2.
  - destruct (rel_pairs_in_range (List.length C) r1 r2) as [Hr1 Hr2]; auto.
    apply add_rel_both_wf; auto using rel_pairs_distinct.
  - apply (add_self_wf _ W W' (node_pair_of (r_src r1) (r_src r2)) 1);
      auto using in_range_node_pair_of.
Qed.

Lemma instance_loop_wf instance2 st t1 st' :
  pool_wf st ->
  instance_loop vectors cutoff diffsense simfun mwp weighting_scheme instance2 st t1
    = Ok st' ->
  pool_wf st'.
Proof.
  destruct st as [[C W] sd]. unfold instance_loop. intros Hwf.
  apply (foldM_inv pool_wf); [intros; eapply instance_body_wf; eauto|].
  simpl in *. rewrite length_app. simpl.
  eapply wf_W_mono; [|eauto]. lia.
Qed.

(** The dictionary that [compute_pool] returns is well formed for the
    nodes of AMR 1, and the candidate list has one entry per instance
    triple of AMR 1. *)
Lemma pool_length st instance2 instance1 st' :
  foldM (instance_loop vectors cutoff diffsense simfun mwp weighting_scheme instance2)
        instance1 st = Ok st' ->
  List.length (fst (fst st')) = (List.length (fst (fst st)) + List.length instance1)%nat.
Proof.
  revert st. induction instance1 as [|t1 l IH]; intros st; simpl.
  - intros [= <-]. lia.
  - intros Hf. apply bind_Ok in Hf as (st1 & H1 & Hf).
    rewrite (IH _ Hf). destruct st as [[C W] sd].
    assert (Hl : List.length (fst (fst st1)) = S (List.length C)).
    { revert H1. unfold instance_loop.
      apply (foldM_inv (fun s => List.length (fst (fst s)) = S (List.length C))).
      - intros [[Ca Wa] sda] t2 s' _ Hs Hb.
        apply instance_body_inv in Hb
          as [[_ ->]|[_ (sim & sd' & C' & W' & _ & HC & _ & ->)]]; auto.
        apply cand_add_Ok in HC as (_ & Hlen & _). simpl in *. congruence.
      - simpl. rewrite length_app. simpl. lia. }
    rewrite Hl. simpl. lia.
Qed.

Lemma attr_rel_length (st st' : pool_state) attribute1 attribute2 :
  foldM (attribute_loop vectors cutoff diffsense simfun mwp attribute2) attribute1 st
    = Ok st' ->
  List.length (fst (fst st')) = List.length (fst (fst st)).
Proof.
  apply (foldM_inv (fun s => List.length (fst (fst s)) = List.length (fst (fst st))));
    auto.
  intros s a1 s1 _ Hs. unfold attribute_loop.
  apply (foldM_inv (fun s => List.length (fst (fst s)) = List.length (fst (fst st))));
    auto.
  intros [[Ca Wa] sda] a2 s2 _ Hs2 Hb.
  apply attribute_body_inv in Hb
    as [[_ (C' & W' & HC & HW & ->)]
       |[(_ & _ & sim & sd' & C' & W' & _ & HC & HW & ->)|(_ & _ & ->)]]; auto;
    apply cand_add_Ok in HC as (_ & Hlen & _); simpl in *; congruence.
Qed.

Lemma rel_length (st st' : pool_state) relation1 relation2 :
  foldM (relation_loop relation2) relation1 st = Ok st' ->
  List.length (fst (fst st')) = List.length (fst (fst st)).
Proof.
  apply (foldM_inv (fun s => List.length (fst (fst s)) = List.length (fst (fst st))));
    auto.
  intros s a1 s1 _ Hs. unfold relation_loop.
  apply (foldM_inv (fun s => List.length (fst (fst s)) = List.length (fst (fst st))));
    auto.
  intros [[Ca Wa] sda] a2 s2 _ Hs2 Hb.
  apply relation_body_inv in Hb
    as [[_ ->]|[_ (C1 & C' & HC1 & HC' & Hcase)]]; auto.
  apply cand_add_Ok in HC1 as (_ & Hlen1 & _).
  apply cand_add_Ok in HC' as (_ & Hlen2 & _).
  destruct Hcase as [[_ ->]|[_ (W' & _ & ->)]]; simpl in *; congruence.
Qed.

Lemma compute_pool_inv i1 a1 r1 i2 a2 r2 C W :
  compute_pool vectors cutoff diffsense simfun mwp weighting_scheme
               i1 a1 r1 i2 a2 r2 = Ok (C, W) ->
  weighting_ok weighting_scheme = true /\
  exists st1 st2 sd,
    foldM (instance_loop vectors cutoff diffsense simfun mwp weighting_scheme i2)
          i1 ([], [], []) = Ok st1 /\
    foldM (attribute_loop vectors cutoff diffsense simfun mwp a2) a1 st1 = Ok st2 /\
    foldM (relation_loop r2) r1 st2 = Ok (C, W, sd).
Proof.
  unfold compute_pool. destruct (weighting_ok weighting_scheme); [|discriminate].
  simpl. intros Hp. split; auto.
  apply bind_Ok in Hp as (st1 & H1 & Hp).
  apply bind_Ok in Hp as (st2 & H2 & Hp).
  apply bind_Ok in Hp as ([[C3 W3] sd3] & H3 & Hp).
  injection Hp as <- <-. exists st1, st2, sd3. auto.
Qed.

Lemma compute_pool_wf i1 a1 r1 i2 a2 r2 C W :
  compute_pool vectors cutoff diffsense simfun mwp weighting_scheme
               i1 a1 r1 i2 a2 r2 = Ok (C, W) ->
  List.length C = List.length i1 /\ wf_W (List.length i1) W.
Proof.
  intros Hp. apply compute_pool_inv in Hp as (_ & st1 & st2 & sd & H1 & H2 & H3).
  assert (Hlen : List.length C = List.length i1).
  { apply rel_length in H3. apply attr_rel_length in H2. apply pool_length in H1.
    simpl in *. lia. }
  split; auto. rewrite <- Hlen.
  change (pool_wf (C, W, sd)).
  revert H3. apply (foldM_inv pool_wf).
  { intros s x s' _ Hs. unfold relation_loop. apply (foldM_inv pool_wf); auto.
    intros; eapply relation_body_wf; eauto. }
  revert H2. apply (foldM_inv pool_wf).
  { intros s x s' _ Hs. unfold attribute_loop. apply (foldM_inv pool_wf); auto.
    intros; eapply attribute_body_wf; eauto. }
  revert H1. apply (foldM_inv pool_wf).
  { intros s x s' _ Hs. eapply instance_loop_wf; eauto. }
  simpl. apply wf_W_nil.
Qed.
End PoolWf.

Definition hit_boy : graph :=
  Graph [Triple "instance" 0 "hit"; Triple "instance" 1 "boy"]
        [Triple "TOP" 0 "hit"]
        [RTriple "ARG0" 0 1].

(** C3.  In the weight dictionary that [compute_pool] returns, the
    entry of [(i', j')] under [(i, j)] holds the count [k] exactly when
    the entry of [(i, j)] under [(i', j')] holds [k]. *)
Theorem compute_pool_symmetric vectors cutoff diffsense simfun mwp weighting_scheme
    i1 a1 r1 i2 a2 r2 C W :
  compute_pool vectors cutoff diffsense simfun mwp weighting_scheme
               i1 a1 r1 i2 a2 r2 = Ok (C, W) ->
  forall (p q : node_pair) (k : Q),
    rel_entry W p q = Some k <-> rel_entry W q p = Some k.
Proof.
  intros Hp p q k. apply compute_pool_wf in Hp as [_ [_ Hs]].
  now rewrite (Hs p q).
Qed.

Lemma compute_pool_symmetric_witness :
  exists C W,
    compute_pool [] (1 # 2) (1 # 2) None "split" "standard"
      (instances hit_boy) (attributes hit_boy) (relations hit_boy)
      (instances hit_boy) (attributes hit_boy) (relations hit_boy) = Ok (C, W) /\
    rel_entry W (0, 0)%Z (1, 1)%Z = Some 1 /\
    (rel_entry W (0, 0)%Z (1, 1)%Z = Some 1 <-> rel_entry W (1, 1)%Z (0, 0)%Z = Some 1).
Proof.
  eexists. eexists. split; [reflexivity|]. split; [reflexivity|].
  eapply (compute_pool_symmetric [] (1 # 2) (1 # 2) None "split" "standard"
           (instances hit_boy) (attributes hit_boy) (relations hit_boy)
           (instances hit_boy) (attributes hit_boy) (relations hit_boy)).
  reflexivity.
Defined.

(* ------------------------------------------------------------------ *)
(** ** Sums of scores *)

Fixpoint Qsum (l : list Q) : Q :=
  match l with
  | [] => 0
  | x :: l' => x + Qsum l'
  end.

Lemma Qsum_app l1 l2 : Qsum (l1 ++ l2) == Qsum l1 + Qsum l2.
Proof. induction l1 as [|x l1 IH]; simpl; [lra|]. rewrite IH. lra. Qed.

Lemma Qsum_map_ext {A} (f g : A -> Q) (l : list A) :
  (forall a, In a l -> f a == g a) -> Qsum (map f l) == Qsum (map g l).
Proof.
  induction l as [|a l IH]; simpl; intros Hfg; [lra|].
  rewrite (Hfg a), IH by auto. lra.
Qed.

Lemma Qsum_map_plus {A} (f g : A -> Q) (l : list A) :
  Qsum (map (fun a => f a + g a) l) == Qsum (map f l) + Qsum (map g l).
Proof. induction l as [|a l IH]; simpl; [lra|]. rewrite IH. lra. Qed.

Lemma Qsum_map_zero {A} (f : A -> Q) (l : list A) :
  (forall a, In a l -> f a == 0) -> Qsum (map f l) == 0.
Proof.
  induction l as [|a l IH]; simpl; intros Hf; [lra|].
  rewrite (Hf a), IH by auto. lra.
Qed.

Lemma Qsum_map_nonneg {A} (f : A -> Q) (l : list A) :
  (forall a, In a l -> 0 <= f a) -> 0 <= Qsum (map f l).
Proof.
  induction l as [|a l IH]; simpl; intros Hf; [lra|].
  specialize (Hf a (or_introl eq_refl)) as Ha.
  assert (0 <= Qsum (map f l)) by auto. lra.
Qed.

Lemma Qsum_map_le {A} (f g : A -> Q) (l : list A) :
  (forall a, In a l -> f a <= g a) -> Qsum (map f l) <= Qsum (map g l).
Proof.
  induction l as [|a l IH]; simpl; intros Hf; [lra|].
  specialize (Hf a (or_introl eq_refl)) as Ha.
  assert (Qsum (map f l) <= Qsum (map g l)) by auto. lra.
Qed.

(** Sums over a list of distinct candidates pick out one summand. *)
Lemma Qsum_map_single {A} (eqb : A -> A -> bool) (l : list A) (x : A) (w : Q) :
  (forall a b, eqb a b = true <-> a = b) ->
  NoDup l ->
  Qsum (map (fun a => if eqb a x then w else 0) l)
  == if existsb (fun a => eqb a x) l then w else 0.
Proof.
  intros Heq. induction l as [|a l IH]; simpl; intros Hnd; [lra|].
  inversion Hnd as [|? ? Hni Hnd']; subst.
  destruct (eqb a x) eqn:E; simpl.
  - apply Heq in E. subst a.
    rewrite Qsum_map_zero; [lra|].
    intros b Hb. destruct (eqb b x) eqn:E'; [|lra].
    apply Heq in E'. subst b. contradiction.
  - rewrite IH by auto. lra.
Qed.

(* ------------------------------------------------------------------ *)
(** ** Enumerations and indexing *)

Lemma enumerate_from_length {A} (a : Z) (l : list A) :
  List.length (enumerate_from a l) = List.length l.
Proof. revert a. induction l; intros; simpl; auto. Qed.

Lemma enumerate_from_In {A} (a : Z) (l : list A) (i : Z) (x : A) :
  In (i, x) (enumerate_from a l) <->
  (a <= i)%Z /\ nth_error l (Z.to_nat (i - a)) = Some x.
Proof.
  revert a. induction l as [|y l IH]; intros a; simpl.
  - split; [easy|]. intros [_ Hn]. destruct (Z.to_nat (i - a)); discriminate.
  - rewrite IH. split.
    + intros [[= -> ->]|[Hle Hn]].
      * split; [lia|]. now rewrite Z.sub_diag.
      * split; [lia|].
        replace (Z.to_nat (i - a)) with (S (Z.to_nat (i - (a + 1)))) by lia.
        exact Hn.
    + intros [Hle Hn].
      destruct (Z.eq_dec i a) as [->|Hne].
      * rewrite Z.sub_diag in Hn. simpl in Hn. injection Hn as ->. now left.
      * right. split; [lia|].
        replace (Z.to_nat (i - a)) with (S (Z.to_nat (i - (a + 1)))) in Hn by lia.
        exact Hn.
Qed.

Lemma enumerate_In {A} (l : list A) (i : Z) (x : A) :
  In (i, x) (enumerate l) <-> (0 <= i)%Z /\ nth_error l (Z.to_nat i) = Some x.
Proof. unfold enumerate. rewrite enumerate_from_In. now rewrite Z.sub_0_r. Qed.

Lemma enumerate_from_fst_NoDup {A} (a : Z) (l : list A) :
  NoDup (map fst (enumerate_from a l)).
Proof.
  revert a. induction l as [|y l IH]; intros a; simpl; constructor; auto.
  intros Hin. apply in_map_iff in Hin as ([i x] & Hi & Hin). simpl in Hi. subst i.
  apply enumerate_from_In in Hin. lia.
Qed.

Lemma enumerate_from_NoDup {A} (a : Z) (l : list A) : NoDup (enumerate_from a l).
Proof.
  pose proof (enumerate_from_fst_NoDup a l) as H.
  now apply NoDup_map_inv in H.
Qed.

Lemma enumerate_from_app {A} (a : Z) (l1 l2 : list A) :
  enumerate_from a (l1 ++ l2) =
  (enumerate_from a l1 ++ enumerate_from (a + Z.of_nat (List.length l1)) l2)%list.
Proof.
  revert a. induction l1 as [|x l1 IH]; intros a; simpl.
  - now rewrite Z.add_0_r.
  - rewrite IH. do 3 f_equal. lia.
Qed.

(** [M[k]] on an index known to be in range. *)
Definition at_index (M : list Z) (k : Z) : Z := nth (Z.to_nat k) M (-1)%Z.

Lemma index_in_range (M : list Z) (k : Z) :
  (0 <= k < Z.of_nat (List.length M))%Z -> index M k = Ok (at_index M k).
Proof.
  intros Hk. unfold index, norm_index, at_index.
  destruct (Z.ltb_spec k 0); [lia|]. destruct (Z.ltb_spec k 0); [lia|].
  destruct (nth_error M (Z.to_nat k)) eqn:E.
  - now rewrite (nth_error_nth _ _ _ E).
  - apply nth_error_None in E. lia.
Qed.

Lemma enumerate_existsb (M : list Z) (p : node_pair) :
  (0 <= fst p < Z.of_nat (List.length M))%Z ->
  existsb (fun a => keqb a p) (enumerate M) = (at_index M (fst p) =? snd p)%Z.
Proof.
  intros Hr. destruct p as [k0 k1]. simpl in *.
  destruct (Z.eqb_spec (at_index M k0) k1) as [He|Hne].
  - apply existsb_exists. exists (k0, k1). split; [|apply keqb_refl].
    apply enumerate_In. split; [lia|]. subst k1. unfold at_index.
    apply nth_error_nth'. lia.
  - apply not_true_is_false. intros Hex.
    apply existsb_exists in Hex as ([i m] & Hin & He).
    apply keqb_eq in He. injection He as -> ->.
    apply enumerate_In in Hin as [_ Hn]. apply Hne. unfold at_index.
    now rewrite (nth_error_nth _ _ _ Hn).
Qed.

(* ------------------------------------------------------------------ *)
(** ** Reading scores off the weight dictionary *)

Definition self_of (inner : inner_t) : Q :=
  match dget inner KSelf with Some v => v | None => 0 end.

Definition rel_of (inner : inner_t) (q : node_pair) : Q :=
  match dget inner (KPair q) with Some v => v | None => 0 end.

(** The self score stored under key [-1] of [W[p]], [0] if [p] is absent. *)
Definition self_score (W : weight_dict_t) (p : node_pair) : Q :=
  match dget W p with Some inner => self_of inner | None => 0 end.

(** The relation count stored in [W[p]] under [q], [0] if absent. *)
Definition rel_score (W : weight_dict_t) (p q : node_pair) : Q :=
  match rel_entry W p q with Some v => v | None => 0 end.

(** What one item of an inner dictionary adds to a scan of the mapping
    [M] that keeps the keys whose first node satisfies [keep]. *)
Definition hit (M : list Z) (keep : Z -> bool) (kw : wkey * Q) : Q :=
  match fst kw with
  | KSelf => snd kw
  | KPair q =>
      if keep (fst q) && (at_index M (fst q) =? snd q)%Z then snd kw else 0
  end.

(** The loop bodies [match_key] and [gain_key] are instances of one scan. *)
Definition scan_key (add : bool) (M : list Z) (keep : Z -> bool) (acc : Q)
    (kw : wkey * Q) : result Q :=
  let '(key, w) := kw in
  let updated := if add then acc + w else acc - w in
  match key with
  | KSelf => Ok updated
  | KPair (k0, k1) =>
      if keep k0 then
        do m <- index M k0;
        if (m =? k1)%Z then Ok updated else Ok acc
      else Ok acc
  end.

Definition keep_from (i : Z) (k0 : Z) : bool := negb (k0 <? i)%Z.

Definition keep_but (skip : option Z) (k0 : Z) : bool :=
  negb match skip with Some n => (k0 =? n)%Z | None => false end.

Definition sgn (add : bool) : Q := if add then 1 else -1.

Lemma foldM_ext {S A} (f g : S -> A -> result S) (l : list A) (s : S) :
  (forall s a, f s a = g s a) -> foldM f l s = foldM g l s.
Proof.
  intros Hfg. revert s. induction l as [|a l IH]; intros s; simpl; auto.
  rewrite Hfg. destruct (g s a); simpl; auto.
Qed.

Lemma match_key_scan M i acc kw :
  match_key M i acc kw = scan_key true M (keep_from i) acc kw.
Proof.
  destruct kw as [[|[k0 k1]] w]; simpl; auto.
  unfold keep_from. destruct (k0 <? i)%Z; auto.
Qed.

Lemma gain_key_scan add M skip acc kw :
  gain_key add M skip acc kw = scan_key add M (keep_but skip) acc kw.
Proof.
  destruct kw as [[|[k0 k1]] w]; simpl; auto.
  unfold keep_but. destruct skip as [n|]; simpl; auto.
  destruct (k0 =? n)%Z; auto.
Qed.

Lemma scan_fold add M keep (inner : inner_t) acc :
  (forall q, In (KPair q) (dkeys inner) -> in_range (List.length M) q) ->
  exists acc',
    foldM (scan_key add M keep) inner acc = Ok acc' /\
    acc' == acc + sgn add * Qsum (map (hit M keep) inner).
Proof.
  revert acc. induction inner as [|[key w] inner IH]; intros acc Hk.
  - exists acc. split; auto. simpl. lra.
  - assert (Hk' : forall q, In (KPair q) (dkeys inner) -> in_range (List.length M) q).
    { intros q Hq. apply Hk. now right. }
    cbn [map Qsum foldM].
    destruct key as [|[k0 k1]].
    + change (hit M keep (KSelf, w)) with w.
      cbn [scan_key bind].
      destruct (IH (if add then acc + w else acc - w) Hk') as (acc' & Hf & He).
      exists acc'. split; auto. rewrite He. unfold sgn.
      destruct add; lra.
    + change (hit M keep (KPair (k0, k1), w))
        with (if keep k0 && (at_index M k0 =? k1)%Z then w else 0).
      cbn [scan_key].
      destruct (keep k0); cbn [andb].
      * rewrite index_in_range by (apply (Hk (k0, k1)); now left). cbn [bind].
        destruct (at_index M k0 =? k1)%Z; cbn [bind].
        -- destruct (IH (if add then acc + w else acc - w) Hk') as (acc' & Hf & He).
           exists acc'. split; auto. rewrite He. unfold sgn. destruct add; lra.
        -- destruct (IH acc Hk') as (acc' & Hf & He).
           exists acc'. split; auto. rewrite He. lra.
      * cbn [bind]. destruct (IH acc Hk') as (acc' & Hf & He).
        exists acc'. split; auto. rewrite He. lra.
Qed.

(** From a sum over the items of a dictionary to a sum over the nodes
    of the mapping: each key is hit by at most one node. *)
Lemma hit_sum M keep (inner : inner_t) :
  NoDup (dkeys inner) ->
  (forall q, In (KPair q) (dkeys inner) -> in_range (List.length M) q) ->
  Qsum (map (hit M keep) inner)
  == self_of inner
     + Qsum (map (fun q => if keep (fst q) then rel_of inner q else 0) (enumerate M)).
Proof.
  induction inner as [|[key w] inner IH]; intros Hnd Hk.
  - cbn [map Qsum].
    rewrite (Qsum_map_zero (fun q => if keep (fst q) then rel_of [] q else 0)).
    + unfold self_of. simpl. lra.
    + intros q _. unfold rel_of. simpl. destruct (keep (fst q)); lra.
  - inversion Hnd as [|? ? Hni Hnd']; subst.
    assert (Hk' : forall q, In (KPair q) (dkeys inner) -> in_range (List.length M) q).
    { intros q Hq. apply Hk. now right. }
    simpl map. simpl Qsum. rewrite IH by auto. clear IH.
    destruct key as [|p].
    + unfold hit, self_of, rel_of. simpl.
      assert (Hn : dget inner KSelf = None) by (now apply dget_None_notin).
      rewrite Hn. lra.
    + unfold hit. cbn [fst snd].
      assert (Hn : dget inner (KPair p) = None) by (now apply dget_None_notin).
      assert (Hs : self_of ((KPair p, w) :: inner) = self_of inner) by reflexivity.
      rewrite Hs.
      rewrite (Qsum_map_ext
                 (fun q => if keep (fst q) then rel_of ((KPair p, w) :: inner) q else 0)
                 (fun q => (if keqb q p then (if keep (fst p) then w else 0) else 0)
                           + (if keep (fst q) then rel_of inner q else 0))).
      * rewrite Qsum_map_plus.
        rewrite (Qsum_map_single keqb); [|apply keqb_iff|apply enumerate_from_NoDup].
        rewrite enumerate_existsb by (apply (Hk p); now left).
        destruct (keep (fst p)), (at_index M (fst p) =? snd p)%Z; simpl; lra.
      * intros q _. unfold rel_of. simpl.
        change (keqb (KPair q) (KPair p)) with (keqb q p).
        destruct (keqb_spec q p) as [->|Hne].
        -- rewrite Hn. destruct (keep (fst p)); lra.
        -- destruct (keep (fst q)); lra.
Qed.

Section ScanSpec.
Variable n : nat.
Variable W : weight_dict_t.
Variable M : list Z.
Hypothesis W_wf : wf_W n W.
Hypothesis M_len : List.length M = n.

(** A kept row of relation counts of the pair [p] against the mapping. *)
Definition row (keep : Z -> bool) (p : node_pair) : Q :=
  Qsum (map (fun q => if keep (fst q) then rel_score W p q else 0) (enumerate M)).

Lemma inner_scan_spec add keep p inner acc :
  dget W p = Some inner ->
  exists acc',
    foldM (scan_key add M keep) inner acc = Ok acc' /\
    acc' == acc + sgn add * (self_score W p + row keep p).
Proof.
  intros Hg. destruct (wf_inners _ _ W_wf p inner Hg) as [_ [Hnd _ Hk]].
  assert (Hk' : forall q, In (KPair q) (dkeys inner) -> in_range (List.length M) q).
  { intros q Hq. rewrite M_len. now apply Hk. }
  destruct (scan_fold add M keep inner acc Hk') as (acc' & Hf & He).
  exists acc'. split; auto. rewrite He, hit_sum by auto.
  unfold self_score, row, rel_score, rel_entry. rewrite Hg.
  reflexivity.
Qed.

Lemma absent_scores p : dget W p = None -> self_score W p + row (fun _ => true) p == 0
  /\ forall keep, row keep p == 0.
Proof.
  intros Hg.
  assert (Hr : forall keep, row keep p == 0).
  { intros keep. unfold row. apply Qsum_map_zero. intros q _.
    unfold rel_score, rel_entry. rewrite Hg. destruct (keep (fst q)); lra. }
  split; auto. rewrite Hr. unfold self_score. rewrite Hg. lra.
Qed.

Lemma gain_scan_spec add skip p gain :
  exists gain',
    gain_scan add M skip W p gain = Ok gain' /\
    gain' == gain + sgn add * (self_score W p + row (keep_but skip) p).
Proof.
  unfold gain_scan. destruct (dget W p) as [inner|] eqn:Hg.
  - rewrite (foldM_ext _ (scan_key add M (keep_but skip)))
      by (intros; apply gain_key_scan).
    now apply inner_scan_spec.
  - exists gain. split; auto.
    destruct (absent_scores p Hg) as [_ Hr]. rewrite Hr.
    unfold self_score. rewrite Hg. lra.
Qed.

Lemma match_node_spec match_num i m :
  exists match_num',
    match_node M W match_num (i, m) = Ok match_num' /\
    match_num' == match_num
      + (if (m =? -1)%Z then 0
         else self_score W (i, m) + row (keep_from i) (i, m)).
Proof.
  unfold match_node. destruct (m =? -1)%Z.
  - exists match_num. split; auto. lra.
  - destruct (dget W (i, m)) as [inner|] eqn:Hg.
    + rewrite (foldM_ext _ (scan_key true M (keep_from i)))
        by (intros; apply match_key_scan).
      destruct (inner_scan_spec true (keep_from i) (i, m) inner match_num Hg)
        as (acc' & Hf & He).
      exists acc'. split; auto. rewrite He. unfold sgn. lra.
    + exists match_num. split; auto.
      destruct (absent_scores (i, m) Hg) as [_ Hr]. rewrite Hr.
      unfold self_score. rewrite Hg. lra.
Qed.
End ScanSpec.

(* ------------------------------------------------------------------ *)
(** ** The score of a mapping, as the specification words it *)

Definition mapped (im : node_pair) : bool := negb (snd im =? -1)%Z.

(** The pairs [(i, M[i])] of the mapped nodes, by increasing [i]. *)
Definition mapped_nodes (M : list Z) : list node_pair :=
  filter mapped (enumerate M).

(** Every two-element subset of a list, once: the earlier element first. *)
Fixpoint ordered_pairs {A} (l : list A) : list (A * A) :=
  match l with
  | [] => []
  | x :: l' => (map (pair x) l' ++ ordered_pairs l')%list
  end.

(** The sum of the self scores of the mapped nodes, plus, for every
    unordered pair of mapped nodes, the relation count of the pair,
    counted once. *)
Definition spec_score (W : weight_dict_t) (M : list Z) : Q :=
  Qsum (map (self_score W) (mapped_nodes M))
  + Qsum (map (fun pq => rel_score W (fst pq) (snd pq))
              (ordered_pairs (mapped_nodes M))).

(** Sums over pairs for a symmetric count with an empty diagonal. *)
Section PairSums.
Variable r : node_pair -> node_pair -> Q.
Hypothesis r_sym : forall p q, r p q == r q p.
Hypothesis r_diag : forall p, r p p == 0.

Definition rowsum (p : node_pair) (L : list node_pair) : Q := Qsum (map (r p) L).

Definition pairsum (L : list node_pair) : Q :=
  Qsum (map (fun pq => r (fst pq) (snd pq)) (ordered_pairs L)).

Definition cross (A B : list node_pair) : Q := Qsum (map (fun a => rowsum a B) A).

Lemma rowsum_app p A B : rowsum p (A ++ B) == rowsum p A + rowsum p B.
Proof. unfold rowsum. now rewrite map_app, Qsum_app. Qed.

Lemma rowsum_cons p x A : rowsum p (x :: A) == r p x + rowsum p A.
Proof. reflexivity. Qed.

Lemma pairsum_cons p L : pairsum (p :: L) == rowsum p L + pairsum L.
Proof.
  unfold pairsum, rowsum. simpl. rewrite map_app, Qsum_app, map_map. simpl.
  reflexivity.
Qed.

Lemma cross_cons_l a A B : cross (a :: A) B == rowsum a B + cross A B.
Proof. reflexivity. Qed.

Lemma pairsum_app A B : pairsum (A ++ B) == pairsum A + pairsum B + cross A B.
Proof.
  induction A as [|a A IH].
  - simpl. unfold pairsum at 2, cross. simpl. lra.
  - rewrite <- app_comm_cons, !pairsum_cons, IH, rowsum_app, cross_cons_l. lra.
Qed.

Lemma cross_single x A : cross A [x] == rowsum x A.
Proof.
  unfold cross, rowsum. apply Qsum_map_ext. intros a _. simpl.
  rewrite (r_sym x a). lra.
Qed.

Lemma pairsum_single x : pairsum [x] == 0.
Proof. reflexivity. Qed.

(** Inserting [x] between [A] and [B] adds its row against both. *)
Lemma pairsum_insert A x B :
  pairsum (A ++ x :: B) == pairsum (A ++ B) + rowsum x (A ++ B).
Proof.
  rewrite !pairsum_app, pairsum_cons, rowsum_app.
  assert (Hc : cross A (x :: B) == rowsum x A + cross A B).
  { change (x :: B) with ([x] ++ B)%list. unfold cross.
    rewrite <- cross_single. unfold cross.
    rewrite <- Qsum_map_plus. apply Qsum_map_ext. intros a _.
    now rewrite rowsum_app. }
  rewrite Hc. lra.
Qed.

(** The score in the shape the evaluator computes it: each node adds its
    self score and its row against the nodes after it. *)
Fixpoint forward_score (self : node_pair -> Q) (L : list node_pair) : Q :=
  match L with
  | [] => 0
  | p :: L' => (if mapped p then self p + rowsum p L' else 0) + forward_score self L'
  end.

Hypothesis r_unmapped : forall p q, mapped q = false -> r p q == 0.

Lemma rowsum_filter p L : rowsum p (filter mapped L) == rowsum p L.
Proof.
  induction L as [|q L IH]; simpl; [reflexivity|].
  destruct (mapped q) eqn:E.
  - rewrite !rowsum_cons, IH. reflexivity.
  - rewrite rowsum_cons, IH, (r_unmapped p q E). lra.
Qed.

Lemma forward_score_spec self L :
  forward_score self L
  == Qsum (map self (filter mapped L)) + pairsum (filter mapped L).
Proof.
  induction L as [|p L IH]; simpl.
  - unfold pairsum. simpl. lra.
  - rewrite IH. destruct (mapped p).
    + simpl. rewrite pairsum_cons, rowsum_filter. lra.
    + lra.
Qed.
End PairSums.

Lemma enumerate_from_split {A} (a : Z) (l : list A) Pre p Post :
  enumerate_from a l = (Pre ++ p :: Post)%list ->
  (forall q, In q Pre -> (fst q < fst p)%Z) /\
  (forall q, In q Post -> (fst p < fst q)%Z).
Proof.
  revert a l. induction Pre as [|x Pre IH]; intros a l He.
  - destruct l as [|y l]; [discriminate|]. simpl in He.
    injection He as <- <-. split; [easy|].
    intros [i z] Hq. apply enumerate_from_In in Hq. simpl. lia.
  - destruct l as [|y l]; [discriminate|]. simpl in He.
    injection He as <- He. destruct (IH _ _ He) as [H1 H2]. split; auto.
    intros q [<-|Hq]; auto. simpl.
    assert (Hp : In p (enumerate_from (a + 1) l)).
    { rewrite He. apply in_elt. }
    destruct p as [i z]. apply enumerate_from_In in Hp. simpl. lia.
Qed.

Section ScoreOfMapping.
Variable n : nat.
Variable W : weight_dict_t.
Hypothesis W_wf : wf_W n W.

Lemma rel_score_sym p q : rel_score W p q = rel_score W q p.
Proof. unfold rel_score. now rewrite (wf_sym _ _ W_wf p q). Qed.

Lemma rel_entry_in_range p q v :
  rel_entry W p q = Some v -> in_range n p /\ in_range n q /\ q <> p.
Proof.
  unfold rel_entry. destruct (dget W p) as [inner|] eqn:Hg; [|discriminate].
  intros Hq. destruct (wf_inners _ _ W_wf p inner Hg) as [Hp [_ _ Hk]].
  apply dget_Some_in in Hq. destruct (Hk q Hq). auto.
Qed.

Lemma rel_score_diag p : rel_score W p p = 0.
Proof.
  unfold rel_score. destruct (rel_entry W p p) eqn:E; auto.
  apply rel_entry_in_range in E. now destruct E as (_ & _ & []).
Qed.

Lemma rel_score_out_r p q : ~ in_range n q -> rel_score W p q = 0.
Proof.
  intros Hq. unfold rel_score. destruct (rel_entry W p q) eqn:E; auto.
  apply rel_entry_in_range in E. tauto.
Qed.

Lemma self_score_out p : ~ in_range n p -> self_score W p = 0.
Proof.
  intros Hp. unfold self_score. destruct (dget W p) as [inner|] eqn:Hg; auto.
  destruct (wf_inners _ _ W_wf p inner Hg). tauto.
Qed.

Lemma unmapped_out q : mapped q = false -> ~ in_range n q.
Proof.
  unfold mapped, in_range. destruct (Z.eqb_spec (snd q) (-1)); [lia|discriminate].
Qed.

Lemma rel_score_unmapped p q : mapped q = false -> rel_score W p q == 0.
Proof. intros Hq. rewrite rel_score_out_r; [reflexivity|now apply unmapped_out]. Qed.

Variable M : list Z.
Hypothesis M_len : List.length M = n.

(** The accumulation of [compute_match] on a memo miss. *)
Lemma match_loop_spec :
  exists v,
    foldM (match_node M W) (enumerate M) 0 = Ok v /\ v == spec_score W M.
Proof.
  assert (Hgen : forall Pre L acc,
            enumerate M = (Pre ++ L)%list ->
            exists v, foldM (match_node M W) L acc = Ok v /\
                      v == acc + forward_score (rel_score W) (self_score W) L).
  { intros Pre L. revert Pre. induction L as [|[i m] L IH]; intros Pre acc He.
    - exists acc. split; auto. simpl. lra.
    - cbn [foldM forward_score].
      destruct (match_node_spec n W M W_wf M_len acc i m) as (acc1 & H1 & E1).
      rewrite H1. cbn [bind].
      destruct (IH (Pre ++ [(i, m)])%list acc1) as (v & Hv & Ev).
      { rewrite He, <- app_assoc. reflexivity. }
      exists v. split; auto. rewrite Ev, E1.
      unfold mapped. cbn [snd]. destruct (m =? -1)%Z; cbn [negb]; [lra|].
      assert (Hrow : row W M (keep_from i) (i, m) == rowsum (rel_score W) (i, m) L).
      { unfold row. rewrite He, map_app, Qsum_app.
        destruct (enumerate_from_split _ _ _ _ _ He) as [Hpre Hpost].
        rewrite Qsum_map_zero.
        - cbn [map Qsum fst]. unfold keep_from at 1.
          rewrite Z.ltb_irrefl. cbn [negb]. rewrite rel_score_diag.
          unfold rowsum.
          rewrite (Qsum_map_ext _ (rel_score W (i, m))); [lra|].
          intros q Hq. apply Hpost in Hq. unfold keep_from. simpl in Hq.
          destruct (Z.ltb_spec (fst q) i); [lia|]. reflexivity.
        - intros q Hq. apply Hpre in Hq. unfold keep_from. simpl in Hq.
          destruct (Z.ltb_spec (fst q) i); [|lia]. reflexivity. }
      rewrite Hrow. lra. }
  destruct (Hgen [] (enumerate M) 0 eq_refl) as (v & Hv & Ev).
  exists v. split; auto. rewrite Ev.
  rewrite forward_score_spec by apply rel_score_unmapped.
  unfold spec_score, pairsum, mapped_nodes. lra.
Qed.
End ScoreOfMapping.

(** C2.  On a weight dictionary built by [compute_pool] and a mapping
    of the nodes of AMR 1 that the memo does not hold yet,
    [compute_match] returns the score of the mapping as the
    specification words it, stores it under the mapping, and any later
    call that finds it there returns it. *)
Theorem compute_match_spec vectors cutoff diffsense simfun mwp weighting_scheme
    i1 a1 r1 i2 a2 r2 C W (M : list Z) (memo : memo_t) :
  compute_pool vectors cutoff diffsense simfun mwp weighting_scheme
               i1 a1 r1 i2 a2 r2 = Ok (C, W) ->
  List.length M = List.length i1 ->
  dget memo M = None ->
  exists v,
    compute_match M W memo = Ok (v, dset memo M v) /\
    v == spec_score W M /\
    dget (dset memo M v) M = Some v /\
    forall memo', dget memo' M = Some v -> compute_match M W memo' = Ok (v, memo').
Proof.
  intros Hp Hlen Hmiss. apply compute_pool_wf in Hp as [_ Hwf].
  destruct (match_loop_spec _ W Hwf M Hlen) as (v & Hv & Ev).
  exists v. unfold compute_match. rewrite Hmiss, Hv. cbn [bind].
  split; [reflexivity|]. split; [exact Ev|]. split; [apply dget_dset_same|].
  intros memo' Hm. now rewrite Hm.
Qed.

Lemma compute_match_spec_witness :
  exists v,
    compute_match [0; 1]%Z
      [((0, 0)%Z, [(KSelf, 2); (KPair (1, 1)%Z, 1)]); ((0, 1)%Z, [(KSelf, 0)]);
       ((1, 0)%Z, [(KSelf, 0)]); ((1, 1)%Z, [(KSelf, 1); (KPair (0, 0)%Z, 1)])]
      [] = Ok (v, dset [] [0; 1]%Z v) /\
    v == 4.
Proof.
  destruct (compute_match_spec [] (1 # 2) (1 # 2) None "split" "standard"
              (instances hit_boy) (attributes hit_boy) (relations hit_boy)
              (instances hit_boy) (attributes hit_boy) (relations hit_boy)
              _ _ [0; 1]%Z [] eq_refl eq_refl eq_refl) as (v & Hv & Ev & _).
  exists v. split; [exact Hv|]. rewrite Ev. reflexivity.
Defined.

(* ------------------------------------------------------------------ *)
(** ** Neighbour gains against the score *)

Section FullScore.
Variable n : nat.
Variable W : weight_dict_t.
Hypothesis W_wf : wf_W n W.

#[local] Abbreviation r := (rel_score W).

(** The score over all nodes of the enumeration: unmapped nodes add
    nothing. *)
Definition full_score (L : list node_pair) : Q :=
  Qsum (map (self_score W) L) + pairsum (rel_score W) L.

Lemma r_sym p q : r p q == r q p.
Proof. rewrite (rel_score_sym n W W_wf). reflexivity. Qed.

Lemma r_diag p : r p p == 0.
Proof. rewrite (rel_score_diag n W W_wf). reflexivity. Qed.

Lemma r_unmapped p q : mapped q = false -> r p q == 0.
Proof. apply (rel_score_unmapped n W W_wf). Qed.

Lemma pairsum_filter L : pairsum r (filter mapped L) == pairsum r L.
Proof.
  induction L as [|p L IH]; simpl; [reflexivity|].
  destruct (mapped p) eqn:E.
  - rewrite !pairsum_cons, IH, (rowsum_filter r r_unmapped). reflexivity.
  - rewrite pairsum_cons, IH.
    assert (Hz : rowsum r p L == 0).
    { unfold rowsum. apply Qsum_map_zero. intros q _.
      rewrite r_sym. now apply r_unmapped. }
    rewrite Hz. lra.
Qed.

Lemma self_filter L :
  Qsum (map (self_score W) (filter mapped L)) == Qsum (map (self_score W) L).
Proof.
  induction L as [|p L IH]; simpl; [reflexivity|].
  destruct (mapped p) eqn:E; simpl; rewrite IH; [reflexivity|].
  rewrite (self_score_out n W W_wf p); [lra|].
  now apply unmapped_out.
Qed.

Lemma spec_score_full M : spec_score W M == full_score (enumerate M).
Proof.
  unfold spec_score, full_score, mapped_nodes.
  rewrite self_filter. fold (pairsum (rel_score W) (filter mapped (enumerate M))).
  now rewrite pairsum_filter.
Qed.

Lemma full_score_insert A x B :
  full_score (A ++ x :: B)
  == full_score (A ++ B) + self_score W x + rowsum r x (A ++ B).
Proof.
  unfold full_score.
  rewrite (pairsum_insert r r_sym), !map_app, !Qsum_app. cbn [map Qsum]. lra.
Qed.

(** A row of the code over an enumeration, with no key skipped. *)
Lemma row_all M p : row W M (keep_but None) p == rowsum r p (enumerate M).
Proof. unfold row, rowsum, keep_but. simpl. reflexivity. Qed.

(** A row of the code that skips the keys of node [i]. *)
Lemma row_skip M i p :
  row W M (keep_but (Some i)) p
  == rowsum r p (filter (fun q => negb (fst q =? i)%Z) (enumerate M)).
Proof.
  unfold row, rowsum, keep_but.
  induction (enumerate M) as [|q L IH]; simpl; [reflexivity|].
  destruct (fst q =? i)%Z; simpl; rewrite IH; lra.
Qed.
End FullScore.

(** The mapping around position [i]. *)
Lemma replace_nth_split {A} (l : list A) (i : nat) (a : A) :
  (i < List.length l)%nat ->
  exists x,
    l = (firstn i l ++ x :: skipn (S i) l)%list /\
    nth_error l i = Some x /\
    replace_nth l i a = (firstn i l ++ a :: skipn (S i) l)%list.
Proof.
  revert i. induction l as [|y l IH]; intros [|i] Hi; simpl in *; try lia.
  - exists y. auto.
  - destruct (IH i) as (x & H1 & H2 & H3); [lia|].
    exists x. rewrite <- H1, H3. auto.
Qed.

Lemma enumerate_around (A : list Z) (m : Z) (B : list Z) :
  let i := Z.of_nat (List.length A) in
  enumerate (A ++ m :: B) = (enumerate A ++ (i, m) :: enumerate_from (i + 1) B)%list.
Proof.
  unfold enumerate. rewrite enumerate_from_app. simpl. reflexivity.
Qed.

Lemma nth_error_replace_nth {A} (l : list A) (i j : nat) (a : A) :
  (i < List.length l)%nat ->
  nth_error (replace_nth l i a) j = if (i =? j)%nat then Some a else nth_error l j.
Proof.
  revert i j. induction l as [|y l IH]; intros [|i] [|j] Hi; simpl in *;
    try lia; auto.
  apply IH. lia.
Qed.

Lemma replace_nth_same {A} (l : list A) (i : nat) (x : A) :
  nth_error l i = Some x -> replace_nth l i x = l.
Proof.
  revert i. induction l as [|y l IH]; intros [|i]; simpl; try discriminate.
  - now intros [= ->].
  - intros Hn. now rewrite IH.
Qed.

(** The enumeration of a mapping changed at one position. *)
Lemma enumerate_replace (M : list Z) (i : nat) (y : Z) :
  (i < List.length M)%nat ->
  exists LA LB,
    (forall x, nth_error M i = Some x ->
               enumerate M = (LA ++ (Z.of_nat i, x) :: LB)%list) /\
    enumerate (replace_nth M i y) = (LA ++ (Z.of_nat i, y) :: LB)%list /\
    (forall q, In q LA -> fst q <> Z.of_nat i) /\
    (forall q, In q LB -> fst q <> Z.of_nat i).
Proof.
  intros Hi. destruct (replace_nth_split M i y Hi) as (x & HM & Hx & HM').
  exists (enumerate (firstn i M)),
         (enumerate_from (Z.of_nat i + 1) (skipn (S i) M)).
  assert (Hl : List.length (firstn i M) = i) by (rewrite length_firstn; lia).
  assert (E' : enumerate (replace_nth M i y)
               = (enumerate (firstn i M) ++ (Z.of_nat i, y)
                    :: enumerate_from (Z.of_nat i + 1) (skipn (S i) M))%list).
  { rewrite HM', enumerate_around, Hl. reflexivity. }
  split; [|split; [exact E'|]].
  - intros x' Hx'. rewrite HM at 1. rewrite enumerate_around, Hl. congruence.
  - destruct (enumerate_from_split _ _ _ _ _ E') as [H1 H2].
    split; intros q Hq; [apply H1 in Hq|apply H2 in Hq]; simpl in Hq; lia.
Qed.

Section GainSpec.
Variable n : nat.
Variable W : weight_dict_t.
Hypothesis W_wf : wf_W n W.

#[local] Abbreviation r := (rel_score W).
#[local] Abbreviation rsym := (r_sym n W W_wf).
#[local] Abbreviation rdiag := (r_diag n W W_wf).

(** The full row of a pair against a mapping. *)
Definition Row (p : node_pair) (M : list Z) : Q := rowsum r p (enumerate M).

Lemma Row_replace p M i x y :
  nth_error M i = Some x ->
  Row p (replace_nth M i y)
  == Row p M - r p (Z.of_nat i, x) + r p (Z.of_nat i, y).
Proof.
  intros Hx. assert (Hi : (i < List.length M)%nat).
  { apply nth_error_Some. congruence. }
  destruct (enumerate_replace M i y Hi) as (LA & LB & HM & HM' & _).
  unfold Row. rewrite HM', (HM x Hx), !rowsum_app, !rowsum_cons. lra.
Qed.

Lemma row_skip_at p M i x :
  nth_error M i = Some x ->
  row W M (keep_but (Some (Z.of_nat i))) p == Row p M - r p (Z.of_nat i, x).
Proof.
  intros Hx. assert (Hi : (i < List.length M)%nat).
  { apply nth_error_Some. congruence. }
  destruct (enumerate_replace M i x Hi) as (LA & LB & HM & _ & HA & HB).
  rewrite row_skip. unfold Row. rewrite (HM x Hx).
  rewrite filter_app. cbn [filter fst]. rewrite Z.eqb_refl. cbn [negb].
  assert (Hf : forall L : list node_pair, (forall q, In q L -> fst q <> Z.of_nat i) ->
                 filter (fun q => negb (fst q =? Z.of_nat i)%Z) L = L).
  { induction L as [|q L IH]; intros HL; simpl; auto.
    destruct (Z.eqb_spec (fst q) (Z.of_nat i)) as [He|_].
    - exfalso. apply (HL q); auto. now left.
    - simpl. rewrite IH; auto. intros q' Hq'. apply HL. now right. }
  rewrite !Hf by auto. rewrite !rowsum_app, rowsum_cons. lra.
Qed.

(** Changing one position of the mapping changes the score by the
    self scores and the full rows of the new and the old pair. *)
Lemma move_diff M i x y :
  nth_error M i = Some x ->
  spec_score W (replace_nth M i y) - spec_score W M
  == self_score W (Z.of_nat i, y) + Row (Z.of_nat i, y) (replace_nth M i y)
     - self_score W (Z.of_nat i, x) - Row (Z.of_nat i, x) M.
Proof.
  intros Hx. assert (Hi : (i < List.length M)%nat).
  { apply nth_error_Some. congruence. }
  destruct (enumerate_replace M i y Hi) as (LA & LB & HM & HM' & _).
  rewrite !(spec_score_full n W W_wf). unfold Row.
  rewrite HM', (HM x Hx), !(full_score_insert n W W_wf).
  rewrite !rowsum_app, !rowsum_cons, !rdiag. lra.
Qed.

(** Every memoised mapping of the nodes of AMR 1 holds its score. *)
Definition memo_ok (memo : memo_t) : Prop :=
  forall T v, List.length T = n -> dget memo T = Some v -> v == spec_score W T.

Lemma memo_ok_dset memo T v :
  memo_ok memo -> v == spec_score W T -> memo_ok (dset memo T v).
Proof.
  intros Hm Hv T' v' Hlen. rewrite dget_dset.
  destruct (keqb_spec T' T) as [->|_]; [|now apply Hm].
  intros [= <-]. exact Hv.
Qed.

Variable M : list Z.
Hypothesis M_len : List.length M = n.

Lemma move_gain_spec (i : nat) (old new : Z) (match_num : Q) (memo : memo_t) :
  nth_error M i = Some old ->
  match_num == spec_score W M ->
  memo_ok memo ->
  let M' := replace_nth M i new in
  exists gain memo',
    move_gain M (Z.of_nat i) old new W match_num memo = Ok (gain, memo') /\
    gain == spec_score W M' - spec_score W M /\
    memo_ok memo' /\
    exists v, dget memo' M' = Some v /\ v == match_num + gain.
Proof.
  intros Hold Hnum Hmemo M'.
  assert (Hi : (i < List.length M)%nat) by (apply nth_error_Some; congruence).
  assert (Ha : assign M (Z.of_nat i) new = Ok M') by (now apply assign_nat_Ok).
  unfold move_gain. rewrite Ha. cbn [bind].
  assert (M'_len : List.length M' = n).
  { unfold M'. now rewrite replace_nth_length. }
  destruct (dget memo M') as [saved|] eqn:Hsaved.
  - exists (saved - match_num), memo.
    pose proof (Hmemo _ _ M'_len Hsaved) as Hs.
    split; [reflexivity|]. split; [lra|]. split; [assumption|].
    exists saved. split; [assumption|lra].
  - destruct (gain_scan_spec n W M' W_wf M'_len true None (Z.of_nat i, new) 0)
      as (g1 & H1 & E1).
    destruct (gain_scan_spec n W M W_wf M_len false None (Z.of_nat i, old) g1)
      as (g2 & H2 & E2).
    rewrite H1. cbn [bind]. rewrite H2. cbn [bind].
    assert (Eg : g2 == spec_score W M' - spec_score W M).
    { rewrite E2, E1. unfold M'. rewrite (move_diff M i old new Hold).
      rewrite !(row_all W). unfold Row, sgn. lra. }
    exists g2, (dset memo M' (match_num + g2)).
    split; [reflexivity|]. split; [exact Eg|]. split.
    + apply memo_ok_dset; auto. rewrite Eg, Hnum. lra.
    + exists (match_num + g2). split; [apply dget_dset_same|reflexivity].
Qed.

Lemma swap_gain_spec (i j : nat) (mi mj : Z) (match_num : Q) (memo : memo_t) :
  (i < j)%nat ->
  nth_error M i = Some mi ->
  nth_error M j = Some mj ->
  match_num == spec_score W M ->
  memo_ok memo ->
  let M' := replace_nth (replace_nth M i mj) j mi in
  exists gain memo',
    swap_gain M (Z.of_nat i) mi (Z.of_nat j) mj W match_num memo = Ok (gain, memo') /\
    gain == spec_score W M' - spec_score W M /\
    memo_ok memo' /\
    exists v, dget memo' M' = Some v /\ v == match_num + gain.
Proof.
  intros Hij Hmi Hmj Hnum Hmemo M'.
  set (M1 := replace_nth M i mj).
  assert (Hi : (i < List.length M)%nat) by (apply nth_error_Some; congruence).
  assert (Hj : (j < List.length M)%nat) by (apply nth_error_Some; congruence).
  assert (M1_len : List.length M1 = n).
  { unfold M1. now rewrite replace_nth_length. }
  assert (M'_len : List.length M' = n).
  { unfold M'. now rewrite replace_nth_length. }
  assert (Ha1 : assign M (Z.of_nat i) mj = Ok M1) by (now apply assign_nat_Ok).
  assert (Ha2 : assign M1 (Z.of_nat j) mi = Ok M').
  { apply assign_nat_Ok. split; [lia|reflexivity]. }
  assert (H1j : nth_error M1 j = Some mj).
  { unfold M1. rewrite nth_error_replace_nth by auto.
    destruct (Nat.eqb_spec i j); [lia|auto]. }
  assert (H'i : nth_error M' i = Some mj).
  { unfold M'. rewrite nth_error_replace_nth by (rewrite replace_nth_length; lia).
    destruct (Nat.eqb_spec j i); [lia|].
    fold M1. unfold M1. rewrite nth_error_replace_nth by auto.
    now rewrite Nat.eqb_refl. }
  unfold swap_gain. rewrite Ha1. cbn [bind]. rewrite Ha2. cbn [bind].
  destruct (dget memo M') as [saved|] eqn:Hsaved.
  - exists (saved - match_num), memo.
    pose proof (Hmemo _ _ M'_len Hsaved) as Hs.
    split; [reflexivity|]. split; [lra|]. split; [assumption|].
    exists saved. split; [assumption|lra].
  - destruct (Z.gtb_spec (Z.of_nat i) (Z.of_nat j)); [lia|].
    set (x := (Z.of_nat i, mi)). set (y := (Z.of_nat j, mj)).
    set (x' := (Z.of_nat i, mj)). set (y' := (Z.of_nat j, mi)).
    destruct (gain_scan_spec n W M' W_wf M'_len true None x' 0)
      as (g1 & H1 & E1).
    destruct (gain_scan_spec n W M' W_wf M'_len true (Some (Z.of_nat i)) y' g1)
      as (g2 & H2 & E2).
    destruct (gain_scan_spec n W M W_wf M_len false None x g2)
      as (g3 & H3 & E3).
    destruct (gain_scan_spec n W M W_wf M_len false (Some (Z.of_nat i)) y g3)
      as (g4 & H4 & E4).
    rewrite H1. cbn [bind]. rewrite H2. cbn [bind].
    rewrite H3. cbn [bind]. rewrite H4. cbn [bind].
    assert (Eg : g4 == spec_score W M' - spec_score W M).
    { rewrite E4, E3, E2, E1.
      assert (D1 := move_diff M i mi mj Hmi). fold M1 in D1.
      assert (D2 := move_diff M1 j mj mi H1j).
      change (replace_nth M1 j mi) with M' in D2.
      rewrite !(row_all W).
      rewrite (row_skip_at y' M' i mj H'i), (row_skip_at y M i mi Hmi).
      fold (Row x' M') (Row x M).
      assert (R1 := Row_replace x' M1 j mj mi H1j).
      change (replace_nth M1 j mi) with M' in R1.
      assert (R2 := Row_replace y M i mi mj Hmi). fold M1 in R2.
      fold x x' y y' in D1, D2, R1, R2 |- *.
      pose proof (rsym x' y) as S1. pose proof (rsym x' y') as S2.
      unfold sgn. lra. }
    exists g4, (dset memo M' (match_num + g4)).
    split; [reflexivity|]. split; [exact Eg|]. split.
    + apply memo_ok_dset; auto. rewrite Eg, Hnum. lra.
    + exists (match_num + g4). split; [apply dget_dset_same|reflexivity].
Qed.
End GainSpec.

(** [v] is what [compute_match] computes for [T] from an empty memo. *)
Definition from_scratch (W : weight_dict_t) (T : list Z) (v : Q) : Prop :=
  exists v' m, compute_match T W [] = Ok (v', m) /\ v == v'.

Lemma from_scratch_spec n W T v :
  wf_W n W -> List.length T = n ->
  from_scratch W T v <-> v == spec_score W T.
Proof.
  intros Hwf Hlen.
  destruct (match_loop_spec n W Hwf T Hlen) as (s & Hs & Es).
  unfold from_scratch, compute_match. cbn [dget]. rewrite Hs. cbn [bind].
  split.
  - intros (v' & m & [= <- <-] & Ev). now rewrite Ev.
  - intros Ev. exists s, (dset [] T s). split; auto. now rewrite Ev.
Qed.

(** The tolerance of the consistency check. *)
Definition tolerance : Q := 1 # 1000000000.

Lemma within_tolerance a b : a == b -> Qabs (a - b) <= tolerance.
Proof.
  intros E. assert (Hz : a - b == 0) by lra.
  rewrite Hz. discriminate.
Qed.



(* ------------------------------------------------------------------ *)
(** ** The best neighbour *)

(** A loop whose every step succeeds, keeps an invariant, moves the
    state up a preorder and covers the element it handles: the loop
    succeeds, and at its end every element is covered. *)
Lemma foldM_progress {S A} (I : S -> Prop) (le : S -> S -> Prop)
    (cov : A -> S -> Prop) (f : S -> A -> result S) (l : list A) :
  (forall s, le s s) ->
  (forall s1 s2 s3, le s1 s2 -> le s2 s3 -> le s1 s3) ->
  (forall a s s', cov a s -> le s s' -> cov a s') ->
  (forall s a, In a l -> I s ->
     exists s', f s a = Ok s' /\ I s' /\ le s s' /\ cov a s') ->
  forall s, I s ->
    exists s', foldM f l s = Ok s' /\ I s' /\ le s s' /\
               forall a, In a l -> cov a s'.
Proof.
  intros Hrefl Htrans Hmono. induction l as [|a l IH]; intros Hstep s Hs.
  - exists s. simpl. repeat split; auto. intros a [].
  - destruct (Hstep s a (or_introl eq_refl) Hs) as (s1 & H1 & I1 & L1 & C1).
    destruct (IH (fun s a Hin => Hstep s a (or_intror Hin)) s1 I1)
      as (s' & H' & I' & L' & C').
    exists s'. simpl. rewrite H1. simpl. repeat split; eauto.
    intros b [<-|Hb]; eauto.
Qed.

Lemma Qgtb_true x y : Qgtb x y = true <-> y < x.
Proof.
  unfold Qgtb. rewrite negb_true_iff. split.
  - intros Hf. apply Qnot_le_lt. intros Hle. apply Qle_bool_iff in Hle. congruence.
  - intros Hlt. apply not_true_is_false. intros Hle. apply Qle_bool_iff in Hle. lra.
Qed.

Lemma Qgtb_false x y : Qgtb x y = false <-> x <= y.
Proof.
  unfold Qgtb. rewrite negb_false_iff. apply Qle_bool_iff.
Qed.

Lemma zrange_In a k j : In j (zrange a k) <-> (a <= j < a + Z.of_nat k)%Z.
Proof.
  revert a. induction k as [|k IH]; intros a; simpl.
  - lia.
  - rewrite IH. lia.
Qed.

Lemma enumerate_In_nat {A} (l : list A) (i : Z) (x : A) :
  In (i, x) (enumerate l) ->
  exists i', i = Z.of_nat i' /\ nth_error l i' = Some x /\ (i' < List.length l)%nat.
Proof.
  intros Hin. apply enumerate_In in Hin as [Hi Hn].
  exists (Z.to_nat i). split; [lia|]. split; auto.
  apply nth_error_Some. congruence.
Qed.

(** The mappings one step away from [M], as [get_best_gain] walks them. *)
Inductive neighbor (C : list pyset) (len : nat) (M : list Z) : list Z -> Prop :=
| nb_move (i : nat) (old nm : Z) (cands : pyset) :
    nth_error M i = Some old ->
    In nm (unmatched_nodes M len) ->
    nth_error C i = Some cands ->
    set_mem nm cands = true ->
    neighbor C len M (replace_nth M i nm)
| nb_swap (i j : nat) (mi mj : Z) :
    (i < j)%nat ->
    nth_error M i = Some mi ->
    nth_error M j = Some mj ->
    neighbor C len M (replace_nth (replace_nth M i mj) j mi).

Section BestGain.
Variable n : nat.
Variable W : weight_dict_t.
Hypothesis W_wf : wf_W n W.
Variable M : list Z.
Hypothesis M_len : List.length M = n.
Variable C : list pyset.
Hypothesis C_len : List.length C = n.
Variable len : nat.
Variable match_num : Q.
Hypothesis match_num_ok : match_num == spec_score W M.

(** The step to [N] gains no more than the best gain so far. *)
Definition dominated (b : best_t) (N : list Z) : Prop :=
  spec_score W N - spec_score W M <= largest_gain b.

Definition best_ok (b : best_t) : Prop :=
  (node1 b = None /\ node2 b = None /\ largest_gain b = 0) \/
  (exists N, apply_best M b = Ok N /\ neighbor C len M N /\
             largest_gain b == spec_score W N - spec_score W M /\
             0 < largest_gain b).

Definition best_inv (st : best_t * memo_t) : Prop :=
  best_ok (fst st) /\ memo_ok n W (snd st) /\ 0 <= largest_gain (fst st).

Definition best_le (s s' : best_t * memo_t) : Prop :=
  largest_gain (fst s) <= largest_gain (fst s').

Lemma move_body_spec (i : nat) (nid nm : Z) (st : best_t * memo_t) :
  nth_error M i = Some nid ->
  In nm (unmatched_nodes M len) ->
  best_inv st ->
  exists st',
    move_body M C W match_num (Z.of_nat i) nid st nm = Ok st' /\
    best_inv st' /\ best_le st st' /\
    (forall cands, nth_error C i = Some cands -> set_mem nm cands = true ->
                   dominated (fst st') (replace_nth M i nm)).
Proof.
  intros Hnid Hnm [Hb [Hmemo Hpos]]. destruct st as [b memo]. simpl in *.
  assert (Hi : (i < List.length M)%nat) by (apply nth_error_Some; congruence).
  destruct (nth_error C i) as [cands|] eqn:HC.
  2:{ apply nth_error_None in HC. lia. }
  unfold move_body. rewrite (proj2 (index_nat_Ok C i cands) HC). cbn [bind].
  destruct (set_mem nm cands) eqn:Hmem.
  - destruct (move_gain_spec n W W_wf M M_len i nid nm match_num memo
                Hnid match_num_ok Hmemo) as (g & memo' & Hg & Eg & Hmemo' & _).
    rewrite Hg. cbn [bind].
    destruct (Qgtb g (largest_gain b)) eqn:Hgt.
    + apply Qgtb_true in Hgt.
      exists (Best g false (Some (Z.of_nat i)) (Some nm), memo').
      split; [reflexivity|]. unfold best_inv, best_le, dominated. simpl.
      repeat split; auto; try (simpl; lra).
      * right. exists (replace_nth M i nm). repeat split; auto; try (simpl; lra).
        -- unfold apply_best. simpl. now apply assign_nat_Ok.
        -- eapply nb_move; eauto.
      * intros c [= <-] _. lra.
    + apply Qgtb_false in Hgt.
      exists (b, memo'). split; [reflexivity|].
      unfold best_inv, best_le, dominated. simpl.
      repeat split; auto; try (simpl; lra).
      intros c [= <-] _. lra.
  - exists (b, memo). split; [reflexivity|].
    unfold best_inv, best_le. simpl. repeat split; auto; try (simpl; lra).
    intros c [= <-]. congruence.
Qed.

Lemma swap_body_spec (i j : nat) (mi mj : Z) (st : best_t * memo_t) :
  (i < j)%nat ->
  nth_error M i = Some mi ->
  nth_error M j = Some mj ->
  best_inv st ->
  exists st',
    swap_body M W match_num (Z.of_nat i) mi st (Z.of_nat j) = Ok st' /\
    best_inv st' /\ best_le st st' /\
    dominated (fst st') (replace_nth (replace_nth M i mj) j mi).
Proof.
  intros Hij Hmi Hmj [Hb [Hmemo Hpos]]. destruct st as [b memo]. simpl in *.
  assert (Hi : (i < List.length M)%nat) by (apply nth_error_Some; congruence).
  assert (Hj : (j < List.length M)%nat) by (apply nth_error_Some; congruence).
  unfold swap_body. rewrite (proj2 (index_nat_Ok M j mj) Hmj). cbn [bind].
  destruct (swap_gain_spec n W W_wf M M_len i j mi mj match_num memo
              Hij Hmi Hmj match_num_ok Hmemo) as (g & memo' & Hg & Eg & Hmemo' & _).
  rewrite Hg. cbn [bind].
  destruct (Qgtb g (largest_gain b)) eqn:Hgt.
  - apply Qgtb_true in Hgt.
    exists (Best g true (Some (Z.of_nat i)) (Some (Z.of_nat j)), memo').
    split; [reflexivity|]. unfold best_inv, best_le, dominated. simpl.
    repeat split; auto; try (simpl; lra).
    right. exists (replace_nth (replace_nth M i mj) j mi).
    repeat split; auto; try (simpl; lra).
    + unfold apply_best. simpl.
      rewrite (proj2 (index_nat_Ok M i mi) Hmi). cbn [bind].
      rewrite (proj2 (index_nat_Ok M j mj) Hmj). cbn [bind].
      rewrite (proj2 (assign_nat_Ok M _ i mj) (conj Hi eq_refl)). cbn [bind].
      apply assign_nat_Ok. rewrite replace_nth_length. auto.
    + eapply nb_swap; eauto.
  - apply Qgtb_false in Hgt.
    exists (b, memo'). split; [reflexivity|].
    unfold best_inv, best_le, dominated. simpl.
    repeat split; auto; try (simpl; lra).
Qed.

Lemma best_le_refl s : best_le s s.
Proof. unfold best_le. lra. Qed.

Lemma best_le_trans s1 s2 s3 : best_le s1 s2 -> best_le s2 s3 -> best_le s1 s3.
Proof. unfold best_le. lra. Qed.

Lemma dominated_mono b b' N :
  dominated b N -> largest_gain b <= largest_gain b' -> dominated b' N.
Proof. unfold dominated. lra. Qed.

(** The search for the best neighbour succeeds; the gain it returns is
    at least [0] and at least the gain of every neighbour; it is either
    [0], with the mapping unchanged, or the gain of the neighbour it
    returns. *)
Lemma get_best_gain_spec (memo : memo_t) :
  memo_ok n W memo ->
  exists gain M' memo',
    get_best_gain M C W len match_num memo = Ok (gain, M', memo') /\
    memo_ok n W memo' /\
    0 <= gain /\
    (forall N, neighbor C len M N -> spec_score W N - spec_score W M <= gain) /\
    ((gain = 0 /\ M' = M) \/
     (0 < gain /\ neighbor C len M M' /\ gain == spec_score W M' - spec_score W M)).
Proof.
  intros Hmemo. unfold get_best_gain.
  (* moves *)
  destruct (foldM_progress best_inv best_le
              (fun (inid : Z * Z) st =>
                 forall i nm cands,
                   fst inid = Z.of_nat i -> In nm (unmatched_nodes M len) ->
                   nth_error C i = Some cands -> set_mem nm cands = true ->
                   dominated (fst st) (replace_nth M i nm))
              (move_loop M C W match_num (unmatched_nodes M len))
              (enumerate M) best_le_refl best_le_trans)
    with (s := (Best 0 true None None, memo))
    as (st1 & H1 & I1 & _ & C1).
  { intros a s s' Hc Hle i nm cands Hi Hnm HC Hmem.
    eapply dominated_mono; eauto. }
  { intros s [i nid] Hin Is.
    apply enumerate_In_nat in Hin as (i' & -> & Hnid & Hi').
    unfold move_loop.
    destruct (foldM_progress best_inv best_le
                (fun nm st =>
                   forall cands, nth_error C i' = Some cands ->
                                 set_mem nm cands = true ->
                                 dominated (fst st) (replace_nth M i' nm))
                (move_body M C W match_num (Z.of_nat i') nid)
                (unmatched_nodes M len) best_le_refl best_le_trans)
      with (s := s) as (s' & H' & I' & L' & C'); auto.
    { intros a s0 s0' Hc Hle cands HC Hmem. eapply dominated_mono; eauto. }
    { intros s0 nm Hnm Is0. now apply move_body_spec. }
    exists s'. split; [exact H'|]. split; [exact I'|]. split; [exact L'|].
    intros i nm cands Hi Hnm HC Hmem. simpl in Hi.
    apply Nat2Z.inj in Hi. subst i. eauto. }
  { unfold best_inv. simpl. repeat split; auto; try (simpl; lra). left. auto. }
  rewrite H1. cbn [bind].
  (* swaps *)
  destruct (foldM_progress best_inv best_le
              (fun (im : Z * Z) st =>
                 forall i j mi mj,
                   fst im = Z.of_nat i -> (i < j)%nat ->
                   nth_error M i = Some mi -> nth_error M j = Some mj ->
                   dominated (fst st) (replace_nth (replace_nth M i mj) j mi))
              (swap_loop M W match_num)
              (enumerate M) best_le_refl best_le_trans)
    with (s := st1)
    as (st2 & H2 & I2 & L2 & C2); auto.
  { intros a s s' Hc Hle i j mi mj Hi Hij Hmi Hmj.
    eapply dominated_mono; eauto. }
  { intros s [i m] Hin Is.
    apply enumerate_In_nat in Hin as (i' & -> & Hm & Hi').
    unfold swap_loop.
    destruct (foldM_progress best_inv best_le
                (fun j st =>
                   forall j' mj, j = Z.of_nat j' -> nth_error M j' = Some mj ->
                     dominated (fst st) (replace_nth (replace_nth M i' mj) j' m))
                (swap_body M W match_num (Z.of_nat i') m)
                (zrange (Z.of_nat i' + 1)
                        (List.length M - Z.to_nat (Z.of_nat i' + 1)))
                best_le_refl best_le_trans)
      with (s := s) as (s' & H' & I' & L' & C'); auto.
    { intros a s0 s0' Hc Hle j' mj Hj Hmj. eapply dominated_mono; eauto. }
    { intros s0 j Hj Is0. apply zrange_In in Hj.
      assert (Hj' : j = Z.of_nat (Z.to_nat j)) by lia.
      destruct (nth_error M (Z.to_nat j)) as [mj|] eqn:Hmj.
      2:{ apply nth_error_None in Hmj. lia. }
      rewrite Hj'.
      destruct (swap_body_spec i' (Z.to_nat j) m mj s0) as (s0' & Hs & Is' & Ls & Ds);
        auto; [lia|].
      exists s0'. split; [exact Hs|]. split; [exact Is'|]. split; [exact Ls|].
      intros j' mj' Hjj Hmj'. apply Nat2Z.inj in Hjj. subst j'.
      congruence. }
    exists s'. split; [exact H'|]. split; [exact I'|]. split; [exact L'|].
    intros i j mi mj Hi Hij Hmi Hmj. simpl in Hi.
    apply Nat2Z.inj in Hi. subst i.
    assert (mi = m) by congruence. subst mi.
    apply (C' (Z.of_nat j)); auto.
    apply zrange_In.
    assert (j < List.length M)%nat by (apply nth_error_Some; congruence).
    lia. }
  rewrite H2. cbn [bind].
  destruct st2 as [b memo2]. destruct I2 as [Hb [Hmemo2 Hpos]]. simpl in *.
  assert (Hdom : forall N, neighbor C len M N -> dominated b N).
  { intros N HN. destruct HN as [i old nm cands Hold Hnm HC Hmem|i j mi mj Hij Hmi Hmj].
    - assert (Hin : In (Z.of_nat i, old) (enumerate M)).
      { apply enumerate_In. rewrite Nat2Z.id. split; [lia|auto]. }
      eapply dominated_mono; [|exact L2].
      eapply (C1 _ Hin); eauto.
    - assert (Hin : In (Z.of_nat i, mi) (enumerate M)).
      { apply enumerate_In. rewrite Nat2Z.id. split; [lia|auto]. }
      eapply (C2 _ Hin); eauto. }
  destruct Hb as [(Hn1 & Hn2 & Hz)|(N & HN & Hnb & Eg & Hgt)].
  - exists (largest_gain b), M, memo2.
    unfold apply_best. rewrite Hn1. cbn [bind].
    repeat split; auto.
  - exists (largest_gain b), N, memo2. rewrite HN. cbn [bind].
    repeat split; auto.
Qed.
End BestGain.

(* ------------------------------------------------------------------ *)
(** ** The hill-climbing loop *)

Lemma climb_body_inv C W len cur match_num memo next :
  climb_body C W len (cur, match_num, memo) = Ok next ->
  exists gain new_mapping memo',
    get_best_gain cur C W len match_num memo = Ok (gain, new_mapping, memo') /\
    ((gain <= epsilon /\ next = inl (cur, match_num, memo')) \/
     (epsilon < gain /\ next = inr (new_mapping, match_num + gain, memo'))).
Proof.
  unfold climb_body. intros Hb.
  apply bind_Ok in Hb as ([[gain new_mapping] memo'] & Hg & Hb).
  exists gain, new_mapping, memo'. split; auto.
  destruct (Qle_bool gain epsilon) eqn:E.
  - left. apply Qle_bool_iff in E. injection Hb as <-. auto.
  - right. injection Hb as <-. split; auto.
    apply Qnot_le_lt. intros Hle. apply Qle_bool_iff in Hle. congruence.
Qed.

(** The running match numbers of one restart, oldest first. *)
Fixpoint climb_trace (fuel : nat) (C : list pyset) (W : weight_dict_t) (len : nat)
    (st : climb_state) : list Q :=
  match fuel with
  | O => [snd (fst st)]
  | S fuel' =>
      match climb_body C W len st with
      | Ok (inr st') => snd (fst st) :: climb_trace fuel' C W len st'
      | _ => [snd (fst st)]
      end
  end.

Lemma epsilon_pos : 0 < epsilon.
Proof. reflexivity. Qed.

Lemma climb_step_up C W len st st' :
  climb_body C W len st = Ok (inr st') -> snd (fst st) < snd (fst st').
Proof.
  destruct st as [[cur mn] memo]. intros Hb.
  apply climb_body_inv in Hb as (gain & new & memo' & _ & [[_ [=]]|[Hgt [= ->]]]).
  simpl. pose proof epsilon_pos. lra.
Qed.

Lemma climb_trace_ge fuel C W len st x :
  In x (climb_trace fuel C W len st) -> snd (fst st) <= x.
Proof.
  revert st. induction fuel as [|fuel IH]; intros st; simpl.
  - intros [<-|[]]. lra.
  - destruct (climb_body C W len st) as [[final|st']|e] eqn:Hb;
      try (intros [<-|[]]; lra).
    intros [<-|Hin]; [lra|].
    apply IH in Hin. apply climb_step_up in Hb. lra.
Qed.

Lemma climb_trace_sorted fuel C W len st :
  StronglySorted Qle (climb_trace fuel C W len st).
Proof.
  revert st. induction fuel as [|fuel IH]; intros st; simpl.
  - repeat constructor.
  - destruct (climb_body C W len st) as [[final|st']|e] eqn:Hb;
      try (repeat constructor).
    + apply IH.
    + apply Forall_forall. intros x Hx.
      apply climb_trace_ge in Hx. apply climb_step_up in Hb. lra.
Qed.

Lemma hill_climb_last fuel C W len st final :
  hill_climb fuel C W len st = Ok final ->
  last (climb_trace fuel C W len st) 0 = snd (fst final).
Proof.
  revert st. induction fuel as [|fuel IH]; intros st; simpl; [discriminate|].
  intros Hh. apply bind_Ok in Hh as (next & Hb & Hh). rewrite Hb.
  destruct next as [fin|st'].
  - injection Hh as <-. destruct st as [[cur mn] memo].
    apply climb_body_inv in Hb as (g & new & memo' & _ & [[_ [= ->]]|[_ [=]]]).
    reflexivity.
  - specialize (IH _ Hh).
    destruct (climb_trace fuel C W len st') eqn:E; [|exact IH].
    destruct fuel; simpl in E; [discriminate|].
    destruct (climb_body C W len st') as [[?|?]|?]; discriminate.
Qed.

Definition swapped_start : climb_state := ([1; 0]%Z, 0, []).

Definition hit_boy_pool : list pyset * weight_dict_t :=
  ([[0; 1]%Z; [0; 1]%Z],
   [((0, 0)%Z, [(KSelf, 2); (KPair (1, 1)%Z, 1)]); ((0, 1)%Z, [(KSelf, 0)]);
    ((1, 0)%Z, [(KSelf, 0)]); ((1, 1)%Z, [(KSelf, 1); (KPair (0, 0)%Z, 1)])]).

(** C7.  In one restart of the hill-climbing loop: an iteration goes
    round again only when the gain that [get_best_gain] returns is
    above [1e-10], and then the match number grows by exactly that
    gain; it breaks, leaving mapping and match number as they are, as
    soon as the gain is at or below [1e-10]; so the running match
    numbers never decrease, and the loop returns the last of them.
    On a pool built by [compute_pool], with the match number being the
    score of the mapping, that gain is the largest over all neighbours:
    at least [0], at least the gain of each move and swap, and if not
    [0] the gain of the neighbour returned. *)
Theorem hill_climb_monotone (C : list pyset) (W : weight_dict_t) (len : nat) :
  (forall cur match_num memo next,
     climb_body C W len (cur, match_num, memo) = Ok next ->
     exists gain new_mapping memo',
       get_best_gain cur C W len match_num memo = Ok (gain, new_mapping, memo') /\
       ((gain <= epsilon /\ next = inl (cur, match_num, memo')) \/
        (epsilon < gain /\ next = inr (new_mapping, match_num + gain, memo') /\
         match_num <= match_num + gain))) /\
  (forall fuel st, StronglySorted Qle (climb_trace fuel C W len st)) /\
  (forall fuel st final,
     hill_climb fuel C W len st = Ok final ->
     last (climb_trace fuel C W len st) 0 = snd (fst final) /\
     snd (fst st) <= snd (fst final)) /\
  (forall n cur match_num memo,
     wf_W n W -> List.length cur = n -> List.length C = n ->
     match_num == spec_score W cur -> memo_ok n W memo ->
     exists gain new_mapping memo',
       get_best_gain cur C W len match_num memo = Ok (gain, new_mapping, memo') /\
       0 <= gain /\
       (forall N, neighbor C len cur N ->
                  spec_score W N - spec_score W cur <= gain) /\
       ((gain = 0 /\ new_mapping = cur) \/
        (neighbor C len cur new_mapping /\
         gain == spec_score W new_mapping - spec_score W cur))).
Proof.
  split; [|split; [|split]].
  - intros cur mn memo next Hb.
    apply climb_body_inv in Hb as (gain & new & memo' & Hg & Hcase).
    exists gain, new, memo'. split; auto.
    destruct Hcase as [?|[Hgt ->]]; auto.
    right. repeat split; auto. pose proof epsilon_pos. lra.
  - intros. apply climb_trace_sorted.
  - intros fuel st final Hh. pose proof (hill_climb_last _ _ _ _ _ _ Hh) as Hl.
    split; auto. rewrite <- Hl.
    apply (climb_trace_ge fuel C W len st).
    assert (Hne : climb_trace fuel C W len st <> []).
    { destruct fuel; simpl; [discriminate|].
      destruct (climb_body C W len st) as [[?|?]|?]; discriminate. }
    destruct (exists_last Hne) as (l' & x & E). rewrite E.
    rewrite last_last. apply in_elt.
  - intros n cur mn memo Hwf Hcur HC Hmn Hmemo.
    destruct (get_best_gain_spec n W Hwf cur Hcur C HC len mn Hmn memo Hmemo)
      as (gain & new & memo' & Hg & _ & Hpos & Hdom & Hcase).
    exists gain, new, memo'. repeat split; auto.
    destruct Hcase as [?|(_ & ? & ?)]; auto.
Qed.

Lemma hill_climb_monotone_witness :
  (exists memo,
     hill_climb 5 (fst hit_boy_pool) (snd hit_boy_pool) 2 swapped_start
       = Ok ([0; 1]%Z, 0 + 4, memo)) /\
  climb_trace 5 (fst hit_boy_pool) (snd hit_boy_pool) 2 swapped_start
    = [0; 0 + 4] /\
  StronglySorted Qle
    (climb_trace 5 (fst hit_boy_pool) (snd hit_boy_pool) 2 swapped_start).
Proof.
  split; [eexists; vm_compute; reflexivity|]. split; [vm_compute; reflexivity|].
  apply (proj1 (proj2 (hill_climb_monotone (fst hit_boy_pool) (snd hit_boy_pool) 2))).
Defined.

(* ------------------------------------------------------------------ *)
(** ** Bookkeeping for loops that accumulate a score *)

(** A loop whose [k]-th step succeeds from every state that satisfies
    the invariant at [k], and moves a measure of the state by an amount
    between [lo] and [up] of the element: the loop succeeds and the
    measure moved between the sums. *)
Lemma foldM_ledger {S A} (I : nat -> S -> Prop) (phi : S -> Q) (lo up : A -> Q)
    (f : S -> A -> result S) (l : list A) :
  (forall k s a, nth_error l k = Some a -> I k s ->
     exists s', f s a = Ok s' /\ I (Datatypes.S k) s' /\
                phi s + lo a <= phi s' /\ phi s' <= phi s + up a) ->
  forall s, I O s ->
    exists s', foldM f l s = Ok s' /\ I (List.length l) s' /\
               phi s + Qsum (map lo l) <= phi s' /\
               phi s' <= phi s + Qsum (map up l).
Proof.
  revert I. induction l as [|a l IH]; intros I Hstep s Hs.
  - exists s. simpl. repeat split; auto; lra.
  - destruct (Hstep O s a eq_refl Hs) as (s1 & H1 & I1 & L1 & U1).
    destruct (IH (fun k => I (Datatypes.S k))
                 (fun k s a Hn => Hstep (Datatypes.S k) s a Hn) s1 I1)
      as (s' & H' & I' & L' & U').
    exists s'. simpl. rewrite H1. simpl. repeat split; auto; lra.
Qed.

(** At most one element of a duplicate-free list carries the key [k0];
    a weight in [[0, 1]] that vanishes off that key sums to at most 1. *)
Lemma sum_at_most_one {A K} (key : A -> K) (k0 : K) (g : A -> Q) (l : list A) :
  NoDup (map key l) ->
  (forall x, In x l -> 0 <= g x /\ g x <= 1) ->
  (forall x, In x l -> key x <> k0 -> g x == 0) ->
  Qsum (map g l) <= 1.
Proof.
  induction l as [|x l IH]; simpl; intros Hnd Hb Hz; [lra|].
  inversion Hnd as [|? ? Hni Hnd']; subst.
  destruct (Hb x (or_introl eq_refl)) as [H0 H1].
  assert (Hrest : 0 <= Qsum (map g l)).
  { apply Qsum_map_nonneg. intros y Hy. apply Hb. now right. }
  assert (Hcases : g x == 0 \/ Qsum (map g l) == 0).
  { destruct (Qeq_dec (g x) 0) as [E|E]; [now left|right].
    apply Qsum_map_zero. intros y Hy. apply Hz; [now right|].
    intros Hk. apply E. apply Hz; [now left|].
    intros Hkx. apply Hni. rewrite Hkx, <- Hk. now apply in_map. }
  destruct Hcases as [E|E]; rewrite E.
  - assert (Qsum (map g l) <= 1); [|lra].
    apply IH; auto.
  - lra.
Qed.

Lemma sum_ge_member {A} (g : A -> Q) (l : list A) (x : A) :
  In x l -> (forall y, In y l -> 0 <= g y) -> g x <= Qsum (map g l).
Proof.
  induction l as [|y l IH]; simpl; intros Hin Hpos; [easy|].
  assert (0 <= g y) by auto.
  assert (0 <= Qsum (map g l)).
  { apply Qsum_map_nonneg. auto. }
  destruct Hin as [->|Hin]; [lra|].
  assert (g x <= Qsum (map g l)) by auto. lra.
Qed.

Lemma Qsum_map_const {A} (c : Q) (l : list A) :
  Qsum (map (fun _ => c) l) == inject_Z (Z.of_nat (List.length l)) * c.
Proof.
  induction l as [|x l IH].
  - change (0 == 0 * c). lra.
  - cbn [map Qsum List.length]. rewrite IH, Nat2Z.inj_succ. unfold Z.succ.
    rewrite inject_Z_plus. change (inject_Z 1) with 1. lra.
Qed.

(* ------------------------------------------------------------------ *)
(** ** How one update of the pool moves the score of a mapping *)

(** [1] if [p] is in the list, for a list without duplicates. *)
Definition count_in (p : node_pair) (L : list node_pair) : Q :=
  Qsum (map (fun q => if keqb q p then 1 else 0) L).

Definition count_pair (p q : node_pair) (L : list node_pair) : Q :=
  Qsum (map (fun ab => if keqb ab (p, q) then 1 else 0) (ordered_pairs L)).

Lemma Qsum_scale {A} (P : A -> bool) (x : Q) (l : list A) :
  Qsum (map (fun a => if P a then x else 0) l)
  == x * Qsum (map (fun a => if P a then 1 else 0) l).
Proof.
  induction l as [|a l IH]; simpl; [lra|]. rewrite IH. destruct (P a); lra.
Qed.

Lemma spec_score_add_self W W' M p x :
  (forall q, self_score W' q == self_score W q + (if keqb q p then x else 0)) ->
  (forall a b, rel_score W' a b == rel_score W a b) ->
  spec_score W' M == spec_score W M + x * count_in p (mapped_nodes M).
Proof.
  intros Hs Hr. unfold spec_score, count_in.
  rewrite (Qsum_map_ext (self_score W')
             (fun q => self_score W q + (if keqb q p then x else 0)))
    by (intros; apply Hs).
  rewrite Qsum_map_plus, Qsum_scale.
  rewrite (Qsum_map_ext (fun pq => rel_score W' (fst pq) (snd pq))
             (fun pq => rel_score W (fst pq) (snd pq)))
    by (intros; apply Hr).
  lra.
Qed.

Lemma spec_score_add_rel W W' M p1 p2 :
  (forall q, self_score W' q == self_score W q) ->
  (forall a b, rel_score W' a b
               == rel_score W a b
                  + (if keqb (a, b) (p1, p2) then 1 else 0)
                  + (if keqb (a, b) (p2, p1) then 1 else 0)) ->
  spec_score W' M
  == spec_score W M + count_pair p1 p2 (mapped_nodes M)
     + count_pair p2 p1 (mapped_nodes M).
Proof.
  intros Hs Hr. unfold spec_score, count_pair.
  rewrite (Qsum_map_ext (self_score W') (self_score W)) by (intros; apply Hs).
  rewrite (Qsum_map_ext (fun pq => rel_score W' (fst pq) (snd pq))
             (fun pq => (rel_score W (fst pq) (snd pq)
                         + (if keqb pq (p1, p2) then 1 else 0))
                        + (if keqb pq (p2, p1) then 1 else 0))).
  - rewrite !Qsum_map_plus. lra.
  - intros [a b] _. simpl. apply Hr.
Qed.

(** The effect of [add_self] and of the two [add_rel] on the scores. *)
Lemma add_self_self_score W W' p x q :
  add_self W p x = Ok W' ->
  self_score W' q == self_score W q + (if keqb q p then x else 0).
Proof.
  intros Ha. unfold self_score. rewrite (add_self_inner _ _ _ _ q Ha).
  destruct (keqb_spec q p) as [->|_]; [|lra].
  unfold add_self in Ha. destruct (dget W p) as [inner|].
  - unfold self_of. destruct (dget inner KSelf) as [v|]; [|discriminate].
    rewrite dget_dset_same. lra.
  - unfold self_of. simpl. lra.
Qed.

Lemma add_self_rel_score W W' p x a b :
  add_self W p x = Ok W' -> rel_score W' a b == rel_score W a b.
Proof.
  intros Ha. unfold rel_score. rewrite (add_self_rel_entry _ _ _ _ a b Ha).
  reflexivity.
Qed.

Lemma add_rel_self_score W p1 p2 q :
  self_score (add_rel W p1 p2) q == self_score W q.
Proof.
  unfold self_score. rewrite add_rel_inner.
  destruct (keqb_spec q p1) as [->|_]; [|reflexivity].
  unfold self_of. rewrite dget_dset_other by discriminate.
  destruct (dget W p1); reflexivity.
Qed.

Lemma add_rel_rel_score W p1 p2 a b :
  (forall v, rel_entry W p1 p2 = Some v -> True) ->
  rel_score (add_rel W p1 p2) a b
  == rel_score W a b + (if keqb (a, b) (p1, p2) then 1 else 0).
Proof.
  intros _. unfold rel_score. rewrite add_rel_rel_entry.
  change (keqb (a, b) (p1, p2)) with (keqb a p1 && keqb b p2).
  destruct (keqb_spec a p1) as [->|_]; simpl; [|lra].
  destruct (keqb_spec b p2) as [->|_]; simpl; [|lra].
  unfold rel_bump. destruct (rel_entry W p1 p2); lra.
Qed.

Lemma add_rel_both_rel_score W p1 p2 a b :
  rel_score (add_rel (add_rel W p1 p2) p2 p1) a b
  == rel_score W a b
     + (if keqb (a, b) (p1, p2) then 1 else 0)
     + (if keqb (a, b) (p2, p1) then 1 else 0).
Proof.
  rewrite add_rel_rel_score by auto. rewrite add_rel_rel_score by auto. lra.
Qed.

(* ------------------------------------------------------------------ *)
(** ** The similarity cache *)

Lemma cache_key_split (a b c d : string) :
  contains "_" a = false -> contains "_" c = false ->
  (a ++ "_" ++ b)%string = (c ++ "_" ++ d)%string -> a = c /\ b = d.
Proof.
  revert c. induction a as [|x a IH]; intros [|y c]; simpl; intros Ha Hc He.
  - injection He as ->. auto.
  - injection He as <- _. simpl in Hc. discriminate.
  - injection He as -> _. simpl in Ha. discriminate.
  - injection He as <- He. apply orb_false_iff in Ha as [_ Ha].
    apply orb_false_iff in Hc as [_ Hc].
    destruct (IH c Ha Hc He) as [-> ->]. auto.
Qed.

Section SimBounds.
Variable vectors : vecs_t.
Variables cutoff diffsense : Q.
Variable f : simfun_t.
Hypothesis f_range : forall a b, 0 <= f a b /\ f a b <= 1.
Hypothesis diffsense_range : 0 <= diffsense /\ diffsense <= 1.

(** With a similarity function and a sense discount in [[0, 1]],
    [maybe_sim] raises nothing and answers in [[0, 1]]; on equal
    labels it answers [1]. *)
Lemma maybe_sim_range a b mwp :
  exists s, maybe_sim a b vectors cutoff diffsense (Some f) mwp = Ok s /\
            0 <= s /\ s <= 1 /\ (a = b -> s = 1).
Proof.
  unfold maybe_sim. destruct (String.eqb_spec a b) as [->|Hne].
  { exists 1. split; [reflexivity|]. split; [lra|]. split; [lra|]. auto. }
  assert (Hany : forall s, 0 <= s -> s <= 1 ->
            exists s', Ok s = Ok s' /\ 0 <= s' /\ s' <= 1 /\ (a = b -> s' = 1)).
  { intros s H0 H1. exists s. split; [reflexivity|]. split; [exact H0|].
    split; [exact H1|]. intros; contradiction. }
  assert (Hd : exists s, Ok (1 * diffsense) = Ok s /\ 0 <= s /\ s <= 1 /\ (a = b -> s = 1))
    by (apply Hany; lra).
  assert (Hz : exists s, Ok 0 = Ok s /\ 0 <= s /\ s <= 1 /\ (a = b -> s = 1))
    by (apply Hany; lra).
  destruct (truthy (wo_sense a) && truthy (wo_sense b)
            && (str_of (wo_sense a) =s str_of (wo_sense b))); auto.
  destruct (truthy (wo_sense a) && (str_of (wo_sense a) =s b)); auto.
  destruct (truthy (wo_sense b) && (str_of (wo_sense b) =s a)); auto.
  destruct (if truthy (wo_sense a)
            then maybe_get_vec (str_of (wo_sense a)) vectors "None"
            else maybe_get_vec a vectors mwp) as [a_vec|]; auto.
  destruct (if truthy (wo_sense b)
            then maybe_get_vec (str_of (wo_sense b)) vectors "None"
            else maybe_get_vec b vectors mwp) as [b_vec|]; auto.
  cbn [call_simfun bind].
  match goal with |- context [f ?u ?v] => destruct (f_range u v) as [H0 H1];
                                          set (sim := f u v) in * end.
  destruct (Qeq_bool sim 0); auto.
  destruct (Qgtb sim cutoff); auto.
  destruct (truthy (wo_sense a) || truthy (wo_sense b)).
  - apply Hany; nra.
  - apply Hany; auto.
Qed.

(** Every cached value lies in [[0, 1]]. *)
Definition sd_bounded (sd : sim_dict_t) : Prop :=
  forall k v, dget sd k = Some v -> 0 <= v /\ v <= 1.

(** In addition, the key of an underscore-free label with itself holds [1]. *)
Definition sd_exact (sd : sim_dict_t) : Prop :=
  forall a v, contains "_" a = false ->
              dget sd (a ++ "_" ++ a)%string = Some v -> v = 1.

Lemma maybe_has_sim_range a b sd mwp :
  sd_bounded sd ->
  exists s sd',
    maybe_has_sim a b sd vectors cutoff diffsense (Some f) mwp = Ok (s, sd') /\
    0 <= s /\ s <= 1 /\ sd_bounded sd' /\
    (contains "_" a = false -> contains "_" b = false -> sd_exact sd ->
     sd_exact sd' /\ (a = b -> s = 1)).
Proof.
  intros Hb. unfold maybe_has_sim.
  destruct (dget sd (a ++ "_" ++ b)%string) as [s|] eqn:E1.
  { exists s, sd. destruct (Hb _ _ E1) as [H0 H1].
    split; [reflexivity|]. split; [exact H0|]. split; [exact H1|].
    split; [exact Hb|]. intros Ha _ Hex. split; [exact Hex|].
    intros <-. eapply Hex; eauto. }
  destruct (dget sd (b ++ "_" ++ a)%string) as [s|] eqn:E2.
  { exists s, sd. destruct (Hb _ _ E2) as [H0 H1].
    split; [reflexivity|]. split; [exact H0|]. split; [exact H1|].
    split; [exact Hb|]. intros Ha _ Hex. split; [exact Hex|].
    intros <-. eapply Hex; eauto. }
  destruct (maybe_sim_range a b "split") as (s & Hs & H0 & H1 & Heq).
  rewrite Hs. cbn [bind].
  exists s, (dset (dset sd (a ++ "_" ++ b)%string s) (b ++ "_" ++ a)%string s).
  split; [reflexivity|]. split; [exact H0|]. split; [exact H1|]. split.
  - intros k v. rewrite !dget_dset.
    destruct (keqb k (b ++ "_" ++ a)%string); [intros [= <-]; auto|].
    destruct (keqb k (a ++ "_" ++ b)%string); [intros [= <-]; auto|].
    apply Hb.
  - intros Ha Hb' Hex. split; [|exact Heq].
    intros c v Hc. rewrite !dget_dset.
    destruct (keqb_spec (c ++ "_" ++ c)%string (b ++ "_" ++ a)%string) as [He|_].
    { apply cache_key_split in He as [-> ->]; auto. intros [= <-]. auto. }
    destruct (keqb_spec (c ++ "_" ++ c)%string (a ++ "_" ++ b)%string) as [He|_].
    { apply cache_key_split in He as [-> ->]; auto. intros [= <-]. auto. }
    now apply Hex.
Qed.
End SimBounds.

(* ------------------------------------------------------------------ *)
(** ** Which pairs a mapping activates *)

(** [p = (i, M[i])] for a mapped node [i]. *)
Definition hits (M : list Z) (p : node_pair) : bool :=
  existsb (fun q => keqb q p) (mapped_nodes M).

Definition fst_sorted (L : list node_pair) : Prop :=
  StronglySorted (fun a b => (fst a < fst b)%Z) L.

Lemma enumerate_from_sorted (a : Z) (l : list Z) : fst_sorted (enumerate_from a l).
Proof.
  revert a. induction l as [|x l IH]; intros a; simpl; constructor; auto.
  - apply IH.
  - apply Forall_forall. intros [i m] Hin.
    apply enumerate_from_In in Hin. simpl. lia.
Qed.

Lemma fst_sorted_filter (P : node_pair -> bool) L :
  fst_sorted L -> fst_sorted (filter P L).
Proof.
  induction L as [|x L IH]; simpl; intros Hs; [constructor|].
  apply StronglySorted_inv in Hs as [Hs Hx].
  destruct (P x); [|now apply IH].
  constructor; [now apply IH|].
  apply Forall_forall. intros y Hy. apply filter_In in Hy as [Hy _].
  rewrite Forall_forall in Hx. auto.
Qed.

Lemma mapped_nodes_sorted M : fst_sorted (mapped_nodes M).
Proof. apply fst_sorted_filter, enumerate_from_sorted. Qed.

Lemma fst_sorted_NoDup L : fst_sorted L -> NoDup L.
Proof.
  induction L as [|x L IH]; intros Hs; constructor;
    apply StronglySorted_inv in Hs as [Hs Hx]; auto.
  intros Hin. rewrite Forall_forall in Hx. specialize (Hx x Hin). lia.
Qed.

Lemma ordered_pairs_In L a b :
  fst_sorted L ->
  In (a, b) (ordered_pairs L) <-> In a L /\ In b L /\ (fst a < fst b)%Z.
Proof.
  induction L as [|x L IH]; simpl; intros Hs; [tauto|].
  apply StronglySorted_inv in Hs as [Hs Hx]. rewrite Forall_forall in Hx.
  rewrite in_app_iff, in_map_iff, (IH Hs). split.
  - intros [(y & [= <- <-] & Hy)|(Ha & Hb & Hlt)]; auto.
  - intros ([->|Ha] & [->|Hb] & Hlt).
    + lia.
    + left. eauto.
    + specialize (Hx _ Ha). lia.
    + right. auto.
Qed.

Lemma ordered_pairs_NoDup L : fst_sorted L -> NoDup (ordered_pairs L).
Proof.
  induction L as [|x L IH]; simpl; intros Hs; [constructor|].
  pose proof (fst_sorted_NoDup _ Hs) as Hnd.
  apply StronglySorted_inv in Hs as [Hs Hx]. rewrite Forall_forall in Hx.
  inversion Hnd as [|? ? Hni Hnd']; subst.
  apply NoDup_app; auto.
  - apply NoDup_map_NoDup_ForallPairs; auto.
    intros u v _ _ [= ->]. reflexivity.
  - intros [a b] Hin Hin'. apply in_map_iff in Hin as (y & [= <- <-] & Hy).
    apply (ordered_pairs_In L x y Hs) in Hin' as (Hx' & _ & _).
    specialize (Hx _ Hx'). lia.
Qed.

Lemma mapped_nodes_In M i m :
  In (i, m) (mapped_nodes M) <->
  (0 <= i)%Z /\ nth_error M (Z.to_nat i) = Some m /\ m <> (-1)%Z.
Proof.
  unfold mapped_nodes. rewrite filter_In, enumerate_In. unfold mapped. simpl.
  destruct (Z.eqb_spec m (-1)); simpl; intuition congruence.
Qed.

Lemma hits_iff M p : hits M p = true <-> In p (mapped_nodes M).
Proof.
  unfold hits. rewrite existsb_exists. split.
  - intros (q & Hq & He). apply keqb_eq in He. now subst.
  - intros Hin. exists p. split; auto. apply keqb_refl.
Qed.

Lemma hits_functional M i m m' :
  hits M (i, m) = true -> hits M (i, m') = true -> m = m'.
Proof.
  rewrite !hits_iff, !mapped_nodes_In. intros (_ & H1 & _) (_ & H2 & _). congruence.
Qed.

Lemma count_in_hits M p :
  count_in p (mapped_nodes M) == if hits M p then 1 else 0.
Proof.
  unfold count_in, hits. apply (Qsum_map_single keqb).
  - apply keqb_iff.
  - apply fst_sorted_NoDup, mapped_nodes_sorted.
Qed.

Lemma count_pair_hits M p q :
  count_pair p q (mapped_nodes M)
  == if hits M p && hits M q && (fst p <? fst q)%Z then 1 else 0.
Proof.
  unfold count_pair.
  rewrite (Qsum_map_single keqb);
    [|apply keqb_iff|apply ordered_pairs_NoDup, mapped_nodes_sorted].
  assert (Hiff : existsb (fun a => keqb a (p, q)) (ordered_pairs (mapped_nodes M)) = true
                 <-> hits M p && hits M q && (fst p <? fst q)%Z = true).
  { rewrite existsb_exists, !andb_true_iff, !hits_iff, Z.ltb_lt.
    pose proof (ordered_pairs_In (mapped_nodes M) p q (mapped_nodes_sorted M)) as Ho.
    split.
    - intros (x & Hx & He). apply keqb_eq in He. subst x.
      apply Ho in Hx. tauto.
    - intros Hin. exists (p, q). split; [apply Ho; tauto|apply keqb_refl]. }
  destruct (existsb _ _), (hits M p && hits M q && (fst p <? fst q)%Z);
    try reflexivity.
  - destruct Hiff as [H _]. specialize (H eq_refl). discriminate.
  - destruct Hiff as [_ H]. specialize (H eq_refl). discriminate.
Qed.

(** The identity mapping of [n] nodes. *)
Definition identity_mapping (n : nat) : list Z := zrange 0 n.

Lemma zrange_length a k : List.length (zrange a k) = k.
Proof. revert a. induction k; intros; simpl; auto. Qed.

Lemma zrange_nth a k i :
  (i < k)%nat -> nth_error (zrange a k) i = Some (a + Z.of_nat i)%Z.
Proof.
  revert a i. induction k as [|k IH]; intros a [|i] Hi; simpl; try lia.
  - f_equal. lia.
  - rewrite IH by lia. f_equal. lia.
Qed.

Lemma hits_identity n i j :
  hits (identity_mapping n) (Z.of_nat i, Z.of_nat j) = true <-> i = j /\ (i < n)%nat.
Proof.
  rewrite hits_iff, mapped_nodes_In, Nat2Z.id. unfold identity_mapping. split.
  - intros (_ & Hn & _).
    assert (Hi : (i < n)%nat).
    { rewrite <- (zrange_length 0 n). apply nth_error_Some. congruence. }
    rewrite zrange_nth in Hn by auto. split; [|auto]. injection Hn. lia.
  - intros [<- Hi]. rewrite zrange_nth by auto. split; [lia|]. split; [f_equal; lia|lia].
Qed.

(** A variant for weights that vanish except on one key, whichever it is. *)
Lemma sum_at_most_one_key {A K} (key : A -> K) (g : A -> Q) (l : list A) :
  NoDup (map key l) ->
  (forall x, In x l -> 0 <= g x /\ g x <= 1) ->
  (forall x y, In x l -> In y l -> ~ g x == 0 -> ~ g y == 0 -> key x = key y) ->
  Qsum (map g l) <= 1.
Proof.
  induction l as [|x l IH]; simpl; intros Hnd Hb Hk; [lra|].
  inversion Hnd as [|? ? Hni Hnd']; subst.
  destruct (Hb x (or_introl eq_refl)) as [H0 H1].
  destruct (Qeq_dec (g x) 0) as [E|E].
  - rewrite E. assert (Qsum (map g l) <= 1); [|lra].
    apply IH; auto.
  - assert (Hz : Qsum (map g l) == 0).
    { apply Qsum_map_zero. intros y Hy.
      destruct (Qeq_dec (g y) 0) as [Ey|Ey]; auto.
      exfalso. apply Hni. rewrite (Hk x y); auto. now apply in_map. }
    rewrite Hz. lra.
Qed.

(* ------------------------------------------------------------------ *)
(** ** Candidate rows of a graph compared with itself *)

Lemma zrange_snoc a k : zrange a (S k) = (zrange a k ++ [(a + Z.of_nat k)%Z])%list.
Proof.
  revert a. induction k as [|k IH]; intros a.
  - simpl. now rewrite Z.add_0_r.
  - change (zrange a (S (S k))) with (a :: zrange (a + 1) (S k)).
    rewrite IH. simpl. do 3 f_equal. lia.
Qed.

Lemma set_mem_zrange a k x : set_mem x (zrange a k) = true <-> (a <= x < a + Z.of_nat k)%Z.
Proof.
  unfold set_mem. rewrite existsb_exists. split.
  - intros (y & Hy & He). apply Z.eqb_eq in He. subst. now apply zrange_In.
  - intros Hx. exists x. split; [now apply zrange_In|apply Z.eqb_refl].
Qed.

Lemma set_add_zrange k : set_add (zrange 0 k) (Z.of_nat k) = zrange 0 (S k).
Proof.
  unfold set_add. destruct (set_mem (Z.of_nat k) (zrange 0 k)) eqn:E.
  - apply set_mem_zrange in E. lia.
  - now rewrite zrange_snoc.
Qed.

Lemma set_add_member s x : set_mem x s = true -> set_add s x = s.
Proof. unfold set_add. now intros ->. Qed.

Lemma replace_nth_last {A} (l : list A) (x y : A) :
  replace_nth (l ++ [x]) (List.length l) y = (l ++ [y])%list.
Proof. induction l as [|z l IH]; simpl; [reflexivity|]. now rewrite IH. Qed.

(** Adding to the row under construction, the last one. *)
Lemma cand_add_last (Cpre : list pyset) (row : pyset) (x : Z) :
  cand_add (Cpre ++ [row]) (Z.of_nat (List.length Cpre)) x
  = Ok (Cpre ++ [set_add row x])%list.
Proof.
  unfold cand_add.
  assert (Hn : nth_error (Cpre ++ [row]) (List.length Cpre) = Some row).
  { rewrite nth_error_app2, Nat.sub_diag by lia. reflexivity. }
  assert (Hl : (List.length Cpre < List.length (Cpre ++ [row]))%nat).
  { rewrite length_app. simpl. lia. }
  rewrite (proj2 (index_nat_Ok _ _ _) Hn). cbn [bind].
  rewrite (proj2 (assign_nat_Ok _ _ _ _) (conj Hl eq_refl)).
  now rewrite replace_nth_last.
Qed.

(** Adding a node that a complete row already holds changes nothing. *)
Lemma cand_add_full (n i j : nat) :
  (i < n)%nat -> (j < n)%nat ->
  cand_add (repeat (zrange 0 n) n) (Z.of_nat i) (Z.of_nat j)
  = Ok (repeat (zrange 0 n) n).
Proof.
  intros Hi Hj. unfold cand_add.
  assert (Hn : nth_error (repeat (zrange 0 n) n) i = Some (zrange 0 n)).
  { apply nth_error_repeat. auto. }
  assert (Hl : (i < List.length (repeat (zrange 0 n) n))%nat).
  { rewrite repeat_length. auto. }
  rewrite (proj2 (index_nat_Ok _ i _) Hn). cbn [bind].
  rewrite set_add_member by (apply set_mem_zrange; lia).
  rewrite (proj2 (assign_nat_Ok _ _ _ _) (conj Hl eq_refl)).
  now rewrite replace_nth_same.
Qed.

Lemma repeat_snoc {A} (x : A) (k : nat) : (repeat x k ++ [x])%list = repeat x (S k).
Proof. induction k as [|k IH]; simpl; [reflexivity|]. now rewrite IH. Qed.

Definition b2q (b : bool) : Q := if b then 1 else 0.

Lemma b2q_range b : 0 <= b2q b /\ b2q b <= 1.
Proof. destruct b; simpl; split; lra. Qed.

Lemma b2q_nonzero b : ~ b2q b == 0 -> b = true.
Proof. destruct b; auto. intros H. exfalso. apply H. reflexivity. Qed.

(* ------------------------------------------------------------------ *)
(** ** The pool of a graph compared with itself *)

(** What identifies an attribute triple for matching: its name and its
    node, and its value unless it is the root marker. *)
Definition attr_key (a : triple) : string * nat * string :=
  (lower (t_rel a), t_node a,
   if lower (t_rel a) =s "top" then EmptyString else lower (t_value a)).

Definition rel_key (r : rtriple) : string * nat * nat :=
  (lower (r_rel r), r_src r, r_dst r).

(** A renamed graph: node [i] is the [i]-th instance triple, labels of
    concepts hold no ["_"], attributes and relations sit on nodes of
    the graph, and no two of them match each other. *)
Record wf_graph (g : graph) : Prop := {
  wg_dense : forall i t, nth_error (instances g) i = Some t ->
                         t_node t = i /\ t_rel t = "instance";
  wg_labels : forall t, In t (instances g) -> contains "_" (lower (t_value t)) = false;
  wg_attr_nodes : forall a, In a (attributes g) ->
                            (t_node a < List.length (instances g))%nat;
  wg_attr_distinct : NoDup (map attr_key (attributes g));
  wg_rel_nodes : forall r, In r (relations g) ->
                           (r_src r < List.length (instances g))%nat /\
                           (r_dst r < List.length (instances g))%nat;
  wg_rel_distinct : NoDup (map rel_key (relations g))
}.

Section SelfComparison.
Variable vectors : vecs_t.
Variables cutoff diffsense : Q.
Variable f : simfun_t.
Variable mwp : string.
Hypothesis f_range : forall a b, 0 <= f a b /\ f a b <= 1.
Hypothesis diffsense_range : 0 <= diffsense /\ diffsense <= 1.
Variable g : graph.
Hypothesis g_wf : wf_graph g.
Variable M : list Z.

#[local] Abbreviation N := (List.length (instances g)).
#[local] Abbreviation full := (zrange 0 (List.length (instances g))).
#[local] Abbreviation np := (fun t1 t2 : triple => node_pair_of (t_node t1) (t_node t2)).

(** Bounds on what one step of each phase adds to the score of [M]. *)
Definition up_I (t1 t2 : triple) : Q := b2q (hits M (np t1 t2)).

Definition lo_I (t1 t2 : triple) : Q :=
  b2q ((lower (t_value t1) =s lower (t_value t2)) && hits M (np t1 t2)).

Definition up_A (a1 a2 : triple) : Q :=
  b2q ((lower (t_rel a1) =s lower (t_rel a2))
       && ((lower (t_value a1) =s lower (t_value a2)) || (lower (t_rel a2) =s "top"))
       && hits M (np a1 a2)).

Definition lo_A (a1 a2 : triple) : Q :=
  b2q ((lower (t_rel a1) =s lower (t_rel a2))
       && (lower (t_value a1) =s lower (t_value a2))
       && hits M (np a1 a2)).

Definition d_R (r1 r2 : rtriple) : Q :=
  b2q ((lower (r_rel r1) =s lower (r_rel r2))
       && hits M (node_pair_of (r_src r1) (r_src r2))
       && hits M (node_pair_of (r_dst r1) (r_dst r2))).

Lemma add_self_step W p x :
  wf_W N W -> in_range N p ->
  exists W', add_self W p x = Ok W' /\ wf_W N W' /\
             spec_score W' M == spec_score W M + x * b2q (hits M p).
Proof.
  intros Hwf Hp. destruct (add_self_Ok N W p x Hwf) as (W' & HW).
  exists W'. split; [exact HW|]. split; [eapply add_self_wf; eauto|].
  rewrite (spec_score_add_self W W' M p x).
  - rewrite count_in_hits. reflexivity.
  - intros q. now apply add_self_self_score.
  - intros a b. eapply add_self_rel_score; eauto.
Qed.

Definition pool_inv_exact (st : pool_state) : Prop :=
  wf_W N (snd (fst st)) /\ sd_bounded (snd st) /\ sd_exact (snd st).

Definition pool_inv_bounded (st : pool_state) : Prop :=
  fst (fst st) = repeat full N /\ wf_W N (snd (fst st)) /\ sd_bounded (snd st).

Lemma instance_body_step (k j : nat) (t1 t2 : triple) (st : pool_state) :
  nth_error (instances g) k = Some t1 ->
  nth_error (instances g) j = Some t2 ->
  fst (fst st) = (repeat full k ++ [zrange 0 j])%list ->
  pool_inv_exact st ->
  exists st',
    instance_body vectors cutoff diffsense (Some f) mwp "standard" t1 st t2 = Ok st' /\
    (fst (fst st') = (repeat full k ++ [zrange 0 (S j)])%list /\ pool_inv_exact st') /\
    spec_score (snd (fst st)) M + lo_I t1 t2 <= spec_score (snd (fst st')) M /\
    spec_score (snd (fst st')) M <= spec_score (snd (fst st)) M + up_I t1 t2.
Proof.
  destruct st as [[C W] sd]. unfold pool_inv_exact. simpl.
  intros H1 H2 -> (Hwf & Hb & Hex).
  destruct (wg_dense g g_wf k t1 H1) as [Hn1 Hl1].
  destruct (wg_dense g g_wf j t2 H2) as [Hn2 Hl2].
  assert (Hk : (k < N)%nat) by (apply nth_error_Some; congruence).
  unfold instance_body. rewrite Hl1, Hl2.
  change (lower "instance" =s lower "instance") with true. cbv iota.
  destruct (maybe_has_sim_range vectors cutoff diffsense f f_range diffsense_range
              (lower (t_value t1)) (lower (t_value t2)) sd mwp Hb)
    as (s & sd' & Hs & H0 & Hle & Hb' & Hexact).
  rewrite Hs. cbn [bind].
  change ("standard" =s "concept") with false.
  change ("standard" =s "structure") with false. cbv iota.
  rewrite Hn1, Hn2.
  pose proof (cand_add_last (repeat full k) (zrange 0 j) (Z.of_nat j)) as HC.
  rewrite repeat_length, set_add_zrange in HC. rewrite HC. cbn [bind].
  destruct (add_self_step W (Z.of_nat k, Z.of_nat j) s Hwf) as (W' & HW & Hwf' & Espec).
  { now apply in_range_node_pair_of. }
  rewrite HW. cbn [bind].
  assert (Hu1 : contains "_" (lower (t_value t1)) = false).
  { apply (wg_labels g g_wf). eapply nth_error_In; eauto. }
  assert (Hu2 : contains "_" (lower (t_value t2)) = false).
  { apply (wg_labels g g_wf). eapply nth_error_In; eauto. }
  destruct (Hexact Hu1 Hu2 Hex) as [Hex' Hone].
  exists ((repeat full k ++ [zrange 0 (S j)])%list, W', sd'). simpl.
  split; [reflexivity|]. split; [auto|].
  unfold lo_I, up_I, node_pair_of. rewrite Hn1, Hn2, Espec.
  destruct (hits M (Z.of_nat k, Z.of_nat j)); rewrite ?andb_false_r, ?andb_true_r;
    simpl b2q.
  - destruct (String.eqb_spec (lower (t_value t1)) (lower (t_value t2))) as [He|_];
      simpl b2q; [rewrite (Hone He)|]; split; nra.
  - split; lra.
Qed.

Lemma instance_inner_ledger (k : nat) (t1 : triple) (st : pool_state) :
  nth_error (instances g) k = Some t1 ->
  fst (fst st) = (repeat full k ++ [[]])%list ->
  pool_inv_exact st ->
  exists st',
    foldM (instance_body vectors cutoff diffsense (Some f) mwp "standard" t1)
          (instances g) st = Ok st' /\
    (fst (fst st') = repeat full (S k) /\ pool_inv_exact st') /\
    spec_score (snd (fst st)) M + Qsum (map (lo_I t1) (instances g))
      <= spec_score (snd (fst st')) M /\
    spec_score (snd (fst st')) M
      <= spec_score (snd (fst st)) M + Qsum (map (up_I t1) (instances g)).
Proof.
  intros H1 HC Hinv.
  destruct (foldM_ledger
              (fun j st => fst (fst st) = (repeat full k ++ [zrange 0 j])%list
                           /\ pool_inv_exact st)
              (fun st => spec_score (snd (fst st)) M)
              (lo_I t1) (up_I t1)
              (instance_body vectors cutoff diffsense (Some f) mwp "standard" t1)
              (instances g)) with (s := st) as (st' & Hf & [HC' Hinv'] & Hlo & Hup).
  - intros j s t2 H2 [HCs Hs]. now apply instance_body_step.
  - auto.
  - exists st'. split; [exact Hf|]. split; [|auto].
    split; [|exact Hinv']. rewrite HC'. apply repeat_snoc.
Qed.

Lemma instance_phase_ledger :
  exists st',
    foldM (instance_loop vectors cutoff diffsense (Some f) mwp "standard" (instances g))
          (instances g) ([], [], []) = Ok st' /\
    (fst (fst st') = repeat full N /\ pool_inv_exact st') /\
    Qsum (map (fun t1 => Qsum (map (lo_I t1) (instances g))) (instances g))
      <= spec_score (snd (fst st')) M /\
    spec_score (snd (fst st')) M
      <= Qsum (map (fun t1 => Qsum (map (up_I t1) (instances g))) (instances g)).
Proof.
  destruct (foldM_ledger
              (fun k st => fst (fst st) = repeat full k /\ pool_inv_exact st)
              (fun st => spec_score (snd (fst st)) M)
              (fun t1 => Qsum (map (lo_I t1) (instances g)))
              (fun t1 => Qsum (map (up_I t1) (instances g)))
              (instance_loop vectors cutoff diffsense (Some f) mwp "standard"
                             (instances g))
              (instances g)) with (s := (([], [], []) : pool_state))
    as (st' & Hf & Hinv & Hlo & Hup).
  - intros k [[C W] sd] t1 H1 [HC Hinv]. simpl in HC. subst C.
    unfold instance_loop.
    apply (instance_inner_ledger k t1 ((repeat full k ++ [[]])%list, W, sd)); auto.
  - split; [reflexivity|]. unfold pool_inv_exact. simpl.
    split; [apply wf_W_nil|]. split; intros ? ?; simpl; discriminate.
  - exists st'. split; [exact Hf|]. split; [exact Hinv|].
    assert (E0 : spec_score [] M == 0).
    { unfold spec_score. rewrite !Qsum_map_zero; [lra| |]; intros; reflexivity. }
    simpl in Hlo, Hup. rewrite E0 in Hlo, Hup. split; lra.
Qed.

Lemma attribute_body_step (a1 a2 : triple) (st : pool_state) :
  In a1 (attributes g) -> In a2 (attributes g) ->
  pool_inv_bounded st ->
  exists st',
    attribute_body vectors cutoff diffsense (Some f) mwp a1 st a2 = Ok st' /\
    pool_inv_bounded st' /\
    spec_score (snd (fst st)) M + lo_A a1 a2 <= spec_score (snd (fst st')) M /\
    spec_score (snd (fst st')) M <= spec_score (snd (fst st)) M + up_A a1 a2.
Proof.
  destruct st as [[C W] sd]. unfold pool_inv_bounded. simpl.
  intros H1 H2 (-> & Hwf & Hb).
  pose proof (wg_attr_nodes g g_wf a1 H1) as Hn1.
  pose proof (wg_attr_nodes g g_wf a2 H2) as Hn2.
  unfold attribute_body, lo_A, up_A.
  destruct (lower (t_rel a1) =s lower (t_rel a2)) eqn:Erel; cbn [andb].
  - destruct (lower (t_value a1) =s lower (t_value a2)) eqn:Eval; cbn [andb orb].
    + rewrite cand_add_full by auto. cbn [bind].
      destruct (add_self_step W (np a1 a2) 1 Hwf) as (W' & HW & Hwf' & Espec).
      { now apply in_range_node_pair_of. }
      unfold node_pair_of in HW. rewrite HW. cbn [bind].
      exists (repeat full N, W', sd). simpl.
      split; [reflexivity|]. split; [auto|]. rewrite Espec. split; lra.
    + destruct (lower (t_rel a2) =s "top") eqn:Etop; cbn [andb orb].
      * destruct (maybe_has_sim_range vectors cutoff diffsense f f_range
                    diffsense_range (lower (t_value a1)) (lower (t_value a2))
                    sd mwp Hb) as (s & sd' & Hs & H0 & Hle & Hb' & _).
        rewrite Hs. cbn [bind]. rewrite cand_add_full by auto. cbn [bind].
        destruct (add_self_step W (np a1 a2) s Hwf) as (W' & HW & Hwf' & Espec).
        { now apply in_range_node_pair_of. }
        unfold node_pair_of in HW. rewrite HW. cbn [bind].
        exists (repeat full N, W', sd'). simpl.
        split; [reflexivity|]. split; [auto|]. rewrite Espec.
        destruct (b2q_range (hits M (np a1 a2))). simpl b2q at 1. split; nra.
      * exists (repeat full N, W, sd). simpl.
        split; [reflexivity|]. split; [auto|]. split; lra.
  - exists (repeat full N, W, sd). simpl.
    split; [reflexivity|]. split; [auto|]. split; lra.
Qed.

Lemma relation_body_step (r1 r2 : rtriple) (st : pool_state) :
  In r1 (relations g) -> In r2 (relations g) ->
  pool_inv_bounded st ->
  exists st',
    relation_body r1 st r2 = Ok st' /\
    pool_inv_bounded st' /\
    spec_score (snd (fst st)) M + d_R r1 r2 <= spec_score (snd (fst st')) M /\
    spec_score (snd (fst st')) M <= spec_score (snd (fst st)) M + d_R r1 r2.
Proof.
  destruct st as [[C W] sd]. unfold pool_inv_bounded. simpl.
  intros H1 H2 (-> & Hwf & Hb).
  destruct (wg_rel_nodes g g_wf r1 H1) as [Hs1 Hd1].
  destruct (wg_rel_nodes g g_wf r2 H2) as [Hs2 Hd2].
  unfold relation_body, d_R.
  destruct (lower (r_rel r1) =s lower (r_rel r2)); cbn [andb].
  2:{ exists (repeat full N, W, sd). simpl.
      split; [reflexivity|]. split; [auto|]. split; lra. }
  rewrite cand_add_full by auto. cbn [bind].
  rewrite cand_add_full by auto. cbn [bind].
  fold (node_pair_of (r_src r1) (r_src r2)).
  fold (node_pair_of (r_dst r1) (r_dst r2)).
  set (ps := node_pair_of (r_src r1) (r_src r2)).
  set (pt := node_pair_of (r_dst r1) (r_dst r2)).
  assert (Hps : in_range N ps) by (now apply in_range_node_pair_of).
  assert (Hpt : in_range N pt) by (now apply in_range_node_pair_of).
  destruct (keqb_spec pt ps) as [He|Hne]; cbn [negb].
  - destruct (add_self_step W ps 1 Hwf Hps) as (W' & HW & Hwf' & Espec).
    rewrite HW. cbn [bind].
    exists (repeat full N, W', sd). simpl.
    split; [reflexivity|]. split; [auto|]. rewrite Espec, He.
    destruct (hits M ps); simpl; split; lra.
  - set (p12 := if (Z.of_nat (r_src r1) >? Z.of_nat (r_dst r1))%Z
                then (pt, ps) else (ps, pt)).
    assert (Hp12 : (p12 = (pt, ps) \/ p12 = (ps, pt))).
    { unfold p12. destruct (Z.of_nat (r_src r1) >? Z.of_nat (r_dst r1))%Z; auto. }
    assert (Hgoal : forall p1 p2, (p1, p2) = (pt, ps) \/ (p1, p2) = (ps, pt) ->
              exists st',
                Ok (repeat full N, add_rel (add_rel W p1 p2) p2 p1, sd) = Ok st' /\
                (fst (fst st') = repeat full N /\ wf_W N (snd (fst st'))
                 /\ sd_bounded (snd st')) /\
                spec_score W M + b2q (hits M ps && hits M pt)
                  <= spec_score (snd (fst st')) M /\
                spec_score (snd (fst st')) M
                  <= spec_score W M + b2q (hits M ps && hits M pt)).
    { intros p1 p2 Hp.
      assert (Hr : in_range N p1 /\ in_range N p2 /\ p2 <> p1 /\
                   hits M p1 && hits M p2 = hits M ps && hits M pt).
      { destruct Hp as [[= -> ->]|[= -> ->]].
        - split; [exact Hpt|]. split; [exact Hps|]. split; [congruence|].
          apply andb_comm.
        - split; [exact Hps|]. split; [exact Hpt|]. split; [exact Hne|].
          reflexivity. }
      destruct Hr as (Hr1 & Hr2 & Hne' & Hh).
      exists (repeat full N, add_rel (add_rel W p1 p2) p2 p1, sd). simpl.
      split; [reflexivity|]. split.
      { split; [reflexivity|]. split; [|exact Hb]. now apply add_rel_both_wf. }
      rewrite (spec_score_add_rel W (add_rel (add_rel W p1 p2) p2 p1) M p1 p2).
      2:{ intros q. transitivity (self_score (add_rel W p1 p2) q);
          apply add_rel_self_score. }
      2:{ intros a b. apply add_rel_both_rel_score. }
      rewrite !count_pair_hits, <- Hh.
      destruct (hits M p1) eqn:E1, (hits M p2) eqn:E2; cbn [andb b2q];
        try (split; lra).
      assert (Hf : fst p1 <> fst p2).
      { intros Hfst. apply Hne'. destruct p1 as [i m], p2 as [i' m'].
        simpl in Hfst. subst i'. f_equal. eapply hits_functional; eauto. }
      destruct (Z.ltb_spec (fst p1) (fst p2)), (Z.ltb_spec (fst p2) (fst p1));
        try lia; split; lra. }
    destruct p12 as [p1 p2] eqn:E12.
    unfold p12 in E12.
    destruct (Z.of_nat (r_src r1) >? Z.of_nat (r_dst r1))%Z;
      injection E12 as <- <-; apply Hgoal; auto.
Qed.

Lemma attribute_phase_ledger (st : pool_state) :
  pool_inv_bounded st ->
  exists st',
    foldM (attribute_loop vectors cutoff diffsense (Some f) mwp (attributes g))
          (attributes g) st = Ok st' /\
    pool_inv_bounded st' /\
    spec_score (snd (fst st)) M
      + Qsum (map (fun a1 => Qsum (map (lo_A a1) (attributes g))) (attributes g))
      <= spec_score (snd (fst st')) M /\
    spec_score (snd (fst st')) M
      <= spec_score (snd (fst st)) M
         + Qsum (map (fun a1 => Qsum (map (up_A a1) (attributes g))) (attributes g)).
Proof.
  intros Hinv.
  destruct (foldM_ledger (fun _ st => pool_inv_bounded st)
              (fun st => spec_score (snd (fst st)) M)
              (fun a1 => Qsum (map (lo_A a1) (attributes g)))
              (fun a1 => Qsum (map (up_A a1) (attributes g)))
              (attribute_loop vectors cutoff diffsense (Some f) mwp (attributes g))
              (attributes g)) with (s := st) as (st' & Hf & Hinv' & Hlo & Hup); auto.
  - intros k s a1 H1 Hs. unfold attribute_loop.
    destruct (foldM_ledger (fun _ st => pool_inv_bounded st)
                (fun st => spec_score (snd (fst st)) M)
                (lo_A a1) (up_A a1)
                (attribute_body vectors cutoff diffsense (Some f) mwp a1)
                (attributes g)) with (s := s) as (s' & Hf & Hinv' & Hlo & Hup); auto.
    + intros j s0 a2 H2 Hs0. apply attribute_body_step; auto;
        eapply nth_error_In; eauto.
    + exists s'. auto.
  - exists st'. auto.
Qed.

Lemma relation_phase_ledger (st : pool_state) :
  pool_inv_bounded st ->
  exists st',
    foldM (relation_loop (relations g)) (relations g) st = Ok st' /\
    pool_inv_bounded st' /\
    spec_score (snd (fst st')) M
    == spec_score (snd (fst st)) M
       + Qsum (map (fun r1 => Qsum (map (d_R r1) (relations g))) (relations g)).
Proof.
  intros Hinv.
  destruct (foldM_ledger (fun _ st => pool_inv_bounded st)
              (fun st => spec_score (snd (fst st)) M)
              (fun r1 => Qsum (map (d_R r1) (relations g)))
              (fun r1 => Qsum (map (d_R r1) (relations g)))
              (relation_loop (relations g))
              (relations g)) with (s := st) as (st' & Hf & Hinv' & Hlo & Hup); auto.
  - intros k s r1 H1 Hs. unfold relation_loop.
    destruct (foldM_ledger (fun _ st => pool_inv_bounded st)
                (fun st => spec_score (snd (fst st)) M)
                (d_R r1) (d_R r1)
                (relation_body r1)
                (relations g)) with (s := s) as (s' & Hf & Hinv' & Hlo & Hup); auto.
    + intros j s0 r2 H2 Hs0. apply relation_body_step; auto;
        eapply nth_error_In; eauto.
    + exists s'. auto.
  - exists st'. split; [exact Hf|]. split; [exact Hinv'|]. lra.
Qed.

Lemma instance_nodes_NoDup : NoDup (map t_node (instances g)).
Proof.
  apply NoDup_nth_error. intros i j Hi Hij.
  rewrite length_map in Hi.
  rewrite !nth_error_map in Hij.
  destruct (nth_error (instances g) i) as [t|] eqn:Ei.
  2:{ apply nth_error_None in Ei. lia. }
  destruct (nth_error (instances g) j) as [t'|] eqn:Ej; [|discriminate].
  destruct (wg_dense g g_wf i t Ei) as [<- _].
  destruct (wg_dense g g_wf j t' Ej) as [<- _].
  simpl in Hij. congruence.
Qed.

Lemma hits_same_node (n1 n2 n2' : nat) :
  hits M (node_pair_of n1 n2) = true -> hits M (node_pair_of n1 n2') = true ->
  n2 = n2'.
Proof.
  unfold node_pair_of. intros H1 H2.
  pose proof (hits_functional M _ _ _ H1 H2). lia.
Qed.

Lemma up_I_row (t1 : triple) : Qsum (map (up_I t1) (instances g)) <= 1.
Proof.
  apply (sum_at_most_one_key t_node).
  - apply instance_nodes_NoDup.
  - intros x _. apply b2q_range.
  - intros x y _ _ Hx Hy. apply b2q_nonzero in Hx, Hy.
    eapply hits_same_node; eauto.
Qed.

Lemma up_A_row (a1 : triple) : Qsum (map (up_A a1) (attributes g)) <= 1.
Proof.
  apply (sum_at_most_one_key attr_key).
  - apply (wg_attr_distinct g g_wf).
  - intros x _. apply b2q_range.
  - intros x y _ _ Hx Hy. apply b2q_nonzero in Hx, Hy.
    apply andb_true_iff in Hx as [Hx Hhx]. apply andb_true_iff in Hx as [Hrx Hvx].
    apply andb_true_iff in Hy as [Hy Hhy]. apply andb_true_iff in Hy as [Hry Hvy].
    apply String.eqb_eq in Hrx, Hry.
    pose proof (hits_same_node _ _ _ Hhx Hhy) as Hn.
    unfold attr_key. rewrite <- Hrx, <- Hry, Hn.
    rewrite <- Hrx in Hvx. rewrite <- Hry in Hvy.
    destruct (lower (t_rel a1) =s "top"); [reflexivity|].
    rewrite orb_false_r in Hvx, Hvy. apply String.eqb_eq in Hvx, Hvy.
    congruence.
Qed.

Lemma d_R_row (r1 : rtriple) : Qsum (map (d_R r1) (relations g)) <= 1.
Proof.
  apply (sum_at_most_one_key rel_key).
  - apply (wg_rel_distinct g g_wf).
  - intros x _. apply b2q_range.
  - intros x y _ _ Hx Hy. apply b2q_nonzero in Hx, Hy.
    apply andb_true_iff in Hx as [Hx Hdx]. apply andb_true_iff in Hx as [Hrx Hsx].
    apply andb_true_iff in Hy as [Hy Hdy]. apply andb_true_iff in Hy as [Hry Hsy].
    apply String.eqb_eq in Hrx, Hry.
    pose proof (hits_same_node _ _ _ Hsx Hsy) as Hs.
    pose proof (hits_same_node _ _ _ Hdx Hdy) as Hd.
    unfold rel_key. congruence.
Qed.

Lemma rows_at_most {A} (row : A -> A -> Q) (l : list A) :
  (forall a, Qsum (map (row a) l) <= 1) ->
  Qsum (map (fun a => Qsum (map (row a) l)) l)
  <= inject_Z (Z.of_nat (List.length l)).
Proof.
  intros Hrow.
  assert (H : Qsum (map (fun a => Qsum (map (row a) l)) l)
              <= Qsum (map (fun _ : A => 1) l)).
  { apply Qsum_map_le. intros a _. apply Hrow. }
  rewrite Qsum_map_const in H. lra.
Qed.

Lemma rows_at_least {A} (row : A -> A -> Q) (l : list A) :
  (forall a, In a l -> 1 <= Qsum (map (row a) l)) ->
  inject_Z (Z.of_nat (List.length l))
  <= Qsum (map (fun a => Qsum (map (row a) l)) l).
Proof.
  intros Hrow.
  assert (H : Qsum (map (fun _ : A => 1) l)
              <= Qsum (map (fun a => Qsum (map (row a) l)) l)).
  { apply Qsum_map_le. intros a Ha. now apply Hrow. }
  rewrite Qsum_map_const in H. lra.
Qed.

Lemma rows_nonneg {A} (row : A -> A -> Q) (l : list A) :
  (forall a b, 0 <= row a b) ->
  0 <= Qsum (map (fun a => Qsum (map (row a) l)) l).
Proof.
  intros Hrow. apply Qsum_map_nonneg. intros a _.
  apply Qsum_map_nonneg. intros b _. apply Hrow.
Qed.

(** The number of triples of the graph, as a score. *)
Definition triple_count : Q := inject_Z (triple_num g).

Lemma triple_count_split :
  triple_count
  == inject_Z (Z.of_nat N)
     + inject_Z (Z.of_nat (List.length (attributes g)))
     + inject_Z (Z.of_nat (List.length (relations g))).
Proof.
  unfold triple_count, triple_num.
  rewrite !Nat2Z.inj_add, !inject_Z_plus. reflexivity.
Qed.

(** The pool of the graph against itself: every node is a candidate of
    every node; the score of any mapping lies between [0] and the
    number of triples; the identity mapping reaches that number. *)
Lemma self_pool :
  exists W,
    compute_pool vectors cutoff diffsense (Some f) mwp "standard"
      (instances g) (attributes g) (relations g)
      (instances g) (attributes g) (relations g) = Ok (repeat full N, W) /\
    wf_W N W /\
    0 <= spec_score W M /\
    spec_score W M <= triple_count /\
    (M = identity_mapping N -> triple_count <= spec_score W M).
Proof.
  destruct instance_phase_ledger as (st1 & H1 & [HC1 Hinv1] & Lo1 & Up1).
  assert (Hb1 : pool_inv_bounded st1).
  { destruct Hinv1 as (? & ? & ?). split; auto. }
  destruct (attribute_phase_ledger st1 Hb1) as (st2 & H2 & Hb2 & Lo2 & Up2).
  destruct (relation_phase_ledger st2 Hb2) as (st3 & H3 & Hb3 & E3).
  destruct st3 as [[C3 W3] sd3]. destruct Hb3 as (HC3 & Hwf3 & _).
  simpl in HC3, Hwf3, E3. subst C3.
  exists W3. unfold compute_pool. change (weighting_ok "standard") with true.
  cbn [negb]. rewrite H1. cbn [bind]. rewrite H2. cbn [bind].
  rewrite H3. cbn [bind].
  split; [reflexivity|]. split; [exact Hwf3|].
  pose proof (rows_nonneg lo_I (instances g)) as P1.
  pose proof (rows_nonneg lo_A (attributes g)) as P2.
  pose proof (rows_nonneg d_R (relations g)) as P3.
  pose proof (rows_at_most up_I (instances g) up_I_row) as Q1.
  pose proof (rows_at_most up_A (attributes g) up_A_row) as Q2.
  pose proof (rows_at_most d_R (relations g) d_R_row) as Q3.
  pose proof triple_count_split as ET.
  split; [|split].
  - assert (0 <= Qsum (map (fun a => Qsum (map (lo_I a) (instances g))) (instances g))).
    { apply P1. intros. apply b2q_range. }
    assert (0 <= Qsum (map (fun a => Qsum (map (lo_A a) (attributes g))) (attributes g))).
    { apply P2. intros. apply b2q_range. }
    assert (0 <= Qsum (map (fun a => Qsum (map (d_R a) (relations g))) (relations g))).
    { apply P3. intros. apply b2q_range. }
    lra.
  - lra.
  - intros HM.
    assert (Hid : forall i, (i < N)%nat -> hits M (node_pair_of i i) = true).
    { intros i Hi. rewrite HM. apply hits_identity. auto. }
    assert (R1 : inject_Z (Z.of_nat N)
                 <= Qsum (map (fun a => Qsum (map (lo_I a) (instances g))) (instances g))).
    { apply rows_at_least. intros t Ht.
      apply Qle_trans with (lo_I t t).
      - unfold lo_I. rewrite String.eqb_refl.
        apply In_nth_error in Ht as (i & Hi).
        destruct (wg_dense g g_wf i t Hi) as [-> _].
        rewrite Hid; [simpl; lra|]. apply nth_error_Some. congruence.
      - apply sum_ge_member; auto. intros. apply b2q_range. }
    assert (R2 : inject_Z (Z.of_nat (List.length (attributes g)))
                 <= Qsum (map (fun a => Qsum (map (lo_A a) (attributes g)))
                              (attributes g))).
    { apply rows_at_least. intros a Ha.
      apply Qle_trans with (lo_A a a).
      - unfold lo_A. rewrite !String.eqb_refl.
        rewrite Hid; [simpl; lra|]. now apply (wg_attr_nodes g g_wf).
      - apply sum_ge_member; auto. intros. apply b2q_range. }
    assert (R3 : inject_Z (Z.of_nat (List.length (relations g)))
                 <= Qsum (map (fun a => Qsum (map (d_R a) (relations g)))
                              (relations g))).
    { apply rows_at_least. intros r Hr.
      apply Qle_trans with (d_R r r).
      - unfold d_R. rewrite String.eqb_refl.
        destruct (wg_rel_nodes g g_wf r Hr).
        rewrite !Hid by auto. simpl. lra.
      - apply sum_ge_member; auto. intros. apply b2q_range. }
    lra.
Qed.

End SelfComparison.

(* ------------------------------------------------------------------ *)
(** ** Smart initialisation of a graph against itself *)

Lemma enumerate_from_nth {A} (a : Z) (l : list A) (k : nat) (x : A) :
  nth_error l k = Some x ->
  nth_error (enumerate_from a l) k = Some ((a + Z.of_nat k)%Z, x).
Proof.
  revert a k. induction l as [|y l IH]; intros a [|k]; simpl; try discriminate.
  - intros [= ->]. now rewrite Z.add_0_r.
  - intros Hn. rewrite (IH (a + 1)%Z k Hn). do 2 f_equal. lia.
Qed.

Lemma nth_error_enumerate_inv {A} (l : list A) (k : nat) (i : Z) (x : A) :
  nth_error (enumerate l) k = Some (i, x) -> i = Z.of_nat k /\ nth_error l k = Some x.
Proof.
  intros Hn.
  destruct (nth_error l k) as [y|] eqn:E.
  - unfold enumerate in Hn. rewrite (enumerate_from_nth 0 l k y E) in Hn.
    injection Hn as <- <-. auto.
  - apply nth_error_None in E.
    assert (k < List.length (enumerate l))%nat by (apply nth_error_Some; congruence).
    unfold enumerate in H. rewrite enumerate_from_length in H. lia.
Qed.

Lemma zrange_split a k n :
  (k < n)%nat ->
  zrange a n = (zrange a k ++ (a + Z.of_nat k)%Z :: zrange (a + Z.of_nat k + 1) (n - S k))%list.
Proof.
  revert a n. induction k as [|k IH]; intros a [|n] Hk; try lia.
  - simpl. rewrite Z.add_0_r, Nat.sub_0_r. reflexivity.
  - change (zrange a (S n)) with (a :: zrange (a + 1) n).
    rewrite (IH (a + 1)%Z n) by lia. simpl.
    replace (a + 1 + Z.of_nat k)%Z with (a + Z.pos (Pos.of_succ_nat k))%Z by lia.
    reflexivity.
Qed.

(** The loop skips candidates that fail the test and breaks on the
    first one that passes it. *)
Lemma first_concept_match_app value1 instance2 matched l1 x l2 tx :
  (forall y, In y l1 ->
     exists ty, index instance2 y = Ok ty /\
                (value1 =s t_value ty) && negb (dmem matched y) = false) ->
  index instance2 x = Ok tx ->
  (value1 =s t_value tx) && negb (dmem matched x) = true ->
  first_concept_match value1 instance2 matched (l1 ++ x :: l2) = Ok (Some x).
Proof.
  intros H1 Hx Hpass. induction l1 as [|y l1 IH]; simpl.
  - rewrite Hx. cbn [bind]. now rewrite Hpass.
  - destruct (H1 y (or_introl eq_refl)) as (ty & Hy & Hfail).
    rewrite Hy. cbn [bind]. rewrite Hfail. apply IH.
    intros z Hz. apply H1. now right.
Qed.

Section SmartInit.
Variable g : graph.
Hypothesis g_wf : wf_graph g.

#[local] Abbreviation N := (List.length (instances g)).

Definition matched_below (k : nat) (matched : matched_t) : Prop :=
  forall j : Z, dmem matched j = true <-> (0 <= j < Z.of_nat k)%Z.

Lemma smart_first_pass_step (k : nat) (matched : matched_t) (ic : Z * list Z) :
  nth_error (enumerate (repeat (zrange 0 N) N)) k = Some ic ->
  matched_below k matched ->
  exists matched',
    smart_first_pass (instances g) (instances g) (zrange 0 k, matched, []) ic
      = Ok (zrange 0 (S k), matched', []) /\
    matched_below (S k) matched'.
Proof.
  intros Hic Hm. destruct ic as [i cands].
  apply nth_error_enumerate_inv in Hic as [-> Hc].
  assert (Hk : (k < N)%nat).
  { rewrite <- (repeat_length (zrange 0 N) N). apply nth_error_Some. congruence. }
  rewrite nth_error_repeat in Hc by auto. injection Hc as <-.
  destruct (nth_error (instances g) k) as [t1|] eqn:E1.
  2:{ apply nth_error_None in E1. lia. }
  unfold smart_first_pass.
  destruct (zrange 0 N) as [|c0 cs] eqn:Ez.
  { apply (f_equal (@List.length Z)) in Ez. rewrite zrange_length in Ez.
    simpl in Ez. lia. }
  rewrite <- Ez. rewrite (proj2 (index_nat_Ok _ _ _) E1). cbn [bind].
  rewrite (zrange_split 0 k N Hk). rewrite Z.add_0_l.
  rewrite (first_concept_match_app _ _ _ _ _ _ t1).
  - cbn [bind]. exists (dset matched (Z.of_nat k) 1%Z).
    rewrite zrange_snoc, Z.add_0_l. split; [reflexivity|].
    intros j. unfold dmem. rewrite dget_dset.
    destruct (keqb_spec j (Z.of_nat k)) as [->|Hne].
    + split; [lia|reflexivity].
    + specialize (Hm j). unfold dmem in Hm. rewrite Hm. lia.
  - intros y Hy. apply zrange_In in Hy.
    destruct (nth_error (instances g) (Z.to_nat y)) as [ty|] eqn:Ey.
    2:{ apply nth_error_None in Ey. lia. }
    exists ty. split.
    + rewrite <- (Z2Nat.id y) by lia. now apply index_nat_Ok.
    + assert (Hy' : dmem matched y = true) by (apply Hm; lia).
      rewrite Hy'. apply andb_false_r.
  - now apply index_nat_Ok.
  - rewrite String.eqb_refl.
    assert (Hk' : dmem matched (Z.of_nat k) = false).
    { apply not_true_is_false. intros Ht. apply Hm in Ht. lia. }
    now rewrite Hk'.
Qed.

(** On the pool of a graph against itself, smart initialisation maps
    every node to itself and draws no random number. *)
Lemma smart_init_identity (rnd : list nat) :
  smart_init_mapping (repeat (zrange 0 N) N) (instances g) (instances g) rnd
  = Ok (identity_mapping N, rnd).
Proof.
  unfold smart_init_mapping.
  destruct (foldM_ledger
              (fun k (st : smart_state) =>
                 exists matched, st = (zrange 0 k, matched, []) /\
                                 matched_below k matched)
              (fun _ => 0) (fun _ => 0) (fun _ => 0)
              (smart_first_pass (instances g) (instances g))
              (enumerate (repeat (zrange 0 N) N)))
    with (s := (([], [], []) : smart_state)) as (st & Hf & (matched & -> & _) & _).
  - intros k s ic Hic (matched & -> & Hm).
    destruct (smart_first_pass_step k matched ic Hic Hm) as (matched' & Hs & Hm').
    eexists. split; [exact Hs|]. split; [eauto|]. split; lra.
  - exists []. split; [reflexivity|]. intros j. unfold dmem. simpl. split; [discriminate|lia].
  - rewrite Hf. cbn [bind foldM].
    unfold enumerate. rewrite enumerate_from_length, repeat_length. reflexivity.
Qed.
End SmartInit.

Lemma random_init_body_length st c :
  List.length (fst (fst (random_init_body st c))) = S (List.length (fst (fst st))).
Proof.
  destruct st as [[res m] r]. unfold random_init_body.
  destruct c as [|x c].
  - cbn [fst]. rewrite length_app. simpl. lia.
  - destruct (random_pick _ _ _ _) as [[y|] r']; cbn [fst];
      rewrite length_app; simpl; lia.
Qed.

Lemma random_init_length (C : list pyset) (rnd : list nat) :
  List.length (fst (random_init_mapping C rnd)) = List.length C.
Proof.
  unfold random_init_mapping.
  assert (H : forall st,
            List.length (fst (fst (fold_left random_init_body C st)))
            = (List.length (fst (fst st)) + List.length C)%nat).
  { induction C as [|c C IH]; intros st; simpl; [lia|].
    rewrite IH, random_init_body_length. lia. }
  specialize (H ([], [], rnd)).
  destruct (fold_left random_init_body C ([], [], rnd)) as [[res m] r].
  simpl in *. lia.
Qed.

(* ------------------------------------------------------------------ *)
(** ** Termination and the result of the search *)

Lemma neighbor_length C len M N : neighbor C len M N -> List.length N = List.length M.
Proof. intros [|]; now rewrite ?replace_nth_length. Qed.

Section Search.
Variable n : nat.
Variable W : weight_dict_t.
Hypothesis W_wf : wf_W n W.
Variable C : list pyset.
Hypothesis C_len : List.length C = n.
Variable len : nat.
Variable T : Q.
Hypothesis score_range :
  forall M, List.length M = n -> 0 <= spec_score W M /\ spec_score W M <= T.

Definition climb_inv (st : climb_state) : Prop :=
  List.length (fst (fst st)) = n /\
  snd (fst st) == spec_score W (fst (fst st)) /\
  memo_ok n W (snd st).

Lemma climb_body_spec (st : climb_state) :
  climb_inv st ->
  exists next,
    climb_body C W len st = Ok next /\
    match next with
    | inl final => climb_inv final /\ snd (fst final) = snd (fst st)
    | inr st' => climb_inv st' /\ snd (fst st) + epsilon < snd (fst st')
    end.
Proof.
  destruct st as [[cur mn] memo]. intros (Hlen & Hmn & Hmemo). simpl in *.
  destruct (get_best_gain_spec n W W_wf cur Hlen C C_len len mn Hmn memo Hmemo)
    as (gain & M' & memo' & Hg & Hmemo' & Hpos & _ & Hcase).
  unfold climb_body. rewrite Hg. cbn [bind].
  destruct (Qle_bool gain epsilon) eqn:E.
  - exists (inl (cur, mn, memo')). split; [reflexivity|].
    unfold climb_inv. simpl. auto.
  - assert (Hgt : epsilon < gain).
    { apply Qnot_le_lt. intros Hle. apply Qle_bool_iff in Hle. congruence. }
    exists (inr (M', mn + gain, memo')). split; [reflexivity|].
    destruct Hcase as [[Hz _]|(_ & Hnb & Eg)].
    { rewrite Hz in E. discriminate. }
    unfold climb_inv. simpl. split; [|lra].
    split; [rewrite (neighbor_length _ _ _ _ Hnb); exact Hlen|].
    split; [lra|exact Hmemo'].
Qed.

(** With fuel for more steps of [epsilon] than fit under the bound,
    the loop ends; the match number it returns is the score of the
    mapping it returns and is not below the one it started from. *)
Lemma hill_climb_total (fuel : nat) (st : climb_state) :
  climb_inv st ->
  T - snd (fst st) < inject_Z (Z.of_nat fuel) * epsilon ->
  exists final,
    hill_climb fuel C W len st = Ok final /\
    climb_inv final /\ snd (fst st) <= snd (fst final).
Proof.
  revert st. induction fuel as [|fuel IH]; intros st Hinv Hfuel.
  - exfalso. destruct Hinv as (Hlen & Hmn & _).
    destruct (score_range _ Hlen) as [_ Hle].
    change (inject_Z (Z.of_nat 0)) with 0 in Hfuel. lra.
  - destruct (climb_body_spec st Hinv) as (next & Hb & Hnext).
    cbn [hill_climb]. rewrite Hb. cbn [bind].
    destruct next as [final|st'].
    + destruct Hnext as [Hf Hsame]. exists final.
      split; [reflexivity|]. split; [exact Hf|]. rewrite Hsame. lra.
    + destruct Hnext as [Hinv' Hup].
      destruct (IH st' Hinv') as (final & Hh & Hf & Hle).
      { rewrite Nat2Z.inj_succ in Hfuel. unfold Z.succ in Hfuel.
        rewrite inject_Z_plus in Hfuel. change (inject_Z 1) with 1 in Hfuel.
        lra. }
      exists final. split; [exact Hh|]. split; [exact Hf|].
      pose proof epsilon_pos. lra.
Qed.

Lemma compute_match_ok (M : list Z) (memo : memo_t) :
  List.length M = n -> memo_ok n W memo ->
  exists v memo',
    compute_match M W memo = Ok (v, memo') /\
    v == spec_score W M /\ memo_ok n W memo'.
Proof.
  intros Hlen Hmemo. unfold compute_match.
  destruct (dget memo M) as [saved|] eqn:E.
  - exists saved, memo. split; [reflexivity|]. split; [|exact Hmemo].
    now apply Hmemo.
  - destruct (match_loop_spec n W W_wf M Hlen) as (v & Hv & Ev).
    rewrite Hv. cbn [bind]. exists v, (dset memo M v).
    split; [reflexivity|]. split; [exact Ev|]. now apply memo_ok_dset.
Qed.

Variable fuel : nat.
Hypothesis fuel_enough : T < inject_Z (Z.of_nat fuel) * epsilon.
Variables instance1 instance2 : list triple.
Hypothesis len_ok : len = List.length instance2.

(** The work of a restart after its initial mapping. *)
Lemma restart_from (cur0 : list Z) (best_mapping : list Z) (best_match_num : Q)
    (memo : memo_t) (rnd : list nat) :
  List.length cur0 = n ->
  memo_ok n W memo ->
  best_match_num <= T ->
  exists best_mapping' best_match_num' memo',
    (do (match_num, memo) <- compute_match cur0 W memo;
     do final <- hill_climb fuel C W (List.length instance2) (cur0, match_num, memo);
     let '(cur_mapping, match_num, memo) := final in
     if Qgtb match_num best_match_num
     then Ok (cur_mapping, match_num, memo, rnd)
     else Ok (best_mapping, best_match_num, memo, rnd))
    = Ok (best_mapping', best_match_num', memo', rnd) /\
    memo_ok n W memo' /\
    best_match_num <= best_match_num' /\
    spec_score W cur0 <= best_match_num' /\
    best_match_num' <= T.
Proof.
  intros Hlen Hmemo Hbest.
  destruct (compute_match_ok cur0 memo Hlen Hmemo) as (v & memo1 & Hc & Ev & Hmemo1).
  rewrite Hc. cbn [bind]. rewrite <- len_ok.
  destruct (hill_climb_total fuel (cur0, v, memo1)) as (final & Hh & Hf & Hle).
  { unfold climb_inv. simpl. auto. }
  { simpl. destruct (score_range cur0 Hlen). lra. }
  rewrite Hh. cbn [bind].
  destruct final as [[cur mn] memo2]. destruct Hf as (Hlen2 & Hmn2 & Hmemo2).
  simpl in *. destruct (score_range cur Hlen2) as [_ Hle2].
  destruct (Qgtb mn best_match_num) eqn:E.
  - apply Qgtb_true in E. exists cur, mn, memo2.
    split; [reflexivity|]. split; [exact Hmemo2|]. split; [lra|]. split; lra.
  - apply Qgtb_false in E. exists best_mapping, best_match_num, memo2.
    split; [reflexivity|]. split; [exact Hmemo2|]. split; [lra|]. split; lra.
Qed.

Hypothesis smart_start :
  forall rnd, exists M0 rnd',
    smart_init_mapping C instance1 instance2 rnd = Ok (M0, rnd') /\
    List.length M0 = n /\ T <= spec_score W M0.

Definition search_inv (top : bool) (st : search_state) : Prop :=
  memo_ok n W (snd (fst st)) /\
  snd (fst (fst st)) <= T /\
  (top = true -> T <= snd (fst (fst st))).

Lemma restart_spec (st : search_state) (i : nat) (top : bool) :
  search_inv top st ->
  exists st',
    restart fuel instance1 instance2 C W st i = Ok st' /\
    search_inv (top || (i =? 0)%nat) st'.
Proof.
  destruct st as [[[bm bmn] memo] rnd]. intros (Hmemo & Hle & Htop). simpl in *.
  unfold restart.
  destruct (Nat.eqb_spec i 0) as [->|Hi].
  - destruct (smart_start rnd) as (M0 & rnd' & Hs & Hlen & HT).
    rewrite Hs. cbn [bind].
    destruct (restart_from M0 bm bmn memo rnd' Hlen Hmemo Hle)
      as (bm' & bmn' & memo' & Hr & Hmemo' & H1 & H2 & H3).
    rewrite Hr. eexists. split; [reflexivity|].
    unfold search_inv. simpl. split; [exact Hmemo'|]. split; [exact H3|].
    intros _. lra.
  - cbn [bind].
    destruct (random_init_mapping C rnd) as [M0 rnd'] eqn:Er.
    assert (Hlen : List.length M0 = n).
    { pose proof (random_init_length C rnd) as Hl. rewrite Er in Hl.
      simpl in Hl. lia. }
    destruct (restart_from M0 bm bmn memo rnd' Hlen Hmemo Hle)
      as (bm' & bmn' & memo' & Hr & Hmemo' & H1 & H2 & H3).
    rewrite Hr. eexists. split; [reflexivity|].
    unfold search_inv. simpl. split; [exact Hmemo'|]. split; [exact H3|].
    rewrite orb_false_r. intros Ht. specialize (Htop Ht). lra.
Qed.

Lemma restarts_spec (k : nat) (a : nat) (st : search_state) (top : bool) :
  search_inv top st ->
  exists st',
    foldM (restart fuel instance1 instance2 C W) (seq a k) st = Ok st' /\
    search_inv (top || ((a =? 0)%nat && negb (k =? 0)%nat)) st'.
Proof.
  revert a st top. induction k as [|k IH]; intros a st top Hinv.
  - exists st. split; [reflexivity|]. simpl. now rewrite andb_false_r, orb_false_r.
  - destruct (restart_spec st a top Hinv) as (st1 & H1 & Hinv1).
    destruct (IH (S a) st1 _ Hinv1) as (st' & H' & Hinv').
    exists st'. simpl. rewrite H1. cbn [bind]. split; [exact H'|].
    simpl in Hinv'. rewrite orb_false_r in Hinv'.
    now rewrite andb_true_r.
Qed.
End Search.

(* ------------------------------------------------------------------ *)
(** ** A graph compared with itself *)

Lemma fuel_covers (t : Z) (fuel : nat) :
  (t * 10000000000 < Z.of_nat fuel)%Z ->
  inject_Z t < inject_Z (Z.of_nat fuel) * epsilon.
Proof.
  intros Hlt. rewrite Zlt_Qlt, inject_Z_mult in Hlt.
  change (inject_Z 10000000000) with (10000000000 # 1) in Hlt.
  unfold epsilon. lra.
Qed.

Lemma inject_Z_ge_1 (t : Z) : (0 < t)%Z -> 1 <= inject_Z t.
Proof.
  intros H. change 1 with (inject_Z 1). rewrite <- Zle_Qle. lia.
Qed.

(** [compute_f] on a match number within [tolerance] of the number of
    triples of both sides: the three scores are within [tolerance] of
    1. *)
Lemma compute_f_near_full (match_num : Q) (t : Z) :
  (0 < t)%Z -> Qabs (match_num - inject_Z t) <= tolerance ->
  exists precision recall f_score,
    compute_f match_num t t = (precision, recall, f_score) /\
    Qabs (precision - 1) <= tolerance /\
    Qabs (recall - 1) <= tolerance /\
    Qabs (f_score - 1) <= tolerance.
Proof.
  intros Ht Hm. apply Qabs_Qle_condition in Hm as [Hlo Hhi].
  pose proof (inject_Z_ge_1 t Ht) as H1.
  assert (Htol : tolerance == 1 # 1000000000) by reflexivity.
  unfold compute_f. destruct (Z.eqb_spec t 0); [lia|]. cbn [orb].
  set (p := (0 + match_num) / (inject_Z t + 0)).
  assert (Hp : p * inject_Z t == match_num) by (unfold p; field; lra).
  assert (Plo : 1 - tolerance <= p).
  { unfold p. apply Qle_shift_div_l; [lra|]. nra. }
  assert (Phi : p <= 1 + tolerance).
  { unfold p. apply Qle_shift_div_r; [lra|]. nra. }
  assert (Hclose : Qabs (p - 1) <= tolerance).
  { apply Qabs_Qle_condition. split; lra. }
  destruct (Qeq_bool (p + p) 0) eqn:E.
  - apply Qeq_bool_iff in E. lra.
  - cbn [negb]. exists p, p, (2 * p * p / (p + p)).
    split; [reflexivity|]. split; [exact Hclose|]. split; [exact Hclose|].
    assert (Ef : 2 * p * p / (p + p) == p) by (field; lra).
    rewrite Ef. exact Hclose.
Qed.

Lemma self_best_match (g : graph) (vectors : vecs_t) (cutoff diffsense : Q)
    (f : simfun_t) (mwp : string) (fuel iteration_num : nat) (rnd : list nat) :
  wf_graph g ->
  (forall a b, 0 <= f a b /\ f a b <= 1) ->
  0 <= diffsense /\ diffsense <= 1 ->
  (0 < iteration_num)%nat ->
  (triple_num g * 10000000000 < Z.of_nat fuel)%Z ->
  exists bm bmn memo rnd',
    get_best_match fuel iteration_num
                   (instances g) (attributes g) (relations g)
                   (instances g) (attributes g) (relations g)
                   vectors cutoff diffsense (Some f) mwp "standard" [] rnd
      = Ok (bm, bmn, memo, rnd') /\
    bmn == inject_Z (triple_num g).
Proof.
  intros Hwf Hf Hd Hiter Hfuel.
  set (n := List.length (instances g)).
  destruct (self_pool vectors cutoff diffsense f mwp Hf Hd g Hwf (identity_mapping n))
    as (W & HW & HwfW & _ & _ & Hid).
  fold n in HW, HwfW, Hid. specialize (Hid eq_refl).
  assert (Hrange : forall M, List.length M = n ->
                     0 <= spec_score W M /\ spec_score W M <= triple_count g).
  { intros M _.
    destruct (self_pool vectors cutoff diffsense f mwp Hf Hd g Hwf M)
      as (W' & HW' & _ & H0 & H1 & _).
    fold n in HW'. rewrite HW in HW'. injection HW' as <-. auto. }
  assert (Hsmart : forall rnd0, exists M0 rnd',
             smart_init_mapping (repeat (zrange 0 n) n) (instances g) (instances g) rnd0
               = Ok (M0, rnd') /\
             List.length M0 = n /\ triple_count g <= spec_score W M0).
  { intros rnd0. exists (identity_mapping n), rnd0.
    split; [apply smart_init_identity|]. split; [apply zrange_length|exact Hid]. }
  destruct (restarts_spec n W HwfW (repeat (zrange 0 n) n) (repeat_length _ _)
              n (triple_count g) Hrange fuel (fuel_covers _ _ Hfuel)
              (instances g) (instances g) eq_refl Hsmart
              iteration_num 0%nat (repeat (-1)%Z n, 0, [], rnd) false)
    as ([[[bm bmn] memo'] rnd'] & Hr & (_ & Hle & Htop)).
  { unfold search_inv. simpl. split; [intros T v _; discriminate|].
    split; [|discriminate].
    destruct (Hrange (identity_mapping n) (zrange_length _ _)). lra. }
  simpl in Hle, Htop.
  assert (Hflag : false || ((0 =? 0)%nat && negb (iteration_num =? 0)%nat) = true).
  { destruct iteration_num; [lia|reflexivity]. }
  specialize (Htop Hflag).
  exists bm, bmn, memo', rnd'. split.
  - unfold get_best_match.
    change (weighting_ok "standard") with true. cbn [negb].
    rewrite HW. cbn [bind]. fold n. exact Hr.
  - unfold triple_count in *. lra.
Qed.

(** C8, amended.  For a renamed graph with at least one node, no
    ["_"] in its concept labels and no two attribute or relation
    triples that match each other, under the standard weighting, a
    similarity function and a sense discount in [[0, 1]], at least one
    iteration and fuel for the hill climbing: comparing the graph with
    itself returns, whatever the random choices, a best match number
    within [tolerance] of its number of triples, and precision, recall
    and F-score within [tolerance] of 1. *)
Theorem self_comparison_within_tolerance (g : graph) (vectors : vecs_t)
    (cutoff diffsense : Q) (f : simfun_t) (mwp : string) (fuel iteration_num : nat)
    (rnd : list nat) :
  wf_graph g ->
  instances g <> [] ->
  (forall a b, 0 <= f a b /\ f a b <= 1) ->
  0 <= diffsense /\ diffsense <= 1 ->
  (0 < iteration_num)%nat ->
  (triple_num g * 10000000000 < Z.of_nat fuel)%Z ->
  exists best_match_num precision recall f_score,
    score_pair fuel iteration_num g g vectors cutoff diffsense (Some f) mwp
               "standard" rnd
      = Ok (best_match_num, (precision, recall, f_score)) /\
    Qabs (best_match_num - inject_Z (triple_num g)) <= tolerance /\
    Qabs (precision - 1) <= tolerance /\
    Qabs (recall - 1) <= tolerance /\
    Qabs (f_score - 1) <= tolerance.
Proof.
  intros Hwf Hne Hf Hd Hiter Hfuel.
  destruct (self_best_match g vectors cutoff diffsense f mwp fuel iteration_num rnd
              Hwf Hf Hd Hiter Hfuel) as (bm & bmn & memo & rnd' & Hg & Hbmn).
  assert (Hpos : (0 < triple_num g)%Z).
  { unfold triple_num. destruct (instances g); [contradiction|]. simpl. lia. }
  assert (Hclose : Qabs (bmn - inject_Z (triple_num g)) <= tolerance)
    by now apply within_tolerance.
  destruct (compute_f_near_full bmn (triple_num g) Hpos Hclose)
    as (p & r & fs & Hc & Hp & Hr & Hfs).
  exists bmn, p, r, fs. unfold score_pair. rewrite Hg. cbn [bind]. rewrite Hc.
  split; [reflexivity|]. split; [exact Hclose|]. split; [exact Hp|].
  split; [exact Hr|exact Hfs].
Qed.

Lemma self_comparison_within_tolerance_witness :
  exists best_match_num precision recall f_score,
    score_pair (Z.to_nat 50000000001) 5 hit_boy hit_boy [] (1 # 2) (1 # 2)
               (Some (fun _ _ => 1)) "split" "standard" [3; 1; 4]%nat
      = Ok (best_match_num, (precision, recall, f_score)) /\
    Qabs (best_match_num - inject_Z (triple_num hit_boy)) <= tolerance /\
    Qabs (precision - 1) <= tolerance /\
    Qabs (recall - 1) <= tolerance /\
    Qabs (f_score - 1) <= tolerance.
Proof.
  apply (self_comparison_within_tolerance hit_boy [] (1 # 2) (1 # 2) (fun _ _ => 1)
           "split" (Z.to_nat 50000000001) 5 [3; 1; 4]%nat).
  - split.
    + intros [|[|[|i]]] t; simpl; try discriminate; intros [= <-]; auto.
    + intros t [<-|[<-|[]]]; reflexivity.
    + intros a [<-|[]]. simpl. lia.
    + simpl. repeat constructor; simpl; intuition discriminate.
    + intros r [<-|[]]. simpl. lia.
    + simpl. repeat constructor; simpl; intuition discriminate.
  - discriminate.
  - intros a b. split; lra.
  - split; lra.
  - lia.
  - change (triple_num hit_boy) with 4%Z. lia.
Defined.

(** C8 as stated fails by design under the ["concept"] weighting: every
    instance match counts three times, so the graph [(x / hit :ARG0 (y
    / boy))] compared with itself has match number 8 with 4 triples and
    an F-score of 2. *)
Lemma self_comparison_concept_weighting :
  exists best_match_num precision recall f_score,
    score_pair 10 5 hit_boy hit_boy [] (1 # 2) (1 # 2) None "split" "concept" []
      = Ok (best_match_num, (precision, recall, f_score)) /\
    ~ best_match_num == inject_Z (triple_num hit_boy) /\
    ~ f_score == 1.
Proof.
  eexists. eexists. eexists. eexists.
  split; [vm_compute; reflexivity|]. split; discriminate.
Qed.

Definition underscore_graph : graph :=
  Graph [Triple "instance" 0 "p"; Triple "instance" 1 "p_p_p";
         Triple "instance" 2 "p_p"]
        [Triple "TOP" 0 "p"]
        [RTriple "ARG0" 0 1; RTriple "ARG1" 0 2].

(** The similarity cache is keyed by [a + "_" + b]: the entry of
    ["p"] with ["p_p_p"] is found again for ["p_p"] with itself.  The
    graph below, compared with itself under the standard weighting,
    scores 5 of its 6 triples. *)
Lemma self_comparison_cache_collision (rnd : list nat) :
  maybe_has_sim "p_p" "p_p" [("p_p_p_p", 0)] [] (1 # 2) (1 # 2) None "split"
    = Ok (0, [("p_p_p_p", 0)]) /\
  exists best_match_num precision recall f_score,
    score_pair 10 1 underscore_graph underscore_graph [] (1 # 2) (1 # 2) None
               "split" "standard" rnd
      = Ok (best_match_num, (precision, recall, f_score)) /\
    best_match_num == 5 /\ triple_num underscore_graph = 6%Z /\
    f_score == 5 # 6.
Proof.
  split; [reflexivity|].
  eexists. eexists. eexists. eexists.
  split; [vm_compute; reflexivity|]. split; [reflexivity|].
  split; reflexivity.
Qed.

(* ================================================================== *)
(** * Further properties of the module *)

(* ------------------------------------------------------------------ *)
(** ** Vector lookup *)

Lemma split_on_no_sep (sep : ascii) (s : string) :
  contains sep s = false -> split_on sep s = [s].
Proof.
  induction s as [|c s IH]; simpl; [reflexivity|].
  intros H. apply orb_false_iff in H as [Hc Hs].
  rewrite Ascii.eqb_sym, Hc, (IH Hs). reflexivity.
Qed.

Lemma part_vecs_nil (ws : list string) (vecs : vecs_t) :
  part_vecs ws vecs = [] <-> forall w, In w ws -> dmem vecs w = false.
Proof.
  unfold dmem. induction ws as [|w ws IH]; simpl.
  - split; [intros _ w []|reflexivity].
  - destruct (dget vecs w) eqn:E.
    + split; [discriminate|]. intros H. specialize (H w (or_introl eq_refl)).
      rewrite E in H. discriminate.
    + rewrite IH. split.
      * intros H x [<-|Hx]; [now rewrite E|auto].
      * intros H x Hx. auto.
Qed.

(** X1.  Under the strategy ["split"], [maybe_get_vec] finds a vector
    exactly when the word is in the vocabulary or one of its
    hyphen-separated parts is. *)
Theorem maybe_get_vec_split_iff (word : string) (vecs : vecs_t) :
  maybe_get_vec word vecs "split" <> None <->
  dmem vecs word = true \/
  exists w, In w (split_on "-" word) /\ dmem vecs w = true.
Proof.
  unfold maybe_get_vec. destruct (dget vecs word) as [v|] eqn:E.
  { split; [|discriminate]. intros _. left. unfold dmem. now rewrite E. }
  assert (Hw : dmem vecs word = false) by (unfold dmem; now rewrite E).
  destruct (contains "-" word) eqn:Hc.
  - cbn [String.eqb Ascii.eqb Bool.eqb]. cbn.
    destruct (part_vecs (split_on "-" word) vecs) as [|v l] eqn:P.
    + split; [congruence|]. intros [H|(w & Hin & Hm)]; [congruence|].
      rewrite (proj1 (part_vecs_nil _ _) P w Hin) in Hm. discriminate.
    + split; [|discriminate]. intros _. right.
      destruct (existsb (dmem vecs) (split_on "-" word)) eqn:Ex.
      * apply existsb_exists in Ex. exact Ex.
      * exfalso. assert (part_vecs (split_on "-" word) vecs = []); [|congruence].
        apply part_vecs_nil. intros w Hin.
        destruct (dmem vecs w) eqn:D; [|reflexivity].
        assert (existsb (dmem vecs) (split_on "-" word) = true); [|congruence].
        apply existsb_exists. eauto.
  - split; [congruence|]. intros [H|(w & Hin & Hm)]; [congruence|].
    rewrite (split_on_no_sep _ _ Hc) in Hin. destruct Hin as [<-|[]]. congruence.
Qed.

(* ------------------------------------------------------------------ *)
(** ** The similarity of two labels *)

(** X2.  [maybe_sim] is symmetric in its two labels when the
    similarity function is. *)
Theorem maybe_sim_symmetric (a b : string) (vecs : vecs_t) (cutoff diffsense : Q)
    (simfun : option simfun_t) (mwp : string) :
  (forall f, simfun = Some f -> forall u v, f u v = f v u) ->
  maybe_sim a b vecs cutoff diffsense simfun mwp
  = maybe_sim b a vecs cutoff diffsense simfun mwp.
Proof.
  intros Hsym. unfold maybe_sim.
  rewrite (String.eqb_sym b a).
  destruct (a =s b); [reflexivity|].
  rewrite (String.eqb_sym (str_of (wo_sense b)) (str_of (wo_sense a))).
  destruct (truthy (wo_sense a)) eqn:Ta, (truthy (wo_sense b)) eqn:Tb;
    cbn [andb orb];
    destruct (str_of (wo_sense a) =s str_of (wo_sense b)); try reflexivity;
    destruct (str_of (wo_sense a) =s b); try reflexivity;
    destruct (str_of (wo_sense b) =s a); try reflexivity;
    repeat match goal with
    | |- context [match maybe_get_vec ?w ?v ?m with _ => _ end] =>
        destruct (maybe_get_vec w v m)
    | |- context [if contains ?c ?s && _ then _ else _] =>
        destruct (contains c s); cbn [andb]
    | |- context [if contains ?c ?s then _ else _] =>
        destruct (contains c s); cbn [andb]
    end;
    try reflexivity;
    (destruct simfun as [f|]; [|reflexivity]); cbn [call_simfun bind];
    match goal with
    | |- context [f ?u ?v] => rewrite (Hsym f eq_refl u v)
    end; reflexivity.
Qed.

Lemma maybe_sim_symmetric_witness :
  maybe_sim "cat" "dog-01" [("cat", [1; 0]); ("dog", [1; 1])] (1 # 2) (1 # 2)
            (Some (fun _ _ => 7 # 10)) "split"
  = maybe_sim "dog-01" "cat" [("cat", [1; 0]); ("dog", [1; 1])] (1 # 2) (1 # 2)
              (Some (fun _ _ => 7 # 10)) "split".
Proof.
  apply (maybe_sim_symmetric "cat" "dog-01").
  intros f [= <-] u v. reflexivity.
Defined.

(** X3.  With a similarity function and a sense discount in [[0, 1]],
    [maybe_sim] raises no exception and its answer lies in [[0, 1]],
    whatever the cutoff, the vocabulary and the strategy. *)
Theorem maybe_sim_unit_interval (a b : string) (vecs : vecs_t) (cutoff diffsense : Q)
    (f : simfun_t) (mwp : string) :
  (forall u v, 0 <= f u v /\ f u v <= 1) ->
  0 <= diffsense /\ diffsense <= 1 ->
  exists s, maybe_sim a b vecs cutoff diffsense (Some f) mwp = Ok s /\
            0 <= s /\ s <= 1.
Proof.
  intros Hf Hd.
  destruct (maybe_sim_range vecs cutoff diffsense f Hf Hd a b mwp)
    as (s & Hs & H0 & H1 & _).
  exists s. auto.
Qed.

Lemma maybe_sim_unit_interval_witness :
  exists s, maybe_sim "cat" "dog-01" [("cat", [1; 0]); ("dog", [1; 1])]
                      (1 # 2) (1 # 2) (Some (fun _ _ => 7 # 10)) "split" = Ok s /\
            0 <= s /\ s <= 1.
Proof.
  apply (maybe_sim_unit_interval "cat" "dog-01").
  - intros u v. split; [discriminate|discriminate].
  - split; discriminate.
Defined.

Lemma maybe_get_vec_empty (word mwp : string) : maybe_get_vec word [] mwp = None.
Proof.
  unfold maybe_get_vec. cbn [dget].
  destruct (contains "-" word); [|reflexivity].
  destruct (mwp =s "split"); [|reflexivity].
  assert (H : part_vecs (split_on "-" word) [] = []).
  { apply part_vecs_nil. reflexivity. }
  now rewrite H.
Qed.

(** X4.  With an empty vocabulary [maybe_sim] never calls the
    similarity function, so it raises nothing even when there is none;
    it answers [1] on equal labels and otherwise the sense discount or
    [0]. *)
Theorem maybe_sim_without_vectors (a b : string) (cutoff diffsense : Q)
    (simfun : option simfun_t) (mwp : string) :
  exists s, maybe_sim a b [] cutoff diffsense simfun mwp = Ok s /\
            (a = b -> s = 1) /\
            (a <> b -> s = 1 * diffsense \/ s = 0).
Proof.
  unfold maybe_sim. destruct (String.eqb_spec a b) as [->|Hne].
  { exists 1. split; [reflexivity|]. split; [reflexivity|]. intros H. now elim H. }
  rewrite !maybe_get_vec_empty.
  destruct (truthy (wo_sense a) && truthy (wo_sense b)
            && (str_of (wo_sense a) =s str_of (wo_sense b)));
    [|destruct (truthy (wo_sense a) && (str_of (wo_sense a) =s b));
      [|destruct (truthy (wo_sense b) && (str_of (wo_sense b) =s a))]];
    try (exists (1 * diffsense); split;
         [reflexivity|split; [intros; contradiction|auto]]).
  exists 0. split; [now destruct (truthy (wo_sense a)), (truthy (wo_sense b))|].
  split; [intros; contradiction|auto].
Qed.



(* ------------------------------------------------------------------ *)
(** ** The similarity cache, once more *)

(** X6.  When neither key of a pair of labels is in the cache,
    [maybe_has_sim] answers what [maybe_sim] computes under the
    strategy ["split"] and stores it; from then on a call for the pair,
    in either order and with any other arguments, answers the stored
    value and leaves the cache as it is. *)
Theorem maybe_has_sim_cached (a b : string) (sd sd' : sim_dict_t) (vecs : vecs_t)
    (cutoff diffsense : Q) (simfun : option simfun_t) (mwp : string) (s : Q) :
  dget sd (a ++ "_" ++ b)%string = None ->
  dget sd (b ++ "_" ++ a)%string = None ->
  maybe_has_sim a b sd vecs cutoff diffsense simfun mwp = Ok (s, sd') ->
  maybe_sim a b vecs cutoff diffsense simfun "split" = Ok s /\
  forall vecs' cutoff' diffsense' simfun' mwp',
    maybe_has_sim a b sd' vecs' cutoff' diffsense' simfun' mwp' = Ok (s, sd') /\
    maybe_has_sim b a sd' vecs' cutoff' diffsense' simfun' mwp' = Ok (s, sd').
Proof.
  intros H1 H2. unfold maybe_has_sim at 1. rewrite H1, H2.
  intros H. apply bind_Ok in H as (s0 & Hs & H). injection H as Es Esd. subst s0. subst sd'.
  split; [exact Hs|]. intros vecs' cutoff' diffsense' simfun' mwp'.
  assert (Hab : dget (dset (dset sd (a ++ "_" ++ b)%string s) (b ++ "_" ++ a)%string s)
                     (a ++ "_" ++ b)%string = Some s).
  { rewrite dget_dset, dget_dset_same.
    match goal with |- (if ?c then _ else _) = _ => destruct c end; reflexivity. }
  assert (Hba : dget (dset (dset sd (a ++ "_" ++ b)%string s) (b ++ "_" ++ a)%string s)
                     (b ++ "_" ++ a)%string = Some s) by apply dget_dset_same.
  unfold maybe_has_sim. cbn [append] in Hab, Hba |- *. rewrite Hab, Hba. auto.
Qed.

Lemma maybe_has_sim_cached_witness :
  maybe_sim "cat" "dog" [] (1 # 2) (1 # 2) None "split" = Ok 0 /\
  forall vecs' cutoff' diffsense' simfun' mwp',
    maybe_has_sim "cat" "dog" [("cat_dog", 0); ("dog_cat", 0)]
                  vecs' cutoff' diffsense' simfun' mwp'
      = Ok (0, [("cat_dog", 0); ("dog_cat", 0)]) /\
    maybe_has_sim "dog" "cat" [("cat_dog", 0); ("dog_cat", 0)]
                  vecs' cutoff' diffsense' simfun' mwp'
      = Ok (0, [("cat_dog", 0); ("dog_cat", 0)]).
Proof.
  apply (maybe_has_sim_cached "cat" "dog" [] _ [] (1 # 2) (1 # 2) None "none");
    reflexivity.
Defined.

(* ------------------------------------------------------------------ *)
(** ** The F-score, once more *)

Lemma compute_f_cases (match_num : Q) (test_num gold_num : Z) :
  (0 < test_num)%Z -> (0 < gold_num)%Z ->
  exists f_score,
    compute_f match_num test_num gold_num
    = ((0 + match_num) / (inject_Z test_num + 0),
       (0 + match_num) / (inject_Z gold_num + 0), f_score) /\
    f_score == 2 * match_num / inject_Z (test_num + gold_num).
Proof.
  intros Ht Hg. unfold compute_f.
  destruct (Z.eqb_spec test_num 0); [lia|].
  destruct (Z.eqb_spec gold_num 0); [lia|]. cbn [orb].
  assert (Qt : 0 < inject_Z test_num).
  { change 0 with (inject_Z 0). now rewrite <- Zlt_Qlt. }
  assert (Qg : 0 < inject_Z gold_num).
  { change 0 with (inject_Z 0). now rewrite <- Zlt_Qlt. }
  rewrite inject_Z_plus.
  set (t := inject_Z test_num) in *. set (g := inject_Z gold_num) in *.
  destruct (Qeq_bool _ 0) eqn:E; cbn [negb]; eexists; (split; [reflexivity|]).
  - apply Qeq_bool_iff in E.
    assert (Hm : match_num == 0).
    { assert (H : (0 + match_num) / (t + 0) + (0 + match_num) / (g + 0)
                  == match_num * ((t + g) / (t * g))) by (field; lra).
      rewrite H in E.
      assert (Hpos : 0 < (t + g) / (t * g)).
      { apply Qlt_shift_div_l; nra. }
      nra. }
    rewrite Hm. field. lra.
  - apply Qeq_bool_neq in E.
    assert (Hm : ~ match_num == 0).
    { intros Hm. apply E. rewrite Hm. field. lra. }
    field. repeat split; try lra.
    intros H. apply Hm. nra.
Qed.

Lemma up_to_tolerance (a b : Q) : a <= b -> a <= b + tolerance.
Proof. intros H. assert (0 <= tolerance) by discriminate. lra. Qed.

(** X7.  For two positive triple counts and a match number between
    [0] and their sum, the F-score that [compute_f] returns is, to
    within [tolerance], twice the match number over the sum of the two
    counts, also when the match number is [0]. *)
Theorem compute_f_closed_form (match_num : Q) (test_num gold_num : Z) :
  (0 < test_num)%Z -> (0 < gold_num)%Z ->
  0 <= match_num -> match_num <= inject_Z (test_num + gold_num) ->
  Qabs (snd (compute_f match_num test_num gold_num)
        - 2 * match_num / inject_Z (test_num + gold_num)) <= tolerance.
Proof.
  intros Ht Hg _ _.
  destruct (compute_f_cases match_num test_num gold_num Ht Hg) as (f & -> & Hf).
  apply within_tolerance. exact Hf.
Qed.

Lemma compute_f_closed_form_witness :
  Qabs (snd (compute_f 3 4 6) - 2 * 3 / inject_Z (4 + 6)) <= tolerance.
Proof. apply (compute_f_closed_form 3 4 6); [lia|lia|discriminate|discriminate]. Defined.

Lemma compute_f_in_unit (match_num : Q) (test_num gold_num : Z) :
  0 <= match_num ->
  match_num <= inject_Z test_num -> match_num <= inject_Z gold_num ->
  let '(precision, recall, f_score) := compute_f match_num test_num gold_num in
  (0 <= precision /\ precision <= 1) /\
  (0 <= recall /\ recall <= 1) /\
  (0 <= f_score /\ f_score <= 1).
Proof.
  intros H0 Ht Hg. unfold compute_f.
  destruct (Z.eqb_spec test_num 0) as [->|Hnt]; [cbn [orb]; repeat split; lra|].
  destruct (Z.eqb_spec gold_num 0) as [->|Hng]; [cbn [orb]; repeat split; lra|].
  cbn [orb].
  assert (Qt : 0 < inject_Z test_num).
  { destruct (Z.lt_trichotomy test_num 0) as [Hl|[He|Hl]]; [|lia|].
    - rewrite Zlt_Qlt in Hl. change (inject_Z 0) with 0 in Hl. lra.
    - rewrite Zlt_Qlt in Hl. exact Hl. }
  assert (Qg : 0 < inject_Z gold_num).
  { destruct (Z.lt_trichotomy gold_num 0) as [Hl|[He|Hl]]; [|lia|].
    - rewrite Zlt_Qlt in Hl. change (inject_Z 0) with 0 in Hl. lra.
    - rewrite Zlt_Qlt in Hl. exact Hl. }
  set (p := (0 + match_num) / (inject_Z test_num + 0)).
  set (r := (0 + match_num) / (inject_Z gold_num + 0)).
  assert (Hp0 : 0 <= p) by (unfold p; apply Qle_shift_div_l; lra).
  assert (Hp1 : p <= 1) by (unfold p; apply Qle_shift_div_r; lra).
  assert (Hr0 : 0 <= r) by (unfold r; apply Qle_shift_div_l; lra).
  assert (Hr1 : r <= 1) by (unfold r; apply Qle_shift_div_r; lra).
  destruct (Qeq_bool (p + r) 0) eqn:E; cbn [negb].
  - split; [lra|]. split; lra.
  - apply Qeq_bool_neq in E. assert (Hs : 0 < p + r) by lra.
    split; [lra|]. split; [lra|]. split.
    + apply Qle_shift_div_l; [exact Hs|]. nra.
    + apply Qle_shift_div_r; [exact Hs|]. nra.
Qed.

(** [compute_f] on a match number that exceeds the two triple counts
    by no more than [tolerance]: the three scores exceed 1 by no more
    than [tolerance]. *)
Lemma compute_f_slack (match_num : Q) (test_num gold_num : Z) :
  0 <= match_num ->
  match_num <= inject_Z test_num + tolerance ->
  match_num <= inject_Z gold_num + tolerance ->
  let '(precision, recall, f_score) := compute_f match_num test_num gold_num in
  (0 <= precision /\ precision <= 1 + tolerance) /\
  (0 <= recall /\ recall <= 1 + tolerance) /\
  (0 <= f_score /\ f_score <= 1 + tolerance).
Proof.
  intros H0 Ht Hg.
  assert (Htol : tolerance == 1 # 1000000000) by reflexivity.
  unfold compute_f.
  destruct (Z.eqb_spec test_num 0) as [->|Hnt]; [cbn [orb]; repeat split; lra|].
  destruct (Z.eqb_spec gold_num 0) as [->|Hng]; [cbn [orb]; repeat split; lra|].
  cbn [orb].
  assert (Qt : 1 <= inject_Z test_num).
  { destruct (Z.lt_trichotomy test_num 0) as [Hl|[He|Hl]]; [|lia|].
    - assert (Hle : (test_num <= -1)%Z) by lia.
      rewrite Zle_Qle in Hle. change (inject_Z (-1)) with (-1 # 1) in Hle. lra.
    - now apply inject_Z_ge_1. }
  assert (Qg : 1 <= inject_Z gold_num).
  { destruct (Z.lt_trichotomy gold_num 0) as [Hl|[He|Hl]]; [|lia|].
    - assert (Hle : (gold_num <= -1)%Z) by lia.
      rewrite Zle_Qle in Hle. change (inject_Z (-1)) with (-1 # 1) in Hle. lra.
    - now apply inject_Z_ge_1. }
  set (p := (0 + match_num) / (inject_Z test_num + 0)).
  set (r := (0 + match_num) / (inject_Z gold_num + 0)).
  assert (Hp0 : 0 <= p) by (unfold p; apply Qle_shift_div_l; lra).
  assert (Hp1 : p <= 1 + tolerance) by (unfold p; apply Qle_shift_div_r; [lra|nra]).
  assert (Hr0 : 0 <= r) by (unfold r; apply Qle_shift_div_l; lra).
  assert (Hr1 : r <= 1 + tolerance) by (unfold r; apply Qle_shift_div_r; [lra|nra]).
  destruct (Qeq_bool (p + r) 0) eqn:E; cbn [negb].
  - split; [lra|]. split; lra.
  - apply Qeq_bool_neq in E. assert (Hs : 0 < p + r) by lra.
    split; [lra|]. split; [lra|]. split.
    + apply Qle_shift_div_l; [exact Hs|]. nra.
    + apply Qle_shift_div_r; [exact Hs|]. nra.
Qed.

(** X8.  When the match number is not negative and not above either
    triple count, precision, recall and F-score all lie in [[0, 1]]. *)
Theorem compute_f_unit_interval (match_num : Q) (test_num gold_num : Z) :
  0 <= match_num ->
  match_num <= inject_Z test_num -> match_num <= inject_Z gold_num ->
  let '(precision, recall, f_score) := compute_f match_num test_num gold_num in
  (0 <= precision /\ precision <= 1) /\
  (0 <= recall /\ recall <= 1) /\
  (0 <= f_score /\ f_score <= 1).
Proof.
  intros H0 Ht Hg. exact (compute_f_in_unit match_num test_num gold_num H0 Ht Hg).
Qed.

Lemma compute_f_unit_interval_witness :
  let '(precision, recall, f_score) := compute_f 3 4 6 in
  (0 <= precision /\ precision <= 1) /\
  (0 <= recall /\ recall <= 1) /\
  (0 <= f_score /\ f_score <= 1).
Proof. apply (compute_f_unit_interval 3 4 6); discriminate. Defined.

(* ------------------------------------------------------------------ *)
(** ** Reading one AMR from a file *)

Lemma rstrip_rstrip (s : string) : rstrip (rstrip s) = rstrip s.
Proof.
  induction s as [|c s IH]; simpl; [reflexivity|].
  destruct (rstrip s) as [|d u] eqn:E.
  - destruct (is_space c) eqn:Hc; simpl; [reflexivity|]. now rewrite Hc.
  - simpl in IH |- *. now rewrite IH.
Qed.

Lemma lstrip_head (s : string) :
  lstrip s = EmptyString \/
  exists c t, lstrip s = String c t /\ is_space c = false.
Proof.
  induction s as [|c s IH]; simpl; [now left|].
  destruct (is_space c) eqn:Hc; [exact IH|]. right. eauto.
Qed.

Lemma strip_strip (s : string) : strip (strip s) = strip s.
Proof.
  unfold strip. destruct (lstrip_head s) as [->|(c & t & -> & Hc)]; [reflexivity|].
  assert (H : lstrip (rstrip (String c t)) = rstrip (String c t)).
  { simpl. destruct (rstrip t); rewrite ?Hc; simpl; now rewrite Hc. }
  rewrite H. apply rstrip_rstrip.
Qed.

(** A line of white space only. *)
Definition blank_line (l : string) : bool := strip l =s EmptyString.

(** A line whose first character that is not white space is [#]. *)
Definition comment_line (l : string) : bool := startswith (strip l) "#".

Lemma amr_lines_step (line : string) (input_f cur_amr : list string) (has_content : bool) :
  amr_lines (line :: input_f) cur_amr has_content
  = if blank_line line then
      if has_content then (cur_amr, input_f) else amr_lines input_f cur_amr false
    else if comment_line line then amr_lines input_f cur_amr has_content
    else amr_lines input_f (cur_amr ++ [strip line])%list true.
Proof.
  cbn [amr_lines]. unfold blank_line, comment_line. rewrite strip_strip.
  destruct (strip line =s EmptyString); [|reflexivity].
  now destruct has_content.
Qed.

Lemma amr_lines_skip (pre input_f cur_amr : list string) :
  Forall (fun l => blank_line l || comment_line l = true) pre ->
  amr_lines (pre ++ input_f) cur_amr false = amr_lines input_f cur_amr false.
Proof.
  induction 1 as [|l pre Hl _ IH]; [reflexivity|].
  rewrite <- app_comm_cons, amr_lines_step.
  destruct (blank_line l); [exact IH|].
  simpl in Hl. rewrite Hl. exact IH.
Qed.

Lemma amr_lines_body (body input_f cur_amr : list string) :
  Forall (fun l => blank_line l = false) body ->
  amr_lines (body ++ input_f) cur_amr true
  = amr_lines input_f
      (cur_amr ++ map strip (filter (fun l => negb (comment_line l)) body))%list true.
Proof.
  intros H. revert cur_amr. induction H as [|l body Hl _ IH]; intros cur_amr.
  - simpl. now rewrite app_nil_r.
  - rewrite <- app_comm_cons, amr_lines_step, Hl. cbn [filter].
    destruct (comment_line l); cbn [negb]; rewrite IH; [reflexivity|].
    cbn [map]. now rewrite <- app_assoc.
Qed.

(** X9.  [get_amr_line] skips the blank and comment lines before an
    AMR, then returns the lines up to the next blank line or the end of
    the file, stripped, without the comment lines among them, and
    joined; the file is left after that blank line. *)
Theorem get_amr_line_block (pre body : list string) (first : string) :
  Forall (fun l => blank_line l || comment_line l = true) pre ->
  blank_line first = false -> comment_line first = false ->
  Forall (fun l => blank_line l = false) body ->
  let amr := join EmptyString
               (map strip (filter (fun l => negb (comment_line l)) (first :: body))) in
  get_amr_line (pre ++ first :: body) = (amr, []) /\
  forall sep rest, blank_line sep = true ->
    get_amr_line (pre ++ first :: body ++ sep :: rest) = (amr, rest).
Proof.
  intros Hpre Hb Hc Hbody amr. unfold get_amr_line.
  assert (Hgo : forall tail,
            amr_lines (pre ++ first :: body ++ tail) [] false
            = amr_lines tail
                (map strip (filter (fun l => negb (comment_line l)) (first :: body)))
                true).
  { intros tail. rewrite amr_lines_skip by exact Hpre.
    rewrite amr_lines_step, Hb, Hc, amr_lines_body by exact Hbody.
    cbn [filter]. rewrite Hc. reflexivity. }
  split.
  - rewrite <- (app_nil_r body) at 1. rewrite Hgo. reflexivity.
  - intros sep rest Hsep. rewrite Hgo, amr_lines_step, Hsep. reflexivity.
Qed.

Lemma get_amr_line_block_witness :
  let amr := join EmptyString
               (map strip (filter (fun l => negb (comment_line l))
                                  ["(x / hit "; " # note"; "   :ARG0 (y / boy))"])) in
  get_amr_line ([" "; "# ::id 1"] ++ ["(x / hit "; " # note"; "   :ARG0 (y / boy))"])
    = (amr, []) /\
  forall sep rest, blank_line sep = true ->
    get_amr_line ([" "; "# ::id 1"] ++ "(x / hit " :: [" # note"; "   :ARG0 (y / boy))"]
                  ++ sep :: rest) = (amr, rest).
Proof.
  apply (get_amr_line_block [" "; "# ::id 1"] [" # note"; "   :ARG0 (y / boy))"]
           "(x / hit ").
  - repeat constructor.
  - reflexivity.
  - reflexivity.
  - repeat constructor.
Defined.

Lemma join_nonempty (l : list string) (x : string) :
  In x l -> x <> EmptyString -> join EmptyString l <> EmptyString.
Proof.
  induction l as [|w l IH]; [intros []|].
  intros Hin Hx. destruct l as [|w' l'].
  - destruct Hin as [->|[]]. exact Hx.
  - change (join EmptyString (w :: w' :: l'))
      with (w ++ EmptyString ++ join EmptyString (w' :: l'))%string.
    destruct Hin as [->|Hin].
    + destruct x; [congruence|discriminate].
    + destruct w; [|discriminate]. simpl. apply IH; auto.
Qed.

Lemma amr_lines_keeps (input_f cur_amr : list string) (has_content : bool) (x : string) :
  In x cur_amr -> In x (fst (amr_lines input_f cur_amr has_content)).
Proof.
  revert cur_amr has_content. induction input_f as [|l input_f IH];
    intros cur_amr has_content Hin; [exact Hin|].
  rewrite amr_lines_step.
  destruct (blank_line l); [destruct has_content; [exact Hin|now apply IH]|].
  destruct (comment_line l); apply IH; [exact Hin|].
  apply in_or_app. now left.
Qed.

Lemma get_amr_line_nothing (input_f : list string) :
  Forall (fun l => blank_line l || comment_line l = true) input_f ->
  get_amr_line input_f = (EmptyString, []).
Proof.
  intros H. unfold get_amr_line.
  rewrite <- (app_nil_r input_f), amr_lines_skip by exact H. reflexivity.
Qed.

Lemma get_amr_line_something (input_f : list string) :
  fst (get_amr_line input_f) = EmptyString ->
  Forall (fun l => blank_line l || comment_line l = true) input_f.
Proof.
  unfold get_amr_line. induction input_f as [|l input_f IH]; [constructor|].
  rewrite amr_lines_step.
  destruct (blank_line l) eqn:Hb.
  - intros H. constructor; [now rewrite Hb|]. now apply IH.
  - destruct (comment_line l) eqn:Hc.
    + intros H. constructor; [now rewrite Hb, Hc|]. now apply IH.
    + intros H. exfalso.
      pose proof (amr_lines_keeps input_f ([] ++ [strip l]) true (strip l)
                    (or_introl eq_refl)) as Hin.
      destruct (amr_lines input_f ([] ++ [strip l]) true) as [cur rest].
      simpl in H, Hin. revert H. apply (join_nonempty cur (strip l) Hin).
      unfold blank_line in Hb. intros E. rewrite E in Hb. discriminate.
Qed.

(** X10.  [get_amr_line] returns the empty string exactly when every
    line left in the file is blank or a comment, and then it has read
    the file to its end: the empty string tells the caller that no AMR
    is left. *)
Theorem get_amr_line_empty_iff (input_f : list string) :
  (fst (get_amr_line input_f) = EmptyString <->
   Forall (fun l => blank_line l || comment_line l = true) input_f) /\
  (fst (get_amr_line input_f) = EmptyString -> snd (get_amr_line input_f) = []).
Proof.
  split; [split; [apply get_amr_line_something|]|].
  - intros H. now rewrite (get_amr_line_nothing _ H).
  - intros H. now rewrite (get_amr_line_nothing _ (get_amr_line_something _ H)).
Qed.

(* ------------------------------------------------------------------ *)
(** ** Initial mappings are one to one *)

(** No node of AMR 2 is the image of two nodes of AMR 1. *)
Definition one_to_one (M : list Z) : Prop :=
  forall i j x, nth_error M i = Some x -> nth_error M j = Some x ->
                x <> (-1)%Z -> i = j.

(** Every mapped node goes to one of its candidates. *)
Definition within (C : list pyset) (M : list Z) : Prop :=
  forall i x, nth_error M i = Some x -> x <> (-1)%Z ->
              exists cs, nth_error C i = Some cs /\ In x cs.

(** An unmapped node whose candidates are all nodes has every
    candidate taken by a node before it. *)
Definition exhausted (C : list pyset) (M : list Z) : Prop :=
  forall i cs c, nth_error M i = Some (-1)%Z -> nth_error C i = Some cs ->
                 ~ In (-1)%Z cs -> In c cs ->
                 exists j, (j < i)%nat /\ nth_error M j = Some c.

Lemma pop_In {A} (n : nat) (l : list A) (x : A) : In x (pop n l) -> In x l.
Proof.
  revert n. induction l as [|y l IH]; intros [|n]; simpl; auto.
  intros [->|H]; eauto.
Qed.

Lemma pop_split {A} (n : nat) (l : list A) (d x : A) :
  In x l -> x = nth n l d \/ In x (pop n l).
Proof.
  revert n. induction l as [|y l IH]; intros [|n]; simpl; auto.
  - intros [->|H]; auto.
  - intros [->|H]; auto. destruct (IH n H); auto.
Qed.

Lemma pop_length {A} (n : nat) (l : list A) :
  (n < List.length l)%nat -> List.length (pop n l) = pred (List.length l).
Proof.
  revert n. induction l as [|y l IH]; intros [|n]; simpl; try lia.
  intros H. rewrite IH by lia. destruct l; simpl in *; lia.
Qed.

Lemma randint_lt (n : nat) (rnd : list nat) :
  (0 < n)%nat -> (fst (randint n rnd) < n)%nat.
Proof. intros H. unfold randint. simpl. apply Nat.mod_upper_bound. lia. Qed.

Lemma random_pick_Some (fuel : nat) (candidates : list Z) (matched : matched_t)
    (rnd rnd' : list nat) (c : Z) :
  random_pick fuel candidates matched rnd = (Some c, rnd') ->
  In c candidates /\ dmem matched c = false.
Proof.
  revert candidates rnd. induction fuel as [|fuel IH]; intros candidates rnd;
    cbn [random_pick]; [discriminate|].
  destruct candidates as [|c0 cs]; [discriminate|].
  pose proof (randint_lt (List.length (c0 :: cs)) rnd ltac:(simpl; lia)) as Hlt.
  destruct (randint (List.length (c0 :: cs)) rnd) as [rid rnd1]. cbn [fst] in Hlt.
  destruct (dmem matched (nth rid (c0 :: cs) (-1)%Z)) eqn:D.
  - intros H. apply IH in H as [Hin Hd]. split; [|exact Hd].
    eapply pop_In; eauto.
  - intros H. assert (Hc : nth rid (c0 :: cs) (-1)%Z = c) by congruence.
    rewrite <- Hc. split; [apply (nth_In (c0 :: cs) (-1)%Z Hlt)|exact D].
Qed.

Lemma random_pick_None (fuel : nat) (candidates : list Z) (matched : matched_t)
    (rnd rnd' : list nat) :
  (List.length candidates <= fuel)%nat ->
  random_pick fuel candidates matched rnd = (None, rnd') ->
  forall c, In c candidates -> dmem matched c = true.
Proof.
  revert candidates rnd. induction fuel as [|fuel IH]; intros candidates rnd Hf;
    cbn [random_pick].
  - destruct candidates; [intros _ c []|simpl in Hf; lia].
  - destruct candidates as [|c0 cs]; [intros _ c []|].
    pose proof (randint_lt (List.length (c0 :: cs)) rnd ltac:(simpl; lia)) as Hlt.
    destruct (randint (List.length (c0 :: cs)) rnd) as [rid rnd1]. cbn [fst] in Hlt.
    destruct (dmem matched (nth rid (c0 :: cs) (-1)%Z)) eqn:D; [|discriminate].
    intros H c Hc.
    destruct (pop_split rid (c0 :: cs) (-1)%Z c Hc) as [->|Hp]; [exact D|].
    eapply IH; eauto. rewrite pop_length by exact Hlt. simpl in *. lia.
Qed.

(** What both initialisers keep between two nodes: the mapping so far
    is one to one and inside the candidates, and [matched_dict] holds
    the nodes it uses. *)
Record init_inv (C : list pyset) (result : list Z) (matched : matched_t) : Prop := {
  ii_length : List.length result = List.length C;
  ii_within : within C result;
  ii_one : one_to_one result;
  ii_result : forall x, In x result -> x <> (-1)%Z -> dmem matched x = true
}.

(** What [random_init_mapping] keeps in addition: [matched_dict] holds
    nothing else, and a node is unmapped only for want of a free
    candidate. *)
Definition taken_inv (C : list pyset) (result : list Z) (matched : matched_t) : Prop :=
  exhausted C result /\ forall x, dmem matched x = true -> In x result.

Lemma nth_error_snoc {A} (l : list A) (a x : A) (i : nat) :
  nth_error (l ++ [a]) i = Some x ->
  (i < List.length l)%nat /\ nth_error l i = Some x \/ i = List.length l /\ x = a.
Proof.
  intros H. destruct (Nat.lt_ge_cases i (List.length l)) as [Hlt|Hge].
  - left. rewrite nth_error_app1 in H by exact Hlt. auto.
  - right. rewrite nth_error_app2 in H by exact Hge.
    destruct (i - List.length l)%nat as [|k] eqn:E; simpl in H.
    + injection H as <-. split; [lia|reflexivity].
    + destruct k; discriminate.
Qed.

Lemma dmem_dset (matched : matched_t) (x y v : Z) :
  dmem (dset matched x v) y = (y =? x)%Z || dmem matched y.
Proof.
  unfold dmem. rewrite dget_dset. change (keqb y x) with (y =? x)%Z.
  now destruct (y =? x)%Z.
Qed.

Lemma init_inv_nil : init_inv [] [] [].
Proof.
  split; try reflexivity.
  - intros [|i] x H; discriminate.
  - intros [|i] j x H; discriminate.
  - intros x [].
Qed.

Lemma taken_inv_nil : taken_inv [] [] [].
Proof.
  split.
  - intros [|i] cs c H; discriminate.
  - intros x H. discriminate.
Qed.

(** The node after those of [C] stays unmapped. *)
Lemma init_inv_skip (C : list pyset) (result : list Z) (matched : matched_t)
    (cs : pyset) :
  init_inv C result matched ->
  init_inv (C ++ [cs]) (result ++ [(-1)%Z]) matched.
Proof.
  intros [Hlen Hw Ho Hr]. split.
  - rewrite !length_app, Hlen. reflexivity.
  - intros i x Hi Hx. apply nth_error_snoc in Hi as [[Hlt Hi]|[_ ->]]; [|congruence].
    destruct (Hw i x Hi Hx) as (cs' & Hc & Hin). exists cs'. split; [|exact Hin].
    rewrite nth_error_app1; [exact Hc|]. apply nth_error_Some. congruence.
  - intros i j x Hi Hj Hx.
    apply nth_error_snoc in Hi as [[_ Hi]|[_ ->]]; [|congruence].
    apply nth_error_snoc in Hj as [[_ Hj]|[_ ->]]; [|congruence].
    eapply Ho; eauto.
  - intros x Hx Hne. apply in_app_or in Hx as [Hx|[<-|[]]]; [auto|congruence].
Qed.

Lemma taken_inv_skip (C : list pyset) (result : list Z) (matched : matched_t)
    (cs : pyset) :
  List.length result = List.length C ->
  taken_inv C result matched ->
  (forall c, In c cs -> dmem matched c = true) ->
  taken_inv (C ++ [cs]) (result ++ [(-1)%Z]) matched.
Proof.
  intros Hlen [He Hm] Hall. split.
  - intros i cs' c Hi Hc Hno Hin.
    apply nth_error_snoc in Hi as [[Hlt Hi]|[-> _]].
    + rewrite nth_error_app1 in Hc by lia.
      destruct (He i cs' c Hi Hc Hno Hin) as (j & Hj & Hn).
      exists j. split; [exact Hj|]. rewrite nth_error_app1 by lia. exact Hn.
    + rewrite Hlen, nth_error_app2, Nat.sub_diag in Hc by lia.
      injection Hc as <-.
      apply Hall, Hm, In_nth_error in Hin as [j Hj].
      assert (j < List.length result)%nat by (apply nth_error_Some; congruence).
      exists j. split; [exact H|]. rewrite nth_error_app1 by exact H. exact Hj.
  - intros x Hx. apply in_or_app. left. auto.
Qed.

(** The node after those of [C] takes the free candidate [x]. *)
Lemma init_inv_take (C : list pyset) (result : list Z) (matched : matched_t)
    (cs : pyset) (x : Z) :
  init_inv C result matched ->
  In x cs -> dmem matched x = false ->
  init_inv (C ++ [cs]) (result ++ [x]) (dset matched x 1%Z).
Proof.
  intros [Hlen Hw Ho Hr] Hin Hfree.
  assert (Hnot : forall i, nth_error result i = Some x -> x = (-1)%Z).
  { intros i Hi. destruct (Z.eq_dec x (-1)) as [|Hne]; [assumption|].
    apply nth_error_In in Hi. rewrite (Hr x Hi Hne) in Hfree. discriminate. }
  split.
  - rewrite !length_app, Hlen. reflexivity.
  - intros i y Hi Hy. apply nth_error_snoc in Hi as [[Hlt Hi]|[-> ->]].
    + destruct (Hw i y Hi Hy) as (cs' & Hc & Hin'). exists cs'. split; [|exact Hin'].
      rewrite nth_error_app1; [exact Hc|]. lia.
    + exists cs. split; [|exact Hin].
      now rewrite Hlen, nth_error_app2, Nat.sub_diag by lia.
  - intros i j y Hi Hj Hy.
    apply nth_error_snoc in Hi as [[_ Hi]|[Ei Ey]];
      apply nth_error_snoc in Hj as [[_ Hj]|[Ej Ey']].
    + eapply Ho; eauto.
    + subst y. elim Hy. eauto.
    + subst y. elim Hy. eauto.
    + congruence.
  - intros y Hy Hne. rewrite dmem_dset. apply in_app_or in Hy as [Hy|[<-|[]]].
    + rewrite (Hr y Hy Hne). apply orb_true_r.
    + now rewrite Z.eqb_refl.
Qed.

Lemma taken_inv_take (C : list pyset) (result : list Z) (matched : matched_t)
    (cs : pyset) (x : Z) :
  List.length result = List.length C ->
  taken_inv C result matched ->
  In x cs ->
  taken_inv (C ++ [cs]) (result ++ [x]) (dset matched x 1%Z).
Proof.
  intros Hlen [He Hm] Hin. split.
  - intros i cs' c Hi Hc Hno Hin'.
    apply nth_error_snoc in Hi as [[Hlt Hi]|[-> <-]].
    + rewrite nth_error_app1 in Hc by lia.
      destruct (He i cs' c Hi Hc Hno Hin') as (j & Hj & Hn).
      exists j. split; [exact Hj|]. rewrite nth_error_app1 by lia. exact Hn.
    + rewrite Hlen, nth_error_app2, Nat.sub_diag in Hc by lia.
      injection Hc as <-. contradiction.
  - intros y. rewrite dmem_dset. intros Hy. apply in_or_app.
    destruct (Z.eqb_spec y x) as [E|_]; [right; left; auto|left; apply Hm; exact Hy].
Qed.

Lemma random_init_body_inv (C : list pyset) (st : list Z * matched_t * list nat)
    (c : pyset) :
  init_inv C (fst (fst st)) (snd (fst st)) /\
  taken_inv C (fst (fst st)) (snd (fst st)) ->
  init_inv (C ++ [c]) (fst (fst (random_init_body st c)))
           (snd (fst (random_init_body st c))) /\
  taken_inv (C ++ [c]) (fst (fst (random_init_body st c)))
            (snd (fst (random_init_body st c))).
Proof.
  destruct st as [[result matched] rnd]. cbn [fst snd]. intros [Hinv Htk].
  pose proof (ii_length _ _ _ Hinv) as Hlen.
  unfold random_init_body. destruct c as [|c0 cs].
  - cbn [fst snd]. split; [now apply init_inv_skip|].
    apply taken_inv_skip; auto; intros c [].
  - destruct (random_pick _ _ _ _) as [[x|] rnd'] eqn:P; cbn [fst snd].
    + apply random_pick_Some in P as [Hin Hfree].
      split; [now apply init_inv_take|now apply taken_inv_take].
    + split; [now apply init_inv_skip|]. apply taken_inv_skip; auto.
      eapply random_pick_None; [|exact P]. lia.
Qed.

Lemma random_init_fold_inv (Cs Cd : list pyset) (st : list Z * matched_t * list nat) :
  init_inv Cd (fst (fst st)) (snd (fst st)) /\
  taken_inv Cd (fst (fst st)) (snd (fst st)) ->
  init_inv (Cd ++ Cs) (fst (fst (fold_left random_init_body Cs st)))
           (snd (fst (fold_left random_init_body Cs st))) /\
  taken_inv (Cd ++ Cs) (fst (fst (fold_left random_init_body Cs st)))
            (snd (fst (fold_left random_init_body Cs st))).
Proof.
  revert Cd st. induction Cs as [|c Cs IH]; intros Cd st Hinv.
  - now rewrite app_nil_r.
  - cbn [fold_left].
    replace (Cd ++ c :: Cs)%list with ((Cd ++ [c]) ++ Cs)%list
      by now rewrite <- app_assoc.
    apply IH. now apply random_init_body_inv.
Qed.

(** X11.  The mapping of [random_init_mapping] has one entry per node
    of AMR 1; a mapped node goes to one of its candidates; no node of
    AMR 2 is used twice; and a node is left unmapped only when each of
    its candidates has been given to a node before it. *)
Theorem random_init_mapping_one_to_one (C : list pyset) (rnd : list nat) :
  let M := fst (random_init_mapping C rnd) in
  List.length M = List.length C /\ within C M /\ one_to_one M /\ exhausted C M.
Proof.
  pose proof (random_init_fold_inv C [] ([], [], rnd)
                (conj init_inv_nil taken_inv_nil)) as H.
  unfold random_init_mapping.
  destruct (fold_left random_init_body C ([], [], rnd)) as [[result matched] rnd'].
  cbn [fst snd app] in *. destruct H as [[Hlen Hw Ho _] [He _]]. auto.
Qed.

Lemma first_concept_match_Some (value1 : string) (instance2 : list triple)
    (matched : matched_t) (candidates : list Z) (x : Z) :
  first_concept_match value1 instance2 matched candidates = Ok (Some x) ->
  In x candidates /\ dmem matched x = false.
Proof.
  induction candidates as [|c cs IH]; cbn [first_concept_match]; [discriminate|].
  intros H. apply bind_Ok in H as (t2 & _ & H).
  destruct ((value1 =s t_value t2) && negb (dmem matched c)) eqn:E.
  - injection H as <-. apply andb_true_iff in E as [_ E].
    apply negb_true_iff in E. split; [now left|exact E].
  - destruct (IH H). split; [now right|assumption].
Qed.

Lemma smart_first_pass_inv (instance1 instance2 : list triple) (Cd : list pyset)
    (st st' : smart_state) (i : Z) (cs : pyset) :
  init_inv Cd (fst (fst st)) (snd (fst st)) ->
  smart_first_pass instance1 instance2 st (i, cs) = Ok st' ->
  init_inv (Cd ++ [cs]) (fst (fst st')) (snd (fst st')).
Proof.
  destruct st as [[result matched] nwm]. cbn [fst snd]. intros Hinv.
  unfold smart_first_pass. destruct cs as [|c0 cs].
  - intros [= <-]. cbn [fst snd]. now apply init_inv_skip.
  - intros H. apply bind_Ok in H as (t1 & _ & H).
    apply bind_Ok in H as ([x|] & Hf & H); injection H as <-; cbn [fst snd].
    + apply first_concept_match_Some in Hf as [Hin Hfree]. now apply init_inv_take.
    + now apply init_inv_skip.
Qed.

Lemma smart_first_loop_inv (instance1 instance2 : list triple) (Cs Cd : list pyset)
    (a : Z) (st st' : smart_state) :
  init_inv Cd (fst (fst st)) (snd (fst st)) ->
  foldM (smart_first_pass instance1 instance2) (enumerate_from a Cs) st = Ok st' ->
  init_inv (Cd ++ Cs) (fst (fst st')) (snd (fst st')).
Proof.
  revert Cd a st. induction Cs as [|cs Cs IH]; intros Cd a st Hinv; cbn [enumerate_from foldM].
  - intros [= <-]. now rewrite app_nil_r.
  - intros H. apply bind_Ok in H as (st1 & H1 & H).
    replace (Cd ++ cs :: Cs)%list with ((Cd ++ [cs]) ++ Cs)%list
      by now rewrite <- app_assoc.
    eapply IH; [|exact H]. eapply smart_first_pass_inv; eauto.
Qed.

(** The node [k] takes the free candidate [x]. *)
Lemma init_inv_assign (C : list pyset) (result : list Z) (matched : matched_t)
    (k : nat) (cs : pyset) (x : Z) :
  init_inv C result matched ->
  nth_error C k = Some cs -> In x cs -> dmem matched x = false ->
  init_inv C (replace_nth result k x) (dset matched x 1%Z).
Proof.
  intros [Hlen Hw Ho Hr] Hk Hin Hfree.
  assert (Hlt : (k < List.length result)%nat).
  { rewrite Hlen. apply nth_error_Some. congruence. }
  assert (Hnot : forall i, nth_error result i = Some x -> x = (-1)%Z).
  { intros i Hi. destruct (Z.eq_dec x (-1)) as [|Hne]; [assumption|].
    apply nth_error_In in Hi. rewrite (Hr x Hi Hne) in Hfree. discriminate. }
  split.
  - now rewrite replace_nth_length.
  - intros i y. rewrite nth_error_replace_nth by exact Hlt.
    destruct (Nat.eqb_spec k i) as [<-|_]; [|apply Hw].
    intros [= <-] _. eauto.
  - intros i j y. rewrite !nth_error_replace_nth by exact Hlt.
    destruct (Nat.eqb_spec k i) as [<-|Hi], (Nat.eqb_spec k j) as [<-|Hj].
    + reflexivity.
    + intros [= <-] Hy Hne. elim Hne. eauto.
    + intros Hy [= <-] Hne. elim Hne. eauto.
    + apply Ho.
  - intros y Hy Hne. rewrite dmem_dset.
    apply In_nth_error in Hy as [i Hi].
    rewrite nth_error_replace_nth in Hi by exact Hlt.
    destruct (Nat.eqb_spec k i) as [_|_].
    + injection Hi as <-. now rewrite Z.eqb_refl.
    + apply nth_error_In in Hi. rewrite (Hr y Hi Hne). apply orb_true_r.
Qed.

Lemma index_assign_at {A B} (l1 : list A) (l2 l2' : list B) (i : Z) (a : A) (b : B) :
  List.length l2 = List.length l1 ->
  index l1 i = Ok a -> assign l2 i b = Ok l2' ->
  exists k, nth_error l1 k = Some a /\ l2' = replace_nth l2 k b.
Proof.
  unfold index, assign, norm_index. intros ->.
  destruct (_ <? 0)%Z; [discriminate|].
  set (k := Z.to_nat _). destruct (nth_error l1 k) eqn:E; [|discriminate].
  intros [= <-]. destruct (k <? _)%nat; [|discriminate].
  intros [= <-]. eauto.
Qed.

Lemma smart_second_pass_inv (C : list pyset) (st st' : list Z * matched_t * list nat)
    (i : Z) :
  init_inv C (fst (fst st)) (snd (fst st)) ->
  smart_second_pass C st i = Ok st' ->
  init_inv C (fst (fst st')) (snd (fst st')).
Proof.
  destruct st as [[result matched] rnd]. cbn [fst snd]. intros Hinv.
  unfold smart_second_pass. intros H. apply bind_Ok in H as (cs & Hi & H).
  destruct (random_pick _ _ _ _) as [[x|] rnd'] eqn:P.
  - apply bind_Ok in H as (result' & Ha & H). injection H as <-. cbn [fst snd].
    apply random_pick_Some in P as [Hin Hfree].
    destruct (index_assign_at C result result' i cs x (ii_length _ _ _ Hinv) Hi Ha)
      as (k & Hk & ->).
    eapply init_inv_assign; eauto.
  - injection H as <-. exact Hinv.
Qed.

Lemma smart_init_inv (C : list pyset) (instance1 instance2 : list triple)
    (rnd rnd' : list nat) (M : list Z) :
  smart_init_mapping C instance1 instance2 rnd = Ok (M, rnd') ->
  exists matched, init_inv C M matched.
Proof.
  unfold smart_init_mapping, enumerate. intros H.
  apply bind_Ok in H as ([[result matched] nwm] & H1 & H).
  apply bind_Ok in H as ([[result' matched'] rnd2] & H2 & H).
  injection H as <- _.
  apply (smart_first_loop_inv instance1 instance2 C [] 0%Z ([], [], []) _
           init_inv_nil) in H1.
  cbn [fst snd app] in H1. exists matched'.
  apply (foldM_inv (fun st => init_inv C (fst (fst st)) (snd (fst st)))
           (smart_second_pass C) nwm) with (s := (result, matched, rnd))
                                           (s' := (result', matched', rnd2)); auto.
  intros s a s' _ Hs Hstep. eapply smart_second_pass_inv; eauto.
Qed.

(** X12.  When [smart_init_mapping] returns, its mapping has one entry
    per node of AMR 1, a mapped node goes to one of its candidates,
    and no node of AMR 2 is used twice. *)
Theorem smart_init_mapping_one_to_one (C : list pyset) (instance1 instance2 : list triple)
    (rnd rnd' : list nat) (M : list Z) :
  smart_init_mapping C instance1 instance2 rnd = Ok (M, rnd') ->
  List.length M = List.length C /\ within C M /\ one_to_one M.
Proof.
  intros H. apply smart_init_inv in H as (matched & Hinv).
  split; [apply (ii_length _ _ _ Hinv)|].
  split; [apply (ii_within _ _ _ Hinv)|apply (ii_one _ _ _ Hinv)].
Qed.

Lemma smart_init_mapping_one_to_one_witness :
  List.length [1; 0]%Z = List.length [[1; 0]; [0; 1]]%Z /\
  within [[1; 0]; [0; 1]]%Z [1; 0]%Z /\ one_to_one [1; 0]%Z.
Proof.
  apply (smart_init_mapping_one_to_one [[1; 0]; [0; 1]]%Z
           [Triple "instance" 0 "boy"; Triple "instance" 1 "hit"]
           [Triple "instance" 0 "hit"; Triple "instance" 1 "boy"] [] []).
  reflexivity.
Defined.

(* ------------------------------------------------------------------ *)
(** ** What the search returns *)

Lemma unmatched_fold_In (M : list Z) (U : pyset) (x : Z) :
  In x (fold_left (fun unmatched nid =>
                     if set_mem nid unmatched then set_remove unmatched nid
                     else unmatched) M U)
  <-> In x U /\ ~ In x M.
Proof.
  revert U. induction M as [|nid M IH]; intros U; cbn [fold_left].
  - simpl. tauto.
  - rewrite IH.
    assert (Hstep : In x (if set_mem nid U then set_remove U nid else U)
                    <-> In x U /\ x <> nid).
    { destruct (set_mem nid U) eqn:E.
      - unfold set_remove. rewrite filter_In, negb_true_iff, Z.eqb_neq.
        split; intros [H1 H2]; split; auto.
      - split; [|tauto]. intros Hx. split; [exact Hx|]. intros ->.
        unfold set_mem in E.
        assert (existsb (Z.eqb nid) U = true); [|congruence].
        apply existsb_exists. exists nid. split; [exact Hx|apply Z.eqb_refl]. }
    rewrite Hstep. simpl. intuition congruence.
Qed.

(** The nodes that [get_best_gain] offers for a move are nodes of AMR 2
    that the mapping does not use. *)
Lemma unmatched_nodes_In (M : list Z) (len : nat) (x : Z) :
  In x (unmatched_nodes M len) <->
  (0 <= x < Z.of_nat len)%Z /\ ~ In x M.
Proof.
  unfold unmatched_nodes. rewrite unmatched_fold_In, zrange_In. intuition lia.
Qed.

Lemma neighbor_one_to_one (C : list pyset) (len : nat) (M N : list Z) :
  neighbor C len M N -> one_to_one M -> one_to_one N.
Proof.
  intros [i old nm cands Hold Hnm HC Hmem|i j mi mj Hij Hmi Hmj] Ho.
  - apply unmatched_nodes_In in Hnm as [_ Hnot].
    assert (Hlt : (i < List.length M)%nat) by (apply nth_error_Some; congruence).
    intros a b y. rewrite !nth_error_replace_nth by exact Hlt.
    destruct (Nat.eqb_spec i a) as [<-|Ha], (Nat.eqb_spec i b) as [<-|Hb].
    + reflexivity.
    + intros [= <-] Hb' _. elim Hnot. eapply nth_error_In; eauto.
    + intros Ha' [= <-] _. elim Hnot. eapply nth_error_In; eauto.
    + apply Ho.
  - assert (Hi : (i < List.length M)%nat) by (apply nth_error_Some; congruence).
    assert (Hj : (j < List.length (replace_nth M i mj))%nat).
    { rewrite replace_nth_length. apply nth_error_Some. congruence. }
    assert (Hat : forall a y, nth_error (replace_nth (replace_nth M i mj) j mi) a = Some y ->
                    exists a', nth_error M a' = Some y /\
                               (a = j /\ a' = i \/ a = i /\ a' = j \/
                                a <> i /\ a <> j /\ a' = a)).
    { intros a y. rewrite nth_error_replace_nth by exact Hj.
      destruct (Nat.eqb_spec j a) as [<-|Hja].
      - intros [= <-]. exists i. auto.
      - rewrite nth_error_replace_nth by exact Hi.
        destruct (Nat.eqb_spec i a) as [<-|Hia].
        + intros [= <-]. exists j. auto.
        + intros H. exists a. auto 6. }
    intros a b y Ha Hb Hy.
    apply Hat in Ha as (a' & Ha & Ca). apply Hat in Hb as (b' & Hb & Cb).
    pose proof (Ho a' b' y Ha Hb Hy). lia.
Qed.

Lemma neighbor_score_step (n : nat) (W : weight_dict_t) (C : list pyset) (len : nat)
    (st : climb_state) :
  wf_W n W -> List.length C = n -> climb_inv n W st ->
  exists next,
    climb_body C W len st = Ok next /\
    match next with
    | inl final =>
        climb_inv n W final /\ fst (fst final) = fst (fst st) /\
        snd (fst final) = snd (fst st) /\
        forall N, neighbor C len (fst (fst st)) N ->
                  spec_score W N <= snd (fst st) + epsilon
    | inr st' =>
        climb_inv n W st' /\ neighbor C len (fst (fst st)) (fst (fst st')) /\
        snd (fst st) < snd (fst st')
    end.
Proof.
  intros Hwf HC. destruct st as [[cur mn] memo]. intros (Hlen & Hmn & Hmemo).
  simpl in *.
  destruct (get_best_gain_spec n W Hwf cur Hlen C HC len mn Hmn memo Hmemo)
    as (gain & M' & memo' & Hg & Hmemo' & Hpos & Hdom & Hcase).
  unfold climb_body. rewrite Hg. cbn [bind].
  destruct (Qle_bool gain epsilon) eqn:E.
  - apply Qle_bool_iff in E.
    exists (inl (cur, mn, memo')). split; [reflexivity|].
    unfold climb_inv. simpl. split; [auto|]. split; [reflexivity|].
    split; [reflexivity|]. intros N HN. specialize (Hdom N HN). lra.
  - assert (Hgt : epsilon < gain).
    { apply Qnot_le_lt. intros Hle. apply Qle_bool_iff in Hle. congruence. }
    exists (inr (M', mn + gain, memo')). split; [reflexivity|].
    destruct Hcase as [[Hz _]|(_ & Hnb & Eg)].
    { rewrite Hz in E. discriminate. }
    unfold climb_inv. simpl.
    split; [|split; [exact Hnb|pose proof epsilon_pos; lra]].
    split; [rewrite (neighbor_length _ _ _ _ Hnb); exact Hlen|].
    split; [lra|exact Hmemo'].
Qed.

(** What a finished run of the hill-climbing loop returns: the score
    of its mapping, a mapping reached through neighbours, and no
    neighbour of it scores more than [epsilon] above it. *)
Lemma hill_climb_sound (n : nat) (W : weight_dict_t) (C : list pyset) (len : nat) :
  wf_W n W -> List.length C = n ->
  forall (fuel : nat) (st final : climb_state),
    climb_inv n W st ->
    hill_climb fuel C W len st = Ok final ->
    climb_inv n W final /\
    (forall P : list Z -> Prop,
        (forall M N, neighbor C len M N -> P M -> P N) ->
        P (fst (fst st)) -> P (fst (fst final))) /\
    (forall N, neighbor C len (fst (fst final)) N ->
               spec_score W N <= snd (fst final) + epsilon) /\
    snd (fst st) <= snd (fst final).
Proof.
  intros Hwf HC. induction fuel as [|fuel IH]; intros st final Hinv;
    cbn [hill_climb]; [discriminate|].
  destruct (neighbor_score_step n W C len st Hwf HC Hinv) as (next & Hb & Hnext).
  rewrite Hb. cbn [bind]. destruct next as [fin|st'].
  - intros [= <-]. destruct Hnext as (Hf & Em & Es & Hopt).
    split; [exact Hf|]. split; [intros P _ HP; now rewrite Em|].
    split; [rewrite Em, Es; exact Hopt|rewrite Es; lra].
  - intros Hh. destruct Hnext as (Hinv' & Hnb & Hup).
    destruct (IH st' final Hinv' Hh) as (Hf & Hreach & Hopt & Hle).
    split; [exact Hf|]. split; [|split; [exact Hopt|lra]].
    intros P HP H0. apply Hreach; [exact HP|]. eapply HP; eauto.
Qed.

Lemma mapped_nodes_unmapped (k : nat) (a : Z) :
  filter mapped (enumerate_from a (repeat (-1)%Z k)) = [].
Proof.
  revert a. induction k as [|k IH]; intros a; [reflexivity|].
  cbn [repeat enumerate_from filter]. unfold mapped at 1. cbn [snd].
  change ((-1 =? -1)%Z) with true. cbn [negb]. apply IH.
Qed.

Lemma spec_score_unmapped (W : weight_dict_t) (k : nat) :
  spec_score W (repeat (-1)%Z k) == 0.
Proof.
  unfold spec_score, mapped_nodes, enumerate. rewrite mapped_nodes_unmapped.
  reflexivity.
Qed.

Lemma one_to_one_unmapped (k : nat) : one_to_one (repeat (-1)%Z k).
Proof.
  intros i j x Hi _ Hx. apply nth_error_In, repeat_spec in Hi. congruence.
Qed.

(** What [get_best_match] keeps from one restart to the next. *)
Definition best_inv_search (n : nat) (W : weight_dict_t) (C : list pyset) (len : nat)
    (st : search_state) : Prop :=
  let '(best_mapping, best_match_num, memo, _) := st in
  memo_ok n W memo /\
  List.length best_mapping = n /\
  best_match_num == spec_score W best_mapping /\
  one_to_one best_mapping /\
  0 <= best_match_num /\
  (0 < best_match_num ->
   forall N, neighbor C len best_mapping N ->
             spec_score W N <= best_match_num + epsilon).

Lemma restart_sound (n : nat) (W : weight_dict_t) (C : list pyset)
    (fuel : nat) (instance1 instance2 : list triple) (st st' : search_state) (i : nat) :
  wf_W n W -> List.length C = n ->
  best_inv_search n W C (List.length instance2) st ->
  restart fuel instance1 instance2 C W st i = Ok st' ->
  best_inv_search n W C (List.length instance2) st'.
Proof.
  intros Hwf HC. destruct st as [[[bm bmn] memo] rnd].
  intros (Hmemo & Hlen & Hbmn & Hone & Hpos & Hopt).
  unfold restart. intros H.
  apply bind_Ok in H as ([cur rnd1] & Hinit & H).
  assert (Hcur : List.length cur = n /\ one_to_one cur).
  { destruct (i =? 0)%nat.
    - apply smart_init_inv in Hinit as (matched & Hinv).
      split; [rewrite (ii_length _ _ _ Hinv); exact HC|apply (ii_one _ _ _ Hinv)].
    - injection Hinit as Hinit.
      pose proof (random_init_fold_inv C [] ([], [], rnd)
                    (conj init_inv_nil taken_inv_nil)) as Hr.
      unfold random_init_mapping in Hinit.
      destruct (fold_left random_init_body C ([], [], rnd)) as [[res m] r].
      injection Hinit as <- _. cbn [fst snd app] in Hr. destruct Hr as [Hinv _].
      split; [rewrite (ii_length _ _ _ Hinv); exact HC|apply (ii_one _ _ _ Hinv)]. }
  destruct Hcur as [Hclen Hcone].
  destruct (compute_match_ok n W Hwf cur memo Hclen Hmemo)
    as (v & memo1 & Hc & Ev & Hmemo1).
  rewrite Hc in H. cbn [bind] in H.
  apply bind_Ok in H as ([[fin mn] memo2] & Hh & H).
  apply (hill_climb_sound n W C _ Hwf HC) in Hh
    as ((Hflen & Hmn & Hmemo2) & Hreach & Hfopt & Hle);
    [|unfold climb_inv; simpl; auto].
  cbn [fst snd] in *.
  destruct (Qgtb mn bmn) eqn:E; injection H as <-.
  - apply Qgtb_true in E. unfold best_inv_search.
    split; [exact Hmemo2|]. split; [exact Hflen|]. split; [exact Hmn|].
    split; [|split; [lra|intros _; exact Hfopt]].
    apply (Hreach one_to_one); [|exact Hcone].
    intros M N HN. now apply neighbor_one_to_one with (C := C) (len := List.length instance2).
  - unfold best_inv_search.
    split; [exact Hmemo2|]. split; [exact Hlen|]. split; [exact Hbmn|].
    split; [exact Hone|]. split; [exact Hpos|exact Hopt].
Qed.

Lemma get_best_match_inv (fuel iteration_num : nat) (i1 a1 : list triple)
    (r1 : list rtriple) (i2 a2 : list triple) (r2 : list rtriple) (vectors : vecs_t)
    (cutoff diffsense : Q) (simfun : option simfun_t) (mwp weighting_scheme : string)
    (rnd : list nat) (st : search_state) :
  get_best_match fuel iteration_num i1 a1 r1 i2 a2 r2 vectors cutoff diffsense
                 simfun mwp weighting_scheme [] rnd = Ok st ->
  exists C W,
    compute_pool vectors cutoff diffsense simfun mwp weighting_scheme
                 i1 a1 r1 i2 a2 r2 = Ok (C, W) /\
    wf_W (List.length i1) W /\
    best_inv_search (List.length i1) W C (List.length i2) st.
Proof.
  unfold get_best_match. destruct (negb _); [discriminate|].
  intros H. apply bind_Ok in H as ([C W] & Hp & H).
  exists C, W. split; [exact Hp|].
  apply compute_pool_wf in Hp as [HC Hwf]. split; [exact Hwf|].
  revert H. apply (foldM_inv (best_inv_search (List.length i1) W C (List.length i2))).
  - intros s i s' _ Hs Hstep. eapply restart_sound; eauto.
  - unfold best_inv_search. split; [intros T v _; discriminate|].
    split; [apply repeat_length|]. split; [now rewrite spec_score_unmapped|].
    split; [apply one_to_one_unmapped|]. split; [lra|]. intros H. lra.
Qed.





(* ------------------------------------------------------------------ *)
(** ** More restarts never lower the result *)

Lemma restart_keeps_best (fuel : nat) (instance1 instance2 : list triple)
    (C : list pyset) (W : weight_dict_t) (st st' : search_state) (i : nat) :
  restart fuel instance1 instance2 C W st i = Ok st' ->
  snd (fst (fst st)) <= snd (fst (fst st')).
Proof.
  destruct st as [[[bm bmn] memo] rnd]. unfold restart. intros H.
  apply bind_Ok in H as ([cur rnd1] & _ & H).
  apply bind_Ok in H as ([v memo1] & _ & H).
  apply bind_Ok in H as ([[fin mn] memo2] & _ & H).
  destruct (Qgtb mn bmn) eqn:E; injection H as <-; cbn [fst snd].
  - apply Qgtb_true in E. lra.
  - lra.
Qed.

Lemma restarts_keep_best (fuel : nat) (instance1 instance2 : list triple)
    (C : list pyset) (W : weight_dict_t) (l : list nat) (st st' : search_state) :
  foldM (restart fuel instance1 instance2 C W) l st = Ok st' ->
  snd (fst (fst st)) <= snd (fst (fst st')).
Proof.
  revert st. induction l as [|i l IH]; intros st; cbn [foldM].
  - intros [= <-]. lra.
  - intros H. apply bind_Ok in H as (st1 & H1 & H).
    apply restart_keeps_best in H1. apply IH in H. lra.
Qed.

Lemma seq_app_le (k k' : nat) :
  (k <= k')%nat -> seq 0 k' = (seq 0 k ++ seq k (k' - k))%list.
Proof.
  intros H. replace k' with (k + (k' - k))%nat at 1 by lia.
  now rewrite seq_app.
Qed.

(** X15.  When [get_best_match] returns with [k'] iterations, it also
    returns with any smaller number [k] of iterations on the same
    random choices, and the best match number with [k] iterations is
    not above the one with [k']. *)
Theorem get_best_match_more_restarts (fuel k k' : nat) (i1 a1 : list triple)
    (r1 : list rtriple) (i2 a2 : list triple) (r2 : list rtriple) (vectors : vecs_t)
    (cutoff diffsense : Q) (simfun : option simfun_t) (mwp weighting_scheme : string)
    (memo : memo_t) (rnd : list nat) (st' : search_state) :
  (k <= k')%nat ->
  get_best_match fuel k' i1 a1 r1 i2 a2 r2 vectors cutoff diffsense
                 simfun mwp weighting_scheme memo rnd = Ok st' ->
  exists st,
    get_best_match fuel k i1 a1 r1 i2 a2 r2 vectors cutoff diffsense
                   simfun mwp weighting_scheme memo rnd = Ok st /\
    snd (fst (fst st)) <= snd (fst (fst st')).
Proof.
  intros Hk. unfold get_best_match. destruct (negb _); [discriminate|].
  destruct (compute_pool _ _ _ _ _ _ _ _ _ _ _ _) as [[C W]|e]; [|discriminate].
  cbn [bind]. rewrite (seq_app_le k k' Hk), foldM_app. intros H.
  apply bind_Ok in H as (st & H1 & H2). exists st. split; [exact H1|].
  eapply restarts_keep_best; eauto.
Qed.

Lemma get_best_match_more_restarts_witness :
  exists st,
    get_best_match 10 1 (instances hit_boy) (attributes hit_boy) (relations hit_boy)
                   (instances hit_boy) (attributes hit_boy) (relations hit_boy)
                   [] (1 # 2) (1 # 2) None "split" "standard" [] [] = Ok st /\
    snd (fst (fst st)) <= 4.
Proof.
  eapply (get_best_match_more_restarts 10 1 3 _ _ _ _ _ _ [] (1 # 2) (1 # 2) None
            "split" "standard" [] [] ([0; 1]%Z, 4, _, _)).
  - lia.
  - vm_compute. reflexivity.
Defined.

(* ------------------------------------------------------------------ *)
(** ** When the pool builder succeeds *)

Lemma foldM_steps {S A} (I : nat -> S -> Prop) (f : S -> A -> result S) (l : list A) :
  (forall k s a, nth_error l k = Some a -> I k s ->
     exists s', f s a = Ok s' /\ I (Datatypes.S k) s') ->
  forall s, I O s -> exists s', foldM f l s = Ok s' /\ I (List.length l) s'.
Proof.
  revert I. induction l as [|a l IH]; intros I Hstep s Hs.
  - exists s. split; [reflexivity|exact Hs].
  - destruct (Hstep O s a eq_refl Hs) as (s1 & H1 & I1).
    destruct (IH (fun k => I (Datatypes.S k))
                 (fun k s a Hn => Hstep (Datatypes.S k) s a Hn) s1 I1)
      as (s' & H' & I').
    exists s'. cbn [foldM]. rewrite H1. cbn [bind]. auto.
Qed.

Lemma foldM_total {S A} (I : S -> Prop) (f : S -> A -> result S) (l : list A) :
  (forall s a, In a l -> I s -> exists s', f s a = Ok s' /\ I s') ->
  forall s, I s -> exists s', foldM f l s = Ok s' /\ I s'.
Proof.
  intros Hstep s Hs.
  apply (foldM_steps (fun _ => I) f l); [|exact Hs].
  intros k s0 a Hn. apply Hstep. eapply nth_error_In; eauto.
Qed.

Lemma cand_add_total (C : list pyset) (i : nat) (j : Z) :
  (i < List.length C)%nat ->
  exists C', cand_add C (Z.of_nat i) j = Ok C' /\ List.length C' = List.length C.
Proof.
  intros Hi. unfold cand_add.
  destruct (nth_error C i) as [s|] eqn:E; [|apply nth_error_None in E; lia].
  rewrite (proj2 (index_nat_Ok C i s) E). cbn [bind].
  exists (replace_nth C i (set_add s j)).
  split; [|apply replace_nth_length].
  apply assign_nat_Ok. auto.
Qed.

Section PoolTotal.
Variable vectors : vecs_t.
Variables cutoff diffsense : Q.
Variable f : simfun_t.
Variable mwp : string.
Variable weighting_scheme : string.

Lemma maybe_sim_total (a b m : string) :
  exists s, maybe_sim a b vectors cutoff diffsense (Some f) m = Ok s.
Proof.
  unfold maybe_sim.
  repeat match goal with
         | |- exists s, Ok ?x = Ok s => exists x; reflexivity
         | |- context [if ?c then _ else _] => destruct c
         | |- context [match ?o with Some _ => _ | None => _ end] => destruct o
         end.
  all: cbn [call_simfun bind].
  all: repeat match goal with
         | |- exists s, Ok ?x = Ok s => exists x; reflexivity
         | |- context [if ?c then _ else _] => destruct c
         end.
Qed.

Lemma maybe_has_sim_total (a b : string) (sd : sim_dict_t) :
  exists s sd', maybe_has_sim a b sd vectors cutoff diffsense (Some f) mwp = Ok (s, sd').
Proof.
  unfold maybe_has_sim.
  destruct (dget sd _); [eauto|]. destruct (dget sd _); [eauto|].
  destruct (maybe_sim_total a b "split") as (s & ->). cbn [bind]. eauto.
Qed.

(** The candidate list has [n] entries and the weight dictionary is
    well formed for [n] nodes. *)
Definition pool_ready (n : nat) (st : pool_state) : Prop :=
  List.length (fst (fst st)) = n /\ wf_W n (snd (fst st)).

Lemma instance_body_total (n : nat) (t1 t2 : triple) (st : pool_state) :
  (t_node t1 < n)%nat -> pool_ready n st ->
  exists st',
    instance_body vectors cutoff diffsense (Some f) mwp weighting_scheme t1 st t2
      = Ok st' /\ pool_ready n st'.
Proof.
  destruct st as [[C W] sd]. intros Hn [Hlen Hwf]. cbn [fst snd] in *.
  unfold instance_body.
  destruct (lower (t_rel t1) =s lower (t_rel t2));
    [|exists (C, W, sd); split; [reflexivity|split; assumption]].
  destruct (maybe_has_sim_total (lower (t_value t1)) (lower (t_value t2)) sd)
    as (s & sd' & ->). cbn [bind].
  destruct (cand_add_total C (t_node t1) (Z.of_nat (t_node t2))) as (C' & -> & HC');
    [lia|]. cbn [bind].
  match goal with
  | |- context [add_self W ?p ?x] =>
      destruct (add_self_Ok n W p x Hwf) as (W' & HW)
  end.
  rewrite HW. cbn [bind]. eexists. split; [reflexivity|].
  split; cbn [fst snd]; [congruence|].
  eapply add_self_wf; [|exact Hwf|exact HW].
  apply in_range_node_pair_of. exact Hn.
Qed.

Lemma attribute_body_total (n : nat) (a1 a2 : triple) (st : pool_state) :
  (t_node a1 < n)%nat -> pool_ready n st ->
  exists st',
    attribute_body vectors cutoff diffsense (Some f) mwp a1 st a2 = Ok st' /\
    pool_ready n st'.
Proof.
  destruct st as [[C W] sd]. intros Hn [Hlen Hwf]. cbn [fst snd] in *.
  unfold attribute_body.
  destruct (cand_add_total C (t_node a1) (Z.of_nat (t_node a2))) as (C' & HC & HC');
    [lia|].
  destruct ((lower (t_rel a1) =s lower (t_rel a2))
            && (lower (t_value a1) =s lower (t_value a2))).
  - rewrite HC. cbn [bind].
    match goal with
    | |- context [add_self W ?p ?x] =>
        destruct (add_self_Ok n W p x Hwf) as (W' & HW)
    end.
    rewrite HW. cbn [bind]. eexists. split; [reflexivity|].
    split; cbn [fst snd]; [congruence|].
    eapply add_self_wf; [|exact Hwf|exact HW].
    apply in_range_node_pair_of. exact Hn.
  - destruct ((lower (t_rel a1) =s lower (t_rel a2)) && (lower (t_rel a2) =s "top"));
      [|exists (C, W, sd); split; [reflexivity|split; assumption]].
    destruct (maybe_has_sim_total (lower (t_value a1)) (lower (t_value a2)) sd)
      as (s & sd' & ->). cbn [bind]. rewrite HC. cbn [bind].
    match goal with
    | |- context [add_self W ?p ?x] =>
        destruct (add_self_Ok n W p x Hwf) as (W' & HW)
    end.
    rewrite HW. cbn [bind]. eexists. split; [reflexivity|].
    split; cbn [fst snd]; [congruence|].
    eapply add_self_wf; [|exact Hwf|exact HW].
    apply in_range_node_pair_of. exact Hn.
Qed.

Lemma relation_body_total (n : nat) (r1 r2 : rtriple) (st : pool_state) :
  (r_src r1 < n)%nat -> (r_dst r1 < n)%nat -> pool_ready n st ->
  exists st', relation_body r1 st r2 = Ok st' /\ pool_ready n st'.
Proof.
  destruct st as [[C W] sd]. intros Hs Hd [Hlen Hwf]. cbn [fst snd] in *.
  destruct (lower (r_rel r1) =s lower (r_rel r2)) eqn:El.
  2:{ exists (C, W, sd). unfold relation_body. rewrite El.
      split; [reflexivity|split; assumption]. }
  destruct (cand_add_total C (r_src r1) (Z.of_nat (r_src r2))) as (C1 & HC1 & HL1);
    [lia|].
  destruct (cand_add_total C1 (r_dst r1) (Z.of_nat (r_dst r2))) as (C2 & HC2 & HL2);
    [lia|].
  assert (Hex : exists st', relation_body r1 (C, W, sd) r2 = Ok st').
  { unfold relation_body. rewrite El, HC1. cbn [bind]. rewrite HC2. cbn [bind].
    destruct (negb _); [destruct (_ >? _)%Z; eauto|].
    match goal with
    | |- context [add_self W ?p ?x] =>
        destruct (add_self_Ok n W p x Hwf) as (W' & ->)
    end.
    cbn [bind]. eauto. }
  destruct Hex as (st' & Hb). exists st'. split; [exact Hb|].
  assert (Hwf' : pool_wf st').
  { eapply relation_body_wf; [|exact Hb]. unfold pool_wf. now rewrite Hlen. }
  apply relation_body_inv in Hb as [[E _]|[_ (Ca & Cb & Ha & Hb' & Hcase)]];
    [congruence|].
  assert (Ca = C1) by congruence. subst Ca.
  assert (Cb = C2) by congruence. subst Cb.
  assert (Hl : List.length (fst (fst st')) = n).
  { destruct Hcase as [[_ ->]|[_ (W' & _ & ->)]]; cbn [fst snd]; congruence. }
  split; [exact Hl|].
  destruct st' as [[C' W'] sd']. unfold pool_wf in Hwf'. cbn [fst snd] in *.
  now rewrite Hl in Hwf'.
Qed.

Lemma compute_pool_total (i1 a1 : list triple) (r1 : list rtriple)
    (i2 a2 : list triple) (r2 : list rtriple) :
  weighting_ok weighting_scheme = true ->
  (forall k t, nth_error i1 k = Some t -> (t_node t <= k)%nat) ->
  (forall a, In a a1 -> (t_node a < List.length i1)%nat) ->
  (forall r, In r r1 -> (r_src r < List.length i1)%nat /\
                        (r_dst r < List.length i1)%nat) ->
  exists C W,
    compute_pool vectors cutoff diffsense (Some f) mwp weighting_scheme
                 i1 a1 r1 i2 a2 r2 = Ok (C, W) /\
    List.length C = List.length i1 /\ wf_W (List.length i1) W.
Proof.
  intros Hw Hi Ha Hr. unfold compute_pool. rewrite Hw. cbn [negb].
  destruct (foldM_steps pool_ready
              (instance_loop vectors cutoff diffsense (Some f) mwp weighting_scheme i2)
              i1) with (s := ([], [], []) : pool_state) as (st1 & H1 & R1).
  { intros k [[C W] sd] t1 Hk [Hlen Hwf]. cbn [fst snd] in *.
    unfold instance_loop.
    apply (foldM_total (pool_ready (S k))).
    - intros s t2 _ Hs. apply instance_body_total; [|exact Hs].
      specialize (Hi k t1 Hk). lia.
    - split; cbn [fst snd]; [rewrite length_app; simpl; lia|].
      eapply wf_W_mono; [|exact Hwf]. lia. }
  { split; [reflexivity|apply wf_W_nil]. }
  rewrite H1. cbn [bind].
  destruct (foldM_total (pool_ready (List.length i1))
              (attribute_loop vectors cutoff diffsense (Some f) mwp a2) a1)
    with (s := st1) as (st2 & H2 & R2); [|exact R1|].
  { intros s x Hx Hs. unfold attribute_loop.
    apply (foldM_total (pool_ready (List.length i1))); [|exact Hs].
    intros s0 y _ Hs0. apply attribute_body_total; auto. }
  rewrite H2. cbn [bind].
  destruct (foldM_total (pool_ready (List.length i1)) (relation_loop r2) r1)
    with (s := st2) as (st3 & H3 & R3); [|exact R2|].
  { intros s x Hx Hs. unfold relation_loop.
    apply (foldM_total (pool_ready (List.length i1))); [|exact Hs].
    intros s0 y _ Hs0. destruct (Hr x Hx). apply relation_body_total; auto. }
  rewrite H3. cbn [bind]. destruct st3 as [[C W] sd].
  exists C, W. split; [reflexivity|]. exact R3.
Qed.

(** X16.  With a supported weighting scheme and a similarity function,
    [compute_pool] raises nothing when, in AMR 1, the node of the
    [k]-th instance triple is at most [k] (renaming makes it [k]) and
    the attribute and relation triples sit on nodes below the number
    of instance triples; AMR 2 is arbitrary.  The candidate list then
    has one entry per instance triple of AMR 1. *)
Theorem compute_pool_succeeds (i1 a1 : list triple) (r1 : list rtriple)
    (i2 a2 : list triple) (r2 : list rtriple) :
  weighting_ok weighting_scheme = true ->
  (forall k t, nth_error i1 k = Some t -> (t_node t <= k)%nat) ->
  (forall a, In a a1 -> (t_node a < List.length i1)%nat) ->
  (forall r, In r r1 -> (r_src r < List.length i1)%nat /\
                        (r_dst r < List.length i1)%nat) ->
  exists C W,
    compute_pool vectors cutoff diffsense (Some f) mwp weighting_scheme
                 i1 a1 r1 i2 a2 r2 = Ok (C, W) /\
    List.length C = List.length i1.
Proof.
  intros Hw Hi Ha Hr.
  destruct (compute_pool_total i1 a1 r1 i2 a2 r2 Hw Hi Ha Hr) as (C & W & Hp & Hlen & _).
  exists C, W. split; [exact Hp|exact Hlen].
Qed.
End PoolTotal.

Lemma compute_pool_succeeds_witness :
  exists C W,
    compute_pool foo_bar_vecs (1 # 2) (1 # 2) (Some (fun _ _ => 7 # 10)) "split" "structure"
                 (instances hit_boy) (attributes hit_boy) (relations hit_boy)
                 (instances foo_graph) (attributes foo_graph) (relations foo_graph)
      = Ok (C, W) /\
    List.length C = List.length (instances hit_boy).
Proof.
  apply (compute_pool_succeeds foo_bar_vecs (1 # 2) (1 # 2) (fun _ _ => 7 # 10)
           "split" "structure").
  - reflexivity.
  - intros [|[|[|k]]] t; simpl; try discriminate; intros [= <-]; simpl; lia.
  - intros a [<-|[]]. simpl. lia.
  - intros r [<-|[]]. simpl. lia.
Defined.

(* ------------------------------------------------------------------ *)
(** ** The match number never exceeds the number of triples *)

Lemma foldM_upper {S A} (I : S -> Prop) (phi : S -> Q) (up : A -> Q)
    (f : S -> A -> result S) (l : list A) :
  (forall s a s', In a l -> I s -> f s a = Ok s' -> I s' /\ phi s' <= phi s + up a) ->
  forall s s', I s -> foldM f l s = Ok s' ->
               I s' /\ phi s' <= phi s + Qsum (map up l).
Proof.
  induction l as [|a l IH]; intros Hstep s s' Hs; cbn [foldM map Qsum].
  - intros [= <-]. split; [exact Hs|lra].
  - intros H. apply bind_Ok in H as (s1 & H1 & H).
    destruct (Hstep s a s1 (or_introl eq_refl) Hs H1) as [I1 U1].
    destruct (IH (fun s a s' Hin => Hstep s a s' (or_intror Hin)) s1 s' I1 H)
      as [I' U'].
    split; [exact I'|lra].
Qed.

Lemma Qsum_swap {A B} (h : A -> B -> Q) (l1 : list A) (l2 : list B) :
  Qsum (map (fun a => Qsum (map (h a) l2)) l1)
  == Qsum (map (fun b => Qsum (map (fun a => h a b) l1)) l2).
Proof.
  induction l1 as [|a l1 IH]; cbn [map Qsum].
  - symmetry. apply Qsum_map_zero. reflexivity.
  - rewrite IH. symmetry. apply Qsum_map_plus.
Qed.

Lemma rows_bound {A B} (h : A -> B -> Q) (l1 : list A) (l2 : list B) :
  (forall a, Qsum (map (h a) l2) <= 1) ->
  Qsum (map (fun a => Qsum (map (h a) l2)) l1)
  <= inject_Z (Z.of_nat (List.length l1)).
Proof.
  intros Hrow.
  assert (H : Qsum (map (fun a => Qsum (map (h a) l2)) l1)
              <= Qsum (map (fun _ : A => 1) l1)).
  { apply Qsum_map_le. intros a _. apply Hrow. }
  rewrite Qsum_map_const in H. lra.
Qed.

(** No two instance triples on one node, no two attribute triples that
    match the same triples, no two relation triples with one name and
    the same end nodes. *)
Record distinct_triples (g : graph) : Prop := {
  dt_nodes : NoDup (map t_node (instances g));
  dt_attrs : NoDup (map attr_key (attributes g));
  dt_rels : NoDup (map rel_key (relations g))
}.

Lemma hits_same_source (M : list Z) (n1 n1' n2 : nat) :
  one_to_one M ->
  hits M (node_pair_of n1 n2) = true -> hits M (node_pair_of n1' n2) = true ->
  n1 = n1'.
Proof.
  unfold node_pair_of. rewrite !hits_iff, !mapped_nodes_In, !Nat2Z.id.
  intros Ho (_ & H1 & Hne) (_ & H2 & _). eapply Ho; eauto.
Qed.

Section ScoreBound.
Variable vectors : vecs_t.
Variables cutoff diffsense : Q.
Variable f : simfun_t.
Variable mwp : string.
Variable weighting_scheme : string.
Hypothesis f_range : forall a b, 0 <= f a b /\ f a b <= 1.
Hypothesis diffsense_range : 0 <= diffsense /\ diffsense <= 1.
Hypothesis not_concept : weighting_scheme <> "concept".
Variable M : list Z.

Lemma weighted_range (s : Q) :
  0 <= s -> s <= 1 ->
  0 <= weighted weighting_scheme s /\ weighted weighting_scheme s <= 1.
Proof.
  intros H0 H1. unfold weighted.
  destruct (String.eqb_spec weighting_scheme "concept"); [contradiction|].
  destruct (weighting_scheme =s "structure"); split; lra.
Qed.

Lemma add_self_upper (W W' : weight_dict_t) (n1 n2 : nat) (x : Q) :
  0 <= x -> x <= 1 ->
  add_self W (node_pair_of n1 n2) x = Ok W' ->
  spec_score W' M <= spec_score W M + b2q (hits M (node_pair_of n1 n2)).
Proof.
  intros H0 H1 Ha.
  rewrite (spec_score_add_self W W' M (node_pair_of n1 n2) x).
  - rewrite count_in_hits. destruct (hits M _); cbn [b2q]; lra.
  - intros q. now apply add_self_self_score.
  - intros a b. eapply add_self_rel_score; eauto.
Qed.

Lemma sim_step (a b : string) (sd sd' : sim_dict_t) (s : Q) :
  sd_bounded sd ->
  maybe_has_sim a b sd vectors cutoff diffsense (Some f) mwp = Ok (s, sd') ->
  0 <= s /\ s <= 1 /\ sd_bounded sd'.
Proof.
  intros Hb Hs.
  destruct (maybe_has_sim_range vectors cutoff diffsense f f_range diffsense_range
              a b sd mwp Hb) as (s0 & sd0 & Hs0 & H0 & H1 & Hb' & _).
  rewrite Hs0 in Hs. injection Hs as <- <-. auto.
Qed.

Lemma instance_body_upper (t1 t2 : triple) (st st' : pool_state) :
  sd_bounded (snd st) ->
  instance_body vectors cutoff diffsense (Some f) mwp weighting_scheme t1 st t2
    = Ok st' ->
  sd_bounded (snd st') /\
  spec_score (snd (fst st')) M <= spec_score (snd (fst st)) M + up_I M t1 t2.
Proof.
  destruct st as [[C W] sd]. cbn [fst snd]. intros Hb H.
  pose proof (b2q_range (hits M (node_pair_of (t_node t1) (t_node t2)))) as [Hu _].
  apply instance_body_inv in H
    as [[_ ->]|[_ (s & sd' & C' & W' & Hs & _ & HW & ->)]]; cbn [fst snd].
  - split; [exact Hb|]. unfold up_I. lra.
  - apply sim_step in Hs as (H0 & H1 & Hb'); [|exact Hb].
    split; [exact Hb'|]. destruct (weighted_range s H0 H1).
    apply (add_self_upper W W' _ _ (weighted weighting_scheme s)); auto.
Qed.

Lemma attribute_body_upper (a1 a2 : triple) (st st' : pool_state) :
  sd_bounded (snd st) ->
  attribute_body vectors cutoff diffsense (Some f) mwp a1 st a2 = Ok st' ->
  sd_bounded (snd st') /\
  spec_score (snd (fst st')) M <= spec_score (snd (fst st)) M + up_A M a1 a2.
Proof.
  destruct st as [[C W] sd]. cbn [fst snd]. intros Hb H.
  pose proof (b2q_range (hits M (node_pair_of (t_node a1) (t_node a2)))) as [Hu _].
  apply attribute_body_inv in H. cbv zeta in H. unfold up_A.
  destruct H as [[E (C' & W' & _ & HW & ->)]
                |[(E1 & E2 & s & sd' & C' & W' & Hs & _ & HW & ->)|(E1 & E2 & ->)]];
    cbn [fst snd].
  - apply andb_true_iff in E as [-> ->]. cbn [andb orb].
    split; [exact Hb|]. apply (add_self_upper W W' _ _ 1); [lra|lra|exact HW].
  - apply andb_true_iff in E2 as [-> ->]. rewrite orb_true_r. cbn [andb].
    apply sim_step in Hs as (H0 & H1 & Hb'); [|exact Hb].
    split; [exact Hb'|]. apply (add_self_upper W W' _ _ s); auto.
  - split; [exact Hb|].
    match goal with |- _ <= _ + b2q ?b => pose proof (b2q_range b) end. lra.
Qed.

Lemma relation_body_upper (r1 r2 : rtriple) (st st' : pool_state) :
  relation_body r1 st r2 = Ok st' ->
  snd st' = snd st /\
  spec_score (snd (fst st')) M <= spec_score (snd (fst st)) M + d_R M r1 r2.
Proof.
  destruct st as [[C W] sd]. cbn [fst snd]. intros H.
  apply relation_body_inv in H as [[_ ->]|[E (C1 & C' & _ & _ & Hcase)]];
    cbn [fst snd]; unfold d_R.
  - split; [reflexivity|].
    match goal with |- _ <= _ + b2q ?b => pose proof (b2q_range b) end. lra.
  - rewrite E. cbn [andb].
    set (ps := node_pair_of (r_src r1) (r_src r2)) in *.
    set (pt := node_pair_of (r_dst r1) (r_dst r2)) in *.
    destruct Hcase as [[Hne ->]|[He (W' & HW & ->)]]; cbn [fst snd];
      (split; [reflexivity|]).
    + assert (Hp : (rel_pair1 r1 r2 = ps /\ rel_pair2 r1 r2 = pt) \/
                   (rel_pair1 r1 r2 = pt /\ rel_pair2 r1 r2 = ps)).
      { unfold rel_pair1, rel_pair2, ps, pt.
        destruct (Z.of_nat (r_src r1) >? Z.of_nat (r_dst r1))%Z; auto. }
      set (p1 := rel_pair1 r1 r2) in *. set (p2 := rel_pair2 r1 r2) in *.
      rewrite (spec_score_add_rel W (add_rel (add_rel W p1 p2) p2 p1) M p1 p2).
      2:{ intros q. transitivity (self_score (add_rel W p1 p2) q);
          apply add_rel_self_score. }
      2:{ intros a b. apply add_rel_both_rel_score. }
      rewrite !count_pair_hits.
      assert (Hh : hits M p1 && hits M p2 = hits M ps && hits M pt).
      { destruct Hp as [[-> ->]|[-> ->]]; [reflexivity|apply andb_comm]. }
      rewrite (andb_comm (hits M p2) (hits M p1)), Hh.
      destruct (hits M ps && hits M pt); cbn [andb b2q]; [|lra].
      destruct (Z.ltb_spec (fst p1) (fst p2)), (Z.ltb_spec (fst p2) (fst p1));
        try lia; lra.
    + rewrite He. fold ps. rewrite andb_diag.
      apply (add_self_upper W W' _ _ 1); [lra|lra|exact HW].
Qed.

(** The score of [M] on the pool of two graphs is at most the sum, over
    the pairs of triples, of their indicators. *)
Lemma compute_pool_upper (i1 a1 : list triple) (r1 : list rtriple)
    (i2 a2 : list triple) (r2 : list rtriple) (C : list pyset) (W : weight_dict_t) :
  compute_pool vectors cutoff diffsense (Some f) mwp weighting_scheme
               i1 a1 r1 i2 a2 r2 = Ok (C, W) ->
  spec_score W M
  <= Qsum (map (fun t1 => Qsum (map (up_I M t1) i2)) i1)
     + Qsum (map (fun x1 => Qsum (map (up_A M x1) a2)) a1)
     + Qsum (map (fun x1 => Qsum (map (d_R M x1) r2)) r1).
Proof.
  intros H. apply compute_pool_inv in H as (_ & st1 & st2 & sd & H1 & H2 & H3).
  apply (foldM_upper (fun st => sd_bounded (snd st))
           (fun st => spec_score (snd (fst st)) M)
           (fun t1 => Qsum (map (up_I M t1) i2))) in H1 as [B1 U1].
  2:{ intros [[Cs Ws] sds] t1 s' _ Hs Hl. unfold instance_loop in Hl.
      apply (foldM_upper (fun st => sd_bounded (snd st))
               (fun st => spec_score (snd (fst st)) M) (up_I M t1)) in Hl;
        [exact Hl| |exact Hs].
      intros s0 t2 s0' _ Hs0. now apply instance_body_upper. }
  2:{ intros k v. discriminate. }
  apply (foldM_upper (fun st => sd_bounded (snd st))
           (fun st => spec_score (snd (fst st)) M)
           (fun x1 => Qsum (map (up_A M x1) a2))) in H2 as [B2 U2]; [|clear H2|exact B1].
  2:{ intros s x1 s' _ Hs. unfold attribute_loop.
      apply (foldM_upper (fun st => sd_bounded (snd st))
               (fun st => spec_score (snd (fst st)) M) (up_A M x1)); [|exact Hs].
      intros s0 x2 s0' _ Hs0. now apply attribute_body_upper. }
  apply (foldM_upper (fun _ => True)
           (fun st => spec_score (snd (fst st)) M)
           (fun x1 => Qsum (map (d_R M x1) r2))) in H3 as [_ U3]; [|clear H3|exact I].
  2:{ intros s x1 s' _ _. unfold relation_loop.
      apply (foldM_upper (fun _ => True)
               (fun st => spec_score (snd (fst st)) M) (d_R M x1)); [|exact I].
      intros s0 x2 s0' _ _ Hb. split; [exact I|].
      now apply relation_body_upper in Hb as [_ Hb]. }
  cbn [fst snd] in *.
  assert (Hz : spec_score [] M == 0).
  { unfold spec_score.
    rewrite Qsum_map_zero, Qsum_map_zero; [reflexivity| |]; reflexivity. }
  lra.
Qed.

Lemma up_I_rows (g2 : graph) (t1 : triple) :
  distinct_triples g2 -> Qsum (map (up_I M t1) (instances g2)) <= 1.
Proof.
  intros Hd. apply (sum_at_most_one_key t_node).
  - apply (dt_nodes g2 Hd).
  - intros x _. apply b2q_range.
  - intros x y _ _ Hx Hy. apply b2q_nonzero in Hx, Hy.
    eapply hits_same_node; eauto.
Qed.

Lemma up_A_rows (g2 : graph) (x1 : triple) :
  distinct_triples g2 -> Qsum (map (up_A M x1) (attributes g2)) <= 1.
Proof.
  intros Hd. apply (sum_at_most_one_key attr_key).
  - apply (dt_attrs g2 Hd).
  - intros x _. apply b2q_range.
  - intros x y _ _ Hx Hy. apply b2q_nonzero in Hx, Hy.
    apply andb_true_iff in Hx as [Hx Hhx]. apply andb_true_iff in Hx as [Hrx Hvx].
    apply andb_true_iff in Hy as [Hy Hhy]. apply andb_true_iff in Hy as [Hry Hvy].
    apply String.eqb_eq in Hrx, Hry.
    pose proof (hits_same_node _ _ _ _ Hhx Hhy) as Hn.
    unfold attr_key. rewrite <- Hrx, <- Hry, Hn.
    rewrite <- Hrx in Hvx. rewrite <- Hry in Hvy.
    destruct (lower (t_rel x1) =s "top"); [reflexivity|].
    rewrite orb_false_r in Hvx, Hvy. apply String.eqb_eq in Hvx, Hvy.
    congruence.
Qed.

Lemma d_R_rows (g2 : graph) (x1 : rtriple) :
  distinct_triples g2 -> Qsum (map (d_R M x1) (relations g2)) <= 1.
Proof.
  intros Hd. apply (sum_at_most_one_key rel_key).
  - apply (dt_rels g2 Hd).
  - intros x _. apply b2q_range.
  - intros x y _ _ Hx Hy. apply b2q_nonzero in Hx, Hy.
    apply andb_true_iff in Hx as [Hx Hdx]. apply andb_true_iff in Hx as [Hrx Hsx].
    apply andb_true_iff in Hy as [Hy Hdy]. apply andb_true_iff in Hy as [Hry Hsy].
    apply String.eqb_eq in Hrx, Hry.
    pose proof (hits_same_node _ _ _ _ Hsx Hsy) as Hs.
    pose proof (hits_same_node _ _ _ _ Hdx Hdy) as Hd'.
    unfold rel_key. congruence.
Qed.

Hypothesis M_one : one_to_one M.

Lemma up_I_cols (g1 : graph) (t2 : triple) :
  distinct_triples g1 ->
  Qsum (map (fun t1 => up_I M t1 t2) (instances g1)) <= 1.
Proof.
  intros Hd. apply (sum_at_most_one_key t_node).
  - apply (dt_nodes g1 Hd).
  - intros x _. apply b2q_range.
  - intros x y _ _ Hx Hy. apply b2q_nonzero in Hx, Hy.
    eapply hits_same_source; eauto.
Qed.

Lemma up_A_cols (g1 : graph) (x2 : triple) :
  distinct_triples g1 ->
  Qsum (map (fun x1 => up_A M x1 x2) (attributes g1)) <= 1.
Proof.
  intros Hd. apply (sum_at_most_one_key attr_key).
  - apply (dt_attrs g1 Hd).
  - intros x _. apply b2q_range.
  - intros x y _ _ Hx Hy. apply b2q_nonzero in Hx, Hy.
    apply andb_true_iff in Hx as [Hx Hhx]. apply andb_true_iff in Hx as [Hrx Hvx].
    apply andb_true_iff in Hy as [Hy Hhy]. apply andb_true_iff in Hy as [Hry Hvy].
    apply String.eqb_eq in Hrx, Hry.
    pose proof (hits_same_source _ _ _ _ M_one Hhx Hhy) as Hn.
    unfold attr_key. rewrite Hrx, Hry, Hn.
    destruct (lower (t_rel x2) =s "top"); [reflexivity|].
    rewrite orb_false_r in Hvx, Hvy. apply String.eqb_eq in Hvx, Hvy.
    congruence.
Qed.

Lemma d_R_cols (g1 : graph) (x2 : rtriple) :
  distinct_triples g1 ->
  Qsum (map (fun x1 => d_R M x1 x2) (relations g1)) <= 1.
Proof.
  intros Hd. apply (sum_at_most_one_key rel_key).
  - apply (dt_rels g1 Hd).
  - intros x _. apply b2q_range.
  - intros x y _ _ Hx Hy. apply b2q_nonzero in Hx, Hy.
    apply andb_true_iff in Hx as [Hx Hdx]. apply andb_true_iff in Hx as [Hrx Hsx].
    apply andb_true_iff in Hy as [Hy Hdy]. apply andb_true_iff in Hy as [Hry Hsy].
    apply String.eqb_eq in Hrx, Hry.
    pose proof (hits_same_source _ _ _ _ M_one Hsx Hsy) as Hs.
    pose proof (hits_same_source _ _ _ _ M_one Hdx Hdy) as Hd'.
    unfold rel_key. congruence.
Qed.

Lemma pool_score_bound (g1 g2 : graph) (C : list pyset) (W : weight_dict_t) :
  distinct_triples g1 -> distinct_triples g2 ->
  compute_pool vectors cutoff diffsense (Some f) mwp weighting_scheme
               (instances g1) (attributes g1) (relations g1)
               (instances g2) (attributes g2) (relations g2) = Ok (C, W) ->
  spec_score W M <= inject_Z (triple_num g1) /\
  spec_score W M <= inject_Z (triple_num g2).
Proof.
  intros Hd1 Hd2 Hp. pose proof (compute_pool_upper _ _ _ _ _ _ _ _ Hp) as Hu.
  split.
  - pose proof (rows_bound (up_I M) (instances g1) (instances g2)
                  (fun t1 => up_I_rows g2 t1 Hd2)).
    pose proof (rows_bound (up_A M) (attributes g1) (attributes g2)
                  (fun x1 => up_A_rows g2 x1 Hd2)).
    pose proof (rows_bound (d_R M) (relations g1) (relations g2)
                  (fun x1 => d_R_rows g2 x1 Hd2)).
    unfold triple_num. rewrite !Nat2Z.inj_add, !inject_Z_plus.
    eapply Qle_trans; [exact Hu|].
    apply Qplus_le_compat; [apply Qplus_le_compat|]; assumption.
  - rewrite (Qsum_swap (up_I M)), (Qsum_swap (up_A M)), (Qsum_swap (d_R M)) in Hu.
    pose proof (rows_bound (fun t2 t1 => up_I M t1 t2) (instances g2) (instances g1)
                  (fun t2 => up_I_cols g1 t2 Hd1)).
    pose proof (rows_bound (fun x2 x1 => up_A M x1 x2) (attributes g2) (attributes g1)
                  (fun x2 => up_A_cols g1 x2 Hd1)).
    pose proof (rows_bound (fun x2 x1 => d_R M x1 x2) (relations g2) (relations g1)
                  (fun x2 => d_R_cols g1 x2 Hd1)).
    unfold triple_num. rewrite !Nat2Z.inj_add, !inject_Z_plus.
    eapply Qle_trans; [exact Hu|].
    apply Qplus_le_compat; [apply Qplus_le_compat|]; assumption.
Qed.
End ScoreBound.


Definition boy_hit : graph :=
  Graph [Triple "instance" 0 "boy"; Triple "instance" 1 "hit-02";
         Triple "instance" 2 "ball"]
        [Triple "TOP" 1 "hit-02"]
        [RTriple "ARG0" 1 0; RTriple "ARG1" 1 2].


(* ------------------------------------------------------------------ *)
(** ** The score of a corpus *)

Lemma corpus_body_inv (fuel : nat) (vectors : vecs_t) (cutoff diffsense : Q)
    (simfun : option simfun_t) (mwp : string) (tm : Q) (tt tg : Z) (rnd : list nat)
    (g1 g2 : graph) (st' : corpus_state) :
  corpus_body fuel vectors cutoff diffsense simfun mwp (tm, tt, tg, rnd) (g1, g2)
    = Ok st' ->
  exists bm bmn memo rnd',
    get_best_match fuel 5 (instances g1) (attributes g1) (relations g1)
                   (instances g2) (attributes g2) (relations g2)
                   vectors cutoff diffsense simfun mwp "standard" [] rnd
      = Ok (bm, bmn, memo, rnd') /\
    st' = (tm + bmn, (tt + triple_num g1)%Z, (tg + triple_num g2)%Z, rnd').
Proof.
  unfold corpus_body. intros H.
  apply bind_Ok in H as ([[[bm bmn] memo] rnd'] & Hg & H).
  injection H as <-. exists bm, bmn, memo, rnd'. auto.
Qed.



Lemma combine_app_l {A B} (l1 extra : list A) (l2 : list B) :
  List.length l1 = List.length l2 -> combine (l1 ++ extra) l2 = combine l1 l2.
Proof.
  revert l2. induction l1 as [|a l1 IH]; intros [|b l2] H; simpl in *;
    try discriminate.
  - now destruct extra.
  - f_equal. apply IH. lia.
Qed.

Lemma combine_app_r {A B} (l1 : list A) (l2 extra : list B) :
  List.length l1 = List.length l2 -> combine l1 (l2 ++ extra) = combine l1 l2.
Proof.
  revert l2. induction l1 as [|a l1 IH]; intros [|b l2] H; simpl in *;
    try discriminate; [reflexivity|].
  f_equal. apply IH. lia.
Qed.

(** X19.  The corpus loop pairs the two lists with [zip]: the graphs
    of the longer list that have no partner are ignored, without any
    error, and the score is that of the paired prefix. *)
Theorem corpus_score_ignores_unpaired (fuel : nat) (list1 list2 extra : list graph)
    (vectors : vecs_t) (simfun : option simfun_t) (cutoff diffsense : Q)
    (mwp : string) (rnd : list nat) :
  List.length list1 = List.length list2 ->
  corpus_score fuel (list1 ++ extra) list2 vectors simfun cutoff diffsense mwp rnd
  = corpus_score fuel list1 list2 vectors simfun cutoff diffsense mwp rnd /\
  corpus_score fuel list1 (list2 ++ extra) vectors simfun cutoff diffsense mwp rnd
  = corpus_score fuel list1 list2 vectors simfun cutoff diffsense mwp rnd.
Proof.
  intros H. unfold corpus_score.
  now rewrite (combine_app_l list1 extra list2 H), (combine_app_r list1 list2 extra H).
Qed.

Lemma corpus_score_ignores_unpaired_witness :
  corpus_score 10 ([hit_boy] ++ [foo_graph]) [boy_hit] [] None (1 # 2) (1 # 2) "split" []
  = corpus_score 10 [hit_boy] [boy_hit] [] None (1 # 2) (1 # 2) "split" [] /\
  corpus_score 10 [hit_boy] ([boy_hit] ++ [foo_graph]) [] None (1 # 2) (1 # 2) "split" []
  = corpus_score 10 [hit_boy] [boy_hit] [] None (1 # 2) (1 # 2) "split" [].
Proof.
  apply (corpus_score_ignores_unpaired 10 [hit_boy] [boy_hit] [foo_graph]).
  reflexivity.
Defined.

Lemma combine_diag {A} (l : list A) : combine l l = map (fun a => (a, a)) l.
Proof. induction l as [|a l IH]; simpl; [reflexivity|now rewrite IH]. Qed.

(** X20.  A corpus compared with itself: for a list, not empty, of
    renamed graphs that each have a node, no ["_"] in their concept
    labels and no two attribute or relation triples that match each
    other, with a similarity function and a sense discount in
    [[0, 1]] and fuel for the hill climbing, the corpus loop returns
    precision, recall and F-score within [tolerance] of [1], whatever
    the random choices. *)
Theorem corpus_score_self (fuel : nat) (graphs : list graph) (vectors : vecs_t)
    (f : simfun_t) (cutoff diffsense : Q) (mwp : string) (rnd : list nat) :
  graphs <> [] ->
  (forall g, In g graphs ->
     wf_graph g /\ instances g <> [] /\
     (triple_num g * 10000000000 < Z.of_nat fuel)%Z) ->
  (forall a b, 0 <= f a b /\ f a b <= 1) ->
  0 <= diffsense /\ diffsense <= 1 ->
  exists precision recall f_score,
    corpus_score fuel graphs graphs vectors (Some f) cutoff diffsense mwp rnd
      = Ok (precision, recall, f_score) /\
    Qabs (precision - 1) <= tolerance /\
    Qabs (recall - 1) <= tolerance /\
    Qabs (f_score - 1) <= tolerance.
Proof.
  intros Hne Hgs Hf Hd. unfold corpus_score. rewrite combine_diag.
  destruct (foldM_steps
              (fun k (st : corpus_state) =>
                 fst (fst (fst st)) == inject_Z (snd (fst (fst st))) /\
                 snd (fst st) = snd (fst (fst st)) /\
                 (0 <= snd (fst (fst st)))%Z /\
                 ((0 < k)%nat -> (0 < snd (fst (fst st)))%Z))
              (corpus_body fuel vectors cutoff diffsense (Some f) mwp)
              (map (fun g => (g, g)) graphs)) with (s := (0, 0%Z, 0%Z, rnd))
    as ([[[tm tt] tg] rnd'] & Hl & (Em & Eg & H0 & Hpos)).
  - intros k [[[m t] g'] r] [g1 g2] Hn (Im & Ig & I0 & _). cbn [fst snd] in *.
    apply nth_error_In, in_map_iff in Hn as (g & [= <- <-] & Hin).
    destruct (Hgs g Hin) as (Hwf & Hinst & Hfuel).
    destruct (self_best_match g vectors cutoff diffsense f mwp fuel 5 r Hwf Hf Hd
                ltac:(lia) Hfuel) as (bm & bmn & memo & r' & Hg & Eb).
    unfold corpus_body. rewrite Hg. cbn [bind].
    eexists. split; [reflexivity|]. cbn [fst snd].
    assert (Hp : (0 < triple_num g)%Z).
    { unfold triple_num. destruct (instances g); [contradiction|]. simpl. lia. }
    rewrite inject_Z_plus, Eb, Im, Ig.
    split; [reflexivity|]. split; [reflexivity|]. split; lia.
  - cbn [fst snd]. split; [reflexivity|]. split; [reflexivity|]. split; lia.
  - rewrite Hl. cbn [bind]. cbn [fst snd] in *. subst tg.
    assert (Ht : (0 < tt)%Z).
    { apply Hpos. rewrite length_map. destruct graphs; [contradiction|simpl; lia]. }
    destruct (compute_f_near_full tm tt Ht (within_tolerance _ _ Em))
      as (p & r & fs & Hc & Hp & Hr & Hfs).
    exists p, r, fs. rewrite Hc. auto.
Qed.

Lemma corpus_score_self_witness :
  exists precision recall f_score,
    corpus_score (Z.to_nat 50000000001) [hit_boy; hit_boy] [hit_boy; hit_boy] []
                 (Some (fun _ _ => 1)) (1 # 2) (1 # 2) "split" [3; 1; 4]%nat
      = Ok (precision, recall, f_score) /\
    Qabs (precision - 1) <= tolerance /\
    Qabs (recall - 1) <= tolerance /\
    Qabs (f_score - 1) <= tolerance.
Proof.
  apply (corpus_score_self (Z.to_nat 50000000001) [hit_boy; hit_boy] []
           (fun _ _ => 1) (1 # 2) (1 # 2) "split" [3; 1; 4]%nat).
  - discriminate.
  - intros g Hg. assert (g = hit_boy) as -> by (destruct Hg as [<-|[<-|[]]]; reflexivity).
    split; [|split; [discriminate|change (triple_num hit_boy) with 4%Z; lia]].
    split.
    + intros [|[|[|i]]] t; simpl; try discriminate; intros [= <-]; auto.
    + intros t [<-|[<-|[]]]; reflexivity.
    + intros a [<-|[]]. simpl. lia.
    + simpl. repeat constructor; simpl; intuition discriminate.
    + intros r [<-|[]]. simpl. lia.
    + simpl. repeat constructor; simpl; intuition discriminate.
  - intros a b. split; lra.
  - split; lra.
Defined.

(* ------------------------------------------------------------------ *)
(** ** The lists that [parse_relations] builds *)

Lemma in_list_iff (x : string) (l : list string) : in_list x l = true <-> In x l.
Proof.
  unfold in_list. rewrite existsb_exists. split.
  - intros (y & Hy & E). apply String.eqb_eq in E. now subst.
  - intros H. exists x. split; [exact H|apply String.eqb_refl].
Qed.

(** The variables are distinct, and each has its concept of [v2c] at
    its position in the list of concepts. *)
Definition vars_ok (v2c : dict string string) (st : list string * list string) : Prop :=
  NoDup (fst st) /\
  List.length (snd st) = List.length (fst st) /\
  forall k v, nth_error (fst st) k = Some v ->
              exists c, dget v2c v = Some c /\ nth_error (snd st) k = Some c.

Lemma vars_ok_push (v2c : dict string string) (var_list conc_list : list string)
    (x : string) :
  vars_ok v2c (var_list, conc_list) ->
  in_list x var_list = false -> dmem v2c x = true ->
  exists c, lookup v2c x = Ok c /\
            vars_ok v2c ((var_list ++ [x])%list, (conc_list ++ [c])%list).
Proof.
  intros (Hnd & Hlen & Hc) Hnew Hmem. cbn [fst snd] in *.
  unfold lookup, dmem in *. destruct (dget v2c x) as [c|] eqn:E; [|discriminate].
  exists c. split; [reflexivity|]. split; [|split]; cbn [fst snd].
  - apply NoDup_app; [exact Hnd|repeat constructor; intros []|].
    intros y Hy [<-|[]]. apply in_list_iff in Hy. congruence.
  - rewrite !length_app, Hlen. reflexivity.
  - intros k v Hk. apply nth_error_snoc in Hk as [[Hlt Hk]|[-> ->]].
    + destruct (Hc k v Hk) as (c' & Hv & Hn). exists c'. split; [exact Hv|].
      rewrite nth_error_app1 by lia. exact Hn.
    + exists c. split; [exact E|].
      now rewrite <- Hlen, nth_error_app2, Nat.sub_diag by lia.
Qed.

Lemma parse_vars_body_spec (v2c : dict string string) (st : list string * list string)
    (r : rel3) :
  vars_ok v2c st ->
  exists st', parse_vars_body v2c st r = Ok st' /\ vars_ok v2c st' /\
              incl (fst st) (fst st') /\
              (dmem v2c (snd r) = true -> In (snd r) (fst st')).
Proof.
  destruct st as [vl cl], r as [[r0 r1] r2]. intros Hok. unfold parse_vars_body.
  assert (H1 : exists vl1 cl1,
             (if negb (in_list r1 vl) && negb (r1 =s "TOP") && dmem v2c r1
              then do c <- lookup v2c r1; Ok ((vl ++ [r1])%list, (cl ++ [c])%list)
              else Ok (vl, cl)) = Ok (vl1, cl1) /\
             vars_ok v2c (vl1, cl1) /\ incl vl vl1).
  { destruct (negb (in_list r1 vl) && negb (r1 =s "TOP") && dmem v2c r1) eqn:E.
    - apply andb_true_iff in E as [E Hm]. apply andb_true_iff in E as [Hn _].
      apply negb_true_iff in Hn.
      destruct (vars_ok_push v2c vl cl r1 Hok Hn Hm) as (c & -> & Hok').
      cbn [bind]. eexists. eexists. split; [reflexivity|].
      split; [exact Hok'|]. apply incl_appl, incl_refl.
    - exists vl, cl. split; [reflexivity|]. split; [exact Hok|apply incl_refl]. }
  destruct H1 as (vl1 & cl1 & -> & Hok1 & Hinc). cbn [bind fst snd].
  destruct (in_list r2 vl1) eqn:Hn; cbn [negb andb].
  - exists (vl1, cl1). split; [reflexivity|]. split; [exact Hok1|].
    split; [exact Hinc|]. intros _. now apply in_list_iff.
  - destruct (dmem v2c r2) eqn:Hm.
    + destruct (vars_ok_push v2c vl1 cl1 r2 Hok1 Hn Hm) as (c & -> & Hok').
      cbn [bind]. eexists. split; [reflexivity|]. split; [exact Hok'|]. cbn [fst].
      split; [apply incl_appl; exact Hinc|]. intros _. apply in_or_app. right. now left.
    + exists (vl1, cl1). split; [reflexivity|]. split; [exact Hok1|].
      split; [exact Hinc|discriminate].
Qed.

Lemma parse_row_spec (v2c : dict string string) (v : string) (rels : list rel3) :
  exists rel_d att_d,
    foldM (parse_row_body v2c v) rels ([], []) = Ok (rel_d, att_d) /\
    forall target, In target (dkeys rel_d) ->
                   exists i, In i rels /\ snd i = target /\ dmem v2c target = true.
Proof.
  destruct (foldM_total
              (fun st : dict string string * dict string string =>
                 forall target, In target (dkeys (fst st)) ->
                   exists i, In i rels /\ snd i = target /\ dmem v2c target = true)
              (parse_row_body v2c v) rels) with (s := ([], []) : dict string string * dict string string)
    as ([rel_d att_d] & H & Hk).
  - intros [rd ad] [[i0 i1] i2] Hin Hs. unfold parse_row_body.
    destruct ((i1 =s v) && dmem v2c i2) eqn:E.
    + apply andb_true_iff in E as [_ Hm].
      unfold lookup. unfold dmem in Hm.
      destruct (dget v2c i2) as [c|] eqn:Ec; [|discriminate]. cbn [bind].
      eexists. split; [reflexivity|]. cbn [fst]. intros target Ht.
      apply dkeys_dset_in in Ht as [->|Ht]; [|now apply Hs].
      exists (i0, i1, i2). split; [exact Hin|]. split; [reflexivity|].
      unfold dmem. now rewrite Ec.
    + eexists. split; [reflexivity|exact Hs].
  - intros target [].
  - exists rel_d, att_d. auto.
Qed.

(** X21.  [parse_relations] raises nothing.  The variables it collects
    are distinct and each has a concept in [v2c], which stands at the
    same position in the list of concepts; the four lists it returns
    have one length; and every target recorded in a dictionary of
    [rel_dict] is one of the variables. *)
Theorem parse_relations_well_formed (rels : list rel3) (v2c : dict string string) :
  exists var_list conc_list rel_dict att_dict,
    parse_relations rels v2c = Ok (var_list, conc_list, rel_dict, att_dict) /\
    NoDup var_list /\
    List.length conc_list = List.length var_list /\
    List.length rel_dict = List.length var_list /\
    List.length att_dict = List.length var_list /\
    (forall k v, nth_error var_list k = Some v ->
                 exists c, dget v2c v = Some c /\ nth_error conc_list k = Some c) /\
    (forall k rel_d target, nth_error rel_dict k = Some rel_d ->
                            In target (dkeys rel_d) -> In target var_list).
Proof.
  destruct (foldM_progress (vars_ok v2c)
              (fun s s' : list string * list string => incl (fst s) (fst s'))
              (fun (r : rel3) (s : list string * list string) =>
                 dmem v2c (snd r) = true -> In (snd r) (fst s))
              (parse_vars_body v2c) rels) with (s := ([], []) : list string * list string)
    as ([var_list conc_list] & H1 & (Hnd & Hlen & Hc) & _ & Hcov).
  - intros s. apply incl_refl.
  - intros s1 s2 s3. apply incl_tran.
  - intros a s s' Hc Hle Hm. apply Hle, Hc, Hm.
  - intros s r _ Hs. now apply parse_vars_body_spec.
  - split; [constructor|]. split; [reflexivity|]. intros [|k] v H; discriminate.
  - cbn [fst snd] in *. unfold parse_relations. rewrite H1. cbn [bind].
    destruct (foldM_steps
                (fun k (st : list (dict string string) * list (dict string string)) =>
                   List.length (fst st) = k /\ List.length (snd st) = k /\
                   forall j rel_d target, nth_error (fst st) j = Some rel_d ->
                     In target (dkeys rel_d) -> In target var_list)
                (parse_rows_body v2c rels) var_list)
      with (s := ([], []) : list (dict string string) * list (dict string string))
      as ([rel_dict att_dict] & H2 & (L1 & L2 & Hk)).
    + intros k [rd ad] v _ (I1 & I2 & I3). cbn [fst snd] in *.
      unfold parse_rows_body.
      destruct (parse_row_spec v2c v rels) as (rel_d & att_d & -> & Hrow).
      cbn [bind fst snd]. eexists. split; [reflexivity|]. cbn [fst snd].
      rewrite !length_app, I1, I2. cbn [List.length].
      split; [lia|]. split; [lia|].
      intros j rel_d' target Hj Ht.
      apply nth_error_snoc in Hj as [[_ Hj]|[_ ->]]; [eapply I3; eauto|].
      destruct (Hrow target Ht) as (i & Hi & <- & Hm). now apply (Hcov i Hi).
    + cbn [fst snd]. split; [reflexivity|]. split; [reflexivity|].
      intros [|j] rel_d target H; discriminate.
    + rewrite H2. cbn [bind]. cbn [fst snd] in *.
      exists var_list, conc_list, rel_dict, att_dict.
      split; [reflexivity|]. split; [exact Hnd|]. split; [exact Hlen|].
      split; [exact L1|]. split; [exact L2|]. split; [exact Hc|exact Hk].
Qed.

(* ------------------------------------------------------------------ *)
(** ** The default similarity function *)

Lemma cosine_sim_range (cosine : vec -> vec -> Q) (a b : vec) :
  0 <= cosine a b -> 0 <= cosine_sim cosine a b /\ cosine_sim cosine a b <= 1.
Proof.
  intros H. unfold cosine_sim. cbv zeta.
  pose proof (Q.le_min_l 1 (cosine a b)).
  assert (0 <= Qmin 1 (cosine a b)) by (apply Q.min_glb; lra).
  split; lra.
Qed.

(** X22.  With the similarity function that [get_sim_fun] returns for
    ["cosine"], a cosine distance that is never negative and a sense
    discount in [[0, 1]], [maybe_sim] raises nothing and answers in
    [[0, 1]]; a distance of [1] or more counts as similarity [0]. *)
Theorem cosine_similarity_unit_interval (cosine euclidean cityblock : vec -> vec -> Q)
    (exp : Q -> Q) (a b : string) (vecs : vecs_t) (cutoff diffsense : Q) (mwp : string) :
  (forall u v, 0 <= cosine u v) ->
  0 <= diffsense /\ diffsense <= 1 ->
  (exists s, maybe_sim a b vecs cutoff diffsense
                       (get_sim_fun cosine euclidean cityblock exp "cosine") mwp = Ok s /\
             0 <= s /\ s <= 1) /\
  (forall u v, 1 <= cosine u v ->
     exists s, call_simfun (get_sim_fun cosine euclidean cityblock exp "cosine") u v
               = Ok s /\ s == 0).
Proof.
  intros Hc Hd. change (get_sim_fun cosine euclidean cityblock exp "cosine")
    with (Some (cosine_sim cosine)). split.
  - destruct (maybe_sim_range vecs cutoff diffsense (cosine_sim cosine)
                (fun u v => cosine_sim_range cosine u v (Hc u v)) Hd a b mwp)
      as (s & Hs & H0 & H1 & _).
    exists s. auto.
  - intros u v H. cbn [call_simfun]. eexists. split; [reflexivity|].
    unfold cosine_sim. cbv zeta.
    rewrite (Q.min_l 1 (cosine u v)) by exact H. reflexivity.
Qed.

Lemma cosine_similarity_unit_interval_witness :
  (exists s, maybe_sim "cat" "dog" [("cat", [1; 0]); ("dog", [1; 1])] (1 # 2) (1 # 2)
                       (get_sim_fun (fun _ _ => 3 # 10) (fun _ _ => 0) (fun _ _ => 0)
                                    (fun x => x) "cosine") "split" = Ok s /\
             0 <= s /\ s <= 1) /\
  (forall u v, 1 <= (fun _ _ : vec => 3 # 10) u v ->
     exists s, call_simfun (get_sim_fun (fun _ _ => 3 # 10) (fun _ _ => 0)
                                        (fun _ _ => 0) (fun x => x) "cosine") u v
               = Ok s /\ s == 0).
Proof.
  apply (cosine_similarity_unit_interval (fun _ _ => 3 # 10) (fun _ _ => 0)
           (fun _ _ => 0) (fun x => x) "cat" "dog").
  - intros u v. discriminate.
  - split; discriminate.
Defined.

(* ------------------------------------------------------------------ *)
(** ** When the pool builder cannot succeed *)

Lemma foldM_reaches {S A} (P : S -> Prop) (f : S -> A -> result S) (l : list A)
    (s s' : S) (a : A) :
  (forall s a s', P s -> f s a = Ok s' -> P s') ->
  P s -> foldM f l s = Ok s' -> In a l ->
  exists s1 s2, P s1 /\ f s1 a = Ok s2.
Proof.
  intros Hstep. revert s. induction l as [|x l IH]; intros s Hs H Hin; [destruct Hin|].
  cbn [foldM] in H. apply bind_Ok in H as (s1 & H1 & H).
  destruct Hin as [->|Hin].
  - exists s, s1. split; [exact Hs|exact H1].
  - apply (IH s1); [eapply Hstep; eauto|exact H|exact Hin].
Qed.

Lemma attribute_body_length (vectors : vecs_t) (cutoff diffsense : Q)
    (simfun : option simfun_t) (mwp : string) (a1 a2 : triple) (st st' : pool_state) :
  attribute_body vectors cutoff diffsense simfun mwp a1 st a2 = Ok st' ->
  List.length (fst (fst st')) = List.length (fst (fst st)).
Proof.
  destruct st as [[C W] sd]. intros Hb.
  apply attribute_body_inv in Hb
    as [[_ (C' & W' & HC & HW & ->)]
       |[(_ & _ & sim & sd' & C' & W' & _ & HC & HW & ->)|(_ & _ & ->)]]; auto;
    apply cand_add_Ok in HC as (_ & Hlen & _); exact Hlen.
Qed.

Lemma relation_body_length (r1 r2 : rtriple) (st st' : pool_state) :
  relation_body r1 st r2 = Ok st' ->
  List.length (fst (fst st')) = List.length (fst (fst st)).
Proof.
  destruct st as [[C W] sd]. intros Hb.
  apply relation_body_inv in Hb as [[_ ->]|[_ (C1 & C' & H1 & H2 & Hcase)]]; auto.
  apply cand_add_Ok in H1 as (_ & L1 & _). apply cand_add_Ok in H2 as (_ & L2 & _).
  destruct Hcase as [[_ ->]|[_ (W' & _ & ->)]]; cbn [fst snd]; congruence.
Qed.

(** X23.  [compute_pool] returns only when every attribute triple of
    AMR 1 that matches one of AMR 2 (same name and same value, or both
    root markers) and every relation triple of AMR 1 that shares its
    name with one of AMR 2 sits on nodes below the number of instance
    triples of AMR 1; otherwise the indexing of the candidate list
    raises. *)
Theorem compute_pool_needs_nodes (vectors : vecs_t) (cutoff diffsense : Q)
    (simfun : option simfun_t) (mwp weighting_scheme : string)
    (i1 a1 : list triple) (r1 : list rtriple) (i2 a2 : list triple)
    (r2 : list rtriple) (C : list pyset) (W : weight_dict_t) :
  compute_pool vectors cutoff diffsense simfun mwp weighting_scheme
               i1 a1 r1 i2 a2 r2 = Ok (C, W) ->
  (forall x1 x2, In x1 a1 -> In x2 a2 ->
     (lower (t_rel x1) =s lower (t_rel x2))
     && ((lower (t_value x1) =s lower (t_value x2)) || (lower (t_rel x2) =s "top"))
     = true ->
     (t_node x1 < List.length i1)%nat) /\
  (forall x1 x2, In x1 r1 -> In x2 r2 ->
     (lower (r_rel x1) =s lower (r_rel x2)) = true ->
     (r_src x1 < List.length i1)%nat /\ (r_dst x1 < List.length i1)%nat).
Proof.
  intros H. apply compute_pool_inv in H as (_ & st1 & st2 & sd & H1 & H2 & H3).
  pose proof (pool_length _ _ _ _ _ _ _ _ _ _ H1) as L1. simpl in L1.
  pose proof (attr_rel_length _ _ _ _ _ _ _ _ _ H2) as L2.
  set (n := List.length i1) in *.
  assert (Hattr : forall s x s',
             List.length (fst (fst s)) = n ->
             attribute_loop vectors cutoff diffsense simfun mwp a2 s x = Ok s' ->
             List.length (fst (fst s')) = n).
  { intros s x s' Hs. unfold attribute_loop.
    apply (foldM_inv (fun s => List.length (fst (fst s)) = n)); [|exact Hs].
    intros s0 y s0' _ Hs0 Hb. apply attribute_body_length in Hb. congruence. }
  assert (Hrel : forall s x s',
             List.length (fst (fst s)) = n ->
             relation_loop r2 s x = Ok s' -> List.length (fst (fst s')) = n).
  { intros s x s' Hs. unfold relation_loop.
    apply (foldM_inv (fun s => List.length (fst (fst s)) = n)); [|exact Hs].
    intros s0 y s0' _ Hs0 Hb. apply relation_body_length in Hb. congruence. }
  split.
  - intros x1 x2 Hx1 Hx2 Hm.
    destruct (foldM_reaches (fun s => List.length (fst (fst s)) = n)
                (attribute_loop vectors cutoff diffsense simfun mwp a2) a1 st1 st2 x1
                Hattr L1 H2 Hx1) as (s1 & s2 & Hs1 & Hl).
    unfold attribute_loop in Hl.
    destruct (foldM_reaches (fun s => List.length (fst (fst s)) = n)
                (attribute_body vectors cutoff diffsense simfun mwp x1) a2 s1 s2 x2)
      as ([[Ca Wa] sda] & sb & Hsa & Hb); auto.
    { intros s0 y s0' Hs0 Hb. apply attribute_body_length in Hb. congruence. }
    cbn [fst] in Hsa. apply attribute_body_inv in Hb. cbv zeta in Hb.
    destruct Hb as [[_ (C' & W' & HC & _)]
                   |[(_ & _ & sim & sd' & C' & W' & _ & HC & _)|(E1 & E2 & _)]].
    + apply cand_add_Ok in HC as (Hlt & _). lia.
    + apply cand_add_Ok in HC as (Hlt & _). lia.
    + exfalso. destruct (lower (t_rel x1) =s lower (t_rel x2)); [|discriminate].
      cbn [andb] in *. rewrite E1, E2 in Hm. discriminate.
  - intros x1 x2 Hx1 Hx2 Hm.
    assert (L3 : List.length (fst (fst st2)) = n) by congruence.
    destruct (foldM_reaches (fun s => List.length (fst (fst s)) = n)
                (relation_loop r2) r1 st2 _ x1 Hrel L3 H3 Hx1)
      as (s1 & s2 & Hs1 & Hl).
    unfold relation_loop in Hl.
    destruct (foldM_reaches (fun s => List.length (fst (fst s)) = n)
                (relation_body x1) r2 s1 s2 x2)
      as ([[Ca Wa] sda] & sb & Hsa & Hb); auto.
    { intros s0 y s0' Hs0 Hb. apply relation_body_length in Hb. congruence. }
    cbn [fst] in Hsa.
    apply relation_body_inv in Hb as [[E _]|[_ (C1 & C' & Ha & Hb & _)]];
      [congruence|].
    apply cand_add_Ok in Ha as (Hlt1 & La & _).
    apply cand_add_Ok in Hb as (Hlt2 & _). lia.
Qed.

Lemma compute_pool_needs_nodes_witness :
  (forall x1 x2, In x1 (attributes hit_boy) -> In x2 (attributes boy_hit) ->
     (lower (t_rel x1) =s lower (t_rel x2))
     && ((lower (t_value x1) =s lower (t_value x2)) || (lower (t_rel x2) =s "top"))
     = true ->
     (t_node x1 < List.length (instances hit_boy))%nat) /\
  (forall x1 x2, In x1 (relations hit_boy) -> In x2 (relations boy_hit) ->
     (lower (r_rel x1) =s lower (r_rel x2)) = true ->
     (r_src x1 < List.length (instances hit_boy))%nat /\
     (r_dst x1 < List.length (instances hit_boy))%nat).
Proof.
  eapply (compute_pool_needs_nodes [] (1 # 2) (1 # 2) None "split" "standard"
            (instances hit_boy) (attributes hit_boy) (relations hit_boy)
            (instances boy_hit) (attributes boy_hit) (relations boy_hit)).
  vm_compute. reflexivity.
Defined.

(* ------------------------------------------------------------------ *)
(** ** The search returns on well-formed graphs *)

(** A graph whose nodes are numbered as renaming does: the node of the
    [k]-th instance triple is at most [k], and attribute and relation
    triples sit on nodes below the number of instance triples. *)
Record renamed (g : graph) : Prop := {
  rn_instances : forall k t, nth_error (instances g) k = Some t -> (t_node t <= k)%nat;
  rn_attributes : forall a, In a (attributes g) ->
                            (t_node a < List.length (instances g))%nat;
  rn_relations : forall r, In r (relations g) ->
                           (r_src r < List.length (instances g))%nat /\
                           (r_dst r < List.length (instances g))%nat
}.

Lemma renamed_instance (g : graph) (t : triple) :
  renamed g -> In t (instances g) -> (t_node t < List.length (instances g))%nat.
Proof.
  intros Hr Hin. apply In_nth_error in Hin as [k Hk].
  pose proof (rn_instances g Hr k t Hk).
  assert (k < List.length (instances g))%nat by (apply nth_error_Some; congruence).
  lia.
Qed.

(** Every candidate is a node of AMR 2. *)
Definition cands_below (len : nat) (C : list pyset) : Prop :=
  forall row j, In row C -> In j row -> (0 <= j < Z.of_nat len)%Z.

Lemma replace_nth_In {A} (l : list A) (i : nat) (a x : A) :
  In x (replace_nth l i a) -> x = a \/ In x l.
Proof.
  revert i. induction l as [|y l IH]; intros [|i]; simpl; auto.
  - intros [->|H]; auto.
  - intros [->|H]; auto. destruct (IH i H); auto.
Qed.

Lemma cand_add_below (len : nat) (C C' : list pyset) (i j : nat) :
  cands_below len C -> (j < len)%nat ->
  cand_add C (Z.of_nat i) (Z.of_nat j) = Ok C' -> cands_below len C'.
Proof.
  intros Hb Hj Hc. apply cand_add_Ok in Hc as (_ & _ & s & Hs & ->).
  intros row x Hrow Hx. apply replace_nth_In in Hrow as [->|Hrow]; [|eauto].
  unfold set_add in Hx. destruct (set_mem (Z.of_nat j) s).
  - eapply Hb; eauto. eapply nth_error_In; eauto.
  - apply in_app_or in Hx as [Hx|[<-|[]]]; [|lia].
    eapply Hb; eauto. eapply nth_error_In; eauto.
Qed.

Lemma compute_pool_below (vectors : vecs_t) (cutoff diffsense : Q)
    (simfun : option simfun_t) (mwp weighting_scheme : string) (g1 g2 : graph)
    (C : list pyset) (W : weight_dict_t) :
  renamed g2 ->
  compute_pool vectors cutoff diffsense simfun mwp weighting_scheme
               (instances g1) (attributes g1) (relations g1)
               (instances g2) (attributes g2) (relations g2) = Ok (C, W) ->
  cands_below (List.length (instances g2)) C.
Proof.
  intros Hr H. apply compute_pool_inv in H as (_ & st1 & st2 & sd & H1 & H2 & H3).
  set (len := List.length (instances g2)).
  set (P := fun st : pool_state => cands_below len (fst (fst st))).
  assert (P1 : P st1).
  { revert H1. apply (foldM_inv P).
    - intros [[Cs Ws] sds] t1 s' _ Hs. unfold instance_loop.
      apply (foldM_inv P).
      + intros [[Ca Wa] sda] t2 sb Hin Ha Hb.
        apply instance_body_inv in Hb
          as [[_ ->]|[_ (s & sd' & C' & W' & _ & HC & _ & ->)]]; [exact Ha|].
        unfold P in *. cbn [fst] in *.
        eapply cand_add_below; [exact Ha| |exact HC].
        now apply renamed_instance.
      + unfold P in *. cbn [fst] in *. intros row j Hrow Hj.
        apply in_app_or in Hrow as [Hrow|[<-|[]]]; [eauto|destruct Hj].
    - intros row j []. }
  assert (P2 : P st2).
  { revert H2. apply (foldM_inv P); [|exact P1].
    intros s x1 s' _ Hs. unfold attribute_loop. apply (foldM_inv P); [|exact Hs].
    intros [[Ca Wa] sda] x2 sb Hin Ha Hb.
    apply attribute_body_inv in Hb. cbv zeta in Hb.
    destruct Hb as [[_ (C' & W' & HC & _ & ->)]
                   |[(_ & _ & s0 & sd' & C' & W' & _ & HC & _ & ->)|(_ & _ & ->)]];
      [| |exact Ha]; unfold P in *; cbn [fst] in *;
      (eapply cand_add_below; [exact Ha| |exact HC]);
      now apply (rn_attributes g2 Hr). }
  change (P (C, W, sd)). revert H3. apply (foldM_inv P); [|exact P2].
  intros s x1 s' _ Hs. unfold relation_loop. apply (foldM_inv P); [|exact Hs].
  intros [[Ca Wa] sda] x2 sb Hin Ha Hb.
  destruct (rn_relations g2 Hr x2 Hin) as [Hsrc Hdst].
  apply relation_body_inv in Hb as [[_ ->]|[_ (C1 & C' & HC1 & HC2 & Hcase)]];
    [exact Ha|].
  assert (Hc : cands_below len C').
  { eapply cand_add_below; [|exact Hdst|exact HC2].
    eapply cand_add_below; [exact Ha|exact Hsrc|exact HC1]. }
  destruct Hcase as [[_ ->]|[_ (W' & _ & ->)]]; exact Hc.
Qed.

Section ScoreLower.
Variable vectors : vecs_t.
Variables cutoff diffsense : Q.
Variable f : simfun_t.
Variable mwp : string.
Variable weighting_scheme : string.
Hypothesis f_range : forall a b, 0 <= f a b /\ f a b <= 1.
Hypothesis diffsense_range : 0 <= diffsense /\ diffsense <= 1.
Variable M : list Z.

Lemma weighted_nonneg (s : Q) : 0 <= s -> 0 <= weighted weighting_scheme s.
Proof.
  intros H. unfold weighted.
  destruct (weighting_scheme =s "concept"); [lra|].
  destruct (weighting_scheme =s "structure"); lra.
Qed.

Lemma add_self_lower (W W' : weight_dict_t) (p : node_pair) (x : Q) :
  0 <= x -> add_self W p x = Ok W' -> spec_score W M <= spec_score W' M.
Proof.
  intros H0 Ha. rewrite (spec_score_add_self W W' M p x).
  - rewrite count_in_hits. destruct (hits M p); lra.
  - intros q. now apply add_self_self_score.
  - intros a b. eapply add_self_rel_score; eauto.
Qed.

Lemma add_rel_lower (W : weight_dict_t) (p1 p2 : node_pair) :
  spec_score W M <= spec_score (add_rel (add_rel W p1 p2) p2 p1) M.
Proof.
  rewrite (spec_score_add_rel W (add_rel (add_rel W p1 p2) p2 p1) M p1 p2).
  - rewrite !count_pair_hits.
    destruct (hits M p1 && hits M p2 && (fst p1 <? fst p2)%Z),
             (hits M p2 && hits M p1 && (fst p2 <? fst p1)%Z); lra.
  - intros q. transitivity (self_score (add_rel W p1 p2) q); apply add_rel_self_score.
  - intros a b. apply add_rel_both_rel_score.
Qed.

(** No mapping has a negative score on the pool. *)
Lemma compute_pool_nonneg (i1 a1 : list triple) (r1 : list rtriple)
    (i2 a2 : list triple) (r2 : list rtriple) (C : list pyset) (W : weight_dict_t) :
  compute_pool vectors cutoff diffsense (Some f) mwp weighting_scheme
               i1 a1 r1 i2 a2 r2 = Ok (C, W) ->
  0 <= spec_score W M.
Proof.
  intros H. apply compute_pool_inv in H as (_ & st1 & st2 & sd & H1 & H2 & H3).
  set (P := fun st : pool_state =>
              sd_bounded (snd st) /\ 0 <= spec_score (snd (fst st)) M).
  assert (P1 : P st1).
  { revert H1. apply (foldM_inv P).
    - intros [[Cs Ws] sds] t1 s' _ Hs. unfold instance_loop.
      apply (foldM_inv P); [|exact Hs].
      intros [[Ca Wa] sda] t2 sb _ [Hb Hp] Hbody.
      apply instance_body_inv in Hbody
        as [[_ ->]|[_ (s & sd' & C' & W' & Hs' & _ & HW & ->)]]; [split; assumption|].
      unfold P. cbn [fst snd] in *.
      destruct (sim_step vectors cutoff diffsense f mwp f_range diffsense_range
                  _ _ _ _ _ Hb Hs') as (H0 & _ & Hb').
      split; [exact Hb'|].
      apply add_self_lower in HW; [lra|]. now apply weighted_nonneg.
    - split; [intros k v; discriminate|].
      unfold spec_score. cbn [fst snd].
      rewrite Qsum_map_zero, Qsum_map_zero; [lra| |]; reflexivity. }
  assert (P2 : P st2).
  { revert H2. apply (foldM_inv P); [|exact P1].
    intros s x1 s' _ Hs. unfold attribute_loop. apply (foldM_inv P); [|exact Hs].
    intros [[Ca Wa] sda] x2 sb _ [Hb Hp] Hbody.
    apply attribute_body_inv in Hbody. cbv zeta in Hbody. cbn [fst snd] in *.
    destruct Hbody as [[_ (C' & W' & _ & HW & ->)]
                      |[(_ & _ & s0 & sd' & C' & W' & Hs' & _ & HW & ->)|(_ & _ & ->)]];
      unfold P; cbn [fst snd].
    - split; [exact Hb|]. apply add_self_lower in HW; lra.
    - destruct (sim_step vectors cutoff diffsense f mwp f_range diffsense_range
                  _ _ _ _ _ Hb Hs') as (H0 & _ & Hb').
      split; [exact Hb'|]. apply add_self_lower in HW; lra.
    - split; assumption. }
  assert (P3 : 0 <= spec_score (snd (fst (C, W, sd))) M).
  { revert H3. apply (foldM_inv (fun st : pool_state =>
                                   0 <= spec_score (snd (fst st)) M));
      [|exact (proj2 P2)].
    intros s x1 s' _ Hs. unfold relation_loop.
    apply (foldM_inv (fun st : pool_state => 0 <= spec_score (snd (fst st)) M));
      [|exact Hs].
    intros [[Ca Wa] sda] x2 sb _ Hp Hbody. cbn [fst snd] in *.
    apply relation_body_inv in Hbody as [[_ ->]|[_ (C1 & C' & _ & _ & Hcase)]];
      [exact Hp|].
    destruct Hcase as [[_ ->]|[_ (W' & HW & ->)]]; cbn [fst snd].
    - pose proof (add_rel_lower Wa (rel_pair1 x1 x2) (rel_pair2 x1 x2)). lra.
    - apply add_self_lower in HW; lra. }
  exact P3.
Qed.

Hypothesis not_concept : weighting_scheme <> "concept".

(** No mapping scores above the number of triples of AMR 1 when the
    triples of AMR 2 are distinct. *)
Lemma pool_score_rows (g1 g2 : graph) (C : list pyset) (W : weight_dict_t) :
  distinct_triples g2 ->
  compute_pool vectors cutoff diffsense (Some f) mwp weighting_scheme
               (instances g1) (attributes g1) (relations g1)
               (instances g2) (attributes g2) (relations g2) = Ok (C, W) ->
  spec_score W M <= inject_Z (triple_num g1).
Proof.
  intros Hd2 Hp.
  pose proof (compute_pool_upper vectors cutoff diffsense f mwp weighting_scheme
                f_range diffsense_range not_concept M _ _ _ _ _ _ _ _ Hp) as Hu.
  pose proof (rows_bound (up_I M) (instances g1) (instances g2)
                (fun t1 => up_I_rows M g2 t1 Hd2)).
  pose proof (rows_bound (up_A M) (attributes g1) (attributes g2)
                (fun x1 => up_A_rows M g2 x1 Hd2)).
  pose proof (rows_bound (d_R M) (relations g1) (relations g2)
                (fun x1 => d_R_rows M g2 x1 Hd2)).
  unfold triple_num. rewrite !Nat2Z.inj_add, !inject_Z_plus.
  eapply Qle_trans; [exact Hu|].
  apply Qplus_le_compat; [apply Qplus_le_compat|]; assumption.
Qed.
End ScoreLower.

Lemma index_total {A} (l : list A) (k : Z) :
  (0 <= k < Z.of_nat (List.length l))%Z ->
  exists a, index l k = Ok a /\ nth_error l (Z.to_nat k) = Some a.
Proof.
  intros Hk. destruct (nth_error l (Z.to_nat k)) as [a|] eqn:E.
  - exists a. split; [|reflexivity]. rewrite <- (Z2Nat.id k) by lia.
    now apply index_nat_Ok.
  - apply nth_error_None in E. lia.
Qed.

Lemma first_concept_match_total (value1 : string) (instance2 : list triple)
    (matched : matched_t) (candidates : list Z) :
  (forall c, In c candidates -> (0 <= c < Z.of_nat (List.length instance2))%Z) ->
  exists found, first_concept_match value1 instance2 matched candidates = Ok found.
Proof.
  induction candidates as [|c cs IH]; intros Hc; cbn [first_concept_match]; [eauto|].
  destruct (index_total instance2 c (Hc c (or_introl eq_refl))) as (t2 & -> & _).
  cbn [bind]. destruct (_ && _); [eauto|].
  apply IH. intros x Hx. apply Hc. now right.
Qed.

Lemma assign_total {A} (l : list A) (k : Z) (a : A) :
  (0 <= k < Z.of_nat (List.length l))%Z ->
  exists l', assign l k a = Ok l' /\ List.length l' = List.length l.
Proof.
  intros Hk. exists (replace_nth l (Z.to_nat k) a).
  split; [|apply replace_nth_length].
  rewrite <- (Z2Nat.id k) at 1 by lia. apply assign_nat_Ok. split; [lia|reflexivity].
Qed.

(** On candidates that are nodes of AMR 2, and with an instance triple
    of AMR 1 for every entry of the candidate list, the smart
    initialisation raises nothing. *)
Lemma smart_init_total (C : list pyset) (instance1 instance2 : list triple)
    (rnd : list nat) :
  (List.length C <= List.length instance1)%nat ->
  cands_below (List.length instance2) C ->
  exists M rnd',
    smart_init_mapping C instance1 instance2 rnd = Ok (M, rnd') /\
    List.length M = List.length C.
Proof.
  intros Hlen Hb. unfold smart_init_mapping.
  destruct (foldM_steps
              (fun k (st : smart_state) =>
                 List.length (fst (fst st)) = k /\
                 forall i, In i (snd st) -> (0 <= i < Z.of_nat k)%Z)
              (smart_first_pass instance1 instance2) (enumerate C))
    with (s := ([], [], []) : smart_state)
    as ([[result matched] nwm] & H1 & (L1 & N1)).
  - intros k [[res m] nw] [i cands] Hn (Il & In'). cbn [fst snd] in *.
    apply nth_error_enumerate_inv in Hn as [-> Hc].
    assert (Hk : (k < List.length C)%nat) by (apply nth_error_Some; congruence).
    unfold smart_first_pass. destruct cands as [|c0 cs].
    + eexists. split; [reflexivity|]. cbn [fst snd]. rewrite length_app, Il.
      split; [simpl; lia|]. intros i Hi. specialize (In' i Hi). lia.
    + destruct (index_total instance1 (Z.of_nat k)) as (t1 & -> & _); [lia|].
      cbn [bind].
      destruct (first_concept_match_total (t_value t1) instance2 m (c0 :: cs))
        as (found & ->).
      { intros c Hin. apply (Hb (c0 :: cs)); [|exact Hin].
        eapply nth_error_In; eauto. }
      cbn [bind]. destruct found as [x|]; eexists; (split; [reflexivity|]);
        cbn [fst snd]; rewrite length_app, Il; (split; [simpl; lia|]).
      * intros i Hi. specialize (In' i Hi). lia.
      * intros i Hi. apply in_app_or in Hi as [Hi|[<-|[]]]; [|lia].
        specialize (In' i Hi). lia.
  - cbn [fst snd]. split; [reflexivity|]. intros i [].
  - rewrite H1. cbn [bind]. cbn [fst snd] in *.
    unfold enumerate in L1, N1. rewrite enumerate_from_length in L1, N1.
    destruct (foldM_total
                (fun st : list Z * matched_t * list nat =>
                   List.length (fst (fst st)) = List.length C)
                (smart_second_pass C) nwm) with (s := (result, matched, rnd))
      as ([[result' matched'] rnd'] & H2 & L2).
    + intros [[res m] r] i Hi Hl. cbn [fst snd] in *. specialize (N1 i Hi).
      unfold smart_second_pass.
      destruct (index_total C i N1) as (cands & -> & _). cbn [bind].
      destruct (random_pick _ _ _ _) as [[c|] r'].
      * destruct (assign_total res i c) as (res' & -> & Hl'); [lia|].
        cbn [bind]. eexists. split; [reflexivity|]. cbn [fst snd]. congruence.
      * eexists. split; [reflexivity|exact Hl].
    + exact L1.
    + rewrite H2. cbn [bind]. exists result', rnd'. split; [reflexivity|exact L2].
Qed.

Section SearchTotal.
Variable n : nat.
Variable W : weight_dict_t.
Hypothesis W_wf : wf_W n W.
Variable C : list pyset.
Hypothesis C_len : List.length C = n.
Variable T : Q.
Hypothesis score_range :
  forall M, List.length M = n -> 0 <= spec_score W M /\ spec_score W M <= T.
Variable fuel : nat.
Hypothesis fuel_enough : T < inject_Z (Z.of_nat fuel) * epsilon.
Variables instance1 instance2 : list triple.
Hypothesis instance1_len : (n <= List.length instance1)%nat.
Hypothesis C_below : cands_below (List.length instance2) C.

(** The memo holds scores and the best match number is in range. *)
Definition search_ready (st : search_state) : Prop :=
  memo_ok n W (snd (fst st)) /\
  0 <= snd (fst (fst st)) /\ snd (fst (fst st)) <= T.

Lemma restart_total (st : search_state) (i : nat) :
  search_ready st ->
  exists st', restart fuel instance1 instance2 C W st i = Ok st' /\ search_ready st'.
Proof.
  destruct st as [[[bm bmn] memo] rnd]. intros (Hmemo & H0 & Hle). cbn [fst snd] in *.
  unfold restart.
  assert (Hstart : exists M0 rnd1,
             (if (i =? 0)%nat
              then smart_init_mapping C instance1 instance2 rnd
              else Ok (random_init_mapping C rnd)) = Ok (M0, rnd1) /\
             List.length M0 = n).
  { destruct (i =? 0)%nat.
    - destruct (smart_init_total C instance1 instance2 rnd) as (M0 & rnd1 & Hs & Hl);
        [lia|exact C_below|].
      exists M0, rnd1. split; [exact Hs|congruence].
    - destruct (random_init_mapping C rnd) as [M0 rnd1] eqn:E.
      exists M0, rnd1. split; [reflexivity|].
      pose proof (random_init_length C rnd) as Hl. rewrite E in Hl. simpl in Hl. lia. }
  destruct Hstart as (M0 & rnd1 & -> & Hlen). cbn [bind].
  destruct (restart_from n W W_wf C C_len (List.length instance2) T score_range
              fuel fuel_enough instance2 eq_refl M0 bm bmn memo rnd1 Hlen Hmemo Hle)
    as (bm' & bmn' & memo' & Hr & Hmemo' & H1 & _ & H3).
  rewrite Hr. eexists. split; [reflexivity|].
  unfold search_ready. cbn [fst snd]. split; [exact Hmemo'|]. split; lra.
Qed.
End SearchTotal.



(* ------------------------------------------------------------------ *)
(** ** A mapping without mapped nodes *)

Lemma match_loop_unmapped (M : list Z) (W : weight_dict_t) (k : nat) (a : Z) (acc : Q) :
  foldM (match_node M W) (enumerate_from a (repeat (-1)%Z k)) acc = Ok acc.
Proof.
  revert a. induction k as [|k IH]; intros a; [reflexivity|].
  cbn [repeat enumerate_from foldM]. unfold match_node at 1.
  change ((-1 =? -1)%Z) with true. cbn [bind]. apply IH.
Qed.

(** X25.  For the mapping that maps no node, [compute_match] answers
    [0] on every weight dictionary, and stores that answer. *)
Theorem compute_match_unmapped (W : weight_dict_t) (k : nat) (memo : memo_t) :
  dget memo (repeat (-1)%Z k) = None ->
  compute_match (repeat (-1)%Z k) W memo
  = Ok (0, dset memo (repeat (-1)%Z k) 0).
Proof.
  intros Hmiss. unfold compute_match, enumerate. rewrite Hmiss.
  now rewrite match_loop_unmapped.
Qed.

Lemma compute_match_unmapped_witness :
  compute_match (repeat (-1)%Z 2) (snd hit_boy_pool) []
  = Ok (0, dset [] (repeat (-1)%Z 2) 0).
Proof. apply (compute_match_unmapped (snd hit_boy_pool) 2 []). reflexivity. Defined.

(* ------------------------------------------------------------------ *)
(** ** Two senses of one predicate *)

Lemma split_on_nonempty (sep : ascii) (s : string) : split_on sep s <> [].
Proof.
  destruct s as [|c s]; simpl; [discriminate|].
  destruct (Ascii.eqb c sep); [discriminate|].
  destruct (split_on sep s); discriminate.
Qed.

Lemma split_on_app (sep : ascii) (b s : string) :
  split_on sep (b ++ String sep s) = (split_on sep b ++ split_on sep s)%list.
Proof.
  induction b as [|c b IH]; simpl.
  - now rewrite Ascii.eqb_refl.
  - destruct (Ascii.eqb c sep); [now rewrite IH|].
    rewrite IH. pose proof (split_on_nonempty sep b).
    destruct (split_on sep b) as [|w ws]; [contradiction|reflexivity].
Qed.

Lemma join_split_on (sep : ascii) (s : string) :
  join (String sep EmptyString) (split_on sep s) = s.
Proof.
  induction s as [|c s IH]; [reflexivity|]. cbn [split_on].
  pose proof (split_on_nonempty sep s) as Hne.
  destruct (Ascii.eqb_spec c sep) as [->|_].
  - destruct (split_on sep s) as [|w ws]; [contradiction|].
    change (join (String sep EmptyString) (EmptyString :: w :: ws))
      with (EmptyString ++ String sep EmptyString
            ++ join (String sep EmptyString) (w :: ws))%string.
    rewrite IH. reflexivity.
  - destruct (split_on sep s) as [|w ws]; [contradiction|].
    destruct ws as [|w' ws].
    + simpl in *. now rewrite IH.
    + change (join (String sep EmptyString) (String c w :: w' :: ws))
        with (String c (w ++ String sep EmptyString
                        ++ join (String sep EmptyString) (w' :: ws)))%string.
      change (join (String sep EmptyString) (w :: w' :: ws))
        with (w ++ String sep EmptyString
              ++ join (String sep EmptyString) (w' :: ws))%string in IH.
      now rewrite IH.
Qed.

Lemma contains_app_sep (sep : ascii) (b s : string) :
  contains sep (b ++ String sep s) = true.
Proof.
  induction b as [|c b IH]; simpl; [now rewrite Ascii.eqb_refl|].
  rewrite IH. apply orb_true_r.
Qed.

Lemma digit_after_base (b rest : string) (d : ascii) :
  contains "010"%char b = false -> is_digit d = true ->
  digit_on_first_line (b ++ String "-" (String d rest)) = true.
Proof.
  intros Hb Hd. induction b as [|c b IH]; cbn [append digit_on_first_line].
  - rewrite Hd. apply orb_true_r.
  - cbn [contains] in Hb. apply orb_false_iff in Hb as [Hc Hb].
    rewrite (IH Hb), andb_true_r. unfold dot.
    rewrite Ascii.eqb_sym, Hc. apply orb_true_r.
Qed.

(** A sense suffix: digits first, and no hyphen. *)
Definition sense_suffix (s : string) : Prop :=
  contains "-" s = false /\
  exists d rest, s = String d rest /\ is_digit d = true.

Lemma wo_sense_predicate (base sense : string) :
  contains "010"%char base = false -> sense_suffix sense ->
  wo_sense (base ++ String "-" sense) = Some base.
Proof.
  intros Hb [Hh (d & rest & -> & Hd)]. unfold wo_sense.
  rewrite contains_app_sep, re_match_sense_pattern, (digit_after_base _ _ _ Hb Hd).
  cbn [andb]. rewrite split_on_app, (split_on_no_sep _ _ Hh), removelast_last.
  now rewrite join_split_on.
Qed.

Lemma append_longer (b s : string) : (b ++ String "-" s)%string <> b.
Proof.
  induction b as [|c b IH]; cbn [append]; [discriminate|].
  intros [= H]. contradiction.
Qed.

Lemma append_inj_r (b s1 s2 : string) : (b ++ s1 = b ++ s2)%string -> s1 = s2.
Proof. induction b as [|c b IH]; simpl; [auto|]. intros [= H]. auto. Qed.

(** X26.  The sense rule on the labels it is written for: a label
    [base-s], where [base] is not empty and on one line and the sense
    [s] starts with a digit and holds no hyphen, is stripped to
    [base]; two different senses of one [base], and a sense of
    [base] against [base] itself in either order, score the sense
    discount, whatever the vectors and the similarity function. *)
Theorem maybe_sim_sense_rule (base s1 s2 : string) (vecs : vecs_t)
    (cutoff diffsense : Q) (simfun : option simfun_t) (mwp : string) :
  base <> EmptyString -> contains "010"%char base = false ->
  sense_suffix s1 -> sense_suffix s2 -> s1 <> s2 ->
  wo_sense (base ++ String "-" s1) = Some base /\
  maybe_sim (base ++ String "-" s1) (base ++ String "-" s2)
            vecs cutoff diffsense simfun mwp = Ok (1 * diffsense) /\
  maybe_sim (base ++ String "-" s1) base vecs cutoff diffsense simfun mwp
    = Ok (1 * diffsense) /\
  maybe_sim base (base ++ String "-" s1) vecs cutoff diffsense simfun mwp
    = Ok (1 * diffsense).
Proof.
  intros Hne Hb H1 H2 Hs.
  pose proof (wo_sense_predicate base s1 Hb H1) as W1.
  pose proof (wo_sense_predicate base s2 Hb H2) as W2.
  assert (Ht : truthy (Some base) = true) by (destruct base; [contradiction|reflexivity]).
  split; [exact W1|]. split; [|split]; unfold maybe_sim.
  - destruct (String.eqb_spec (base ++ String "-" s1) (base ++ String "-" s2)) as [E|_].
    { apply append_inj_r in E. injection E as E. contradiction. }
    rewrite W1, W2, Ht. cbn [str_of andb]. now rewrite String.eqb_refl.
  - destruct (String.eqb_spec (base ++ String "-" s1) base) as [E|_].
    { now apply append_longer in E. }
    rewrite W1, Ht. cbn [str_of andb]. rewrite String.eqb_refl.
    now destruct (truthy (wo_sense base) && (base =s str_of (wo_sense base))).
  - destruct (String.eqb_spec base (base ++ String "-" s1)) as [E|_].
    { symmetry in E. now apply append_longer in E. }
    rewrite W1, Ht. cbn [str_of andb]. rewrite String.eqb_refl.
    destruct (truthy (wo_sense base) && true && (str_of (wo_sense base) =s base));
      [reflexivity|].
    now destruct (truthy (wo_sense base)
                  && (str_of (wo_sense base) =s (base ++ String "-" s1)%string)).
Qed.

Lemma maybe_sim_sense_rule_witness :
  wo_sense ("hit" ++ String "-" "01") = Some "hit" /\
  maybe_sim ("hit" ++ String "-" "01") ("hit" ++ String "-" "02")
            foo_bar_vecs (1 # 2) (3 # 10) None "split" = Ok (1 * (3 # 10)) /\
  maybe_sim ("hit" ++ String "-" "01") "hit" foo_bar_vecs (1 # 2) (3 # 10) None "split"
    = Ok (1 * (3 # 10)) /\
  maybe_sim "hit" ("hit" ++ String "-" "01") foo_bar_vecs (1 # 2) (3 # 10) None "split"
    = Ok (1 * (3 # 10)).
Proof.
  apply (maybe_sim_sense_rule "hit" "01" "02" foo_bar_vecs (1 # 2) (3 # 10) None "split").
  - discriminate.
  - reflexivity.
  - split; [reflexivity|]. exists "0"%char, "1". split; reflexivity.
  - split; [reflexivity|]. exists "0"%char, "2". split; reflexivity.
  - discriminate.
Defined.
